(** * Relay response normalizer: a shallow embedding and its properties

    Source: packages/relay-runtime/store/RelayResponseNormalizer.js

    The normalizer walks a pre-compiled selection tree against a JSON
    response and writes flat records into a mutable record source.  The
    embedding keeps the shape of the class: the mutable members of
    [RelayResponseNormalizer] become a state record threaded through a
    state-and-exception monad, [invariant] becomes a thrown [Error], and
    [warning] becomes an entry in a list of diagnostics.  Response
    objects are JavaScript objects: what they do not have themselves
    they inherit from [Object.prototype] and [Array.prototype]. *)

From Stdlib Require Import ZArith.
From stdpp Require Import gmap strings list fin_maps pretty.

Open Scope string_scope.
Open Scope list_scope.
#[local] Set Warnings "-register-all".

(** ** JSON-like values *)

(** Response payloads and variable bindings are JSON-like trees.  A
    property that an object neither has nor inherits reads as
    JavaScript's [undefined]; that is the [None] of [js_get].  Numbers
    are only ever tested for being zero by this code, so integers stand
    for them.  [JFunction] is a built-in function of the host, named by
    where the host keeps it: the walker can come by one when it reads an
    inherited property, and never calls it. *)
Inductive JSValue : Type :=
| JNull
| JBool (b : bool)
| JNum (n : Z)
| JStr (s : string)
| JArr (items : list JSValue)
| JObj (props : list (string * JSValue))
| JFunction (name : string).

Abbreviation DataID := string.
Abbreviation Variables := (gmap string JSValue).

(** ToBoolean, as used by [||], [&&] and [!]. *)
Definition truthy (v : JSValue) : bool :=
  match v with
  | JNull => false
  | JBool b => b
  | JNum n => negb (n =? 0)%Z
  | JStr s => negb (String.eqb s "")
  | JArr _ | JObj _ | JFunction _ => true
  end.

(** [typeof v === 'object' && v]: arrays are objects too, functions are
    not. *)
Definition is_object (v : JSValue) : bool :=
  match v with
  | JArr _ | JObj _ => true
  | _ => false
  end.

(** [Array.isArray(v)] *)
Definition is_array (v : JSValue) : bool :=
  match v with
  | JArr _ => true
  | _ => false
  end.

Fixpoint assoc_get (k : string) (props : list (string * JSValue)) : option JSValue :=
  match props with
  | [] => None
  | (k', v) :: rest => if String.eqb k k' then Some v else assoc_get k rest
  end.

(** The own property [k] of [v].  An array has ["length"] and the
    canonical decimal spellings of its indices. *)
Definition own_get (v : JSValue) (k : string) : option JSValue :=
  match v with
  | JObj props => assoc_get k props
  | JArr items =>
      if String.eqb k "length" then Some (JNum (Z.of_nat (length items)))
      else match list_find (λ i : nat, pretty i = k) (seq 0 (length items)) with
           | Some (_, i) => items !! i
           | None => None
           end
  | _ => None
  end.

(** [Object.prototype.hasOwnProperty.call(v, k)] *)
Definition has_own (v : JSValue) (k : string) : bool :=
  bool_decide (is_Some (own_get v k)).

(** The methods of [Object.prototype] and of [Array.prototype], by name
    (ECMAScript 2023, Annex B included). *)
Definition Object_prototype_methods : list string :=
  ["constructor"; "__defineGetter__"; "__defineSetter__"; "hasOwnProperty";
   "__lookupGetter__"; "__lookupSetter__"; "isPrototypeOf"; "propertyIsEnumerable";
   "toString"; "valueOf"; "toLocaleString"].

Definition Array_prototype_methods : list string :=
  ["at"; "concat"; "constructor"; "copyWithin"; "entries"; "every"; "fill"; "filter";
   "find"; "findIndex"; "findLast"; "findLastIndex"; "flat"; "flatMap"; "forEach";
   "includes"; "indexOf"; "join"; "keys"; "lastIndexOf"; "map"; "pop"; "push"; "reduce";
   "reduceRight"; "reverse"; "shift"; "slice"; "some"; "sort"; "splice";
   "toLocaleString"; "toReversed"; "toSorted"; "toSpliced"; "toString"; "unshift";
   "values"; "with"].

(** The method [k] of the prototype of [owner]: [constructor] is
    [owner] itself. *)
Definition method (owner k : string) : JSValue :=
  if String.eqb k "constructor" then JFunction owner
  else JFunction (owner ++ ".prototype." ++ k).

Definition method_of (owner : string) (methods : list string) (k : string)
  : option JSValue :=
  if bool_decide (k ∈ methods) then Some (method owner k) else None.

(** [Object.prototype] as a value: an object that has the methods
    itself, and whose [__proto__] is null. *)
Definition Object_prototype : JSValue :=
  JObj (("__proto__", JNull) :: map (λ k, (k, method "Object" k)) Object_prototype_methods).

(** [Array.prototype] as a value: it is an array, of length 0.  (Only
    its own [__proto__] tells it from an empty array; that is not
    followed further here.) *)
Definition Array_prototype : JSValue := JArr [].

(** What every plain object inherits under [k]: the prototype itself
    under [__proto__], or one of its methods. *)
Definition Object_inherited (k : string) : option JSValue :=
  if String.eqb k "__proto__" then Some Object_prototype
  else method_of "Object" Object_prototype_methods k.

(** What every array inherits under [k]: from [Array.prototype] first,
    then from [Object.prototype]. *)
Definition Array_inherited (k : string) : option JSValue :=
  if String.eqb k "__proto__" then Some Array_prototype
  else match method_of "Array" Array_prototype_methods k with
       | Some f => Some f
       | None => method_of "Object" Object_prototype_methods k
       end.

(** The property read [v[k]]: an own property, or else an inherited
    one.  The walker reads properties of objects and arrays only. *)
Definition js_get (v : JSValue) (k : string) : option JSValue :=
  match own_get v k with
  | Some x => Some x
  | None =>
      match v with
      | JObj _ => Object_inherited k
      | JArr _ => Array_inherited k
      | _ => None
      end
  end.

(** [===] on two response values.  Primitives compare by value; for
    objects and arrays JavaScript compares references, which a tree of
    values does not have, so they compare by structure here. *)
Fixpoint js_strict_eq (a b : JSValue) {struct a} : bool :=
  match a, b with
  | JNull, JNull => true
  | JBool x, JBool y => Bool.eqb x y
  | JNum x, JNum y => (x =? y)%Z
  | JStr x, JStr y => String.eqb x y
  | JArr xs, JArr ys =>
      (fix go (xs ys : list JSValue) : bool :=
         match xs, ys with
         | [], [] => true
         | x :: xs', y :: ys' => js_strict_eq x y && go xs' ys'
         | _, _ => false
         end) xs ys
  | JObj ps, JObj qs =>
      (fix go (ps qs : list (string * JSValue)) : bool :=
         match ps, qs with
         | [], [] => true
         | (k, x) :: ps', (k', y) :: qs' =>
             String.eqb k k' && js_strict_eq x y && go ps' qs'
         | _, _ => false
         end) ps qs
  | JFunction f, JFunction g => String.eqb f g
  | _, _ => false
  end.

(** [a || b] on optional strings ([?string]): the first operand wins
    when it is a non-empty string. *)
Definition str_or (a : option string) (b : string) : string :=
  match a with
  | Some s => if String.eqb s "" then b else s
  | None => b
  end.

(** ** Records and the record accessor *)

(** What one storage key of a record holds. *)
Inductive FieldValue : Type :=
| FScalar (v : JSValue)
| FLink (id : DataID)
| FLinks (ids : list (option DataID)).

(** Modelled from the spec: the record type of RelayModernRecord, which
    is not among the sources.  A record is "a named, typed bag of fields
    keyed by storage key; fields hold scalars, a single linked identity,
    or an ordered list of linked identities (list entries may be
    absent/null).  Every record carries its identity and a runtime type
    tag."  [rec_type] is the type the record was created with, and
    [rec_fields] what the setters have put under storage keys since.
    The accessor keeps the type tag under the storage key [__typename]:
    what a setter puts under that key is the record's type from then
    on (see [slot] and [getType]).  The identity is taken to be fixed:
    the accessor keeps it under the storage key [__id], which no
    selection is expected to write. *)
Record RelayRecord : Type := mkRecord {
  rec_id : DataID;
  rec_type : JSValue;
  rec_fields : gmap string FieldValue
}.

(** The JavaScript value that a record holds for a field value: a
    scalar as it is, an identity as [{__ref: id}], a list of identities
    as [{__refs: [...]}]. *)
Definition js_of (v : FieldValue) : JSValue :=
  match v with
  | FScalar x => x
  | FLink id => JObj [("__ref", JStr id)]
  | FLinks ids => JObj [("__refs", JArr (map (from_option JStr JNull) ids))]
  end.

(** Result of a typed getter. *)
Inductive Access (A : Type) : Type :=
| Got (a : A)
| WrongShape.
Arguments Got {A} a.
Arguments WrongShape {A}.

Module RelayModernRecord.

(** The storage keys that hold a record's identity and its type: ID_KEY
    and TYPENAME_KEY of RelayStoreUtils. *)
Definition ID_KEY : string := "__id".
Definition TYPENAME_KEY : string := "__typename".

(** Modelled from the spec: RelayModernRecord.create, the record
    constructor [create(identity, typeName)]; no setter has been called
    on the new record. *)
Definition create (dataID : DataID) (typeName : JSValue) : RelayRecord :=
  mkRecord dataID typeName ∅.

(** Modelled from the spec: what a record holds under a storage key,
    [record[storageKey]].  A record is a plain JavaScript object: under
    [__typename] it holds the type it was created with until a setter
    puts something else there, under [__id] its identity, and what it
    does not hold itself it inherits like every object. *)
Definition slot (record : RelayRecord) (storageKey : string) : option FieldValue :=
  match rec_fields record !! storageKey with
  | Some v => Some v
  | None =>
      if String.eqb storageKey TYPENAME_KEY then Some (FScalar (rec_type record))
      else if String.eqb storageKey ID_KEY then Some (FScalar (JStr (rec_id record)))
      else FScalar <$> Object_inherited storageKey
  end.

(** Modelled from the spec: RelayModernRecord.getDataID, "get
    identity". *)
Definition getDataID (record : RelayRecord) : DataID := rec_id record.

(** Modelled from the spec: RelayModernRecord.getType, "get runtime
    type": what the record holds under [__typename]. *)
Definition getType (record : RelayRecord) : JSValue :=
  match rec_fields record !! TYPENAME_KEY with
  | Some v => js_of v
  | None => rec_type record
  end.

(** Modelled from the spec: RelayModernRecord.setValue, the typed set
    for scalar fields; it keeps the identity. *)
Definition setValue (record : RelayRecord) (storageKey : string) (value : JSValue)
  : RelayRecord :=
  mkRecord (rec_id record) (rec_type record)
           (<[storageKey := FScalar value]> (rec_fields record)).

(** Modelled from the spec: RelayModernRecord.getLinkedRecordID, the
    typed get for a single linked identity.  An unset or null field
    has no identity; a field of another shape is not a link. *)
Definition getLinkedRecordID (record : RelayRecord) (storageKey : string)
  : Access (option DataID) :=
  match slot record storageKey with
  | None => Got None
  | Some (FScalar JNull) => Got None
  | Some (FLink id) => Got (Some id)
  | Some _ => WrongShape
  end.

(** Modelled from the spec: RelayModernRecord.setLinkedRecordID, the
    set for a single linked identity. *)
Definition setLinkedRecordID (record : RelayRecord) (storageKey : string)
  (linkedID : DataID) : RelayRecord :=
  mkRecord (rec_id record) (rec_type record)
           (<[storageKey := FLink linkedID]> (rec_fields record)).

(** Modelled from the spec: RelayModernRecord.getLinkedRecordIDs, the
    typed get for an ordered list of linked identities (entries
    nullable). *)
Definition getLinkedRecordIDs (record : RelayRecord) (storageKey : string)
  : Access (option (list (option DataID))) :=
  match slot record storageKey with
  | None => Got None
  | Some (FScalar JNull) => Got None
  | Some (FLinks ids) => Got (Some ids)
  | Some _ => WrongShape
  end.

(** Modelled from the spec: RelayModernRecord.setLinkedRecordIDs, the
    set for an ordered list of linked identities. *)
Definition setLinkedRecordIDs (record : RelayRecord) (storageKey : string)
  (linkedIDs : list (option DataID)) : RelayRecord :=
  mkRecord (rec_id record) (rec_type record)
           (<[storageKey := FLinks linkedIDs]> (rec_fields record)).

End RelayModernRecord.

(** ** Selection trees (NormalizationNode) *)

Inductive Argument : Type :=
| LiteralArg (name : string) (value : JSValue)
| VariableArg (name : string) (variableName : string).

(** The attributes shared by scalar, linked and match fields. *)
Record FieldInfo : Type := mkField {
  alias : option string;
  name : string;
  args : option (list Argument);
  storageKey : option string
}.

Record HandleInfo : Type := mkHandle {
  h_alias : option string;
  h_name : string;
  h_args : option (list Argument);
  handle : string;
  h_key : string;
  h_filters : option (list string)
}.

Record MatchDescriptor : Type := mkMatch {
  fragmentPropName : string;
  fragmentName : string
}.

Inductive Selection : Type :=
| ScalarField (f : FieldInfo)
| LinkedField (f : FieldInfo) (concreteType : option string) (plural : bool)
              (selections : list Selection)
| Condition (passingValue : bool) (condition : string) (selections : list Selection)
| InlineFragment (type : string) (selections : list Selection)
| LinkedHandle (h : HandleInfo)
| ScalarHandle (h : HandleInfo)
| MatchField (f : FieldInfo) (matchesByType : gmap string MatchDescriptor)
| Defer (if_ : option string) (label : string) (selections : list Selection)
| Stream (if_ : option string) (label : string) (selections : list Selection)
| Fragment (fname : string) (selections : list Selection)
| FragmentSpread (fname : string)
| Operation (oname : string) (selections : list Selection).

(** [node.kind] *)
Definition kind (node : Selection) : string :=
  match node with
  | ScalarField _ => "ScalarField"
  | LinkedField _ _ _ _ => "LinkedField"
  | Condition _ _ _ => "Condition"
  | InlineFragment _ _ => "InlineFragment"
  | LinkedHandle _ => "LinkedHandle"
  | ScalarHandle _ => "ScalarHandle"
  | MatchField _ _ => "MatchField"
  | Defer _ _ _ => "Defer"
  | Stream _ _ _ => "Stream"
  | Fragment _ _ => "Fragment"
  | FragmentSpread _ => "FragmentSpread"
  | Operation _ _ => "Operation"
  end.

(** [node.selections] *)
Definition selections_of (node : Selection) : list Selection :=
  match node with
  | LinkedField _ _ _ sels
  | Condition _ _ sels
  | InlineFragment _ sels
  | Defer _ _ sels
  | Stream _ _ sels
  | Fragment _ sels
  | Operation _ sels => sels
  | _ => []
  end.

(** [parent.kind === LINKED_FIELD && parent.concreteType == null] *)
Definition abstract_link (parent : Selection) : bool :=
  match parent with
  | LinkedField _ None _ _ => true
  | _ => false
  end.

(** ** Output payloads *)

Record NormalizationSelector : Type := mkSelector {
  dataID : DataID;
  node : Selection;
  variables : Variables
}.

Inductive IncrementalKind : Type := KindDefer | KindStream.

Record IncrementalDataPayload : Type := mkIncremental {
  inc_kind : IncrementalKind;
  inc_label : string;
  inc_path : list string;
  inc_selector : NormalizationSelector
}.

Record HandleFieldPayload : Type := mkHandlePayload {
  hp_args : JSValue;
  hp_dataID : DataID;
  hp_fieldKey : string;
  hp_handle : string;
  hp_handleKey : string
}.

Record MatchFieldPayload : Type := mkMatchPayload {
  mp_operationReference : JSValue;
  mp_dataID : DataID;
  mp_data : JSValue;
  mp_typeName : JSValue;
  mp_variables : Variables
}.

Record NormalizedResponse : Type := mkResponse {
  incrementalPayloads : list IncrementalDataPayload;
  fieldPayloads : list HandleFieldPayload;
  matchPayloads : list MatchFieldPayload
}.

(** ** Errors and diagnostics *)

(** One constructor per [invariant] of the source, plus the accessor's
    type error, a record reference that is not in the store, and an
    exception of an imported function, which the walker lets pass. *)
Inductive Error : Type :=
| ErrMissingRoot (dataID : DataID)
| ErrUndefinedVariable (name : string)
| ErrMissingTypename (data : JSValue)
| ErrUnexpectedKind (kind : string)
| ErrUnexpectedFieldKind (kind : string)
| ErrDataNotObject (fieldName : string)
| ErrValueNotObject (storageKey : string)
| ErrValueNotArray (storageKey : string)
| ErrElementNotObject (storageKey : string)
| ErrIDNotString (storageKey : string)
| ErrElementIDNotString (storageKey : string)
| ErrAccessor (dataID : DataID) (storageKey : string)
| ErrNoRecord (dataID : DataID)
| ErrImported (message : string).

(** One constructor per [warning] of the source. *)
Inductive Diagnostic : Type :=
| WarnDeferIf (value : JSValue)
| WarnStreamIf (value : JSValue)
| WarnMissingField (responseKey storageKey : string)
| WarnConflictingTypes (dataID : DataID) (stored observed : JSValue).

(** ** Normalizer state *)

(** One call of a setter of the record accessor: which record, which
    storage key, what it holds afterwards. *)
Record FieldWrite : Type := mkWrite {
  w_record : DataID;
  w_key : string;
  w_value : FieldValue
}.

(** The mutable members of the class.  [_variables] and
    [_handleStrippedNulls] never change after construction and are
    parameters of the walker instead.  [diagnostics] collects what
    [warning] prints, [journal] the accessor's setter calls performed so
    far (latest first); neither is read by the walker. *)
Record NState : Type := mkState {
  _recordSource : gmap DataID RelayRecord;
  _path : list string;
  _incrementalPayloads : list IncrementalDataPayload;
  _handleFieldPayloads : list HandleFieldPayload;
  _matchFieldPayloads : list MatchFieldPayload;
  diagnostics : list Diagnostic;
  journal : list FieldWrite
}.

Definition with_source (src : gmap DataID RelayRecord) (s : NState) : NState :=
  mkState src (_path s) (_incrementalPayloads s) (_handleFieldPayloads s)
          (_matchFieldPayloads s) (diagnostics s) (journal s).

Definition with_path (p : list string) (s : NState) : NState :=
  mkState (_recordSource s) p (_incrementalPayloads s) (_handleFieldPayloads s)
          (_matchFieldPayloads s) (diagnostics s) (journal s).

Definition with_incremental (l : list IncrementalDataPayload) (s : NState) : NState :=
  mkState (_recordSource s) (_path s) l (_handleFieldPayloads s)
          (_matchFieldPayloads s) (diagnostics s) (journal s).

Definition with_handles (l : list HandleFieldPayload) (s : NState) : NState :=
  mkState (_recordSource s) (_path s) (_incrementalPayloads s) l
          (_matchFieldPayloads s) (diagnostics s) (journal s).

Definition with_matches (l : list MatchFieldPayload) (s : NState) : NState :=
  mkState (_recordSource s) (_path s) (_incrementalPayloads s)
          (_handleFieldPayloads s) l (diagnostics s) (journal s).

Definition with_diagnostics (l : list Diagnostic) (s : NState) : NState :=
  mkState (_recordSource s) (_path s) (_incrementalPayloads s)
          (_handleFieldPayloads s) (_matchFieldPayloads s) l (journal s).

Definition with_journal (l : list FieldWrite) (s : NState) : NState :=
  mkState (_recordSource s) (_path s) (_incrementalPayloads s)
          (_handleFieldPayloads s) (_matchFieldPayloads s) (diagnostics s) l.

(** ** The monad: state plus exceptions *)

(** A thrown error keeps the state reached so far: nothing is rolled
    back. *)
Inductive Outcome (A : Type) : Type :=
| Ok (a : A) (s : NState)
| Throw (e : Error) (s : NState).
Arguments Ok {A} a s.
Arguments Throw {A} e s.

Definition M (A : Type) : Type := NState → Outcome A.

Definition ret {A} (a : A) : M A := λ s, Ok a s.

Definition bind {A B} (m : M A) (k : A → M B) : M B :=
  λ s, match m s with
       | Ok a s' => k a s'
       | Throw e s' => Throw e s'
       end.

Definition throw {A} (e : Error) : M A := λ s, Throw e s.

Declare Scope norm_scope.
Delimit Scope norm_scope with norm.
Notation "'let*' x ':=' c 'in' k" := (bind c (λ x, k))
  (at level 10, x name, c at level 100, k at level 200) : norm_scope.
Notation "c ';;' k" := (bind c (λ _, k))
  (at level 100, k at level 200, right associativity) : norm_scope.
Open Scope norm_scope.

(** [invariant(cond, ...)] *)
Definition invariant (cond : bool) (e : Error) : M unit :=
  if cond then ret tt else throw e.

(** [xs.forEach(f)] *)
Definition forEach {A} (f : A → M unit) : list A → M unit :=
  fix go (l : list A) : M unit :=
    match l with
    | [] => ret tt
    | x :: rest => f x ;; go rest
    end.

(** *** State primitives *)

(** [this._recordSource.get(dataID)] *)
Definition source_get (dataID : DataID) : M (option RelayRecord) :=
  λ s, Ok (_recordSource s !! dataID) s.

(** [this._recordSource.set(dataID, record)] *)
Definition source_set (dataID : DataID) (record : RelayRecord) : M unit :=
  λ s, Ok tt (with_source (<[dataID := record]> (_recordSource s)) s).

(** Dereferences a record reference obtained from the store.  Record
    objects live in the store and are referred to by the key they were
    fetched or inserted under. *)
Definition deref (record : DataID) : M RelayRecord :=
  λ s, match _recordSource s !! record with
       | Some r => Ok r s
       | None => Throw (ErrNoRecord record) s
       end.

(** In-place update of one storage key of a record object. *)
Definition write_field (record : DataID) (storageKey : string)
  (set : RelayRecord → RelayRecord) (value : FieldValue) : M unit :=
  let* r := deref record in
  λ s, Ok tt (with_journal (mkWrite record storageKey value :: journal s)
               (with_source (<[record := set r]> (_recordSource s)) s)).

(** [RelayModernRecord.setValue(record, storageKey, value)] *)
Definition setValue (record : DataID) (storageKey : string) (value : JSValue) : M unit :=
  write_field record storageKey
    (λ r, RelayModernRecord.setValue r storageKey value) (FScalar value).

(** [RelayModernRecord.setLinkedRecordID(record, storageKey, linkedID)] *)
Definition setLinkedRecordID (record : DataID) (storageKey : string) (linkedID : DataID)
  : M unit :=
  write_field record storageKey
    (λ r, RelayModernRecord.setLinkedRecordID r storageKey linkedID) (FLink linkedID).

(** [RelayModernRecord.setLinkedRecordIDs(record, storageKey, linkedIDs)] *)
Definition setLinkedRecordIDs (record : DataID) (storageKey : string)
  (linkedIDs : list (option DataID)) : M unit :=
  write_field record storageKey
    (λ r, RelayModernRecord.setLinkedRecordIDs r storageKey linkedIDs) (FLinks linkedIDs).

(** A typed getter of the accessor; a field of the wrong shape is
    fatal. *)
Definition typed_get {A} (get : RelayRecord → string → Access A)
  (record : DataID) (storageKey : string) : M A :=
  let* r := deref record in
  match get r storageKey with
  | Got a => ret a
  | WrongShape => throw (ErrAccessor record storageKey)
  end.

(** [RelayModernRecord.getDataID(record)] *)
Definition getDataID (record : DataID) : M DataID :=
  let* r := deref record in ret (RelayModernRecord.getDataID r).

(** [RelayModernRecord.getType(record)] *)
Definition getType (record : DataID) : M JSValue :=
  let* r := deref record in ret (RelayModernRecord.getType r).

(** [this._path.push(key)] and [this._path.pop()] *)
Definition path_push (key : string) : M unit :=
  λ s, Ok tt (with_path (_path s ++ [key]) s).

Definition path_pop : M unit :=
  λ s, Ok tt (with_path (removelast (_path s)) s).

Definition path_copy : M (list string) := λ s, Ok (_path s) s.

Definition push_incremental (p : IncrementalDataPayload) : M unit :=
  λ s, Ok tt (with_incremental (_incrementalPayloads s ++ [p]) s).

Definition push_handle (p : HandleFieldPayload) : M unit :=
  λ s, Ok tt (with_handles (_handleFieldPayloads s ++ [p]) s).

Definition push_match (p : MatchFieldPayload) : M unit :=
  λ s, Ok tt (with_matches (_matchFieldPayloads s ++ [p]) s).

(** ** What the normalizer imports *)

(** What a call of an imported function comes to: the value it
    returns, or the exception it throws. *)
Inductive Imported (A : Type) : Type :=
| Returned (a : A)
| Thrown (message : string).
Arguments Returned {A} a.
Arguments Thrown {A} message.

(** The walker catches nothing: an exception of an import ends the
    call. *)
Definition imported {A} (r : Imported A) : M A :=
  match r with
  | Returned a => ret a
  | Thrown message => throw (ErrImported message)
  end.

(** RelayStoreUtils, generateRelayClientID, the [__DEV__] build flag and
    JavaScript's coercion of a value to a property key are inputs of the
    walker: none of them is defined in the normalizer's file.  The
    functions of RelayStoreUtils resolve the arguments of a field
    against the variables, and throw when that fails. *)
Record Externals : Type := mkExternals {
  getArgumentValues : list Argument → Variables → Imported JSValue;
  getStorageKey : Selection → Variables → Imported string;
  getHandleStorageKey : Selection → Variables → Imported string;
  generateRelayClientID : DataID → string → option nat → DataID;
  MATCH_FRAGMENT_KEY : string;
  TYPENAME_KEY : string;
  ToPropertyKey : JSValue → string;
  DEV : bool
}.

Record NormalizationOptions : Type := mkOptions { handleStrippedNulls : bool }.

(** The default value of [normalize]'s [options] parameter. *)
Definition default_options : NormalizationOptions := mkOptions false.

(** ** The walker *)

Section Normalizer.

Context (E : Externals).
(** [this._variables] and [this._handleStrippedNulls] *)
Context (_variables : Variables) (_handleStrippedNulls : bool).

(** [warning(cond, ...)]: prints unless [cond]; compiled to nothing
    outside development builds. *)
Definition warning (cond : bool) (d : Diagnostic) : M unit :=
  if DEV E && negb cond
  then λ s, Ok tt (with_diagnostics (diagnostics s ++ [d]) s)
  else ret tt.

(** [if (__DEV__) { ... }] *)
Definition when_dev (m : M unit) : M unit :=
  if DEV E then m else ret tt.

Definition _getVariableValue (name : string) : M JSValue :=
  match _variables !! name with
  | Some v => ret v
  | None => throw (ErrUndefinedVariable name)
  end.

Definition _getRecordType (data : JSValue) : M JSValue :=
  match js_get data (TYPENAME_KEY E) with
  | None | Some JNull => throw (ErrMissingTypename data)
  | Some typeName => ret typeName
  end.

(** [field.concreteType || this._getRecordType(payload)] *)
Definition concrete_or_record_type (concreteType : option string) (payload : JSValue)
  : M JSValue :=
  match concreteType with
  | Some t => if String.eqb t "" then _getRecordType payload else ret (JStr t)
  | None => _getRecordType payload
  end.

(** [field.kind === 'LinkedField'
      ? field.concreteType || this._getRecordType(payload)
      : this._getRecordType(payload)] *)
Definition observed_type (field : Selection) (payload : JSValue) : M JSValue :=
  match field with
  | LinkedField _ concreteType _ _ => concrete_or_record_type concreteType payload
  | _ => _getRecordType payload
  end.

Definition _validateRecordType (record : DataID) (field : Selection) (payload : JSValue)
  : M unit :=
  let* typeName := observed_type field payload in
  let* r := deref record in
  warning (js_strict_eq (RelayModernRecord.getType r) typeName)
          (WarnConflictingTypes (RelayModernRecord.getDataID r)
                                (RelayModernRecord.getType r) typeName).

(** [guard === null || this._getVariableValue(guard)] *)
Definition guard_value (guard : option string) : M JSValue :=
  match guard with
  | None => ret (JBool true)
  | Some name => _getVariableValue name
  end.

(** [typeof v === 'boolean'] *)
Definition is_boolean (v : JSValue) : bool :=
  match v with
  | JBool _ => true
  | _ => false
  end.

(** The continuation descriptor pushed by defer and stream. *)
Definition continuation (k : IncrementalKind) (label : string) (self : Selection)
  (record : DataID) : M unit :=
  let* p := path_copy in
  let* id := getDataID record in
  push_incremental (mkIncremental k label p (mkSelector id self _variables)).

(** [traverse] is [this._traverseSelections(defer, record, data)]. *)
Definition _normalizeDefer (traverse : M unit) (defer : Selection)
  (if_ : option string) (label : string) (record : DataID) : M unit :=
  let* isDeferred := guard_value if_ in
  when_dev (warning (is_boolean isDeferred) (WarnDeferIf isDeferred));;
  match isDeferred with
  | JBool false => traverse
  | _ => continuation KindDefer label defer record
  end.

(** [traverse] is [this._traverseSelections(stream, record, data)]. *)
Definition _normalizeStream (traverse : M unit) (stream : Selection)
  (if_ : option string) (label : string) (record : DataID) : M unit :=
  traverse;;
  let* isStreamed := guard_value if_ in
  when_dev (warning (is_boolean isStreamed) (WarnStreamIf isStreamed));;
  match isStreamed with
  | JBool true => continuation KindStream label stream record
  | _ => ret tt
  end.

(** [field.alias || field.name] *)
Definition responseKey_of (f : FieldInfo) : string := str_or (alias f) (name f).

(** The common prologue of [_normalizeField] and [_normalizeMatchField]
    for a value that is [null] or [undefined]. *)
Definition write_missing (parent : Selection) (record : DataID) (data : JSValue)
  (responseKey storageKey : string) (fieldValue : option JSValue) : M unit :=
  if bool_decide (fieldValue = None) && negb _handleStrippedNulls
  then ret tt
  else
    when_dev (warning (if abstract_link parent then true else has_own data responseKey)
                      (WarnMissingField responseKey storageKey));;
    setValue record storageKey JNull.

(** [obj.id || otherwise]: the later operand is only evaluated when
    [obj.id] is falsy. *)
Definition id_or (obj : JSValue) (otherwise : M JSValue) : M JSValue :=
  match js_get obj "id" with
  | Some v => if truthy v then ret v else otherwise
  | None => otherwise
  end.

(** [prev || otherwise] for a stored identity [prev : ?DataID]. *)
Definition reuse_or (prev : option DataID) (otherwise : M JSValue) : M JSValue :=
  match prev with
  | Some id => if String.eqb id "" then otherwise else ret (JStr id)
  | None => otherwise
  end.

(** [generateRelayClientID(RelayModernRecord.getDataID(record), storageKey, index)] *)
Definition client_id (record : DataID) (storageKey : string) (index : option nat)
  : M JSValue :=
  let* owner := getDataID record in
  ret (JStr (generateRelayClientID E owner storageKey index)).

(** [a || b || c] of [_normalizeLink] and [_normalizeMatchField]:
    [fieldValue.id], else the identity stored on the owner, else a
    generated client identity. *)
Definition link_id (fieldValue : JSValue) (record : DataID) (storageKey : string)
  : M JSValue :=
  id_or fieldValue
    (let* prev := typed_get RelayModernRecord.getLinkedRecordID record storageKey in
     reuse_or prev (client_id record storageKey None)).

(** [prevIDs && prevIDs[nextIndex]] *)
Definition prev_entry (prevIDs : option (list (option DataID))) (nextIndex : nat)
  : option DataID :=
  match prevIDs with
  | Some ids => mjoin (ids !! nextIndex)
  | None => None
  end.

(** [item.id || (prevIDs && prevIDs[nextIndex]) || generate(..., nextIndex)] *)
Definition item_id (item : JSValue) (prevIDs : option (list (option DataID)))
  (record : DataID) (storageKey : string) (nextIndex : nat) : M JSValue :=
  id_or item
    (reuse_or (prev_entry prevIDs nextIndex)
              (client_id record storageKey (Some nextIndex))).

(** [invariant(typeof nextID === 'string', ...)] *)
Definition expect_string (nextID : JSValue) (e : Error) : M DataID :=
  match nextID with
  | JStr id => ret id
  | _ => throw e
  end.

(** Fetches the record [nextID], creating it when the store has none;
    an existing record is only checked, in development builds. *)
Definition get_or_create (field : Selection) (nextID : DataID) (payload : JSValue)
  (typeName : M JSValue) : M unit :=
  let* nextRecord := source_get nextID in
  match nextRecord with
  | None =>
      let* t := typeName in
      source_set nextID (RelayModernRecord.create nextID t)
  | Some _ => when_dev (_validateRecordType nextID field payload)
  end.

(** The three statements shared by [_normalizeLink] and
    [_normalizeMatchField]: compute [nextID], check that it is a
    string, store it on the owner. *)
Definition link_to_next (fieldValue : JSValue) (record : DataID) (storageKey : string)
  : M DataID :=
  let* v := link_id fieldValue record storageKey in
  let* nextID := expect_string v (ErrIDNotString storageKey) in
  setLinkedRecordID record storageKey nextID;;
  ret nextID.

(** [traverse r d] is [this._traverseSelections(field, r, d)]. *)
Definition _normalizeLink (traverse : DataID → JSValue → M unit) (field : Selection)
  (concreteType : option string) (record : DataID) (storageKey : string)
  (fieldValue : JSValue) : M unit :=
  invariant (is_object fieldValue) (ErrValueNotObject storageKey);;
  let* nextID := link_to_next fieldValue record storageKey in
  get_or_create field nextID fieldValue
                (concrete_or_record_type concreteType fieldValue);;
  traverse nextID fieldValue.

(** The body of the [forEach] callback of [_normalizePluralLink]; the
    result is [nextIDs] after the callback's [push]. *)
Definition plural_item (traverse : DataID → JSValue → M unit) (field : Selection)
  (concreteType : option string) (record : DataID) (storageKey : string)
  (prevIDs : option (list (option DataID)))
  (nextIDs : list (option DataID)) (item : JSValue) (nextIndex : nat)
  : M (list (option DataID)) :=
  match item with
  | JNull => ret (nextIDs ++ [None])
  | _ =>
      path_push (pretty nextIndex);;
      invariant (is_object item) (ErrElementNotObject storageKey);;
      let* v := item_id item prevIDs record storageKey nextIndex in
      let* nextID := expect_string v (ErrElementIDNotString storageKey) in
      get_or_create field nextID item (concrete_or_record_type concreteType item);;
      traverse nextID item;;
      path_pop;;
      ret (nextIDs ++ [Some nextID])
  end.

(** [fieldValue.forEach((item, nextIndex) => ...)], from [nextIndex] on. *)
Definition plural_items (traverse : DataID → JSValue → M unit) (field : Selection)
  (concreteType : option string) (record : DataID) (storageKey : string)
  (prevIDs : option (list (option DataID)))
  : list JSValue → nat → list (option DataID) → M (list (option DataID)) :=
  fix go (items : list JSValue) (nextIndex : nat) (nextIDs : list (option DataID)) :=
    match items with
    | [] => ret nextIDs
    | item :: rest =>
        let* nextIDs' := plural_item traverse field concreteType record storageKey
                                     prevIDs nextIDs item nextIndex in
        go rest (S nextIndex) nextIDs'
    end.

Definition _normalizePluralLink (traverse : DataID → JSValue → M unit)
  (field : Selection) (concreteType : option string) (record : DataID)
  (storageKey : string) (fieldValue : JSValue) : M unit :=
  match fieldValue with
  | JArr items =>
      let* prevIDs := typed_get RelayModernRecord.getLinkedRecordIDs record storageKey in
      let* nextIDs := plural_items traverse field concreteType record storageKey
                                   prevIDs items 0 [] in
      setLinkedRecordIDs record storageKey nextIDs
  | _ => throw (ErrValueNotArray storageKey)
  end.

(** [traverse r d] is [this._traverseSelections(selection, r, d)]. *)
Definition _normalizeField (traverse : DataID → JSValue → M unit)
  (parent selection : Selection) (f : FieldInfo) (record : DataID) (data : JSValue)
  : M unit :=
  invariant (is_object data) (ErrDataNotObject (name f));;
  let responseKey := responseKey_of f in
  let* storageKey := imported (getStorageKey E selection _variables) in
  match js_get data responseKey with
  | None => write_missing parent record data responseKey storageKey None
  | Some JNull => write_missing parent record data responseKey storageKey (Some JNull)
  | Some fieldValue =>
      match selection with
      | ScalarField _ => setValue record storageKey fieldValue
      | LinkedField _ concreteType plural _ =>
          path_push responseKey;;
          (if plural
           then _normalizePluralLink traverse selection concreteType record
                                     storageKey fieldValue
           else _normalizeLink traverse selection concreteType record
                               storageKey fieldValue);;
          path_pop
      | _ => throw (ErrUnexpectedFieldKind (kind selection))
      end
  end.

(** [field.matchesByType[typeName]]: the entry of the table, or else
    what the table inherits as an object. *)
Definition match_for (matchesByType : gmap string MatchDescriptor) (typeName : JSValue)
  : option (MatchDescriptor + JSValue) :=
  let key := match typeName with
             | JStr t => t
             | v => ToPropertyKey E v
             end in
  match matchesByType !! key with
  | Some descriptor => Some (inl descriptor)
  | None => inr <$> Object_inherited key
  end.

Definition _normalizeMatchField (parent field : Selection) (f : FieldInfo)
  (matchesByType : gmap string MatchDescriptor) (record : DataID) (data : JSValue)
  : M unit :=
  invariant (is_object data) (ErrDataNotObject (name f));;
  let responseKey := responseKey_of f in
  let* storageKey := imported (getStorageKey E field _variables) in
  match js_get data responseKey with
  | None => write_missing parent record data responseKey storageKey None
  | Some JNull => write_missing parent record data responseKey storageKey (Some JNull)
  | Some fieldValue =>
      invariant (is_object fieldValue) (ErrValueNotObject storageKey);;
      let* typeName := _getRecordType fieldValue in
      match match_for matchesByType typeName with
      | None => setValue record storageKey JNull
      | Some _ =>
          let* nextID := link_to_next fieldValue record storageKey in
          get_or_create field nextID fieldValue (ret typeName);;
          match js_get fieldValue (MATCH_FRAGMENT_KEY E) with
          | None | Some JNull => ret tt
          | Some operationReference =>
              push_match (mkMatchPayload operationReference nextID fieldValue
                                         typeName _variables)
          end
      end
  end.

(** The handle branch of [_traverseSelections]. *)
Definition handle_field (selection : Selection) (h : HandleInfo) (record : DataID)
  : M unit :=
  let* args := match h_args h with
               | Some a => imported (getArgumentValues E a _variables)
               | None => ret (JObj [])
               end in
  let* fieldKey := imported (getStorageKey E selection _variables) in
  let* handleKey := imported (getHandleStorageKey E selection _variables) in
  let* id := getDataID record in
  push_handle (mkHandlePayload args id fieldKey (handle h) handleKey).

(** The callback of [node.selections.forEach] in [_traverseSelections],
    for one [selection] of [node]. *)
Fixpoint traverse_selection (node : Selection) (record : DataID) (data : JSValue)
  (selection : Selection) {struct selection} : M unit :=
  match selection with
  | ScalarField f =>
      _normalizeField (λ _ _, ret tt) node selection f record data
  | LinkedField f _ _ sels =>
      _normalizeField (λ r d, forEach (traverse_selection selection r d) sels)
                      node selection f record data
  | Condition passingValue condition sels =>
      let* conditionValue := _getVariableValue condition in
      if js_strict_eq conditionValue (JBool passingValue)
      then forEach (traverse_selection selection record data) sels
      else ret tt
  | InlineFragment type sels =>
      let* typeName := getType record in
      if js_strict_eq typeName (JStr type)
      then forEach (traverse_selection selection record data) sels
      else ret tt
  | LinkedHandle h | ScalarHandle h => handle_field selection h record
  | MatchField f matchesByType =>
      _normalizeMatchField node selection f matchesByType record data
  | Defer if_ label sels =>
      _normalizeDefer (forEach (traverse_selection selection record data) sels)
                      selection if_ label record
  | Stream if_ label sels =>
      _normalizeStream (forEach (traverse_selection selection record data) sels)
                       selection if_ label record
  | Fragment _ _ | FragmentSpread _ | Operation _ _ =>
      throw (ErrUnexpectedKind (kind selection))
  end.

Definition _traverseSelections (node : Selection) (record : DataID) (data : JSValue)
  : M unit :=
  forEach (traverse_selection node record data) (selections_of node).

Definition normalizeResponse (node : Selection) (dataID : DataID) (data : JSValue)
  : M NormalizedResponse :=
  let* record := source_get dataID in
  match record with
  | None => throw (ErrMissingRoot dataID)
  | Some _ =>
      _traverseSelections node dataID data;;
      λ s, Ok (mkResponse (_incrementalPayloads s) (_handleFieldPayloads s)
                          (_matchFieldPayloads s)) s
  end.

End Normalizer.

(** [new RelayResponseNormalizer(recordSource, variables, options)] *)
Definition constructor (recordSource : gmap DataID RelayRecord) : NState :=
  mkState recordSource [] [] [] [] [] [].

Definition normalize (E : Externals) (recordSource : gmap DataID RelayRecord)
  (selector : NormalizationSelector) (response : JSValue)
  (options : NormalizationOptions) : Outcome NormalizedResponse :=
  normalizeResponse E (variables selector) (handleStrippedNulls options)
                    (node selector) (dataID selector) response
                    (constructor recordSource).

(** ** Concrete imports, for running the walker *)

(** The imports as Relay defines them, but for the spelling of
    arguments in a key: a static storage key or else the name of the
    field stands for its storage key, also when it has arguments.
    Resolving an argument that names an unbound variable throws, and a
    client identity is [client:<owner>:<key>[:<index>]], where an owner
    that starts with [client:] is not prefixed again. *)
Module Sample.

(** [getArgumentValues]: the values by argument name. *)
Fixpoint argument_pairs (args : list Argument) (vars : Variables)
  : Imported (list (string * JSValue)) :=
  match args with
  | [] => Returned []
  | arg :: rest =>
      let value := match arg with
                   | LiteralArg n v => Returned (n, v)
                   | VariableArg n x =>
                       match vars !! x with
                       | Some v => Returned (n, v)
                       | None => Thrown ("getVariableValue(): Undefined variable `"
                                         ++ x ++ "`.")
                       end
                   end in
      match value with
      | Thrown message => Thrown message
      | Returned entry =>
          match argument_pairs rest vars with
          | Thrown message => Thrown message
          | Returned entries => Returned (entry :: entries)
          end
      end
  end.

Definition argument_values (args : list Argument) (vars : Variables) : Imported JSValue :=
  match argument_pairs args vars with
  | Returned entries => Returned (JObj entries)
  | Thrown message => Thrown message
  end.

(** A key that has arguments is formatted from their values. *)
Definition with_arguments (args : option (list Argument)) (vars : Variables) (key : string)
  : Imported string :=
  match args with
  | Some (arg :: rest) =>
      match argument_values (arg :: rest) vars with
      | Returned _ => Returned key
      | Thrown message => Thrown message
      end
  | _ => Returned key
  end.

Definition storage_key (selection : Selection) (vars : Variables) : Imported string :=
  match selection with
  | ScalarField f | LinkedField f _ _ _ | MatchField f _ =>
      match storageKey f with
      | Some key => if String.eqb key "" then with_arguments (args f) vars (name f)
                    else Returned key
      | None => with_arguments (args f) vars (name f)
      end
  | LinkedHandle h | ScalarHandle h => with_arguments (h_args h) vars (h_name h)
  | _ => Returned ""
  end.

Definition handle_key (selection : Selection) (vars : Variables) : Imported string :=
  match selection with
  | LinkedHandle h | ScalarHandle h =>
      let handleName := if String.eqb (h_key h) ""
                        then ("__" ++ h_name h ++ "_" ++ handle h)%string
                        else ("__" ++ h_key h ++ "_" ++ handle h)%string in
      match h_args h, h_filters h with
      | Some a, Some (filter :: filters) =>
          with_arguments
            (Some (List.filter (λ arg, bool_decide
                                         (match arg with
                                          | LiteralArg n _ | VariableArg n _ => n
                                          end ∈ filter :: filters)) a))
            vars handleName
      | _, _ => Returned handleName
      end
  | _ => Returned ""
  end.

Definition client_id (owner : DataID) (key : string) (index : option nat) : DataID :=
  let id := (owner ++ ":" ++ key ++
             match index with
             | Some i => ":" ++ pretty i
             | None => ""
             end)%string in
  if String.prefix "client:" id then id else ("client:" ++ id)%string.

Definition property_key (v : JSValue) : string :=
  match v with
  | JStr s => s
  | JBool true => "true"
  | JBool false => "false"
  | JNum n => pretty n
  | JNull => "null"
  | JArr _ => ""
  | JObj _ => "[object Object]"
  | JFunction name => ("function " ++ name ++ "() { [native code] }")%string
  end.

Definition externals (dev : bool) : Externals :=
  mkExternals argument_values storage_key handle_key client_id
              "__match_fragment" "__typename" property_key dev.

Definition scalar (n : string) : Selection := ScalarField (mkField None n None None).

Definition linked (n : string) (concreteType : option string) (plural : bool)
  (sels : list Selection) : Selection :=
  LinkedField (mkField None n None None) concreteType plural sels.

Definition root_record : RelayRecord :=
  RelayModernRecord.create "client:root" (JStr "__Root").

End Sample.

(** * Properties *)

(** ** Vocabulary *)

(** What the setters have put under one storage key of one record of
    the store.  (The type a record was created with is not among it:
    see [RelayModernRecord.slot] for what a read of the key gives.) *)
Definition stored (src : gmap DataID RelayRecord) (record : DataID) (storageKey : string)
  : option FieldValue :=
  match src !! record with
  | Some r => rec_fields r !! storageKey
  | None => None
  end.

(** The variable a selection's guard names, if it has one. *)
Definition guard_variable (selection : Selection) : option string :=
  match selection with
  | Condition _ condition _ => Some condition
  | Defer if_ _ _ | Stream if_ _ _ => if_
  | _ => None
  end.

(** The call failed with a fatal error. *)
Definition is_throw {A} (o : Outcome A) : Prop := ∃ e s, o = Throw e s.

(** The state after the development-only check that a missing value is
    excused; the store is not touched. *)
Definition noted (E : Externals) (cond : bool) (d : Diagnostic) (s : NState) : NState :=
  if DEV E && negb cond then with_diagnostics (diagnostics s ++ [d]) s else s.

(** Records are never removed, and a record keeps its identity and the
    type it was created with. *)
Definition persists (src src1 : gmap DataID RelayRecord) : Prop :=
  ∀ id r, src !! id = Some r →
          ∃ r1, src1 !! id = Some r1 ∧ rec_id r1 = rec_id r ∧ rec_type r1 = rec_type r.

(** The value most recently written to one storage key of one record,
    according to a journal. *)
Fixpoint latest (J : list FieldWrite) (record : DataID) (storageKey : string)
  : option FieldValue :=
  match J with
  | [] => None
  | w :: older =>
      if decide (w_record w = record ∧ w_key w = storageKey)
      then Some (w_value w)
      else latest older record storageKey
  end.

(** The store agrees with the journal: what was written last to a key
    is what the store holds there. *)
Definition coherent (s : NState) : Prop :=
  ∀ record storageKey v,
    latest (journal s) record storageKey = Some v →
    stored (_recordSource s) record storageKey = Some v.

(** What a store holds at a key after the writes of a journal: the
    latest value written there, or else what it held before. *)
Definition written_over (src : gmap DataID RelayRecord) (J : list FieldWrite)
  (record : DataID) (storageKey : string) : option FieldValue :=
  match latest J record storageKey with
  | Some v => Some v
  | None => stored src record storageKey
  end.

(** [tracks R s]: the store of [s] is what a call that started on the
    store [R] has made of it: the records of [R] are still there, and
    every storage key holds what the journal wrote there last, or else
    what it held in [R]. *)
Definition tracks (R : gmap DataID RelayRecord) (s : NState) : Prop :=
  persists R (_recordSource s) ∧
  ∀ record storageKey,
    stored (_recordSource s) record storageKey
    = written_over R (journal s) record storageKey.

(** [grows s s1]: [s1] can be reached from [s].  The store persists,
    every list is only appended to, the store stays in agreement with
    the journal, and a storage key holds what was written there since,
    or else what it held in [s]. *)
Record grows (s s1 : NState) : Prop := mkGrows {
  grows_source : persists (_recordSource s) (_recordSource s1);
  grows_journal : journal s `suffix_of` journal s1;
  grows_incremental : _incrementalPayloads s `prefix_of` _incrementalPayloads s1;
  grows_handles : _handleFieldPayloads s `prefix_of` _handleFieldPayloads s1;
  grows_matches : _matchFieldPayloads s `prefix_of` _matchFieldPayloads s1;
  grows_diagnostics : diagnostics s `prefix_of` diagnostics s1;
  grows_coherent : coherent s → coherent s1;
  grows_written :
    ∀ later, journal s1 = later ++ journal s →
             ∀ record storageKey,
               stored (_recordSource s1) record storageKey
               = written_over (_recordSource s) later record storageKey
}.

(** A computation is monotone when each of its successful runs only
    grows the state. *)
Definition mono {A} (m : M A) : Prop := ∀ s a s1, m s = Ok a s1 → grows s s1.

(** What the three setters of the accessor have in common. *)
Definition sets (storageKey : string) (value : FieldValue) (set : RelayRecord → RelayRecord)
  : Prop :=
  ∀ r, set r = mkRecord (rec_id r) (rec_type r) (<[storageKey := value]> (rec_fields r)).

(** A computation that neither reads nor writes the state. *)
Definition stateless {A} (m : M A) : Prop :=
  ∃ r : A + Error, ∀ s, m s = match r with
                               | inl a => Ok a s
                               | inr e => Throw e s
                               end.

(** A successful run leaves [_path] as it found it. *)
Definition balanced {A} (m : M A) : Prop := ∀ s a s1, m s = Ok a s1 → _path s1 = _path s.

(** A successful run leaves [_path] one entry shorter. *)
Definition pops {A} (m : M A) : Prop :=
  ∀ s a s1, m s = Ok a s1 → _path s1 = removelast (_path s).

(** The precedence of identities: the server's [id] when it is a
    non-empty string, else the identity the owner already stores when
    that is a non-empty string, else the synthesized one. *)
Definition identity_by_precedence (server : option JSValue) (reused : option DataID)
  (synthesized : DataID) : DataID :=
  match server with
  | Some (JStr id) => if String.eqb id "" then str_or reused synthesized else id
  | _ => str_or reused synthesized
  end.

(** The reading "the id field if present": any string the server sent
    wins, and any stored identity comes next. *)
Definition identity_if_present (server : option JSValue) (reused : option DataID)
  (synthesized : DataID) : DataID :=
  match server with
  | Some (JStr id) => id
  | _ => match reused with
         | Some id => id
         | None => synthesized
         end
  end.

(** The single identity a record stores under a key, if it stores one. *)
Definition stored_link (r : RelayRecord) (storageKey : string) : option DataID :=
  match rec_fields r !! storageKey with
  | Some (FLink id) => Some id
  | _ => None
  end.

(** The list of identities a record stores under a key, if it stores
    one. *)
Definition stored_list (r : RelayRecord) (storageKey : string)
  : option (list (option DataID)) :=
  match rec_fields r !! storageKey with
  | Some (FLinks ids) => Some ids
  | _ => None
  end.

(** The entry that [_normalizePluralLink] pushes for one item. *)
Definition entry_for (E : Externals) (owner : DataID) (storageKey : string)
  (prevIDs : option (list (option DataID))) (index : nat) (item : JSValue)
  : option DataID :=
  match item with
  | JNull => None
  | _ => Some (identity_by_precedence (js_get item "id") (prev_entry prevIDs index)
                 (generateRelayClientID E owner storageKey (Some index)))
  end.

(** A write of an identity or of a list of identities. *)
Definition is_link (v : FieldValue) : Prop :=
  match v with
  | FLink _ | FLinks _ => True
  | FScalar _ => False
  end.

(** A write is in place in a store when the store holds the written
    value at the written key. *)
Definition in_place (src : gmap DataID RelayRecord) (w : FieldWrite) : Prop :=
  stored src (w_record w) (w_key w) = Some (w_value w).

(** Every identity written is in place: no link of the journal was
    overwritten by a different value. *)
Definition links_in_place (src : gmap DataID RelayRecord) (J : list FieldWrite) : Prop :=
  Forall (λ w, is_link (w_value w) → in_place src w) J.

(** The type a record had when a call that started on the store [R]
    and ended on the store [F] first met it: the type it had in [R], or
    for a record that the call created, the type it was created with. *)
Definition origin_type (R F : gmap DataID RelayRecord) (id : DataID) : option JSValue :=
  match R !! id with
  | Some r => Some (RelayModernRecord.getType r)
  | None => rec_type <$> F !! id
  end.

(** No write of the journal changed the type of a record: whatever was
    put under the key [__typename] of a record is the type the record
    had before. *)
Definition types_kept (R F : gmap DataID RelayRecord) (J : list FieldWrite) : Prop :=
  Forall (λ w, w_key w = RelayModernRecord.TYPENAME_KEY →
               Some (js_of (w_value w)) = origin_type R F (w_record w)) J.

(** Every record of [F] has the type it had at first. *)
Definition types_as_before (R F : gmap DataID RelayRecord) : Prop :=
  ∀ id rF, F !! id = Some rF → Some (RelayModernRecord.getType rF) = origin_type R F id.

(** [settled R F s]: the links written so far are in place in [F], [F]
    has every record of [s], with the same identity and the same type
    at creation, and the types are those of the start: no write so far
    changed one, and [F] has none changed. *)
Definition settled (R F : gmap DataID RelayRecord) (s : NState) : Prop :=
  links_in_place F (journal s) ∧ persists (_recordSource s) F ∧
  types_kept R F (journal s) ∧ types_as_before R F.

(** One write, applied to a store that has the record. *)
Definition apply_write (w : FieldWrite) (src : gmap DataID RelayRecord)
  : gmap DataID RelayRecord :=
  alter (λ r, mkRecord (rec_id r) (rec_type r) (<[w_key w := w_value w]> (rec_fields r)))
        (w_record w) src.

(** The store [F] after the writes of a journal, oldest first. *)
Definition overlay (J : list FieldWrite) (F : gmap DataID RelayRecord)
  : gmap DataID RelayRecord :=
  foldr apply_write F J.

(** The state a second run on [F] is in when the first run is in [s]. *)
Definition replayed (F : gmap DataID RelayRecord) (s : NState) : NState :=
  with_source (overlay (journal s) F) s.

(** [sim R F m]: a successful run of [m], in a call that started on
    [R], that is settled in [F] can be replayed on [F], with the same
    result. *)
Definition sim (R F : gmap DataID RelayRecord) {A} (m : M A) : Prop :=
  ∀ s a s1, tracks R s → m s = Ok a s1 → settled R F s1 →
            m (replayed F s) = Ok a (replayed F s1).

(** Computations that only read the state. *)
Definition readonly {A} (m : M A) : Prop := ∀ s a s1, m s = Ok a s1 → s1 = s.

(** Every error but the one of the root check. *)
Definition past_root (e : Error) : Prop :=
  match e with
  | ErrMissingRoot _ => False
  | _ => True
  end.

(** A computation that never throws the error of the root check. *)
Definition after_root {A} (m : M A) : Prop := ∀ s e s1, m s = Throw e s1 → past_root e.

(** ** Vocabulary of the further properties *)

(** *** Outcomes and effects *)

(** The state a call ends in, whether it returned or threw. *)
Definition final {A} (o : Outcome A) : NState :=
  match o with
  | Ok _ s | Throw _ s => s
  end.

(** Some record of the store carries this identity. *)
Definition named (s : NState) (id : DataID) : Prop :=
  ∃ record r, _recordSource s !! record = Some r ∧ rec_id r = id.

(** The effects of the walker on its state, one at a time: a record
    with a type is created under a key the store does not have, one
    storage key of a record of the store is set, the path is changed,
    a payload is appended that names a record of the store, or, in a
    development build, a diagnostic is printed. *)
Inductive step (E : Externals) (s : NState) : NState → Prop :=
| step_create id typeName :
    _recordSource s !! id = None → typeName ≠ JNull →
    step E s (with_source (<[id := RelayModernRecord.create id typeName]>
                             (_recordSource s)) s)
| step_write record r storageKey value :
    _recordSource s !! record = Some r →
    step E s (with_journal (mkWrite record storageKey value :: journal s)
                (with_source
                   (<[record := mkRecord (rec_id r) (rec_type r)
                                         (<[storageKey := value]> (rec_fields r))]>
                      (_recordSource s)) s))
| step_path p : step E s (with_path p s)
| step_incremental p :
    named s (dataID (inc_selector p)) →
    step E s (with_incremental (_incrementalPayloads s ++ [p]) s)
| step_handle p :
    named s (hp_dataID p) →
    step E s (with_handles (_handleFieldPayloads s ++ [p]) s)
| step_match p :
    is_Some (_recordSource s !! mp_dataID p) →
    step E s (with_matches (_matchFieldPayloads s ++ [p]) s)
| step_warning d :
    DEV E = true → step E s (with_diagnostics (diagnostics s ++ [d]) s).

(** [traced E m]: whatever [m] does, returning or throwing, it does by a
    sequence of these effects. *)
Definition traced (E : Externals) {A} (m : M A) : Prop :=
  ∀ s, rtc (step E) s (final (m s)).

(** Every payload collected so far names a record of the store. *)
Record payloads_named (s : NState) : Prop := mkNamed {
  named_incremental :
    Forall (λ p, named s (dataID (inc_selector p))) (_incrementalPayloads s);
  named_handles : Forall (λ p, named s (hp_dataID p)) (_handleFieldPayloads s);
  named_matches :
    Forall (λ p, is_Some (_recordSource s !! mp_dataID p)) (_matchFieldPayloads s)
}.

(** Every record is stored under its own identity. *)
Definition keyed (src : gmap DataID RelayRecord) : Prop :=
  ∀ id r, src !! id = Some r → rec_id r = id.

(** No record and no storage key of [src] is missing from [src1]. *)
Definition retained (src src1 : gmap DataID RelayRecord) : Prop :=
  ∀ id r, src !! id = Some r →
          ∃ r1, src1 !! id = Some r1 ∧ dom (rec_fields r) ⊆ dom (rec_fields r1).

(** Every record that is not in [R] was created with a type. *)
Definition created_typed (R src : gmap DataID RelayRecord) : Prop :=
  ∀ id r, src !! id = Some r → R !! id = None → rec_type r ≠ JNull.

(** *** References between records *)

(** The identities a field value refers to. *)
Definition targets (v : FieldValue) : list DataID :=
  match v with
  | FScalar _ => []
  | FLink id => [id]
  | FLinks ids => omap (λ entry, entry) ids
  end.

(** A store is closed but for [next] when every identity that a field
    of one of its records refers to is [next] or the key of one of its
    records. *)
Definition closed_but (next : option DataID) (src : gmap DataID RelayRecord) : Prop :=
  ∀ id r key v t,
    src !! id = Some r → rec_fields r !! key = Some v → t ∈ targets v →
    Some t = next ∨ is_Some (src !! t).

(** A store is closed when it has no dangling reference. *)
Definition closed (src : gmap DataID RelayRecord) : Prop := closed_but None src.

(** A successful run keeps a closed store closed. *)
Definition keeps_closed {A} (m : M A) : Prop :=
  ∀ s a s1, m s = Ok a s1 → closed (_recordSource s) → closed (_recordSource s1).

(** A successful run leaves the store as it found it. *)
Definition keeps_source {A} (m : M A) : Prop :=
  ∀ s a s1, m s = Ok a s1 → _recordSource s1 = _recordSource s.

(** *** Record references *)

(** The error of a record reference that the store has no record
    for. *)
Definition wants_record (e : Error) : Prop :=
  match e with
  | ErrNoRecord _ => True
  | _ => False
  end.

(** The call failed for want of a record. *)
Definition lost {A} (o : Outcome A) : Prop :=
  match o with
  | Throw e _ => wants_record e
  | Ok _ _ => False
  end.

(** The store has a record under this key. *)
Definition has (record : DataID) (s : NState) : Prop :=
  is_Some (_recordSource s !! record).

(** [safe P m]: from a state that satisfies [P], [m] does not fail for
    want of a record. *)
Definition safe (P : NState → Prop) {A} (m : M A) : Prop :=
  ∀ s, P s → ¬ lost (m s).

(** *** Paths into the response *)

(** The value found in a response by following a path of keys from its
    root. *)
Definition js_path (response : JSValue) (path : list string) : option JSValue :=
  foldl (λ found key, found ≫= λ v, js_get v key) (Some response) path.

(** What an incremental payload of a call with variables [vars] on
    [response] is expected to be: its path leads to a value of the
    response, an object or array unless the path is empty; its selector
    carries the variables of the call; and its node is a defer for a
    payload of kind defer, a stream for one of kind stream, with the
    label of the payload. *)
Definition continues (vars : Variables) (response : JSValue) (p : IncrementalDataPayload)
  : Prop :=
  (∃ data, js_path response (inc_path p) = Some data ∧
           (inc_path p = [] ∨ is_object data = true)) ∧
  variables (inc_selector p) = vars ∧
  match inc_kind p, node (inc_selector p) with
  | KindDefer, Defer _ label _ | KindStream, Stream _ label _ => label = inc_label p
  | _, _ => False
  end.

(** [located vars response data m]: when [m] starts with the path
    leading to [data], a successful run restores the path and appends
    only incremental payloads that are as expected. *)
Definition located (vars : Variables) (response data : JSValue) {A} (m : M A) : Prop :=
  ∀ s a s1,
    m s = Ok a s1 →
    js_path response (_path s) = Some data →
    _path s = [] ∨ is_object data = true →
    Forall (continues vars response) (_incrementalPayloads s) →
    Forall (continues vars response) (_incrementalPayloads s1) ∧ _path s1 = _path s.

(** A successful run leaves the path and the incremental payloads as it
    found them. *)
Definition framed {A} (m : M A) : Prop :=
  ∀ s a s1, m s = Ok a s1 →
            _path s1 = _path s ∧ _incrementalPayloads s1 = _incrementalPayloads s.

(** A successful run appends no incremental payload. *)
Definition quiet {A} (m : M A) : Prop :=
  ∀ s a s1, m s = Ok a s1 → _incrementalPayloads s1 = _incrementalPayloads s.

(** Whether a selection tree has a defer or a stream node. *)
Fixpoint incremental (selection : Selection) : bool :=
  match selection with
  | Defer _ _ _ | Stream _ _ _ => true
  | LinkedField _ _ _ sels
  | Condition _ _ sels
  | InlineFragment _ sels
  | Fragment _ sels
  | Operation _ sels => existsb incremental sels
  | _ => false
  end.

(** The last character of a string. *)
Fixpoint last_char (s : string) : option Ascii.ascii :=
  match s with
  | EmptyString => None
  | String c EmptyString => Some c
  | String _ rest => last_char rest
  end.

(** *** Builds *)

(** The same imports in a production build: [__DEV__] is false. *)
Definition production (E : Externals) : Externals :=
  mkExternals (getArgumentValues E) (getStorageKey E) (getHandleStorageKey E)
              (generateRelayClientID E) (MATCH_FRAGMENT_KEY E) (TYPENAME_KEY E)
              (ToPropertyKey E) false.

(** A state without its diagnostics. *)
Definition silenced (s : NState) : NState := with_diagnostics [] s.

(** [agrees m m']: whenever [m] returns, [m'] returns the same from the
    same state, diagnostics apart. *)
Definition agrees {A} (m m' : M A) : Prop :=
  ∀ s a s1, m s = Ok a s1 → m' (silenced s) = Ok a (silenced s1).

(** A successful run changes at most the diagnostics. *)
Definition diagnoses {A} (m : M A) : Prop :=
  ∀ s a s1, m s = Ok a s1 → silenced s1 = silenced s.

(** *** Bystanders *)

(** The same state over a store with more records. *)
Definition among (others : gmap DataID RelayRecord) (s : NState) : NState :=
  with_source (_recordSource s ∪ others) s.

(** [local others m]: a successful run of [m] that ends with none of
    the [others] in its store started with none of them, and goes the
    same way among them. *)
Definition local (others : gmap DataID RelayRecord) {A} (m : M A) : Prop :=
  ∀ s a s1,
    m s = Ok a s1 → others ##ₘ _recordSource s1 →
    others ##ₘ _recordSource s ∧ m (among others s) = Ok a (among others s1).

(** *** Shapes and types *)

(** [field.concreteType || payload[TYPENAME_KEY]], when it is not null:
    the type that a record created for [payload] gets. *)
Definition new_type (E : Externals) (concreteType : option string) (payload : JSValue)
  : option JSValue :=
  let typeName := match js_get payload (TYPENAME_KEY E) with
                  | Some JNull | None => None
                  | Some t => Some t
                  end in
  match concreteType with
  | Some t => if String.eqb t "" then typeName else Some (JStr t)
  | None => typeName
  end.

(** What [_normalizePluralLink] accepts as an item: null, or an object
    whose [id], when truthy, is a string. *)
Definition item_shape (item : JSValue) : Prop :=
  item = JNull ∨
  (is_object item = true ∧
   ∀ v, js_get item "id" = Some v → truthy v = true → ∃ i, v = JStr i).

(** ** Induction on selection trees *)

Section SelectionInduction.

Context (P : Selection → Prop).
Context (HScalar : ∀ f, P (ScalarField f)).
Context (HLinked : ∀ f ct pl sels, Forall P sels → P (LinkedField f ct pl sels)).
Context (HCondition : ∀ pv c sels, Forall P sels → P (Condition pv c sels)).
Context (HInline : ∀ t sels, Forall P sels → P (InlineFragment t sels)).
Context (HLinkedHandle : ∀ h, P (LinkedHandle h)).
Context (HScalarHandle : ∀ h, P (ScalarHandle h)).
Context (HMatch : ∀ f m, P (MatchField f m)).
Context (HDefer : ∀ i l sels, Forall P sels → P (Defer i l sels)).
Context (HStream : ∀ i l sels, Forall P sels → P (Stream i l sels)).
Context (HFragment : ∀ n sels, Forall P sels → P (Fragment n sels)).
Context (HSpread : ∀ n, P (FragmentSpread n)).
Context (HOperation : ∀ n sels, Forall P sels → P (Operation n sels)).

Fixpoint Selection_tree_ind (selection : Selection) : P selection :=
  let children :=
    fix children (sels : list Selection) : Forall P sels :=
      match sels with
      | [] => @List.Forall_nil _ P
      | x :: rest => @List.Forall_cons _ P x rest (Selection_tree_ind x) (children rest)
      end in
  match selection with
  | ScalarField f => HScalar f
  | LinkedField f ct pl sels => HLinked f ct pl sels (children sels)
  | Condition pv c sels => HCondition pv c sels (children sels)
  | InlineFragment t sels => HInline t sels (children sels)
  | LinkedHandle h => HLinkedHandle h
  | ScalarHandle h => HScalarHandle h
  | MatchField f m => HMatch f m
  | Defer i l sels => HDefer i l sels (children sels)
  | Stream i l sels => HStream i l sels (children sels)
  | Fragment n sels => HFragment n sels (children sels)
  | FragmentSpread n => HSpread n
  | Operation n sels => HOperation n sels (children sels)
  end.

End SelectionInduction.

(** ** The monad *)

Lemma bind_Ok {A B} (m : M A) (k : A → M B) s a s1 :
  m s = Ok a s1 → bind m k s = k a s1.
Proof. unfold bind. by intros ->. Qed.

Lemma bind_Throw {A B} (m : M A) (k : A → M B) s e s1 :
  m s = Throw e s1 → bind m k s = Throw e s1.
Proof. unfold bind. by intros ->. Qed.

Lemma bind_inv {A B} (m : M A) (k : A → M B) s b s2 :
  bind m k s = Ok b s2 → ∃ a s1, m s = Ok a s1 ∧ k a s1 = Ok b s2.
Proof. unfold bind. destruct (m s) as [a s1|e s1]; [eauto | discriminate]. Qed.

Lemma invariant_true e s : invariant true e s = Ok tt s.
Proof. reflexivity. Qed.

Lemma invariant_inv c e s u s1 : invariant c e s = Ok u s1 → c = true ∧ s1 = s.
Proof. destruct c; cbn; [intros [= _ ->]; auto | discriminate]. Qed.

Lemma deref_Some record r s : _recordSource s !! record = Some r → deref record s = Ok r s.
Proof. unfold deref. by intros ->. Qed.

Lemma deref_inv record r s s1 :
  deref record s = Ok r s1 → _recordSource s !! record = Some r ∧ s1 = s.
Proof.
  unfold deref. destruct (_recordSource s !! record); [intros [= -> ->]; auto | discriminate].
Qed.

Lemma stored_insert src record r storageKey :
  stored (<[record := r]> src) record storageKey = rec_fields r !! storageKey.
Proof. unfold stored. by rewrite lookup_insert_eq. Qed.

Lemma forEach_throw {A} (f : A → M unit) (l : list A) x :
  x ∈ l → (∀ s, is_throw (f x s)) → ∀ s, is_throw (forEach f l s).
Proof.
  intros Hin Hx. induction l as [|y l IH]; [by apply elem_of_nil in Hin|].
  intros s. cbn. unfold bind. apply elem_of_cons in Hin as [<-|Hin].
  - destruct (Hx s) as (e & s1 & ->). by exists e, s1.
  - destruct (f y s) as [[] s1|e s1]; [by apply IH | by exists e, s1].
Qed.

(** ** The entry point *)

Lemma normalize_unfold E recordSource selector response options :
  normalize E recordSource selector response options =
  match recordSource !! dataID selector with
  | None => Throw (ErrMissingRoot (dataID selector)) (constructor recordSource)
  | Some _ =>
      match _traverseSelections E (variables selector) (handleStrippedNulls options)
                                (node selector) (dataID selector) response
                                (constructor recordSource) with
      | Ok _ s => Ok (mkResponse (_incrementalPayloads s) (_handleFieldPayloads s)
                                 (_matchFieldPayloads s)) s
      | Throw e s => Throw e s
      end
  end.
Proof.
  unfold normalize, normalizeResponse, bind, source_get. cbn.
  destruct (recordSource !! dataID selector); reflexivity.
Qed.


(** ** C10: guards naming an unbound variable *)

Lemma undefined_variable vars name s :
  vars !! name = None → _getVariableValue vars name s = Throw (ErrUndefinedVariable name) s.
Proof. unfold _getVariableValue. by intros ->. Qed.

Lemma unbound_guard E vars hsn parent record data selection name s :
  guard_variable selection = Some name →
  vars !! name = None →
  is_throw (traverse_selection E vars hsn parent record data selection s).
Proof.
  intros Hg Hv. destruct selection; try discriminate Hg; cbn in Hg.
  - injection Hg as ->. cbn.
    rewrite (bind_Throw _ _ _ _ _ (undefined_variable _ _ s Hv)). by eexists _, _.
  - subst if_. cbn. unfold _normalizeDefer, guard_value.
    rewrite (bind_Throw _ _ _ _ _ (undefined_variable _ _ s Hv)). by eexists _, _.
  - subst if_. cbn. unfold _normalizeStream, guard_value, bind at 1.
    destruct (forEach _ selections s) as [[] s1|e s1]; [|by eexists _, _].
    rewrite (bind_Throw _ _ _ _ _ (undefined_variable _ _ s1 Hv)). by eexists _, _.
Qed.

(** At the call's entry point: a root selection with an unbound guard
    makes [normalize] itself throw, whatever the store holds. *)
Lemma normalize_unbound_guard E recordSource selector response options selection name :
  selection ∈ selections_of (node selector) →
  guard_variable selection = Some name →
  variables selector !! name = None →
  is_throw (normalize E recordSource selector response options).
Proof.
  intros Hin Hg Hv. rewrite normalize_unfold.
  destruct (recordSource !! dataID selector); [|by eexists _, _].
  unfold _traverseSelections.
  destruct (forEach_throw _ _ _ Hin
              (λ s, unbound_guard E _ (handleStrippedNulls options) (node selector)
                      (dataID selector) response _ _ s Hg Hv)
              (constructor recordSource)) as (e & s & ->).
  by eexists _, _.
Qed.



(** ** C2: scalar fields *)

Lemma setValue_run record storageKey v r s :
  _recordSource s !! record = Some r →
  setValue record storageKey v s =
  Ok tt (with_journal (mkWrite record storageKey (FScalar v) :: journal s)
           (with_source (<[record := RelayModernRecord.setValue r storageKey v]>
                           (_recordSource s)) s)).
Proof.
  intros Hr. unfold setValue, write_field. by rewrite (bind_Ok _ _ _ _ _ (deref_Some _ _ _ Hr)).
Qed.

Lemma noted_source E cond d s : _recordSource (noted E cond d s) = _recordSource s.
Proof. unfold noted. by destruct (DEV E && negb cond). Qed.

Lemma noted_journal E cond d s : journal (noted E cond d s) = journal s.
Proof. unfold noted. by destruct (DEV E && negb cond). Qed.

Lemma warning_run E cond d s : warning E cond d s = Ok tt (noted E cond d s).
Proof. unfold warning, noted. by destruct (DEV E && negb cond). Qed.

Lemma when_dev_warning_run E cond d s :
  when_dev E (warning E cond d) s = Ok tt (noted E cond d s).
Proof.
  unfold when_dev, warning, noted. destruct (DEV E); [|reflexivity].
  by destruct (negb cond).
Qed.

Lemma write_missing_run E hsn parent record data responseKey storageKey fieldValue s :
  write_missing E hsn parent record data responseKey storageKey fieldValue s =
  if bool_decide (fieldValue = None) && negb hsn then Ok tt s
  else setValue record storageKey JNull
         (noted E (if abstract_link parent then true else has_own data responseKey)
                  (WarnMissingField responseKey storageKey) s).
Proof.
  unfold write_missing. destruct (bool_decide (fieldValue = None) && negb hsn); [reflexivity|].
  by rewrite (bind_Ok _ _ _ _ _ (when_dev_warning_run _ _ _ _)).
Qed.

Lemma setValue_stored record storageKey v r s :
  _recordSource s !! record = Some r →
  ∃ s1, setValue record storageKey v s = Ok tt s1 ∧
        stored (_recordSource s1) record storageKey = Some (FScalar v) ∧
        _recordSource s1 =
          <[record := RelayModernRecord.setValue r storageKey v]> (_recordSource s).
Proof.
  intros Hr. rewrite (setValue_run _ _ _ _ _ Hr). eexists; split; [reflexivity|]. cbn.
  split; [|reflexivity]. rewrite stored_insert. cbn. apply lookup_insert_eq.
Qed.

Lemma setValue_noted E cond d record storageKey v r s :
  _recordSource s !! record = Some r →
  ∃ s1, setValue record storageKey v (noted E cond d s) = Ok tt s1 ∧
        stored (_recordSource s1) record storageKey = Some (FScalar v) ∧
        _recordSource s1 =
          <[record := RelayModernRecord.setValue r storageKey v]> (_recordSource s).
Proof.
  intros Hr.
  destruct (setValue_stored record storageKey v r (noted E cond d s))
    as (s1 & Hrun & Hst & Hsrc); [by rewrite noted_source|].
  exists s1. by rewrite noted_source in Hsrc.
Qed.

Lemma imported_run {A} (r : Imported A) a s : r = Returned a → imported r s = Ok a s.
Proof. by intros ->. Qed.

Lemma imported_throw {A} (r : Imported A) message s :
  r = Thrown message → imported r s = Throw (ErrImported message) s.
Proof. by intros ->. Qed.

Lemma imported_inv {A} (r : Imported A) a s s1 :
  imported r s = Ok a s1 → r = Returned a ∧ s1 = s.
Proof. destruct r; cbn; [by intros [= -> ->] | discriminate]. Qed.

(** X26. A scalar field selection, run against a response object
    [data] and an owner record, once its storage key is resolved: the
    value that the property read [data[responseKey]] gives, be it the
    object's own or inherited, is stored verbatim under the storage key
    (an explicit null included); when the read gives undefined, null is
    stored under [handleStrippedNulls] and otherwise the state is left
    exactly as it was.  When the storage key cannot be resolved, the
    exception of the import ends the call before anything is written. *)
Theorem scalar_field_stored E vars hsn parent f record data r s :
  is_object data = true →
  _recordSource s !! record = Some r →
  match getStorageKey E (ScalarField f) vars with
  | Thrown message =>
      traverse_selection E vars hsn parent record data (ScalarField f) s
      = Throw (ErrImported message) s
  | Returned storageKey =>
      ∃ s1, traverse_selection E vars hsn parent record data (ScalarField f) s = Ok tt s1 ∧
        match js_get data (str_or (alias f) (name f)) with
        | Some fieldValue =>
            stored (_recordSource s1) record storageKey = Some (FScalar fieldValue) ∧
            _recordSource s1 =
              <[record := RelayModernRecord.setValue r storageKey fieldValue]>
                (_recordSource s)
        | None =>
            if hsn
            then stored (_recordSource s1) record storageKey = Some (FScalar JNull) ∧
                 _recordSource s1 =
                   <[record := RelayModernRecord.setValue r storageKey JNull]>
                     (_recordSource s)
            else s1 = s
        end
  end.
Proof.
  intros Hobj Hr. cbn. unfold _normalizeField, responseKey_of.
  rewrite Hobj. rewrite (bind_Ok _ _ _ _ _ (invariant_true _ _)).
  destruct (getStorageKey E (ScalarField f) vars) as [storageKey|message] eqn:Hkey;
    [|reflexivity].
  rewrite (bind_Ok _ _ _ _ _ (imported_run _ _ _ eq_refl)).
  destruct (js_get data (str_or (alias f) (name f))) as [v|] eqn:Hv.
  - destruct v; try exact (setValue_stored _ storageKey _ _ _ Hr).
    rewrite write_missing_run. cbn. by apply setValue_noted.
  - rewrite write_missing_run. destruct hsn; cbn; [|by eexists].
    by apply setValue_noted.
Qed.

Lemma scalar_field_stored_witness :
  ∃ s1, traverse_selection (Sample.externals true) (∅ : Variables) false
          (Operation "Q" [])
          "client:root" (JObj [("name", JStr "Ada")]) (Sample.scalar "name")
          (constructor {[ "client:root" := Sample.root_record ]}) = Ok tt s1 ∧
        stored (_recordSource s1) "client:root" "name" = Some (FScalar (JStr "Ada")).
Proof.
  assert (Hr : _recordSource (constructor {[ "client:root" := Sample.root_record ]})
               !! "client:root" = Some Sample.root_record) by (vm_compute; reflexivity).
  pose proof (scalar_field_stored (Sample.externals true) (∅ : Variables) false
                (Operation "Q" [])
                (mkField None "name" None None) "client:root"
                (JObj [("name", JStr "Ada")]) Sample.root_record
                (constructor {[ "client:root" := Sample.root_record ]})
                eq_refl Hr) as H.
  cbn in H. destruct H as (s1 & Hrun & Hst & _).
  exists s1. split; [exact Hrun | exact Hst].
Defined.

(** C2. The key [constructor] is absent from the response object, and
    yet the scalar field of that name is neither left untouched nor set
    to null: with or without [handleStrippedNulls], the function that
    every object inherits under that name is stored. *)
Lemma absent_key_stores_inherited :
  let data := JObj [("name", JStr "Ada")] in
  let s := constructor {[ "client:root" := Sample.root_record ]} in
  has_own data "constructor" = false ∧
  ∀ hsn : bool,
    ∃ s1, traverse_selection (Sample.externals false) (∅ : Variables) hsn
            (Operation "Q" []) "client:root" data (Sample.scalar "constructor") s
          = Ok tt s1 ∧
          stored (_recordSource s1) "client:root" "constructor"
          = Some (FScalar (JFunction "Object")).
Proof.
  split; [reflexivity|]. intros hsn.
  destruct hsn; (eexists; split; [vm_compute; reflexivity|]); vm_compute; reflexivity.
Qed.

(** ** What a run can change *)

Lemma persists_refl src : persists src src.
Proof. intros id r Hr. eauto. Qed.

Lemma persists_trans src src1 src2 :
  persists src src1 → persists src1 src2 → persists src src2.
Proof.
  intros H1 H2 id r Hr. destruct (H1 _ _ Hr) as (r1 & Hr1 & Hid & Hty).
  destruct (H2 _ _ Hr1) as (r2 & Hr2 & Hid2 & Hty2).
  exists r2. split; [done|]. split; congruence.
Qed.

Lemma persists_insert_fresh src id r :
  src !! id = None → persists src (<[id := r]> src).
Proof.
  intros Hnone id' r' Hr'. exists r'. split; [|done].
  rewrite lookup_insert_ne; [done|]. intros ->. congruence.
Qed.

Lemma persists_insert_same src id r r1 :
  src !! id = Some r → rec_id r1 = rec_id r → rec_type r1 = rec_type r →
  persists src (<[id := r1]> src).
Proof.
  intros Hr Hid Hty id' r' Hr'. destruct (decide (id = id')) as [<-|Hne].
  - exists r1. rewrite lookup_insert_eq. split; [done|]. split; congruence.
  - exists r'. by rewrite lookup_insert_ne.
Qed.

Lemma tracks_coherent R s : tracks R s → coherent s.
Proof.
  intros [_ Ht] record key v Hlatest. rewrite Ht. unfold written_over. by rewrite Hlatest.
Qed.

Lemma latest_app J2 J1 record storageKey :
  latest (J2 ++ J1) record storageKey
  = match latest J2 record storageKey with
    | Some v => Some v
    | None => latest J1 record storageKey
    end.
Proof.
  induction J2 as [|w J2 IH]; [done|]. cbn.
  by destruct (decide (w_record w = record ∧ w_key w = storageKey)).
Qed.

#[local] Instance grows_preorder : PreOrder grows.
Proof.
  split.
  - intros s. split; try reflexivity; [apply persists_refl | done |].
    intros later Hlater record key. symmetry in Hlater.
    apply (app_inv_tail (journal s) later []) in Hlater. by subst later.
  - intros s s1 s2 [? [l1 H1] ? ? ? ? ? Hw1] [? [l2 H2] ? ? ? ? ? Hw2].
    split; try (etrans; eassumption); [|eexists; by rewrite H2, H1, app_assoc|auto|].
    + eapply persists_trans; eassumption.
    + intros later Hlater record key. rewrite H2, H1, app_assoc in Hlater.
      apply app_inv_tail in Hlater. subst later.
      rewrite (Hw2 _ H2). unfold written_over. rewrite latest_app, (Hw1 _ H1).
      unfold written_over. by destruct (latest l2 record key).
Qed.

Lemma grows_tracks s s1 : grows s s1 → ∀ R, tracks R s → tracks R s1.
Proof.
  intros Hg R [Hp Ht]. split.
  - eapply persists_trans; [exact Hp | apply (grows_source _ _ Hg)].
  - intros record key. destruct (grows_journal _ _ Hg) as [later Hlater].
    rewrite (grows_written _ _ Hg _ Hlater), Hlater. unfold written_over.
    rewrite latest_app, Ht. unfold written_over.
    by destruct (latest later record key).
Qed.

(** A step that leaves store and journal alone and appends to the other
    lists. *)
Lemma grows_frame s s1 :
  _recordSource s1 = _recordSource s →
  journal s1 = journal s →
  _incrementalPayloads s `prefix_of` _incrementalPayloads s1 →
  _handleFieldPayloads s `prefix_of` _handleFieldPayloads s1 →
  _matchFieldPayloads s `prefix_of` _matchFieldPayloads s1 →
  diagnostics s `prefix_of` diagnostics s1 →
  grows s s1.
Proof.
  intros Hsrc Hj ? ? ? ?. split; try done.
  - rewrite Hsrc. apply persists_refl.
  - by rewrite Hj.
  - unfold coherent. by rewrite Hsrc, Hj.
  - intros later Hlater record key. rewrite Hj in Hlater. symmetry in Hlater.
    apply (app_inv_tail (journal s) later []) in Hlater. subst later. by rewrite Hsrc.
Qed.

Lemma mono_ret {A} (a : A) : mono (ret a).
Proof. intros s a' s1 [= _ <-]. reflexivity. Qed.

Lemma mono_throw {A} e : mono (@throw A e).
Proof. intros s a s1 [=]. Qed.

Lemma mono_bind {A B} (m : M A) (k : A → M B) :
  mono m → (∀ a, mono (k a)) → mono (bind m k).
Proof.
  intros Hm Hk s b s2 Hrun. apply bind_inv in Hrun as (a & s1 & H1 & H2).
  etrans; [eapply Hm | eapply Hk]; eassumption.
Qed.

Lemma mono_forEach {A} (f : A → M unit) (l : list A) :
  Forall (λ x, mono (f x)) l → mono (forEach f l).
Proof.
  induction 1 as [|x l Hx _ IH]; cbn; [apply mono_ret|].
  apply mono_bind; [done | intros _; apply IH].
Qed.

Lemma mono_invariant c e : mono (invariant c e).
Proof. destruct c; [apply mono_ret | apply mono_throw]. Qed.

Lemma mono_pure {A} (m : M A) : (∀ s a s1, m s = Ok a s1 → s1 = s) → mono m.
Proof. intros H s a s1 Hrun. rewrite (H _ _ _ Hrun). reflexivity. Qed.

Lemma mono_source_get id : mono (source_get id).
Proof. apply mono_pure. by intros s a s1 [= _ <-]. Qed.

Lemma mono_deref record : mono (deref record).
Proof. apply mono_pure. intros s a s1 H. by apply deref_inv in H as [_ ->]. Qed.

Lemma mono_path_copy : mono path_copy.
Proof. apply mono_pure. by intros s a s1 [= _ <-]. Qed.

Lemma mono_path_push key : mono (path_push key).
Proof. intros s a s1 [= _ <-]. by apply grows_frame. Qed.

Lemma mono_path_pop : mono path_pop.
Proof. intros s a s1 [= _ <-]. by apply grows_frame. Qed.

Lemma mono_push_incremental p : mono (push_incremental p).
Proof. intros s a s1 [= _ <-]. apply grows_frame; cbn; try done. by apply prefix_app_r. Qed.

Lemma mono_push_handle p : mono (push_handle p).
Proof. intros s a s1 [= _ <-]. apply grows_frame; cbn; try done. by apply prefix_app_r. Qed.

Lemma mono_push_match p : mono (push_match p).
Proof. intros s a s1 [= _ <-]. apply grows_frame; cbn; try done. by apply prefix_app_r. Qed.

Lemma mono_warning E cond d : mono (warning E cond d).
Proof.
  intros s a s1. rewrite warning_run. intros [= _ <-]. unfold noted.
  destruct (DEV E && negb cond); [|reflexivity].
  apply grows_frame; cbn; try done. by apply prefix_app_r.
Qed.

Lemma mono_when_dev E m : mono m → mono (when_dev E m).
Proof. unfold when_dev. destruct (DEV E); [done | intros _; apply mono_ret]. Qed.

Lemma mono_write_field record storageKey set value :
  sets storageKey value set → mono (write_field record storageKey set value).
Proof.
  intros Hset s a s1 Hrun. unfold write_field in Hrun.
  apply bind_inv in Hrun as (r & s' & Hd & Hrun). apply deref_inv in Hd as [Hr ->].
  injection Hrun as _ <-. split; cbn; try reflexivity.
  - rewrite Hset. by eapply persists_insert_same.
  - by apply suffix_cons_r.
  - intros Hco record' key' v. unfold coherent in Hco. cbn. unfold stored.
    destruct (decide (record = record' ∧ storageKey = key')) as [[<- <-]|Hne].
    + intros [= <-]. rewrite lookup_insert_eq, Hset. cbn. apply lookup_insert_eq.
    + intros Hlatest. specialize (Hco _ _ _ Hlatest). unfold stored in Hco.
      destruct (decide (record = record')) as [<-|Hrec].
      * rewrite lookup_insert_eq, Hset. cbn. rewrite Hr in Hco.
        rewrite lookup_insert_ne; [done|]. intros <-. by apply Hne.
      * by rewrite lookup_insert_ne.
  - intros later Hlater record' key'.
    symmetry in Hlater.
    apply (app_inv_tail (journal s) later [mkWrite record storageKey value]) in Hlater.
    subst later. unfold written_over. cbn [latest w_record w_key w_value].
    destruct (decide (record = record' ∧ storageKey = key')) as [[<- <-]|Hne].
    + rewrite stored_insert, Hset. cbn. apply lookup_insert_eq.
    + unfold stored. destruct (decide (record = record')) as [<-|Hrec].
      * rewrite lookup_insert_eq, Hr, Hset. cbn.
        rewrite lookup_insert_ne; [done|]. intros <-. by apply Hne.
      * by rewrite lookup_insert_ne.
Qed.

Lemma mono_setValue record storageKey v : mono (setValue record storageKey v).
Proof. by apply mono_write_field. Qed.

Lemma mono_setLinkedRecordID record storageKey id :
  mono (setLinkedRecordID record storageKey id).
Proof. by apply mono_write_field. Qed.

Lemma mono_setLinkedRecordIDs record storageKey ids :
  mono (setLinkedRecordIDs record storageKey ids).
Proof. by apply mono_write_field. Qed.

Lemma mono_typed_get {A} (get : RelayRecord → string → Access A) record storageKey :
  mono (typed_get get record storageKey).
Proof.
  apply mono_bind; [apply mono_deref|]. intros r.
  destruct (get r storageKey); [apply mono_ret | apply mono_throw].
Qed.

Lemma mono_getDataID record : mono (getDataID record).
Proof. apply mono_bind; [apply mono_deref | intros; apply mono_ret]. Qed.

Lemma mono_getType record : mono (getType record).
Proof. apply mono_bind; [apply mono_deref | intros; apply mono_ret]. Qed.

Lemma stateless_ret {A} (a : A) : stateless (ret a).
Proof. by exists (inl a). Qed.

Lemma stateless_throw {A} e : stateless (@throw A e).
Proof. by exists (inr e). Qed.

Lemma stateless_inv {A} (m : M A) s a s1 :
  stateless m → m s = Ok a s1 → s1 = s ∧ ∀ s', m s' = Ok a s'.
Proof.
  intros [[a'|e] Hm]; rewrite Hm; [|discriminate].
  intros [= -> ->]. split; [done|]. intros s'. by rewrite Hm.
Qed.

Lemma mono_stateless {A} (m : M A) : stateless m → mono m.
Proof.
  intros Hm. apply mono_pure. intros s a s1 Hrun.
  by destruct (stateless_inv _ _ _ _ Hm Hrun).
Qed.

Lemma stateless_getVariableValue vars name : stateless (_getVariableValue vars name).
Proof.
  unfold _getVariableValue. destruct (vars !! name);
    [apply stateless_ret | apply stateless_throw].
Qed.

Lemma stateless_guard_value vars guard : stateless (guard_value vars guard).
Proof.
  destruct guard; [apply stateless_getVariableValue | apply stateless_ret].
Qed.

Lemma stateless_imported {A} (r : Imported A) : stateless (imported r).
Proof. destruct r; [apply stateless_ret | apply stateless_throw]. Qed.

Lemma stateless_getRecordType E data : stateless (_getRecordType E data).
Proof.
  unfold _getRecordType. destruct (js_get data (TYPENAME_KEY E)) as [[]|];
    first [apply stateless_ret | apply stateless_throw].
Qed.

Lemma stateless_concrete_or_record_type E concreteType payload :
  stateless (concrete_or_record_type E concreteType payload).
Proof.
  unfold concrete_or_record_type. destruct concreteType as [t|];
    [destruct (String.eqb t "")|];
    first [apply stateless_ret | apply stateless_getRecordType].
Qed.

Lemma stateless_observed E field payload : stateless (observed_type E field payload).
Proof.
  destruct field;
    first [apply stateless_concrete_or_record_type | apply stateless_getRecordType].
Qed.

Create HintDb mono.
#[local] Hint Resolve mono_ret mono_throw mono_invariant mono_source_get mono_deref
  mono_path_copy mono_path_push mono_path_pop mono_push_incremental mono_push_handle
  mono_push_match mono_warning mono_when_dev mono_setValue mono_setLinkedRecordID
  mono_setLinkedRecordIDs mono_typed_get mono_getDataID mono_getType mono_stateless
  stateless_getVariableValue stateless_guard_value stateless_getRecordType
  stateless_imported
  stateless_concrete_or_record_type stateless_observed : mono.

(** Splits a monotonicity goal along the structure of the computation. *)
Ltac mono_step :=
  lazymatch goal with
  | |- mono (bind _ _) => apply mono_bind; [|intros ?]
  | |- mono (match ?x with _ => _ end) => destruct x
  | |- mono (let _ := _ in _) => cbv zeta
  end.

Ltac mono_auto := repeat mono_step; eauto with mono.

Lemma mono_validateRecordType E record field payload :
  mono (_validateRecordType E record field payload).
Proof. unfold _validateRecordType. apply mono_bind; [|intros ?]; mono_auto. Qed.

Lemma mono_continuation vars k label self record :
  mono (continuation vars k label self record).
Proof. unfold continuation. mono_auto. Qed.

Lemma mono_normalizeDefer E vars traverse defer if_ label record :
  mono traverse → mono (_normalizeDefer E vars traverse defer if_ label record).
Proof.
  intros Ht. unfold _normalizeDefer.
  apply mono_bind; [eauto with mono|]. intros v.
  apply mono_bind; [eauto with mono|]. intros _.
  destruct v as [|[]| | | | |]; auto using mono_continuation.
Qed.

Lemma mono_normalizeStream E vars traverse stream if_ label record :
  mono traverse → mono (_normalizeStream E vars traverse stream if_ label record).
Proof.
  intros Ht. unfold _normalizeStream.
  apply mono_bind; [done|]. intros _.
  apply mono_bind; [eauto with mono|]. intros v.
  apply mono_bind; [eauto with mono|]. intros _.
  destruct v as [|[]| | | | |]; auto using mono_continuation, mono_ret.
Qed.

Lemma mono_write_missing E hsn parent record data responseKey storageKey fieldValue :
  mono (write_missing E hsn parent record data responseKey storageKey fieldValue).
Proof. unfold write_missing. mono_auto. Qed.

Lemma mono_link_id E fieldValue record storageKey :
  mono (link_id E fieldValue record storageKey).
Proof. unfold link_id, id_or, reuse_or, client_id. mono_auto. Qed.

Lemma mono_item_id E item prevIDs record storageKey nextIndex :
  mono (item_id E item prevIDs record storageKey nextIndex).
Proof. unfold item_id, id_or, reuse_or, client_id. mono_auto. Qed.

Lemma mono_expect_string v e : mono (expect_string v e).
Proof. unfold expect_string. mono_auto. Qed.

Lemma mono_link_to_next E fieldValue record storageKey :
  mono (link_to_next E fieldValue record storageKey).
Proof.
  unfold link_to_next. mono_auto; auto using mono_link_id, mono_expect_string.
Qed.

Lemma mono_get_or_create E field nextID payload typeName :
  stateless typeName → mono (get_or_create E field nextID payload typeName).
Proof.
  intros Hty s a s2 Hrun. unfold get_or_create in Hrun.
  apply bind_inv in Hrun as (o & s1 & [= <- <-] & Hrun).
  destruct (_recordSource s !! nextID) eqn:Hnext.
  - revert Hrun. apply mono_when_dev, mono_validateRecordType.
  - apply bind_inv in Hrun as (t & s1 & Ht & Hset).
    apply (stateless_inv _ _ _ _ Hty) in Ht as [-> _].
    injection Hset as _ <-. split; cbn; try reflexivity.
    + by apply persists_insert_fresh.
    + intros Hco record key v Hlatest. specialize (Hco _ _ _ Hlatest).
      unfold stored in *. cbn. rewrite lookup_insert_ne; [done|].
      intros <-. by rewrite Hnext in Hco.
    + intros later Hlater record key. symmetry in Hlater.
      apply (app_inv_tail (journal s) later []) in Hlater. subst later.
      unfold written_over, stored. cbn.
      destruct (decide (nextID = record)) as [<-|Hne].
      * rewrite lookup_insert_eq. cbn. by rewrite lookup_empty, Hnext.
      * by rewrite lookup_insert_ne.
Qed.

#[local] Hint Resolve mono_validateRecordType mono_continuation mono_write_missing
  mono_link_id mono_item_id mono_expect_string mono_link_to_next mono_get_or_create
  stateless_ret : mono.

Lemma mono_normalizeLink E traverse field concreteType record storageKey fieldValue :
  (∀ r d, mono (traverse r d)) →
  mono (_normalizeLink E traverse field concreteType record storageKey fieldValue).
Proof. intros Ht. unfold _normalizeLink. mono_auto. Qed.

Lemma mono_plural_item E traverse field concreteType record storageKey prevIDs nextIDs
  item nextIndex :
  (∀ r d, mono (traverse r d)) →
  mono (plural_item E traverse field concreteType record storageKey prevIDs nextIDs
                    item nextIndex).
Proof. intros Ht. unfold plural_item. destruct item; mono_auto. Qed.

Lemma mono_plural_items E traverse field concreteType record storageKey prevIDs items :
  (∀ r d, mono (traverse r d)) →
  ∀ nextIndex nextIDs,
    mono (plural_items E traverse field concreteType record storageKey prevIDs
                       items nextIndex nextIDs).
Proof.
  intros Ht. induction items as [|item rest IH]; intros nextIndex nextIDs; cbn.
  - apply mono_ret.
  - apply mono_bind; [by apply mono_plural_item | intros ?; apply IH].
Qed.

Lemma mono_normalizePluralLink E traverse field concreteType record storageKey fieldValue :
  (∀ r d, mono (traverse r d)) →
  mono (_normalizePluralLink E traverse field concreteType record storageKey fieldValue).
Proof.
  intros Ht. unfold _normalizePluralLink.
  destruct fieldValue; eauto with mono.
  apply mono_bind; [eauto with mono|]. intros prevIDs.
  apply mono_bind; [by apply mono_plural_items | eauto with mono].
Qed.

Lemma mono_normalizeField E vars hsn traverse parent selection f record data :
  (∀ r d, mono (traverse r d)) →
  mono (_normalizeField E vars hsn traverse parent selection f record data).
Proof.
  intros Ht. unfold _normalizeField.
  apply mono_bind; [eauto with mono|]. intros _. cbv zeta.
  apply mono_bind; [eauto with mono|]. intros storageKey.
  destruct (js_get data (responseKey_of f)) as [v|]; [|eauto with mono].
  assert (Hfield : mono
    match selection with
    | ScalarField _ => setValue record storageKey v
    | LinkedField _ concreteType plural _ =>
        path_push (responseKey_of f);;
        (if plural
         then _normalizePluralLink E traverse selection concreteType record storageKey v
         else _normalizeLink E traverse selection concreteType record storageKey v);;
        path_pop
    | _ => throw (ErrUnexpectedFieldKind (kind selection))
    end).
  { destruct selection; eauto with mono.
    apply mono_bind; [eauto with mono|]. intros _.
    apply mono_bind; [|eauto with mono].
    destruct plural; [by apply mono_normalizePluralLink | by apply mono_normalizeLink]. }
  destruct v; eauto with mono.
Qed.

Lemma mono_normalizeMatchField E vars hsn parent field f matchesByType record data :
  mono (_normalizeMatchField E vars hsn parent field f matchesByType record data).
Proof.
  unfold _normalizeMatchField.
  apply mono_bind; [eauto with mono|]. intros _. cbv zeta.
  apply mono_bind; [eauto with mono|]. intros storageKey.
  destruct (js_get data (responseKey_of f)) as [v|]; [|eauto with mono].
  assert (Hfield : ∀ fv, mono
    (invariant (is_object fv) (ErrValueNotObject storageKey);;
     let* typeName := _getRecordType E fv in
     match match_for E matchesByType typeName with
     | None => setValue record storageKey JNull
     | Some _ =>
         let* nextID := link_to_next E fv record storageKey in
         get_or_create E field nextID fv (ret typeName);;
         match js_get fv (MATCH_FRAGMENT_KEY E) with
         | None | Some JNull => ret tt
         | Some operationReference =>
             push_match (mkMatchPayload operationReference nextID fv typeName vars)
         end
     end)).
  { intros fv. mono_auto. }
  destruct v; first [apply Hfield | eauto with mono].
Qed.

Lemma mono_handle_field E vars selection h record :
  mono (handle_field E vars selection h record).
Proof. unfold handle_field. mono_auto. Qed.

Lemma mono_traverse_selection E vars hsn selection :
  ∀ parent record data, mono (traverse_selection E vars hsn parent record data selection).
Proof.
  induction selection as [f|f ct pl sels IH|pv c sels IH|t sels IH|h|h|f m
                         |i l sels IH|i l sels IH|n sels IH|n|n sels IH]
    using Selection_tree_ind; intros parent record data; cbn.
  - apply mono_normalizeField. intros; apply mono_ret.
  - apply mono_normalizeField. intros r d. apply mono_forEach.
    eapply Forall_impl; [exact IH|]. cbn. auto.
  - apply mono_bind; [eauto with mono|]. intros v.
    destruct (js_strict_eq v (JBool pv)); [|apply mono_ret].
    apply mono_forEach. eapply Forall_impl; [exact IH|]. cbn. auto.
  - apply mono_bind; [eauto with mono|]. intros v.
    destruct (js_strict_eq v (JStr t)); [|apply mono_ret].
    apply mono_forEach. eapply Forall_impl; [exact IH|]. cbn. auto.
  - apply mono_handle_field.
  - apply mono_handle_field.
  - apply mono_normalizeMatchField.
  - apply mono_normalizeDefer, mono_forEach.
    eapply Forall_impl; [exact IH|]. cbn. auto.
  - apply mono_normalizeStream, mono_forEach.
    eapply Forall_impl; [exact IH|]. cbn. auto.
  - apply mono_throw.
  - apply mono_throw.
  - apply mono_throw.
Qed.

Lemma mono_traverseSelections E vars hsn node record data :
  mono (_traverseSelections E vars hsn node record data).
Proof.
  unfold _traverseSelections. apply mono_forEach, Forall_forall.
  intros selection _. apply mono_traverse_selection.
Qed.

(** ** C8: the root record *)

Lemma after_root_ret {A} (a : A) : after_root (ret a).
Proof. intros s e s1 [=]. Qed.

Lemma after_root_throw {A} e : past_root e → after_root (@throw A e).
Proof. by intros He s e' s1 [= <- _]. Qed.

Lemma after_root_bind {A B} (m : M A) (k : A → M B) :
  after_root m → (∀ a, after_root (k a)) → after_root (bind m k).
Proof.
  intros Hm Hk s e s2. unfold bind. destruct (m s) as [a s1|e1 s1] eqn:H1.
  - apply Hk.
  - intros [= <- _]. eapply Hm, H1.
Qed.

Lemma after_root_forEach {A} (f : A → M unit) (l : list A) :
  Forall (λ x, after_root (f x)) l → after_root (forEach f l).
Proof.
  induction 1 as [|x l Hx _ IH]; cbn; [apply after_root_ret|].
  apply after_root_bind; [done | intros _; apply IH].
Qed.

Lemma after_root_invariant c e : past_root e → after_root (invariant c e).
Proof. destruct c; [intros _; apply after_root_ret | apply after_root_throw]. Qed.

Lemma after_root_total {A} (m : M A) : (∀ s, ∃ a s1, m s = Ok a s1) → after_root m.
Proof. intros Hm s e s1 H. destruct (Hm s) as (a & s' & H'). congruence. Qed.

Lemma after_root_deref record : after_root (deref record).
Proof.
  intros s e s1. unfold deref. destruct (_recordSource s !! record); [discriminate|].
  by intros [= <- _].
Qed.

Lemma after_root_getVariableValue vars name : after_root (_getVariableValue vars name).
Proof.
  unfold _getVariableValue. destruct (vars !! name);
    [apply after_root_ret | by apply after_root_throw].
Qed.

Lemma after_root_imported {A} (r : Imported A) : after_root (imported r).
Proof. destruct r; [apply after_root_ret | by apply after_root_throw]. Qed.

Lemma after_root_getRecordType E data : after_root (_getRecordType E data).
Proof.
  unfold _getRecordType. destruct (js_get data (TYPENAME_KEY E)) as [[]|];
    first [apply after_root_ret | by apply after_root_throw].
Qed.

Lemma after_root_warning E cond d : after_root (warning E cond d).
Proof. apply after_root_total. intros s. rewrite warning_run. eauto. Qed.

Create HintDb root.
#[local] Hint Resolve after_root_ret after_root_deref after_root_getVariableValue
  after_root_getRecordType after_root_imported after_root_warning : root.

(** Splits a goal about the errors of a computation along its
    structure. *)
Ltac root_step :=
  lazymatch goal with
  | |- after_root (bind _ _) => apply after_root_bind; [|intros ?]
  | |- after_root (throw _) => apply after_root_throw; exact I
  | |- after_root (invariant _ _) => apply after_root_invariant; exact I
  | |- after_root (match ?x with _ => _ end) => destruct x
  | |- after_root (if ?x then _ else _) => destruct x
  | |- after_root (let _ := _ in _) => cbv zeta
  | |- after_root (λ s, Ok _ _) => apply after_root_total; eauto
  end.

Ltac root_auto := repeat root_step; eauto with root.

Lemma after_root_traverse_selection E vars hsn selection :
  ∀ parent record data,
    after_root (traverse_selection E vars hsn parent record data selection).
Proof.
  assert (Hitems : ∀ traverse field ct record key prev items,
             (∀ r d, after_root (traverse r d)) →
             ∀ i acc, after_root (plural_items E traverse field ct record key prev
                                               items i acc)).
  { intros traverse field ct record key prev items Ht.
    induction items as [|item rest IH]; intros i acc; cbn; [apply after_root_ret|].
    apply after_root_bind; [|intros ?; apply IH].
    unfold plural_item, item_id, id_or, reuse_or, client_id, getDataID, get_or_create,
      _validateRecordType, observed_type, concrete_or_record_type, expect_string,
      when_dev, source_get, source_set, path_push, path_pop.
    destruct item; root_auto. }
  assert (Hfield : ∀ traverse parent field f record data,
             (∀ r d, after_root (traverse r d)) →
             after_root (_normalizeField E vars hsn traverse parent field f record data)).
  { intros traverse parent field f record data Ht.
    unfold _normalizeField, write_missing, setValue, _normalizeLink,
      _normalizePluralLink, link_to_next, link_id, id_or, reuse_or, client_id, typed_get,
      getDataID, get_or_create, _validateRecordType, observed_type,
      concrete_or_record_type, expect_string, setLinkedRecordID, setLinkedRecordIDs,
      write_field, when_dev, source_get, source_set, path_push, path_pop.
    root_auto. }
  induction selection as [f|f ct pl sels IH|pv c sels IH|t sels IH|h|h|f m
                         |i l sels IH|i l sels IH|n sels IH|n|n sels IH]
    using Selection_tree_ind; intros parent record data; cbn.
  - apply Hfield. intros; apply after_root_ret.
  - apply Hfield. intros r d. apply after_root_forEach.
    eapply Forall_impl; [exact IH|]. cbn. auto.
  - root_auto. apply after_root_forEach. eapply Forall_impl; [exact IH|]. cbn. auto.
  - unfold getType. root_auto.
    apply after_root_forEach. eapply Forall_impl; [exact IH|]. cbn. auto.
  - unfold handle_field, getDataID, push_handle. root_auto.
  - unfold handle_field, getDataID, push_handle. root_auto.
  - unfold _normalizeMatchField, write_missing, setValue, link_to_next, link_id, id_or,
      reuse_or, client_id, typed_get, getDataID, get_or_create, _validateRecordType,
      observed_type, expect_string, setLinkedRecordID, write_field, when_dev, source_get,
      source_set, push_match.
    root_auto.
  - assert (after_root (forEach (traverse_selection E vars hsn (Defer i l sels) record data)
                                sels)).
    { apply after_root_forEach. eapply Forall_impl; [exact IH|]. cbn. auto. }
    unfold _normalizeDefer, guard_value, continuation, getDataID, when_dev, path_copy,
      push_incremental.
    root_auto.
  - assert (after_root (forEach (traverse_selection E vars hsn (Stream i l sels) record data)
                                sels)).
    { apply after_root_forEach. eapply Forall_impl; [exact IH|]. cbn. auto. }
    unfold _normalizeStream, guard_value, continuation, getDataID, when_dev, path_copy,
      push_incremental.
    root_auto.
  - by apply after_root_throw.
  - by apply after_root_throw.
  - by apply after_root_throw.
Qed.

(** C8. [normalize] first looks the selector's identity up in the record
    source.  Without a record there it throws the missing-root error in
    the state it was constructed in, so no selection was traversed.  With
    a record there the check passes: the outcome is that of traversing
    the root node, and whatever that throws is not the missing-root
    error. *)
Theorem normalize_checks_root E recordSource selector response options :
  match recordSource !! dataID selector with
  | None =>
      normalize E recordSource selector response options
      = Throw (ErrMissingRoot (dataID selector)) (constructor recordSource)
  | Some _ =>
      normalize E recordSource selector response options
      = match _traverseSelections E (variables selector) (handleStrippedNulls options)
                (node selector) (dataID selector) response (constructor recordSource) with
        | Ok _ s => Ok (mkResponse (_incrementalPayloads s) (_handleFieldPayloads s)
                                   (_matchFieldPayloads s)) s
        | Throw e s => Throw e s
        end ∧
      ∀ e s, normalize E recordSource selector response options = Throw e s → past_root e
  end.
Proof.
  rewrite normalize_unfold. destruct (recordSource !! dataID selector); [|done].
  split; [done|]. intros e s.
  destruct (_traverseSelections _ _ _ _ _ _ _) as [[] s1|e1 s1] eqn:Htrav; [discriminate|].
  intros [= <- _]. revert Htrav. unfold _traverseSelections.
  apply after_root_forEach, Forall_forall. intros x _. apply after_root_traverse_selection.
Qed.

(** ** The traversal path is restored *)

Lemma balanced_ret {A} (a : A) : balanced (ret a).
Proof. by intros s a' s1 [= _ <-]. Qed.

Lemma balanced_throw {A} e : balanced (@throw A e).
Proof. intros s a s1 [=]. Qed.

Lemma balanced_bind {A B} (m : M A) (k : A → M B) :
  balanced m → (∀ a, balanced (k a)) → balanced (bind m k).
Proof.
  intros Hm Hk s b s2 Hrun. apply bind_inv in Hrun as (a & s1 & H1 & H2).
  rewrite (Hk _ _ _ _ H2). eapply Hm, H1.
Qed.

Lemma balanced_push {A} key (k : M A) : pops k → balanced (path_push key;; k).
Proof.
  intros Hk s a s2 Hrun. apply bind_inv in Hrun as ([] & s1 & [= <-] & H2).
  rewrite (Hk _ _ _ H2). cbn. apply removelast_last.
Qed.

Lemma pops_bind {A B} (m : M A) (k : A → M B) :
  balanced m → (∀ a, pops (k a)) → pops (bind m k).
Proof.
  intros Hm Hk s b s2 Hrun. apply bind_inv in Hrun as (a & s1 & H1 & H2).
  rewrite (Hk _ _ _ _ H2). f_equal. eapply Hm, H1.
Qed.

Lemma pops_pop : pops path_pop.
Proof. by intros s a s1 [= _ <-]. Qed.

Lemma pops_pop_then {A} (k : M A) : balanced k → pops (path_pop;; k).
Proof.
  intros Hk s a s2 Hrun. apply bind_inv in Hrun as ([] & s1 & [= <-] & H2).
  by rewrite (Hk _ _ _ H2).
Qed.

Lemma balanced_forEach {A} (f : A → M unit) (l : list A) :
  Forall (λ x, balanced (f x)) l → balanced (forEach f l).
Proof.
  induction 1 as [|x l Hx _ IH]; cbn; [apply balanced_ret|].
  apply balanced_bind; [done | intros _; apply IH].
Qed.

Lemma balanced_invariant c e : balanced (invariant c e).
Proof. destruct c; [apply balanced_ret | apply balanced_throw]. Qed.

Lemma balanced_pure {A} (m : M A) : (∀ s a s1, m s = Ok a s1 → s1 = s) → balanced m.
Proof. intros H s a s1 Hrun. by rewrite (H _ _ _ Hrun). Qed.

Lemma balanced_stateless {A} (m : M A) : stateless m → balanced m.
Proof.
  intros Hm. apply balanced_pure. intros s a s1 Hrun.
  by destruct (stateless_inv _ _ _ _ Hm Hrun).
Qed.

Lemma balanced_source_get id : balanced (source_get id).
Proof. by intros s a s1 [= _ <-]. Qed.

Lemma balanced_source_set id r : balanced (source_set id r).
Proof. by intros s a s1 [= _ <-]. Qed.

Lemma balanced_deref record : balanced (deref record).
Proof. apply balanced_pure. intros s a s1 H. by apply deref_inv in H as [_ ->]. Qed.

Lemma balanced_path_copy : balanced path_copy.
Proof. by intros s a s1 [= _ <-]. Qed.

Lemma balanced_push_incremental p : balanced (push_incremental p).
Proof. by intros s a s1 [= _ <-]. Qed.

Lemma balanced_push_handle p : balanced (push_handle p).
Proof. by intros s a s1 [= _ <-]. Qed.

Lemma balanced_push_match p : balanced (push_match p).
Proof. by intros s a s1 [= _ <-]. Qed.

Lemma balanced_warning E cond d : balanced (warning E cond d).
Proof.
  intros s a s1. rewrite warning_run. intros [= _ <-]. unfold noted.
  by destruct (DEV E && negb cond).
Qed.

Lemma balanced_when_dev E m : balanced m → balanced (when_dev E m).
Proof. unfold when_dev. destruct (DEV E); [done | intros _; apply balanced_ret]. Qed.

Lemma balanced_write_field record storageKey set value :
  balanced (write_field record storageKey set value).
Proof.
  apply balanced_bind; [apply balanced_deref|]. by intros r s a s1 [= _ <-].
Qed.

Lemma balanced_typed_get {A} (get : RelayRecord → string → Access A) record storageKey :
  balanced (typed_get get record storageKey).
Proof.
  apply balanced_bind; [apply balanced_deref|]. intros r.
  destruct (get r storageKey); [apply balanced_ret | apply balanced_throw].
Qed.

Lemma balanced_getDataID record : balanced (getDataID record).
Proof. apply balanced_bind; [apply balanced_deref | intros; apply balanced_ret]. Qed.

Lemma balanced_getType record : balanced (getType record).
Proof. apply balanced_bind; [apply balanced_deref | intros; apply balanced_ret]. Qed.

Create HintDb balanced.
#[local] Hint Resolve balanced_ret balanced_throw balanced_invariant balanced_source_get
  balanced_source_set balanced_deref balanced_path_copy balanced_push_incremental
  balanced_push_handle balanced_push_match balanced_warning balanced_when_dev
  balanced_write_field balanced_typed_get balanced_getDataID balanced_getType
  balanced_stateless pops_pop stateless_getVariableValue stateless_guard_value
  stateless_getRecordType stateless_imported stateless_concrete_or_record_type stateless_observed
  stateless_ret : balanced.

Ltac balanced_step :=
  lazymatch goal with
  | |- balanced (bind (path_push _) _) => apply balanced_push
  | |- balanced (when_dev _ _) => apply balanced_when_dev
  | |- balanced (bind _ _) => apply balanced_bind; [|intros ?]
  | |- pops (bind path_pop _) => apply pops_pop_then
  | |- pops (bind _ _) => apply pops_bind; [|intros ?]
  | |- balanced (match ?x with _ => _ end) => destruct x
  | |- pops (match ?x with _ => _ end) => destruct x
  | |- balanced (let _ := _ in _) => cbv zeta
  end.

Ltac balanced_auto := repeat balanced_step; eauto with balanced.

Lemma balanced_traverse_selection E vars hsn selection :
  ∀ parent record data,
    balanced (traverse_selection E vars hsn parent record data selection).
Proof.
  assert (Hitems : ∀ traverse field ct record key prev items,
             (∀ r d, balanced (traverse r d)) →
             ∀ i acc, balanced (plural_items E traverse field ct record key prev
                                             items i acc)).
  { intros traverse field ct record key prev items Ht.
    induction items as [|item rest IH]; intros i acc; cbn; [apply balanced_ret|].
    apply balanced_bind; [|intros ?; apply IH].
    unfold plural_item, item_id, id_or, reuse_or, client_id, get_or_create,
      _validateRecordType, expect_string.
    destruct item; balanced_auto. }
  assert (Hfield : ∀ traverse parent field f record data,
             (∀ r d, balanced (traverse r d)) →
             balanced (_normalizeField E vars hsn traverse parent field f record data)).
  { intros traverse parent field f record data Ht.
    unfold _normalizeField, write_missing, setValue, _normalizeLink,
      _normalizePluralLink, link_to_next, link_id, id_or, reuse_or, client_id,
      get_or_create, _validateRecordType, expect_string, setLinkedRecordID,
      setLinkedRecordIDs.
    balanced_auto. }
  induction selection as [f|f ct pl sels IH|pv c sels IH|t sels IH|h|h|f m
                         |i l sels IH|i l sels IH|n sels IH|n|n sels IH]
    using Selection_tree_ind; intros parent record data; cbn.
  - apply Hfield. intros; apply balanced_ret.
  - apply Hfield. intros r d. apply balanced_forEach.
    eapply Forall_impl; [exact IH|]. cbn. auto.
  - balanced_auto. apply balanced_forEach. eapply Forall_impl; [exact IH|]. cbn. auto.
  - balanced_auto. apply balanced_forEach. eapply Forall_impl; [exact IH|]. cbn. auto.
  - unfold handle_field. balanced_auto.
  - unfold handle_field. balanced_auto.
  - unfold _normalizeMatchField, write_missing, setValue, link_to_next, link_id, id_or,
      reuse_or, client_id, get_or_create, _validateRecordType, expect_string,
      setLinkedRecordID.
    balanced_auto.
  - assert (balanced (forEach (traverse_selection E vars hsn (Defer i l sels) record data)
                              sels)).
    { apply balanced_forEach. eapply Forall_impl; [exact IH|]. cbn. auto. }
    unfold _normalizeDefer, continuation. balanced_auto.
  - assert (balanced (forEach (traverse_selection E vars hsn (Stream i l sels) record data)
                              sels)).
    { apply balanced_forEach. eapply Forall_impl; [exact IH|]. cbn. auto. }
    unfold _normalizeStream, continuation. balanced_auto.
  - apply balanced_throw.
  - apply balanced_throw.
  - apply balanced_throw.
Qed.

Lemma balanced_traverseSelections E vars hsn node record data :
  balanced (_traverseSelections E vars hsn node record data).
Proof.
  unfold _traverseSelections. apply balanced_forEach, Forall_forall.
  intros selection _. apply balanced_traverse_selection.
Qed.

(** ** C6: a match field of a type the selection does not know *)

Lemma getRecordType_run E data typeName s :
  js_get data (TYPENAME_KEY E) = Some typeName → typeName ≠ JNull →
  _getRecordType E data s = Ok typeName s.
Proof. unfold _getRecordType. intros -> Hnn. by destruct typeName. Qed.

Lemma dom_insert_existing (src : gmap DataID RelayRecord) id r r1 :
  src !! id = Some r → dom (<[id := r1]> src) = dom src.
Proof.
  intros Hr. rewrite dom_insert_L. apply (elem_of_dom_2 (D := gset string)) in Hr.
  apply (anti_symm (⊆)); [|apply union_subseteq_r].
  apply union_subseteq. split; [by apply singleton_subseteq_l | done].
Qed.

(** X27. A match field whose response value is an object with a
    typename under which the property read [matchesByType[typeName]]
    finds nothing, neither an entry of the table nor a property that
    the table inherits as an object: the walker stores null under the
    field's storage key on the owner and returns.  Nothing is thrown,
    the store gets no new record, and no payload of any kind is
    appended. *)
Theorem unmatched_type_stores_null E vars hsn parent f matchesByType record data
  fieldValue typeName storageKey r s :
  is_object data = true →
  _recordSource s !! record = Some r →
  js_get data (str_or (alias f) (name f)) = Some fieldValue →
  is_object fieldValue = true →
  js_get fieldValue (TYPENAME_KEY E) = Some typeName →
  typeName ≠ JNull →
  match_for E matchesByType typeName = None →
  getStorageKey E (MatchField f matchesByType) vars = Returned storageKey →
  ∃ s1, traverse_selection E vars hsn parent record data (MatchField f matchesByType) s
        = Ok tt s1 ∧
        stored (_recordSource s1) record storageKey = Some (FScalar JNull) ∧
        _recordSource s1 =
          <[record := RelayModernRecord.setValue r storageKey JNull]> (_recordSource s) ∧
        dom (_recordSource s1) = dom (_recordSource s) ∧
        _matchFieldPayloads s1 = _matchFieldPayloads s ∧
        _incrementalPayloads s1 = _incrementalPayloads s ∧
        _handleFieldPayloads s1 = _handleFieldPayloads s ∧
        diagnostics s1 = diagnostics s.
Proof.
  intros Hobj Hr Hv Hfv Hty Hnn Hmatch Hkey. cbn.
  unfold _normalizeMatchField, responseKey_of.
  rewrite Hobj, (bind_Ok _ _ _ _ _ (invariant_true _ _)).
  rewrite (bind_Ok _ _ _ _ _ (imported_run _ _ _ Hkey)), Hv.
  assert (Hrun :
    (invariant (is_object fieldValue) (ErrValueNotObject storageKey);;
     let* typeName := _getRecordType E fieldValue in
     match match_for E matchesByType typeName with
     | None => setValue record storageKey JNull
     | Some _ =>
         let* nextID := link_to_next E fieldValue record storageKey in
         get_or_create E (MatchField f matchesByType) nextID fieldValue (ret typeName);;
         match js_get fieldValue (MATCH_FRAGMENT_KEY E) with
         | None | Some JNull => ret tt
         | Some operationReference =>
             push_match (mkMatchPayload operationReference nextID fieldValue typeName vars)
         end
     end) s = setValue record storageKey JNull s).
  { rewrite Hfv, (bind_Ok _ _ _ _ _ (invariant_true _ _)).
    rewrite (bind_Ok _ _ _ _ _ (getRecordType_run _ _ _ _ Hty Hnn)).
    by rewrite Hmatch. }
  destruct fieldValue; try discriminate Hfv; rewrite Hrun;
    rewrite (setValue_run _ _ _ _ _ Hr); (eexists; split; [reflexivity|]); cbn;
    rewrite stored_insert; cbn; rewrite lookup_insert_eq;
    (repeat split; try reflexivity);
    by eapply dom_insert_existing.
Qed.

Lemma unmatched_type_stores_null_witness :
  ∃ s1, traverse_selection (Sample.externals true) (∅ : Variables) false
          (Operation "Q" []) "client:root"
          (JObj [("card", JObj [("__typename", JStr "Video")])])
          (MatchField (mkField None "card" None None)
                      {[ "Photo" := mkMatch "photo" "PhotoCard_photo" ]})
          (constructor {[ "client:root" := Sample.root_record ]}) = Ok tt s1 ∧
        stored (_recordSource s1) "client:root" "card" = Some (FScalar JNull).
Proof.
  destruct (unmatched_type_stores_null (Sample.externals true) (∅ : Variables) false
              (Operation "Q" []) (mkField None "card" None None)
              {[ "Photo" := mkMatch "photo" "PhotoCard_photo" ]} "client:root"
              (JObj [("card", JObj [("__typename", JStr "Video")])])
              (JObj [("__typename", JStr "Video")]) (JStr "Video") "card"
              Sample.root_record
              (constructor {[ "client:root" := Sample.root_record ]}))
    as (s1 & Hrun & Hst & _);
    [reflexivity | vm_compute; reflexivity | reflexivity | reflexivity | reflexivity
    | discriminate | vm_compute; reflexivity | reflexivity |].
  exists s1. split; [exact Hrun | exact Hst].
Defined.

(** C6. The typename [constructor] has no entry in the match table, and
    yet null is not stored: the function that the table inherits under
    that name counts as its match, and the walker links the field to a
    record that it creates with that type. *)
Lemma inherited_typename_is_matched :
  let matchesByType : gmap string MatchDescriptor :=
    {[ "Photo" := mkMatch "photo" "PhotoCard_photo" ]} in
  let s := constructor {[ "client:root" := Sample.root_record ]} in
  matchesByType !! "constructor" = None ∧
  ∃ s1, traverse_selection (Sample.externals false) (∅ : Variables) false
          (Operation "Q" []) "client:root"
          (JObj [("card", JObj [("__typename", JStr "constructor")])])
          (MatchField (mkField None "card" None None) matchesByType) s = Ok tt s1 ∧
        stored (_recordSource s1) "client:root" "card" = Some (FLink "client:root:card") ∧
        _recordSource s1 !! "client:root:card"
        = Some (RelayModernRecord.create "client:root:card" (JStr "constructor")).
Proof.
  split; [vm_compute; reflexivity|].
  eexists; split; [vm_compute; reflexivity|]. split; vm_compute; reflexivity.
Qed.

Lemma forEach_app_inv {A} (f : A → M unit) (l1 l2 : list A) s u s2 :
  forEach f (l1 ++ l2) s = Ok u s2 →
  ∃ s1, forEach f l1 s = Ok tt s1 ∧ forEach f l2 s1 = Ok u s2.
Proof.
  revert s. induction l1 as [|x l1 IH]; intros s; cbn; [by exists s|].
  intros Hrun. apply bind_inv in Hrun as ([] & s' & Hx & Hrun).
  destruct (IH _ Hrun) as (s1 & H1 & H2). exists s1. split; [|done].
  by rewrite (bind_Ok _ _ _ _ _ Hx).
Qed.

(** ** C5: stream *)

(** C5. A stream selection normalizes its subtree first, whatever the
    guard.  When that succeeds and the guard then resolves to [g], the
    call succeeds in the state the subtree left, with one incremental
    payload of kind stream appended (label, the current path, a selector
    made of the owner's identity, the stream node and the variables)
    exactly when [g] is [true], and none otherwise. *)
Theorem stream_selection E vars hsn parent record data if_ label sels r g s s1 :
  _recordSource s !! record = Some r →
  _traverseSelections E vars hsn (Stream if_ label sels) record data s = Ok tt s1 →
  guard_value vars if_ s1 = Ok g s1 →
  ∃ s2, traverse_selection E vars hsn parent record data (Stream if_ label sels) s
        = Ok tt s2 ∧
        _incrementalPayloads s2 =
          _incrementalPayloads s1 ++
          match g with
          | JBool true =>
              [mkIncremental KindStream label (_path s)
                 (mkSelector (rec_id r) (Stream if_ label sels) vars)]
          | _ => []
          end ∧
        _recordSource s2 = _recordSource s1 ∧
        journal s2 = journal s1 ∧
        _path s2 = _path s ∧
        _handleFieldPayloads s2 = _handleFieldPayloads s1 ∧
        _matchFieldPayloads s2 = _matchFieldPayloads s1.
Proof.
  intros Hr Htrav Hg.
  pose proof (balanced_traverseSelections _ _ _ _ _ _ _ _ _ Htrav) as Hpath.
  destruct (grows_source _ _ (mono_traverseSelections _ _ _ _ _ _ _ _ _ Htrav) _ _ Hr)
    as (r1 & Hr1 & Hid & _).
  cbn. unfold _normalizeStream. unfold _traverseSelections in Htrav. cbn in Htrav.
  rewrite (bind_Ok _ _ _ _ _ Htrav), (bind_Ok _ _ _ _ _ Hg),
    (bind_Ok _ _ _ _ _ (when_dev_warning_run _ _ _ _)).
  destruct g as [|[]| | | | |];
    unfold continuation, bind, path_copy, getDataID, bind, deref, noted, ret;
    destruct (DEV E); cbn; rewrite ?Hr1; cbn;
    (eexists; split; [reflexivity|]); cbn; unfold RelayModernRecord.getDataID;
    rewrite ?Hpath, ?Hid, ?app_nil_r; done.
Qed.

Lemma stream_selection_witness :
  ∃ s2, traverse_selection (Sample.externals true) ({[ "live" := JBool true ]} : Variables)
          false (Operation "Q" []) "client:root"
          (JObj [("items", JArr [JObj [("id", JStr "a")]; JObj [("id", JStr "b")]])])
          (Stream (Some "live") "Q$stream"
                  [Sample.linked "items" (Some "Item") true [Sample.scalar "id"]])
          (constructor {[ "client:root" := Sample.root_record ]}) = Ok tt s2 ∧
        length (_incrementalPayloads s2) = 1 ∧
        stored (_recordSource s2) "client:root" "items" = Some (FLinks [Some "a"; Some "b"]).
Proof.
  set (vars := ({[ "live" := JBool true ]} : Variables)).
  set (node := Stream (Some "live") "Q$stream"
                 [Sample.linked "items" (Some "Item") true [Sample.scalar "id"]]).
  set (data := JObj [("items", JArr [JObj [("id", JStr "a")]; JObj [("id", JStr "b")]])]).
  set (s := constructor {[ "client:root" := Sample.root_record ]}).
  destruct (_traverseSelections (Sample.externals true) vars false node "client:root" data s)
    as [[] s1|e s1] eqn:Htrav; [|by vm_compute in Htrav].
  destruct (stream_selection (Sample.externals true) vars false (Operation "Q" [])
              "client:root" data (Some "live") "Q$stream"
              [Sample.linked "items" (Some "Item") true [Sample.scalar "id"]]
              Sample.root_record (JBool true) s s1)
    as (s2 & Hrun & Hinc & Hsrc & _);
    [vm_compute; reflexivity | exact Htrav | reflexivity |].
  exists s2. split; [exact Hrun|].
  vm_compute in Htrav. injection Htrav as <-.
  rewrite Hinc, Hsrc. split; vm_compute; reflexivity.
Defined.

(** ** C1 and C3: the identity of a linked record *)

Lemma typed_get_inv {A} (get : RelayRecord → string → Access A) record storageKey s a s1 :
  typed_get get record storageKey s = Ok a s1 →
  ∃ r, _recordSource s !! record = Some r ∧ get r storageKey = Got a ∧ s1 = s.
Proof.
  unfold typed_get. intros H. apply bind_inv in H as (r & s' & Hd & H).
  apply deref_inv in Hd as [Hr ->]. exists r.
  destruct (get r storageKey); [|discriminate]. by injection H as -> ->.
Qed.

Lemma getLinkedRecordID_stored r storageKey prev :
  RelayModernRecord.getLinkedRecordID r storageKey = Got prev →
  stored_link r storageKey = prev.
Proof.
  unfold RelayModernRecord.getLinkedRecordID, RelayModernRecord.slot, stored_link.
  destruct (rec_fields r !! storageKey) as [[v| |]|]; try congruence.
  - destruct v; congruence.
  - destruct (String.eqb storageKey RelayModernRecord.TYPENAME_KEY).
    + destruct (rec_type r); congruence.
    + destruct (String.eqb storageKey RelayModernRecord.ID_KEY); [congruence|].
      destruct (Object_inherited storageKey) as [v|]; cbn; [destruct v|]; congruence.
Qed.

Lemma getLinkedRecordIDs_stored r storageKey prev :
  RelayModernRecord.getLinkedRecordIDs r storageKey = Got prev →
  stored_list r storageKey = prev.
Proof.
  unfold RelayModernRecord.getLinkedRecordIDs, RelayModernRecord.slot, stored_list.
  destruct (rec_fields r !! storageKey) as [[v| |]|]; try congruence.
  - destruct v; congruence.
  - destruct (String.eqb storageKey RelayModernRecord.TYPENAME_KEY).
    + destruct (rec_type r); congruence.
    + destruct (String.eqb storageKey RelayModernRecord.ID_KEY); [congruence|].
      destruct (Object_inherited storageKey) as [v|]; cbn; [destruct v|]; congruence.
Qed.

Lemma client_id_spec E record storageKey index r s v s1 :
  _recordSource s !! record = Some r →
  client_id E record storageKey index s = Ok v s1 →
  s1 = s ∧ v = JStr (generateRelayClientID E (rec_id r) storageKey index).
Proof.
  intros Hr. unfold client_id, getDataID, bind, deref. rewrite Hr. cbn.
  by intros [= <- <-].
Qed.

Lemma reuse_or_spec prev otherwise synthesized s v s1 :
  (∀ v' s', otherwise s = Ok v' s' → s' = s ∧ v' = JStr synthesized) →
  reuse_or prev otherwise s = Ok v s1 →
  s1 = s ∧ v = JStr (str_or prev synthesized).
Proof.
  intros Hother. unfold reuse_or, str_or. destruct prev as [id|]; [|apply Hother].
  destruct (String.eqb id ""); [apply Hother | by intros [= <- <-]].
Qed.

Lemma id_or_spec obj otherwise reused synthesized s v s1 :
  (∀ v' s', otherwise s = Ok v' s' → s' = s ∧ v' = JStr (str_or reused synthesized)) →
  id_or obj otherwise s = Ok v s1 →
  s1 = s ∧
  ∀ id, v = JStr id → id = identity_by_precedence (js_get obj "id") reused synthesized.
Proof.
  intros Hother. unfold id_or, identity_by_precedence.
  destruct (js_get obj "id") as [v0|].
  - destruct (truthy v0) eqn:Htruthy.
    + intros [= <- <-]. split; [done|]. intros id ->. cbn in Htruthy.
      by destruct (String.eqb id "").
    + intros H. destruct (Hother _ _ H) as [-> ->]. split; [done|].
      intros id [= <-]. destruct v0; try done. cbn in Htruthy.
      by destruct (String.eqb s0 "").
  - intros H. destruct (Hother _ _ H) as [-> ->]. split; [done|]. by intros id [= <-].
Qed.

Lemma expect_string_inv v e s id s1 : expect_string v e s = Ok id s1 → v = JStr id ∧ s1 = s.
Proof. destruct v; try discriminate. by intros [= <- <-]. Qed.

(** The identity [link_to_next] computes and the one write it performs. *)
Lemma link_to_next_spec E fieldValue record storageKey r s nextID s1 :
  _recordSource s !! record = Some r →
  link_to_next E fieldValue record storageKey s = Ok nextID s1 →
  nextID = identity_by_precedence (js_get fieldValue "id") (stored_link r storageKey)
             (generateRelayClientID E (rec_id r) storageKey None) ∧
  s1 = with_journal (mkWrite record storageKey (FLink nextID) :: journal s)
         (with_source (<[record := RelayModernRecord.setLinkedRecordID r storageKey nextID]>
                         (_recordSource s)) s).
Proof.
  intros Hr Hrun. unfold link_to_next in Hrun.
  apply bind_inv in Hrun as (v & s' & Hid & Hrun).
  apply bind_inv in Hrun as (id & s'' & Hstr & Hrun).
  apply expect_string_inv in Hstr as [-> ->].
  unfold link_id in Hid.
  apply (id_or_spec _ _ (stored_link r storageKey)
           (generateRelayClientID E (rec_id r) storageKey None)) in Hid as [-> Hid].
  - rewrite <- (Hid _ eq_refl).
    unfold setLinkedRecordID, write_field, bind, deref in Hrun. rewrite Hr in Hrun.
    by injection Hrun as <- <-.
  - intros v' s0 H. apply bind_inv in H as (prev & s1' & Hget & H).
    apply typed_get_inv in Hget as (r' & Hr' & Hprev & ->).
    assert (r' = r) as -> by congruence.
    rewrite (getLinkedRecordID_stored _ _ _ Hprev).
    revert H. apply reuse_or_spec. intros v'' s2. by apply client_id_spec.
Qed.

(** One iteration of the loop of [_normalizePluralLink]. *)
Lemma plural_item_spec E traverse field concreteType record storageKey prevIDs nextIDs
  item nextIndex r s ids s1 :
  _recordSource s !! record = Some r →
  plural_item E traverse field concreteType record storageKey prevIDs nextIDs item
              nextIndex s = Ok ids s1 →
  ids = nextIDs ++ [entry_for E (rec_id r) storageKey prevIDs nextIndex item].
Proof.
  intros Hr Hrun. unfold plural_item in Hrun.
  assert (Hobj : (path_push (pretty nextIndex);;
                  invariant (is_object item) (ErrElementNotObject storageKey);;
                  let* v := item_id E item prevIDs record storageKey nextIndex in
                  let* nextID := expect_string v (ErrElementIDNotString storageKey) in
                  get_or_create E field nextID item
                    (concrete_or_record_type E concreteType item);;
                  traverse nextID item;; path_pop;; ret (nextIDs ++ [Some nextID])) s
                 = Ok ids s1 →
                 ids = nextIDs ++
                       [Some (identity_by_precedence (js_get item "id")
                                (prev_entry prevIDs nextIndex)
                                (generateRelayClientID E (rec_id r) storageKey
                                   (Some nextIndex)))]).
  { clear Hrun. intros Hrun.
    apply bind_inv in Hrun as ([] & s' & [= <-] & Hrun).
    apply bind_inv in Hrun as ([] & s' & Hinv & Hrun).
    apply invariant_inv in Hinv as [_ ->].
    apply bind_inv in Hrun as (v & s' & Hid & Hrun).
    apply bind_inv in Hrun as (id & s'' & Hstr & Hrun).
    apply expect_string_inv in Hstr as [-> ->].
    unfold item_id in Hid.
    apply (id_or_spec _ _ (prev_entry prevIDs nextIndex)
             (generateRelayClientID E (rec_id r) storageKey (Some nextIndex)))
      in Hid as [-> Hid].
    - rewrite <- (Hid _ eq_refl).
      apply bind_inv in Hrun as ([] & s1' & _ & Hrun).
      apply bind_inv in Hrun as ([] & s2' & _ & Hrun).
      apply bind_inv in Hrun as ([] & s3' & _ & Hrun).
      by injection Hrun as <- _.
    - intros v' s0. apply reuse_or_spec. intros v'' s2. by apply client_id_spec. }
  destruct item; try (by apply Hobj). by injection Hrun as <- _.
Qed.

(** The whole loop: the identities come out in the order of the items. *)
Lemma plural_items_spec E traverse field concreteType record storageKey prevIDs owner items :
  (∀ r d, mono (traverse r d)) →
  ∀ nextIndex nextIDs s ids s1 r,
    _recordSource s !! record = Some r → rec_id r = owner →
    plural_items E traverse field concreteType record storageKey prevIDs items
                 nextIndex nextIDs s = Ok ids s1 →
    ids = nextIDs ++
          imap (λ j, entry_for E owner storageKey prevIDs (nextIndex + j)) items.
Proof.
  intros Ht. induction items as [|item rest IH]; intros nextIndex nextIDs s ids s1 r Hr Hid.
  - cbn. intros [= <- _]. by rewrite app_nil_r.
  - cbn. intros Hrun. apply bind_inv in Hrun as (ids' & s' & Hitem & Hrun).
    pose proof (mono_plural_item E traverse field concreteType record storageKey prevIDs
                  nextIDs item nextIndex Ht _ _ _ Hitem) as Hgrow.
    destruct (grows_source _ _ Hgrow _ _ Hr) as (r' & Hr' & Hid' & _).
    apply (plural_item_spec _ _ _ _ _ _ _ _ _ _ _ _ _ _ Hr) in Hitem. subst ids'.
    rewrite (IH _ _ _ _ _ _ Hr' ltac:(congruence) Hrun).
    rewrite <- app_assoc. cbn. rewrite Hid, Nat.add_0_r. do 2 f_equal.
    apply imap_ext. intros j x _. cbn. f_equal. lia.
Qed.

Lemma mono_children E vars hsn node sels r d :
  mono (forEach (traverse_selection E vars hsn node r d) sels).
Proof. apply mono_forEach, Forall_forall. intros x _. apply mono_traverse_selection. Qed.

(** A linked field with a non-null value: the link is normalized between
    a push and a pop of the response key. *)
Lemma linked_field_inv E vars hsn parent f ct plural sels record data fieldValue s s1 :
  js_get data (str_or (alias f) (name f)) = Some fieldValue →
  fieldValue ≠ JNull →
  traverse_selection E vars hsn parent record data (LinkedField f ct plural sels) s
  = Ok tt s1 →
  let field := LinkedField f ct plural sels in
  let traverse := λ r d, forEach (traverse_selection E vars hsn field r d) sels in
  ∃ storageKey s',
    getStorageKey E field vars = Returned storageKey ∧
    (if plural
     then _normalizePluralLink E traverse field ct record storageKey fieldValue
     else _normalizeLink E traverse field ct record storageKey fieldValue)
      (with_path (_path s ++ [str_or (alias f) (name f)]) s) = Ok tt s' ∧
    s1 = with_path (removelast (_path s')) s'.
Proof.
  intros Hv Hnn Hrun field traverse. cbn in Hrun. unfold _normalizeField in Hrun.
  apply bind_inv in Hrun as ([] & s0 & Hinv & Hrun).
  apply invariant_inv in Hinv as [_ ->]. cbv zeta in Hrun.
  apply bind_inv in Hrun as (storageKey & s0 & Hkey & Hrun).
  apply imported_inv in Hkey as [Hkey ->].
  unfold responseKey_of in Hrun. rewrite Hv in Hrun.
  assert (Hgo : (path_push (str_or (alias f) (name f));;
                 (if plural
                  then _normalizePluralLink E traverse field ct record storageKey
                         fieldValue
                  else _normalizeLink E traverse field ct record storageKey fieldValue);;
                 path_pop) s = Ok tt s1).
  { destruct fieldValue; first [exact Hrun | done]. }
  apply bind_inv in Hgo as ([] & s0 & [= <-] & Hgo).
  apply bind_inv in Hgo as ([] & s' & Hlink & [= <-]). by exists storageKey, s'.
Qed.

Lemma plural_link_spec E traverse field ct record storageKey fieldValue r s s1 :
  (∀ r d, mono (traverse r d)) →
  _recordSource s !! record = Some r →
  _normalizePluralLink E traverse field ct record storageKey fieldValue s = Ok tt s1 →
  ∃ items, fieldValue = JArr items ∧
    let ids := imap (entry_for E (rec_id r) storageKey (stored_list r storageKey)) items in
    stored (_recordSource s1) record storageKey = Some (FLinks ids) ∧
    ∃ later, journal s1 = mkWrite record storageKey (FLinks ids) :: later.
Proof.
  intros Ht Hr Hrun. unfold _normalizePluralLink in Hrun.
  destruct fieldValue as [| | | |items| |]; try discriminate Hrun. exists items.
  split; [done|].
  apply bind_inv in Hrun as (prevIDs & s0 & Hget & Hrun).
  apply typed_get_inv in Hget as (r' & Hr' & Hprev & ->).
  assert (r' = r) as -> by congruence.
  apply getLinkedRecordIDs_stored in Hprev. subst prevIDs.
  apply bind_inv in Hrun as (ids & s' & Hitems & Hrun).
  apply (plural_items_spec _ _ _ _ _ _ _ (rec_id r) _ Ht _ _ _ _ _ _ Hr eq_refl) in Hitems.
  cbn in Hitems. subst ids.
  unfold setLinkedRecordIDs, write_field in Hrun.
  apply bind_inv in Hrun as (r1 & s'' & Hd & Hrun). apply deref_inv in Hd as [Hr1 ->].
  injection Hrun as <-. cbn. rewrite stored_insert. cbn. rewrite lookup_insert_eq.
  split; [done | by eexists].
Qed.

(** C3. A plural linked field whose response value is the array
    [items]: after the field is normalized, the owner stores under the
    field's key a list of exactly [length items] entries, whatever it
    stored there before; an entry is null exactly where the item is null;
    and an item's server identity sits at the item's own index. *)
Theorem plural_link_list E vars hsn parent f ct sels record data items r s s1 :
  _recordSource s !! record = Some r →
  js_get data (str_or (alias f) (name f)) = Some (JArr items) →
  traverse_selection E vars hsn parent record data (LinkedField f ct true sels) s
  = Ok tt s1 →
  ∃ storageKey ids,
    getStorageKey E (LinkedField f ct true sels) vars = Returned storageKey ∧
    stored (_recordSource s1) record storageKey = Some (FLinks ids) ∧
    length ids = length items ∧
    (∀ i, ids !! i = Some None ↔ items !! i = Some JNull) ∧
    (∀ i item id, items !! i = Some item → js_get item "id" = Some (JStr id) → id ≠ "" →
                  ids !! i = Some (Some id)).
Proof.
  intros Hr Hv Hrun.
  apply (linked_field_inv _ _ _ _ _ _ _ _ _ _ _ _ _ Hv) in Hrun
    as (storageKey & s' & Hkey & Hlink & ->); [|done].
  apply (plural_link_spec _ _ _ _ _ _ _ r) in Hlink as (items' & [= <-] & Hst & _);
    [|intros; apply mono_children|exact Hr].
  exists storageKey. eexists. split; [exact Hkey|].
  split; [exact Hst|]. split; [apply length_imap|]. split.
  - intros i. rewrite list_lookup_imap. destruct (items !! i) as [item|]; cbn; [|done].
    destruct item; cbn; split; intros [=]; done.
  - intros i item id Hi Hid Hne. rewrite list_lookup_imap, Hi. cbn.
    unfold entry_for, identity_by_precedence. rewrite Hid.
    apply String.eqb_neq in Hne. rewrite Hne. by destruct item.
Qed.

Lemma plural_link_list_witness :
  ∃ s1, traverse_selection (Sample.externals true) (∅ : Variables) false
          (Operation "Q" []) "client:root"
          (JObj [("items", JArr [JObj [("id", JStr "a")]; JNull; JObj [("id", JStr "b")]])])
          (Sample.linked "items" (Some "Item") true [Sample.scalar "id"])
          (constructor {[ "client:root" := Sample.root_record ]}) = Ok tt s1 ∧
        ∃ ids, stored (_recordSource s1) "client:root" "items" = Some (FLinks ids) ∧
               length ids = 3 ∧ ids !! 0 = Some (Some "a") ∧ ids !! 1 = Some None.
Proof.
  set (data := JObj [("items", JArr [JObj [("id", JStr "a")]; JNull;
                                     JObj [("id", JStr "b")]])]).
  set (s := constructor {[ "client:root" := Sample.root_record ]}).
  destruct (traverse_selection (Sample.externals true) (∅ : Variables) false
              (Operation "Q" []) "client:root" data
              (Sample.linked "items" (Some "Item") true [Sample.scalar "id"]) s)
    as [[] s1|e s1] eqn:Hrun; [|by vm_compute in Hrun].
  exists s1. split; [done|].
  destruct (plural_link_list (Sample.externals true) (∅ : Variables) false
              (Operation "Q" []) (mkField None "items" None None) (Some "Item")
              [Sample.scalar "id"] "client:root" data
              [JObj [("id", JStr "a")]; JNull; JObj [("id", JStr "b")]]
              Sample.root_record s s1)
    as (storageKey & ids & Hkey & Hst & Hlen & Hnull & Hid);
    [vm_compute; reflexivity | reflexivity | exact Hrun |].
  injection Hkey as <-.
  exists ids. split; [exact Hst|]. split; [exact Hlen|]. split.
  - apply (Hid 0 (JObj [("id", JStr "a")]) "a"); [reflexivity | reflexivity | discriminate].
  - apply (Hnull 1). reflexivity.
Defined.

(** C1.  A linked field with a non-null value, normalized
    against an owner record.  Singular: the first write of the run stores
    on the owner, under the field's key, the identity chosen by
    precedence: the value's [id] when it is a non-empty string, else the
    identity the owner stored under that key when that is a non-empty
    string, else the client identity generated from the owner's identity
    and the key.  Plural: the list stored under the key holds, for every
    non-null item, the identity chosen the same way from the item's [id],
    the entry the owner stored at the item's index, and the client
    identity generated from owner, key and index. *)
Theorem linked_identity_precedence E vars hsn parent f ct plural sels record data
  fieldValue r s s1 :
  _recordSource s !! record = Some r →
  js_get data (str_or (alias f) (name f)) = Some fieldValue →
  fieldValue ≠ JNull →
  traverse_selection E vars hsn parent record data (LinkedField f ct plural sels) s
  = Ok tt s1 →
  ∃ storageKey,
    getStorageKey E (LinkedField f ct plural sels) vars = Returned storageKey ∧
    if plural
    then ∃ items ids,
           fieldValue = JArr items ∧
           stored (_recordSource s1) record storageKey = Some (FLinks ids) ∧
           ∀ i item, items !! i = Some item → item ≠ JNull →
             ids !! i =
             Some (Some (identity_by_precedence (js_get item "id")
                           (prev_entry (stored_list r storageKey) i)
                           (generateRelayClientID E (rec_id r) storageKey (Some i))))
    else ∃ later,
           journal s1 =
           later ++
           mkWrite record storageKey
             (FLink (identity_by_precedence (js_get fieldValue "id")
                       (stored_link r storageKey)
                       (generateRelayClientID E (rec_id r) storageKey None)))
           :: journal s.
Proof.
  intros Hr Hv Hnn Hrun.
  apply (linked_field_inv _ _ _ _ _ _ _ _ _ _ _ _ _ Hv Hnn) in Hrun
    as (storageKey & s' & Hkey & Hlink & ->).
  exists storageKey. split; [exact Hkey|].
  destruct plural.
  - apply (plural_link_spec _ _ _ _ _ _ _ r) in Hlink as (items & -> & Hst & _);
      [|intros; apply mono_children|exact Hr].
    eexists items, _. split; [done|]. split; [exact Hst|].
    intros i item Hi Hitem. rewrite list_lookup_imap, Hi. cbn. by destruct item.
  - unfold _normalizeLink in Hlink.
    apply bind_inv in Hlink as ([] & s0 & Hinv & Hlink).
    apply invariant_inv in Hinv as [_ ->].
    apply bind_inv in Hlink as (nextID & s0 & Hnext & Hrest).
    apply (link_to_next_spec _ _ _ _ r) in Hnext as [-> ->]; [|exact Hr].
    assert (Hmono : mono
      (get_or_create E (LinkedField f ct false sels)
         (identity_by_precedence (js_get fieldValue "id") (stored_link r storageKey)
            (generateRelayClientID E (rec_id r) storageKey None))
         fieldValue (concrete_or_record_type E ct fieldValue);;
       forEach (traverse_selection E vars hsn (LinkedField f ct false sels)
                  (identity_by_precedence (js_get fieldValue "id")
                     (stored_link r storageKey)
                     (generateRelayClientID E (rec_id r) storageKey None))
                  fieldValue) sels)).
    { apply mono_bind; [eauto with mono | intros _; apply mono_children]. }
    destruct (grows_journal _ _ (Hmono _ _ _ Hrest)) as [later Hlater].
    exists later. cbn. exact Hlater.
Qed.

Lemma linked_identity_precedence_witness :
  let s := constructor
             {[ "client:root" :=
                  RelayModernRecord.setLinkedRecordID Sample.root_record "me" "u1" ]} in
  ∃ s1 later,
    traverse_selection (Sample.externals true) (∅ : Variables) false (Operation "Q" [])
      "client:root" (JObj [("me", JObj [("name", JStr "Ada")])])
      (Sample.linked "me" (Some "User") false [Sample.scalar "name"]) s = Ok tt s1 ∧
    journal s1 = later ++ mkWrite "client:root" "me" (FLink "u1") :: journal s.
Proof.
  intros s.
  set (data := JObj [("me", JObj [("name", JStr "Ada")])]).
  destruct (traverse_selection (Sample.externals true) (∅ : Variables) false
              (Operation "Q" []) "client:root" data
              (Sample.linked "me" (Some "User") false [Sample.scalar "name"]) s)
    as [[] s1|e s1] eqn:Hrun; [|by vm_compute in Hrun].
  destruct (linked_identity_precedence (Sample.externals true) (∅ : Variables) false
              (Operation "Q" []) (mkField None "me" None None) (Some "User") false
              [Sample.scalar "name"] "client:root" data (JObj [("name", JStr "Ada")])
              (RelayModernRecord.setLinkedRecordID Sample.root_record "me" "u1") s s1)
    as (storageKey & Hkey & later & Hlater);
    [vm_compute; reflexivity | reflexivity | discriminate | exact Hrun |].
  injection Hkey as <-.
  exists s1, later. split; [reflexivity | exact Hlater].
Defined.

(** C1, a boundary case.  An [id] that is present but empty is not
    used: the owner keeps the identity it had stored, where "the id field
    if present" would have written the empty identity. *)
Lemma empty_server_id_is_skipped :
  let s := constructor
             {[ "client:root" :=
                  RelayModernRecord.setLinkedRecordID Sample.root_record "me" "u1" ]} in
  let fieldValue := JObj [("id", JStr ""); ("name", JStr "Ada")] in
  js_get fieldValue "id" = Some (JStr "") ∧
  identity_if_present (js_get fieldValue "id") (Some "u1")
    (Sample.client_id "client:root" "me" None) = "" ∧
  ∃ s1, traverse_selection (Sample.externals true) (∅ : Variables) false
          (Operation "Q" []) "client:root" (JObj [("me", fieldValue)])
          (Sample.linked "me" (Some "User") false [Sample.scalar "name"]) s = Ok tt s1 ∧
        stored (_recordSource s1) "client:root" "me" = Some (FLink "u1") ∧
        journal s1 = [mkWrite "u1" "name" (FScalar (JStr "Ada"));
                      mkWrite "client:root" "me" (FLink "u1")].
Proof.
  intros s fieldValue. split; [reflexivity|]. split; [reflexivity|].
  eexists. split; [vm_compute; reflexivity|]. split; vm_compute; reflexivity.
Qed.

(** ** C9: normalizing the same response again *)

Lemma settled_grows R F s s1 : grows s s1 → settled R F s1 → settled R F s.
Proof.
  intros Hg (Hj & Hp & Hk & Hb).
  destruct (grows_journal _ _ Hg) as [later Hlater].
  split; [|split; [|split]].
  - unfold links_in_place in *. rewrite Hlater in Hj. by apply Forall_app in Hj as [_ Hj].
  - eapply persists_trans; [apply (grows_source _ _ Hg) | exact Hp].
  - unfold types_kept in *. rewrite Hlater in Hk. by apply Forall_app in Hk as [_ Hk].
  - exact Hb.
Qed.

Lemma overlay_cons w J F : overlay (w :: J) F = apply_write w (overlay J F).
Proof. reflexivity. Qed.

Lemma overlay_lookup_None J F id : F !! id = None → overlay J F !! id = None.
Proof.
  intros HF. induction J as [|w J IH]; [done|]. rewrite overlay_cons. unfold apply_write.
  rewrite lookup_alter. case_decide; [|done]. subst id. by rewrite IH.
Qed.

Lemma overlay_lookup J F id rF :
  F !! id = Some rF →
  ∃ r', overlay J F !! id = Some r' ∧ rec_id r' = rec_id rF ∧ rec_type r' = rec_type rF ∧
        ∀ key, rec_fields r' !! key = match latest J id key with
                                       | Some v => Some v
                                       | None => rec_fields rF !! key
                                       end.
Proof.
  intros HF. induction J as [|w J (r' & Hr' & Hid & Hty & Hfields)]; [by exists rF|].
  rewrite overlay_cons. unfold apply_write. rewrite lookup_alter. cbn [latest].
  case_decide as Hrec.
  - subst id. rewrite Hr'. cbn. eexists. split; [reflexivity|]. cbn.
    split; [done|]. split; [done|]. intros key.
    destruct (decide (w_record w = w_record w ∧ w_key w = key)) as [[_ <-]|Hne].
    + apply lookup_insert_eq.
    + rewrite lookup_insert_ne; [apply Hfields|]. intros Hkey. by apply Hne.
  - exists r'. split; [done|]. split; [done|]. split; [done|]. intros key.
    destruct (decide (w_record w = id ∧ w_key w = key)) as [[? _]|Hne]; [done|].
    apply Hfields.
Qed.

Lemma overlay_coherent s : coherent s → overlay (journal s) (_recordSource s) = _recordSource s.
Proof.
  intros Hco. apply map_eq. intros id.
  destruct (_recordSource s !! id) as [r|] eqn:Hr; [|by apply overlay_lookup_None].
  destruct (overlay_lookup (journal s) _ _ _ Hr) as (r' & -> & Hid & Hty & Hfields).
  f_equal. destruct r' as [i' t' f'], r as [i t f]. cbn in *. subst i' t'. f_equal.
  apply map_eq. intros key. rewrite Hfields.
  destruct (latest (journal s) id key) as [v|] eqn:Hlatest; [|done].
  specialize (Hco _ _ _ Hlatest). unfold stored in Hco. by rewrite Hr in Hco.
Qed.

(** A record of the first run, as the second run finds it. *)
Lemma replayed_lookup R F s record r :
  settled R F s → _recordSource s !! record = Some r →
  ∃ r', _recordSource (replayed F s) !! record = Some r' ∧
        rec_id r' = rec_id r ∧ rec_type r' = rec_type r ∧
        ∀ key, rec_fields r' !! key = match latest (journal s) record key with
                                       | Some v => Some v
                                       | None => stored F record key
                                       end.
Proof.
  intros (_ & Hp & _) Hr. destruct (Hp _ _ Hr) as (rF & HF & Hid & Hty).
  destruct (overlay_lookup (journal s) _ _ _ HF) as (r' & Hr' & Hid' & Hty' & Hfields).
  exists r'. split; [done|]. split; [congruence|]. split; [congruence|].
  intros key. rewrite Hfields. unfold stored. by rewrite HF.
Qed.

(** The type of a record of the first run, as the second run reads
    it: no write has changed it, and none will. *)
Lemma replayed_type R F s record r r' :
  tracks R s → settled R F s →
  _recordSource s !! record = Some r →
  _recordSource (replayed F s) !! record = Some r' →
  RelayModernRecord.getType r' = RelayModernRecord.getType r.
Proof.
  intros Htr Hset Hr Hr'.
  destruct (replayed_lookup _ _ _ _ _ Hset Hr) as (r'' & Hr'' & _ & Hty & Hfields).
  assert (r'' = r') as -> by congruence.
  destruct Hset as (_ & Hp & _ & Hbefore). destruct (Hp _ _ Hr) as (rF & HF & _ & HtyF).
  pose proof (tracks_coherent _ _ Htr) as Hco. destruct Htr as [HpR Htr].
  specialize (Htr record RelayModernRecord.TYPENAME_KEY).
  specialize (Hfields RelayModernRecord.TYPENAME_KEY).
  unfold RelayModernRecord.getType. rewrite Hfields.
  unfold written_over, stored in Htr. rewrite Hr in Htr.
  destruct (latest (journal s) record RelayModernRecord.TYPENAME_KEY) as [v|] eqn:Hlatest.
  { by rewrite Htr. }
  specialize (Hbefore _ _ HF). unfold origin_type in Hbefore.
  unfold RelayModernRecord.getType in Hbefore.
  unfold stored. rewrite HF, Htr, Hty.
  destruct (R !! record) as [r0|] eqn:HR.
  - destruct (HpR _ _ HR) as (r1 & Hr1 & _ & Hty1). assert (r1 = r) as -> by congruence.
    injection Hbefore as Hbefore. rewrite HtyF, <- Hty1 in Hbefore. exact Hbefore.
  - rewrite HF in Hbefore. cbn in Hbefore. injection Hbefore as Hbefore.
    rewrite HtyF in Hbefore. exact Hbefore.
Qed.

Lemma sim_ret R F {A} (a : A) : sim R F (ret a).
Proof. by intros s a' s1 _ [= <- <-] _. Qed.

Lemma sim_throw R F {A} e : sim R F (@throw A e).
Proof. intros s a s1 _ [=]. Qed.

Lemma sim_bind R F {A B} (m : M A) (k : A → M B) :
  sim R F m → mono m → (∀ a, sim R F (k a)) → (∀ a, mono (k a)) → sim R F (bind m k).
Proof.
  intros Hm Hmono_m Hk Hmono_k s b s2 Hco Hrun Hset.
  apply bind_inv in Hrun as (a & s1 & H1 & H2).
  pose proof (settled_grows _ _ _ _ (Hmono_k _ _ _ _ H2) Hset) as Hset1.
  pose proof (grows_tracks _ _ (Hmono_m _ _ _ H1) _ Hco) as Hco1.
  by rewrite (bind_Ok _ _ _ _ _ (Hm _ _ _ Hco H1 Hset1)), (Hk _ _ _ _ Hco1 H2 Hset).
Qed.

Lemma sim_forEach R F {A} (f : A → M unit) (l : list A) :
  Forall (λ x, sim R F (f x) ∧ mono (f x)) l → sim R F (forEach f l).
Proof.
  induction 1 as [|x l [Hx Hmx] Hl IH]; cbn; [apply sim_ret|].
  apply sim_bind; [done | done | intros _; apply IH |].
  intros _. apply mono_forEach. eapply Forall_impl; [exact Hl|]. by intros y [_ ?].
Qed.

Lemma sim_stateless R F {A} (m : M A) : stateless m → sim R F m.
Proof.
  intros Hm s a s1 _ Hrun _. destruct (stateless_inv _ _ _ _ Hm Hrun) as [-> Hall].
  apply Hall.
Qed.

Lemma sim_invariant R F c e : sim R F (invariant c e).
Proof. destruct c; [apply sim_ret | apply sim_throw]. Qed.

Lemma sim_after_imported R F {A B} (r : Imported A) (k : A → M B) :
  (∀ a, sim R F (k a)) → sim R F (let* a := imported r in k a).
Proof.
  intros Hk s b s1 Hco Hrun Hset. destruct r as [a|message]; [|discriminate].
  by apply (Hk a).
Qed.

Lemma sim_after_invariant R F c e {A} (k : M A) : sim R F k → sim R F (invariant c e;; k).
Proof.
  intros Hk s a s1 Hco Hrun Hset. destruct c; [|discriminate].
  rewrite (bind_Ok _ _ _ _ _ (invariant_true _ _)) in *. by apply Hk.
Qed.

Lemma sim_path_push R F key : sim R F (path_push key).
Proof. by intros s a s1 _ [= <- <-] _. Qed.

Lemma sim_path_pop R F : sim R F path_pop.
Proof. by intros s a s1 _ [= <- <-] _. Qed.

Lemma sim_path_copy R F : sim R F path_copy.
Proof. by intros s a s1 _ [= <- <-] _. Qed.

Lemma sim_push_incremental R F p : sim R F (push_incremental p).
Proof. by intros s a s1 _ [= <- <-] _. Qed.

Lemma sim_push_handle R F p : sim R F (push_handle p).
Proof. by intros s a s1 _ [= <- <-] _. Qed.

Lemma sim_push_match R F p : sim R F (push_match p).
Proof. by intros s a s1 _ [= <- <-] _. Qed.

Lemma sim_warning R F E cond d : sim R F (warning E cond d).
Proof.
  intros s a s1 _. rewrite !warning_run. intros [= <- <-] _. unfold noted.
  by destruct (DEV E && negb cond).
Qed.

Lemma sim_when_dev R F E m : sim R F m → sim R F (when_dev E m).
Proof. unfold when_dev. destruct (DEV E); [done | intros _; apply sim_ret]. Qed.

Lemma sim_getDataID R F record : sim R F (getDataID record).
Proof.
  intros s a s1 _ Hrun Hset. unfold getDataID in *.
  apply bind_inv in Hrun as (r & s' & Hd & [= <- <-]). apply deref_inv in Hd as [Hr ->].
  destruct (replayed_lookup _ _ _ _ _ Hset Hr) as (r' & Hr' & Hid & _).
  unfold bind, deref. rewrite Hr'. cbn. unfold RelayModernRecord.getDataID.
  by rewrite Hid.
Qed.

Lemma sim_getType R F record : sim R F (getType record).
Proof.
  intros s a s1 Htr Hrun Hset. unfold getType in *.
  apply bind_inv in Hrun as (r & s' & Hd & [= <- <-]). apply deref_inv in Hd as [Hr ->].
  destruct (replayed_lookup _ _ _ _ _ Hset Hr) as (r' & Hr' & _).
  unfold bind, deref. rewrite Hr'. cbn.
  by rewrite (replayed_type _ _ _ _ _ _ Htr Hset Hr Hr').
Qed.

Lemma alter_as_insert (f : RelayRecord → RelayRecord) (src : gmap DataID RelayRecord) id r :
  src !! id = Some r → alter f id src = <[id := f r]> src.
Proof.
  intros Hr. apply map_eq. intros j. rewrite lookup_alter, lookup_insert.
  case_decide; [subst j; by rewrite Hr | done].
Qed.

(** The second run repeats a write on the overlaid store. *)
Lemma sim_write_field R F record storageKey set value :
  sets storageKey value set → sim R F (write_field record storageKey set value).
Proof.
  intros Hsets s a s1 _ Hrun Hset.
  pose proof (settled_grows _ _ _ _ (mono_write_field _ _ _ _ Hsets _ _ _ Hrun) Hset)
    as Hset0.
  unfold write_field in *.
  apply bind_inv in Hrun as (r & s' & Hd & [= <- <-]). apply deref_inv in Hd as [Hr ->].
  destruct (replayed_lookup _ _ _ _ _ Hset0 Hr) as (r' & Hr' & _).
  unfold bind, deref. rewrite Hr'. unfold replayed. cbn [journal with_journal].
  cbn in Hr'. rewrite overlay_cons. unfold apply_write.
  rewrite (alter_as_insert _ _ _ _ Hr'), Hsets. by destruct s.
Qed.

Lemma sim_setValue R F record storageKey v : sim R F (setValue record storageKey v).
Proof. by apply sim_write_field. Qed.

Lemma sim_setLinkedRecordID R F record storageKey id :
  sim R F (setLinkedRecordID record storageKey id).
Proof. by apply sim_write_field. Qed.

Lemma sim_setLinkedRecordIDs R F record storageKey ids :
  sim R F (setLinkedRecordIDs record storageKey ids).
Proof. by apply sim_write_field. Qed.

Lemma js_strict_eq_refl : ∀ v, js_strict_eq v v = true.
Proof.
  fix IH 1. intros [|b|n|s|xs|ps|f]; cbn.
  - reflexivity.
  - by destruct b.
  - apply Z.eqb_refl.
  - apply String.eqb_refl.
  - induction xs as [|x xs IHxs]; [reflexivity|]. by rewrite IH, IHxs.
  - induction ps as [|[k x] ps IHps]; [reflexivity|].
    by rewrite String.eqb_refl, IH, IHps.
  - apply String.eqb_refl.
Qed.

Lemma sim_validateRecordType R F E record field payload :
  sim R F (_validateRecordType E record field payload).
Proof.
  intros s a s1 Hco Hrun Hset. unfold _validateRecordType in *.
  apply bind_inv in Hrun as (t & s' & Hobs & Hrun).
  destruct (stateless_inv _ _ _ _ (stateless_observed E field payload) Hobs) as [-> Hall].
  apply bind_inv in Hrun as (r & s' & Hd & Hrun). apply deref_inv in Hd as [Hr ->].
  pose proof (settled_grows _ _ _ _ (mono_warning _ _ _ _ _ _ Hrun) Hset) as Hset0.
  destruct (replayed_lookup _ _ _ _ _ Hset0 Hr) as (r' & Hr' & Hid & _).
  rewrite (bind_Ok _ _ _ _ _ (Hall _)).
  unfold bind at 1, deref. rewrite Hr'.
  rewrite (replayed_type _ _ _ _ _ _ Hco Hset0 Hr Hr').
  unfold RelayModernRecord.getDataID in *.
  rewrite Hid. by apply (sim_warning R F).
Qed.

(** Replaying the fetch of [nextID]: the record is now always there, with
    the type it was created with, so the check passes silently. *)
Lemma sim_get_or_create R F E field nextID payload typeName :
  stateless typeName →
  (∀ s t s1, typeName s = Ok t s1 → observed_type E field payload s = Ok t s) →
  sim R F (get_or_create E field nextID payload typeName).
Proof.
  intros Hless Hobs s a s2 Hco Hrun Hset. unfold get_or_create in *.
  apply bind_inv in Hrun as (o & s' & [= <- <-] & Hrun).
  unfold bind at 1, source_get.
  destruct (_recordSource s !! nextID) as [r|] eqn:Hr.
  - assert (Hset0 : settled R F s).
    { eapply settled_grows; [|exact Hset].
      exact (mono_when_dev _ _ (mono_validateRecordType _ _ _ _) _ _ _ Hrun). }
    destruct (replayed_lookup _ _ _ _ _ Hset0 Hr) as (r' & -> & _).
    revert Hco Hrun Hset. apply sim_when_dev, sim_validateRecordType.
  - apply bind_inv in Hrun as (t & s' & Ht & [= <- <-]).
    pose proof (Hobs _ _ _ Ht) as Hobserved.
    destruct (stateless_inv _ _ _ _ Hless Ht) as [-> _].
    destruct Hset as (_ & Hp & _ & Hbefore).
    destruct (Hp nextID (RelayModernRecord.create nextID t)) as (rF & HF & Hid & Hty).
    { cbn. apply lookup_insert_eq. }
    destruct (overlay_lookup (journal s) _ _ _ HF) as (r' & Hr' & _ & Hty' & Hfields).
    cbn. rewrite Hr'. unfold when_dev. destruct (DEV E); [|by destruct s].
    unfold _validateRecordType.
    destruct (stateless_inv _ _ _ _ (stateless_observed E field payload) Hobserved)
      as [_ Hall].
    rewrite (bind_Ok _ _ _ _ _ (Hall _)).
    unfold bind, deref. cbn. rewrite Hr'. rewrite warning_run. unfold noted.
    assert (Hsame : RelayModernRecord.getType r' = t).
    { destruct Hco as [HpR Htr].
      specialize (Htr nextID RelayModernRecord.TYPENAME_KEY).
      unfold written_over, stored in Htr. rewrite Hr in Htr.
      specialize (Hfields RelayModernRecord.TYPENAME_KEY).
      specialize (Hbefore _ _ HF). unfold origin_type in Hbefore.
      assert (HR : R !! nextID = None).
      { destruct (R !! nextID) as [r0|] eqn:HR; [|done].
        destruct (HpR _ _ HR) as (r1 & Hr1 & _). congruence. }
      rewrite HR, HF in Hbefore. cbn in Hbefore, Hty.
      unfold RelayModernRecord.getType in *. rewrite Hfields.
      destruct (latest (journal s) nextID RelayModernRecord.TYPENAME_KEY); [done|].
      rewrite Hty'. injection Hbefore as ->. exact Hty. }
    rewrite Hsame, js_strict_eq_refl.
    rewrite andb_false_r. by destruct s.
Qed.

Lemma str_or_empty prev synthesized : str_or prev synthesized = "" → synthesized = "".
Proof.
  unfold str_or. destruct prev as [id|]; [|done].
  destruct (String.eqb id "") eqn:Hid; [done|]. intros ->. discriminate.
Qed.

(** The same stored identity, read by an owner of the same identity,
    gives the same result. *)
Lemma reuse_same E prev record storageKey index r r' s s' n s1 :
  _recordSource s !! record = Some r →
  _recordSource s' !! record = Some r' →
  rec_id r' = rec_id r →
  reuse_or prev (client_id E record storageKey index) s = Ok (JStr n) s1 →
  reuse_or prev (client_id E record storageKey index) s' = Ok (JStr n) s'.
Proof.
  intros Hr Hr' Hid. unfold reuse_or.
  assert (Hgen : client_id E record storageKey index s = Ok (JStr n) s1 →
                 client_id E record storageKey index s' = Ok (JStr n) s').
  { unfold client_id, getDataID, bind, deref. rewrite Hr, Hr'. cbn.
    unfold RelayModernRecord.getDataID. rewrite Hid. by intros [= <- _]. }
  destruct prev as [id|]; [|done]. destruct (String.eqb id ""); [done|].
  by intros [= <- _].
Qed.

(** Reusing the identity chosen last time gives that identity again. *)
Lemma reuse_again E prev record storageKey index r r' s s' n s1 :
  _recordSource s !! record = Some r →
  _recordSource s' !! record = Some r' →
  rec_id r' = rec_id r →
  reuse_or prev (client_id E record storageKey index) s = Ok (JStr n) s1 →
  reuse_or (Some n) (client_id E record storageKey index) s' = Ok (JStr n) s'.
Proof.
  intros Hr Hr' Hid Hrun.
  apply (reuse_or_spec _ _ (generateRelayClientID E (rec_id r) storageKey index))
    in Hrun as [_ [= ->]];
    [|intros v' s0; by apply client_id_spec].
  unfold reuse_or.
  destruct (String.eqb (str_or prev (generateRelayClientID E (rec_id r) storageKey index))
                       "") eqn:Hempty; [|done].
  apply String.eqb_eq in Hempty. rewrite Hempty.
  apply str_or_empty in Hempty.
  unfold client_id, getDataID, bind, deref. rewrite Hr'. cbn.
  unfold RelayModernRecord.getDataID. by rewrite Hid, Hempty.
Qed.

Lemma id_or_again obj (o1 o2 : M JSValue) s s' n s1 :
  id_or obj o1 s = Ok (JStr n) s1 →
  (o1 s = Ok (JStr n) s1 → o2 s' = Ok (JStr n) s') →
  id_or obj o2 s' = Ok (JStr n) s'.
Proof.
  unfold id_or. destruct (js_get obj "id") as [v|]; [|auto].
  destruct (truthy v); [|auto]. by intros [= -> _] _.
Qed.

Lemma readonly_ret {A} (a : A) : readonly (ret a).
Proof. by intros s a' s1 [= _ <-]. Qed.

Lemma readonly_bind {A B} (m : M A) (k : A → M B) :
  readonly m → (∀ a, readonly (k a)) → readonly (bind m k).
Proof.
  intros Hm Hk s b s2 Hrun. apply bind_inv in Hrun as (a & s1 & H1 & H2).
  rewrite (Hk _ _ _ _ H2). eapply Hm, H1.
Qed.

Lemma readonly_typed_get {A} (get : RelayRecord → string → Access A) record storageKey :
  readonly (typed_get get record storageKey).
Proof. intros s a s1 H. by apply typed_get_inv in H as (_ & _ & _ & ->). Qed.

Lemma readonly_client_id E record storageKey index :
  readonly (client_id E record storageKey index).
Proof.
  intros s a s1 H. unfold client_id, getDataID in H.
  apply bind_inv in H as (x & s' & H & [= _ <-]).
  apply bind_inv in H as (r & s'' & H & [= _ <-]). by apply deref_inv in H as [_ ->].
Qed.

Lemma readonly_reuse_or prev otherwise : readonly otherwise → readonly (reuse_or prev otherwise).
Proof.
  intros Ho. unfold reuse_or. destruct prev as [id|]; [|done].
  destruct (String.eqb id ""); [done | apply readonly_ret].
Qed.

Lemma readonly_id_or obj otherwise : readonly otherwise → readonly (id_or obj otherwise).
Proof.
  intros Ho. unfold id_or. destruct (js_get obj "id") as [v|]; [|done].
  destruct (truthy v); [apply readonly_ret | done].
Qed.

Lemma readonly_link_id E fieldValue record storageKey :
  readonly (link_id E fieldValue record storageKey).
Proof.
  apply readonly_id_or, readonly_bind; [apply readonly_typed_get|].
  intros prev. apply readonly_reuse_or, readonly_client_id.
Qed.

Lemma readonly_item_id E item prevIDs record storageKey nextIndex :
  readonly (item_id E item prevIDs record storageKey nextIndex).
Proof. apply readonly_id_or, readonly_reuse_or, readonly_client_id. Qed.

Lemma typed_get_run {A} (get : RelayRecord → string → Access A) record storageKey r a s :
  _recordSource s !! record = Some r → get r storageKey = Got a →
  typed_get get record storageKey s = Ok a s.
Proof. intros Hr Hget. unfold typed_get, bind, deref. by rewrite Hr, Hget. Qed.

Lemma getLinkedRecordID_ext r r' storageKey :
  rec_id r' = rec_id r →
  rec_type r' = rec_type r →
  rec_fields r' !! storageKey = rec_fields r !! storageKey →
  RelayModernRecord.getLinkedRecordID r' storageKey
  = RelayModernRecord.getLinkedRecordID r storageKey.
Proof.
  unfold RelayModernRecord.getLinkedRecordID, RelayModernRecord.slot.
  by intros -> -> ->.
Qed.

Lemma getLinkedRecordIDs_ext r r' storageKey :
  rec_id r' = rec_id r →
  rec_type r' = rec_type r →
  rec_fields r' !! storageKey = rec_fields r !! storageKey →
  RelayModernRecord.getLinkedRecordIDs r' storageKey
  = RelayModernRecord.getLinkedRecordIDs r storageKey.
Proof.
  unfold RelayModernRecord.getLinkedRecordIDs, RelayModernRecord.slot.
  by intros -> -> ->.
Qed.

(** What the second run reads at a key the first run is about to write a
    link to: the value the first run read, when the key was written
    before in this call; the link itself otherwise. *)
Lemma replayed_field F s record storageKey r r' value :
  coherent s →
  _recordSource s !! record = Some r →
  (∀ key, rec_fields r' !! key = match latest (journal s) record key with
                                 | Some v => Some v
                                 | None => stored F record key
                                 end) →
  stored F record storageKey = Some value →
  rec_fields r' !! storageKey = rec_fields r !! storageKey ∨
  rec_fields r' !! storageKey = Some value.
Proof.
  intros Hco Hr Hfields Hw. rewrite Hfields.
  destruct (latest (journal s) record storageKey) as [v|] eqn:Hlatest; [left|by right].
  specialize (Hco _ _ _ Hlatest). unfold stored in Hco. by rewrite Hr in Hco.
Qed.

Lemma sim_link_to_next R F E fieldValue record storageKey :
  sim R F (link_to_next E fieldValue record storageKey).
Proof.
  intros s a s2 Hco Hrun Hset. unfold link_to_next in *.
  apply bind_inv in Hrun as (v & s' & Hid & Hrun).
  pose proof (readonly_link_id _ _ _ _ _ _ _ Hid) as ->.
  apply bind_inv in Hrun as (n & s' & Hstr & Hrun).
  apply expect_string_inv in Hstr as [-> ->].
  apply bind_inv in Hrun as ([] & s1 & Hwrite & [= <- <-]).
  pose proof (sim_setLinkedRecordID R F _ _ _ _ _ _ Hco Hwrite Hset) as Hwrite2.
  pose proof (settled_grows _ _ _ _ (mono_setLinkedRecordID _ _ _ _ _ _ Hwrite) Hset) as Hset0.
  unfold setLinkedRecordID, write_field in Hwrite.
  apply bind_inv in Hwrite as (r & s' & Hd & [= <-]). apply deref_inv in Hd as [Hr ->].
  destruct (replayed_lookup _ _ _ _ _ Hset0 Hr) as (r' & Hr' & HidF & HtyF & Hfields).
  destruct Hset as [Hlinks _]. cbn in Hlinks. apply Forall_cons in Hlinks as [Hw _].
  destruct (replayed_field F s record storageKey r r' (FLink n) (tracks_coherent _ _ Hco)
              Hr Hfields (Hw I))
    as [Hsame|Hnew].
  - assert (Hid2 : link_id E fieldValue record storageKey (replayed F s)
                   = Ok (JStr n) (replayed F s)).
    { unfold link_id in *. eapply id_or_again; [exact Hid|]. intros Hother.
      apply bind_inv in Hother as (prev & s' & Hget & Hreuse).
      apply typed_get_inv in Hget as (r0 & Hr0 & Hprev & ->).
      assert (r0 = r) as -> by congruence.
      rewrite (bind_Ok _ _ _ _ _
                 (typed_get_run RelayModernRecord.getLinkedRecordID record storageKey r'
                    prev (replayed F s) Hr'
                    ltac:(by rewrite (getLinkedRecordID_ext _ _ _ HidF HtyF Hsame)))).
      eapply reuse_same; [exact Hr | exact Hr' | exact HidF | exact Hreuse]. }
    rewrite (bind_Ok _ _ _ _ _ Hid2). cbn.
    by rewrite (bind_Ok _ _ _ _ _ Hwrite2).
  - assert (Hid2 : link_id E fieldValue record storageKey (replayed F s)
                   = Ok (JStr n) (replayed F s)).
    { unfold link_id in *. eapply id_or_again; [exact Hid|]. intros Hother.
      apply bind_inv in Hother as (prev & s' & Hget & Hreuse).
      apply typed_get_inv in Hget as (r0 & Hr0 & _ & ->).
      assert (r0 = r) as -> by congruence.
      rewrite (bind_Ok _ _ _ _ _
                 (typed_get_run RelayModernRecord.getLinkedRecordID record storageKey r'
                    (Some n) (replayed F s) Hr'
                    ltac:(unfold RelayModernRecord.getLinkedRecordID,
                            RelayModernRecord.slot; by rewrite Hnew))).
      eapply reuse_again; [exact Hr | exact Hr' | exact HidF | exact Hreuse]. }
    rewrite (bind_Ok _ _ _ _ _ Hid2). cbn.
    by rewrite (bind_Ok _ _ _ _ _ Hwrite2).
Qed.

Create HintDb sim.
#[local] Hint Resolve sim_ret sim_throw sim_invariant sim_path_push sim_path_pop
  sim_path_copy sim_push_incremental sim_push_handle sim_push_match sim_warning
  sim_when_dev sim_getDataID sim_getType sim_setValue sim_setLinkedRecordID
  sim_setLinkedRecordIDs sim_validateRecordType sim_link_to_next sim_stateless
  stateless_getVariableValue stateless_guard_value stateless_getRecordType
  stateless_imported
  stateless_concrete_or_record_type stateless_observed stateless_ret : sim.

(** Splits a replay goal along the structure of the computation; the
    monotonicity side conditions are discharged on the way. *)
Ltac sim_step :=
  lazymatch goal with
  | |- sim _ _ (bind _ _) => apply sim_bind; [|mono_auto|intros ?|intros ?; mono_auto]
  | |- sim _ _ (match ?x with _ => _ end) => destruct x
  | |- sim _ _ (let _ := _ in _) => cbv zeta
  end.

Ltac sim_auto := repeat sim_step; eauto with sim mono.

Lemma observed_type_stateless_run E field payload typeName :
  observed_type E field payload = typeName →
  ∀ s t s1, typeName s = Ok t s1 → observed_type E field payload s = Ok t s.
Proof.
  intros <- s t s1 Ht.
  by destruct (stateless_inv _ _ _ _ (stateless_observed E field payload) Ht) as [-> _].
Qed.

(** One iteration of the plural loop, replayed either with the list read
    last time or with the list written last time. *)
Lemma replay_plural_item R F E traverse field ct record storageKey prevIDs prevIDs' nextIDs
  item nextIndex r s ids s1 :
  (∀ r d, sim R F (traverse r d)) →
  (∀ r d, mono (traverse r d)) →
  observed_type E field = concrete_or_record_type E ct →
  tracks R s →
  _recordSource s !! record = Some r →
  plural_item E traverse field ct record storageKey prevIDs nextIDs item nextIndex s
  = Ok ids s1 →
  settled R F s1 →
  prev_entry prevIDs' nextIndex = prev_entry prevIDs nextIndex ∨
  (∀ n, ids = nextIDs ++ [Some n] → prev_entry prevIDs' nextIndex = Some n) →
  plural_item E traverse field ct record storageKey prevIDs' nextIDs item nextIndex
              (replayed F s) = Ok ids (replayed F s1).
Proof.
  intros Hsim Hmono Hobs Hco Hr Hrun Hset Hprev.
  pose proof (settled_grows _ _ _ _ (mono_plural_item _ _ _ _ _ _ _ _ _ _ Hmono _ _ _ Hrun)
                Hset) as Hset0.
  destruct (replayed_lookup _ _ _ _ _ Hset0 Hr) as (r' & Hr' & HidF & _).
  unfold plural_item in *.
  set (rest := λ nextID : DataID,
         get_or_create E field nextID item (concrete_or_record_type E ct item);;
         traverse nextID item;; path_pop;; ret (nextIDs ++ [Some nextID])).
  assert (Hrest : ∀ nextID, sim R F (rest nextID)).
  { intros nextID. unfold rest.
    apply sim_bind; [|mono_auto|intros _; sim_auto|intros _; mono_auto].
    apply sim_get_or_create; [eauto with mono|].
    apply observed_type_stateless_run. by rewrite Hobs. }
  assert (Hobj : ∀ e,
    (path_push (pretty nextIndex);;
     invariant (is_object item) e;;
     let* v := item_id E item prevIDs record storageKey nextIndex in
     let* nextID := expect_string v (ErrElementIDNotString storageKey) in
     rest nextID) s = Ok ids s1 →
    (path_push (pretty nextIndex);;
     invariant (is_object item) e;;
     let* v := item_id E item prevIDs' record storageKey nextIndex in
     let* nextID := expect_string v (ErrElementIDNotString storageKey) in
     rest nextID) (replayed F s) = Ok ids (replayed F s1)).
  { clear Hrun. intros e Hrun.
    apply bind_inv in Hrun as ([] & s' & [= <-] & Hrun).
    apply bind_inv in Hrun as ([] & s' & Hinv & Hrun).
    apply invariant_inv in Hinv as [Hobj ->].
    apply bind_inv in Hrun as (v & s' & Hid & Hrun).
    pose proof (readonly_item_id _ _ _ _ _ _ _ _ _ Hid) as ->.
    apply bind_inv in Hrun as (n & s' & Hstr & Hrun).
    apply expect_string_inv in Hstr as [-> ->].
    assert (Hids : ids = nextIDs ++ [Some n]).
    { unfold rest in Hrun.
      apply bind_inv in Hrun as ([] & s1' & _ & Hrun).
      apply bind_inv in Hrun as ([] & s2' & _ & Hrun).
      apply bind_inv in Hrun as ([] & s3' & _ & Hrun).
      by injection Hrun as <- _. }
    unfold bind at 1. cbn [path_push]. rewrite Hobj.
    rewrite (bind_Ok _ _ _ _ _ (invariant_true _ _)).
    change (with_path (_path (replayed F s) ++ [pretty nextIndex]) (replayed F s))
      with (replayed F (with_path (_path s ++ [pretty nextIndex]) s)).
    assert (Hid2 : item_id E item prevIDs' record storageKey nextIndex
                     (replayed F (with_path (_path s ++ [pretty nextIndex]) s))
                   = Ok (JStr n)
                        (replayed F (with_path (_path s ++ [pretty nextIndex]) s))).
    { unfold item_id in *. eapply id_or_again; [exact Hid|]. intros Hother.
      destruct Hprev as [->|Hprev].
      - eapply reuse_same; [| |exact HidF|exact Hother]; [exact Hr | exact Hr'].
      - rewrite (Hprev _ Hids).
        eapply reuse_again; [| |exact HidF|exact Hother]; [exact Hr | exact Hr']. }
    rewrite (bind_Ok _ _ _ _ _ Hid2). cbn [expect_string].
    rewrite (bind_Ok _ _ _ _ _ (eq_refl : ret n _ = Ok n _)).
    by apply (Hrest n _ _ _). }
  destruct item; try (by apply Hobj). by injection Hrun as <- <-.
Qed.

Lemma replay_plural_items R F E traverse field ct record storageKey prevIDs prevIDs' items :
  (∀ r d, sim R F (traverse r d)) →
  (∀ r d, mono (traverse r d)) →
  observed_type E field = concrete_or_record_type E ct →
  ∀ nextIndex nextIDs r s ids s1,
    tracks R s →
    _recordSource s !! record = Some r →
    plural_items E traverse field ct record storageKey prevIDs items nextIndex nextIDs s
    = Ok ids s1 →
    settled R F s1 →
    length nextIDs = nextIndex →
    prevIDs' = prevIDs ∨
    (∃ L, prevIDs' = Some L ∧
          ∀ j, (nextIndex ≤ j)%nat → (j < length ids)%nat → L !! j = ids !! j) →
    plural_items E traverse field ct record storageKey prevIDs' items nextIndex nextIDs
                 (replayed F s) = Ok ids (replayed F s1).
Proof.
  intros Hsim Hmono Hobs.
  induction items as [|item rest IH];
    intros nextIndex nextIDs r s ids s1 Hco Hr Hrun Hset Hlen Hprev.
  - cbn in *. by injection Hrun as <- <-.
  - cbn in *. apply bind_inv in Hrun as (ids' & s' & Hitem & Hrun).
    pose proof (mono_plural_items E traverse field ct record storageKey prevIDs rest Hmono
                  _ _ _ _ _ Hrun) as Hgrow_rest.
    pose proof (settled_grows _ _ _ _ Hgrow_rest Hset) as Hset'.
    pose proof (mono_plural_item E traverse field ct record storageKey prevIDs nextIDs item
                  nextIndex Hmono _ _ _ Hitem) as Hgrow_item.
    destruct (grows_source _ _ Hgrow_item _ _ Hr) as (r' & Hr' & Hid' & _).
    pose proof (plural_item_spec _ _ _ _ _ _ _ _ _ _ _ _ _ _ Hr Hitem) as Hids'.
    pose proof (plural_items_spec _ _ _ _ _ _ _ (rec_id r') _ Hmono _ _ _ _ _ _ Hr' eq_refl
                  Hrun) as Hids.
    assert (Hat : ids !! nextIndex
                  = Some (entry_for E (rec_id r) storageKey prevIDs nextIndex item)).
    { rewrite Hids, Hids'. rewrite lookup_app_l; [|rewrite length_app; cbn; lia].
      rewrite lookup_app_r; [|lia]. by rewrite Hlen, Nat.sub_diag. }
    assert (Hlt : (nextIndex < length ids)%nat) by (by eapply lookup_lt_Some).
    assert (Hentry : prev_entry prevIDs' nextIndex = prev_entry prevIDs nextIndex ∨
                     (∀ n, ids' = nextIDs ++ [Some n] →
                           prev_entry prevIDs' nextIndex = Some n)).
    { destruct Hprev as [->|(L & -> & HL)]; [by left|]. right. intros n Hn.
      unfold prev_entry. rewrite (HL nextIndex) by lia. rewrite Hat.
      rewrite Hids' in Hn. apply app_inj_tail in Hn as [_ Hn]. by rewrite Hn. }
    rewrite (bind_Ok _ _ _ _ _
               (replay_plural_item R F E traverse field ct record storageKey prevIDs prevIDs'
                  nextIDs item nextIndex r s ids' s' Hsim Hmono Hobs Hco Hr Hitem Hset'
                  Hentry)).
    apply (IH _ _ r'); try done.
    + exact (grows_tracks _ _ Hgrow_item _ Hco).
    + rewrite Hids', length_app. cbn. lia.
    + destruct Hprev as [->|(L & -> & HL)]; [by left|]. right. exists L.
      split; [done|]. intros j Hj Hjlt. apply HL; lia.
Qed.

Lemma sim_normalizePluralLink R F E traverse field ct record storageKey fieldValue :
  (∀ r d, sim R F (traverse r d)) →
  (∀ r d, mono (traverse r d)) →
  observed_type E field = concrete_or_record_type E ct →
  sim R F (_normalizePluralLink E traverse field ct record storageKey fieldValue).
Proof.
  intros Hsim Hmono Hobs s a s2 Hco Hrun Hset. unfold _normalizePluralLink in *.
  destruct fieldValue as [| | | |items| |]; try discriminate Hrun.
  apply bind_inv in Hrun as (prevIDs & s' & Hget & Hrun).
  apply typed_get_inv in Hget as (r & Hr & Hprev & ->).
  apply bind_inv in Hrun as (ids & s1 & Hitems & Hwrite).
  pose proof (mono_plural_items E traverse field ct record storageKey prevIDs items Hmono
                _ _ _ _ _ Hitems) as Hgrow.
  pose proof (grows_tracks _ _ Hgrow _ Hco) as Hco1.
  pose proof (settled_grows _ _ _ _ (mono_setLinkedRecordIDs _ _ _ _ _ _ Hwrite) Hset)
    as Hset1.
  pose proof (settled_grows _ _ _ _ Hgrow Hset1) as Hset0.
  pose proof (sim_setLinkedRecordIDs R F _ _ _ _ _ _ Hco1 Hwrite Hset) as Hwrite2.
  unfold setLinkedRecordIDs, write_field in Hwrite.
  apply bind_inv in Hwrite as (r1 & s' & Hd & [= _ <-]). apply deref_inv in Hd as [Hr1 ->].
  destruct (replayed_lookup _ _ _ _ _ Hset0 Hr) as (r' & Hr' & HidF & HtyF & Hfields).
  destruct Hset as [Hlinks _]. cbn in Hlinks. apply Forall_cons in Hlinks as [Hw _].
  destruct (replayed_field F s record storageKey r r' (FLinks ids)
              (tracks_coherent _ _ Hco) Hr Hfields (Hw I))
    as [Hsame|Hnew].
  - rewrite (bind_Ok _ _ _ _ _
               (typed_get_run RelayModernRecord.getLinkedRecordIDs record storageKey r'
                  prevIDs (replayed F s) Hr'
                  ltac:(by rewrite (getLinkedRecordIDs_ext _ _ _ HidF HtyF Hsame)))).
    rewrite (bind_Ok _ _ _ _ _
               (replay_plural_items R F E traverse field ct record storageKey prevIDs prevIDs
                  items Hsim Hmono Hobs 0%nat [] r s ids s1 Hco Hr Hitems Hset1 eq_refl
                  ltac:(by left))).
    exact Hwrite2.
  - rewrite (bind_Ok _ _ _ _ _
               (typed_get_run RelayModernRecord.getLinkedRecordIDs record storageKey r'
                  (Some ids) (replayed F s) Hr'
                  ltac:(unfold RelayModernRecord.getLinkedRecordIDs,
                          RelayModernRecord.slot; by rewrite Hnew))).
    rewrite (bind_Ok _ _ _ _ _
               (replay_plural_items R F E traverse field ct record storageKey prevIDs
                  (Some ids) items Hsim Hmono Hobs 0%nat [] r s ids s1 Hco Hr Hitems Hset1
                  eq_refl ltac:(right; by exists ids))).
    exact Hwrite2.
Qed.

Lemma sim_normalizeLink R F E traverse field ct record storageKey fieldValue :
  (∀ r d, sim R F (traverse r d)) →
  (∀ r d, mono (traverse r d)) →
  observed_type E field = concrete_or_record_type E ct →
  sim R F (_normalizeLink E traverse field ct record storageKey fieldValue).
Proof.
  intros Hsim Hmono Hobs. unfold _normalizeLink. apply sim_after_invariant.
  apply sim_bind; [eauto with sim|eauto with mono| |intros ?; mono_auto].
  intros nextID. apply sim_bind; [|mono_auto|auto|auto].
  apply sim_get_or_create; [eauto with mono|].
  apply observed_type_stateless_run. by rewrite Hobs.
Qed.

Lemma sim_write_missing R F E hsn parent record data responseKey storageKey fieldValue :
  sim R F (write_missing E hsn parent record data responseKey storageKey fieldValue).
Proof. unfold write_missing. sim_auto. Qed.

Lemma sim_normalizeField R F E vars hsn traverse parent selection f record data :
  (∀ r d, sim R F (traverse r d)) →
  (∀ r d, mono (traverse r d)) →
  sim R F (_normalizeField E vars hsn traverse parent selection f record data).
Proof.
  intros Hsim Hmono. unfold _normalizeField. apply sim_after_invariant. cbv zeta.
  apply sim_after_imported. intros storageKey.
  destruct (js_get data (responseKey_of f)) as [v|]; [|apply sim_write_missing].
  assert (Hfield : sim R F
    match selection with
    | ScalarField _ => setValue record storageKey v
    | LinkedField _ concreteType plural _ =>
        path_push (responseKey_of f);;
        (if plural
         then _normalizePluralLink E traverse selection concreteType record storageKey v
         else _normalizeLink E traverse selection concreteType record storageKey v);;
        path_pop
    | _ => throw (ErrUnexpectedFieldKind (kind selection))
    end).
  { destruct selection; eauto with sim.
    assert (Hlink_sim : sim R F
      (if plural
       then _normalizePluralLink E traverse (LinkedField f0 concreteType plural selections)
              concreteType record storageKey v
       else _normalizeLink E traverse (LinkedField f0 concreteType plural selections)
              concreteType record storageKey v)).
    { destruct plural; [by apply sim_normalizePluralLink | by apply sim_normalizeLink]. }
    assert (Hlink_mono : mono
      (if plural
       then _normalizePluralLink E traverse (LinkedField f0 concreteType plural selections)
              concreteType record storageKey v
       else _normalizeLink E traverse (LinkedField f0 concreteType plural selections)
              concreteType record storageKey v)).
    { destruct plural; [by apply mono_normalizePluralLink | by apply mono_normalizeLink]. }
    apply sim_bind; [eauto with sim|eauto with mono| |].
    - intros _. apply sim_bind; [done|done|eauto with sim|eauto with mono].
    - intros _. apply mono_bind; [done|eauto with mono]. }
  destruct v; first [exact Hfield | apply sim_write_missing].
Qed.

Lemma sim_normalizeMatchField R F E vars hsn parent f matchesByType record data :
  sim R F (_normalizeMatchField E vars hsn parent (MatchField f matchesByType) f
           matchesByType record data).
Proof.
  unfold _normalizeMatchField. apply sim_after_invariant. cbv zeta.
  apply sim_after_imported. intros storageKey.
  destruct (js_get data (responseKey_of f)) as [v|]; [|apply sim_write_missing].
  assert (Hfield : ∀ fv, sim R F
    (invariant (is_object fv) (ErrValueNotObject storageKey);;
     let* typeName := _getRecordType E fv in
     match match_for E matchesByType typeName with
     | None => setValue record storageKey JNull
     | Some _ =>
         let* nextID := link_to_next E fv record storageKey in
         get_or_create E (MatchField f matchesByType) nextID fv (ret typeName);;
         match js_get fv (MATCH_FRAGMENT_KEY E) with
         | None | Some JNull => ret tt
         | Some operationReference =>
             push_match (mkMatchPayload operationReference nextID fv typeName vars)
         end
     end)).
  { intros fv. apply sim_after_invariant.
    intros s a s2 Hco Hrun Hset. apply bind_inv in Hrun as (t & s' & Ht & Hrun).
    destruct (stateless_inv _ _ _ _ (stateless_getRecordType E fv) Ht) as [-> Hall].
    rewrite (bind_Ok _ _ _ _ _ (Hall _)). clear Ht. revert s a s2 Hco Hrun Hset.
    change (sim R F
      match match_for E matchesByType t with
      | None => setValue record storageKey JNull
      | Some _ =>
          let* nextID := link_to_next E fv record storageKey in
          get_or_create E (MatchField f matchesByType) nextID fv (ret t);;
          match js_get fv (MATCH_FRAGMENT_KEY E) with
          | None | Some JNull => ret tt
          | Some operationReference =>
              push_match (mkMatchPayload operationReference nextID fv t vars)
          end
      end).
    destruct (match_for E matchesByType t); [|eauto with sim].
    apply sim_bind; [eauto with sim|eauto with mono| |intros ?; mono_auto].
    intros nextID. apply sim_bind; [|mono_auto| |intros ?; mono_auto].
    - apply sim_get_or_create; [apply stateless_ret|].
      intros s0 t0 s0' [= <- <-]. cbn. apply Hall.
    - intros _. destruct (js_get fv (MATCH_FRAGMENT_KEY E)) as [[]|]; eauto with sim. }
  destruct v; first [apply Hfield | apply sim_write_missing].
Qed.

Lemma sim_handle_field R F E vars selection h record :
  sim R F (handle_field E vars selection h record).
Proof. unfold handle_field. sim_auto. Qed.

Lemma sim_continuation R F vars k label self record :
  sim R F (continuation vars k label self record).
Proof. unfold continuation. sim_auto. Qed.

Lemma sim_normalizeDefer R F E vars traverse defer if_ label record :
  sim R F traverse → mono traverse →
  sim R F (_normalizeDefer E vars traverse defer if_ label record).
Proof.
  intros Hsim Hmono. unfold _normalizeDefer.
  apply sim_bind; [eauto with sim mono|eauto with mono| |].
  - intros v. apply sim_bind; [eauto with sim|eauto with mono| |].
    + intros _. destruct v as [|[]| | | | |]; auto using sim_continuation.
    + intros _. destruct v as [|[]| | | | |]; auto using mono_continuation.
  - intros v. apply mono_bind; [eauto with mono|]. intros _.
    destruct v as [|[]| | | | |]; auto using mono_continuation.
Qed.

Lemma sim_normalizeStream R F E vars traverse stream if_ label record :
  sim R F traverse → mono traverse →
  sim R F (_normalizeStream E vars traverse stream if_ label record).
Proof.
  intros Hsim Hmono. unfold _normalizeStream.
  assert (Htail : ∀ v, mono
    (when_dev E (warning E (is_boolean v) (WarnStreamIf v));;
     match v with
     | JBool true => continuation vars KindStream label stream record
     | _ => ret tt
     end)).
  { intros v. apply mono_bind; [eauto with mono|]. intros _.
    destruct v as [|[]| | | | |]; auto using mono_continuation, mono_ret. }
  apply sim_bind; [done|done| |].
  - intros _. apply sim_bind; [eauto with sim mono|eauto with mono| |done].
    intros v. apply sim_bind; [eauto with sim|eauto with mono| |].
    + intros _. destruct v as [|[]| | | | |]; auto using sim_continuation, sim_ret.
    + intros _. destruct v as [|[]| | | | |]; auto using mono_continuation, mono_ret.
  - intros _. apply mono_bind; [eauto with mono | done].
Qed.

Lemma sim_traverse_selection R F E vars hsn selection :
  ∀ parent record data, sim R F (traverse_selection E vars hsn parent record data selection).
Proof.
  induction selection as [f|f ct pl sels IH|pv c sels IH|t sels IH|h|h|f m
                         |i l sels IH|i l sels IH|n sels IH|n|n sels IH]
    using Selection_tree_ind; intros parent record data; cbn.
  - apply sim_normalizeField; intros; [apply sim_ret | apply mono_ret].
  - apply sim_normalizeField; intros r d; [|apply mono_children].
    apply sim_forEach. eapply Forall_impl; [exact IH|]. cbn.
    intros x Hx. split; [apply Hx | apply mono_traverse_selection].
  - apply sim_bind; [eauto with sim mono|eauto with mono| |].
    + intros v. destruct (js_strict_eq v (JBool pv)); [|apply sim_ret].
      apply sim_forEach. eapply Forall_impl; [exact IH|]. cbn.
      intros x Hx. split; [apply Hx | apply mono_traverse_selection].
    + intros v. destruct (js_strict_eq v (JBool pv)); [apply mono_children|apply mono_ret].
  - apply sim_bind; [eauto with sim|eauto with mono| |].
    + intros v. destruct (js_strict_eq v (JStr t)); [|apply sim_ret].
      apply sim_forEach. eapply Forall_impl; [exact IH|]. cbn.
      intros x Hx. split; [apply Hx | apply mono_traverse_selection].
    + intros v. destruct (js_strict_eq v (JStr t)); [apply mono_children|apply mono_ret].
  - apply sim_handle_field.
  - apply sim_handle_field.
  - apply sim_normalizeMatchField.
  - apply sim_normalizeDefer; [|apply mono_children].
    apply sim_forEach. eapply Forall_impl; [exact IH|]. cbn.
    intros x Hx. split; [apply Hx | apply mono_traverse_selection].
  - apply sim_normalizeStream; [|apply mono_children].
    apply sim_forEach. eapply Forall_impl; [exact IH|]. cbn.
    intros x Hx. split; [apply Hx | apply mono_traverse_selection].
  - apply sim_throw.
  - apply sim_throw.
  - apply sim_throw.
Qed.

Lemma sim_traverseSelections R F E vars hsn node record data :
  sim R F (_traverseSelections E vars hsn node record data).
Proof.
  unfold _traverseSelections. apply sim_forEach, Forall_forall. intros x _.
  split; [apply sim_traverse_selection | apply mono_traverse_selection].
Qed.

Lemma coherent_constructor recordSource : coherent (constructor recordSource).
Proof. intros record key v [=]. Qed.

Lemma tracks_constructor recordSource : tracks recordSource (constructor recordSource).
Proof. split; [apply persists_refl | done]. Qed.

(** After a call of [normalize] the store is the store of the start,
    with the records created and the writes of the journal. *)
Lemma normalize_tracks E recordSource selector response options out s1 :
  normalize E recordSource selector response options = Ok out s1 → tracks recordSource s1.
Proof.
  rewrite normalize_unfold. destruct (recordSource !! dataID selector); [|discriminate].
  destruct (_traverseSelections _ _ _ _ _ _ _) as [[] s|e s] eqn:Htrav; [|discriminate].
  intros [= _ <-].
  exact (grows_tracks _ _ (mono_traverseSelections _ _ _ _ _ _ _ _ _ Htrav) _
           (tracks_constructor _)).
Qed.

Lemma latest_elem J record storageKey v :
  latest J record storageKey = Some v → mkWrite record storageKey v ∈ J.
Proof.
  induction J as [|w J IH]; [discriminate|]. cbn.
  destruct (decide (w_record w = record ∧ w_key w = storageKey)) as [[<- <-]|_].
  - intros [= <-]. destruct w. apply list_elem_of_here.
  - intros H. apply list_elem_of_further, IH, H.
Qed.

(** When no write changed a type, the records end with the types they
    had at first. *)
Lemma tracks_types_as_before R s :
  tracks R s → types_kept R (_recordSource s) (journal s) →
  types_as_before R (_recordSource s).
Proof.
  intros [Hp Ht] Hk id rF HF. specialize (Ht id RelayModernRecord.TYPENAME_KEY).
  unfold written_over, stored in Ht. rewrite HF in Ht.
  unfold RelayModernRecord.getType at 1. rewrite Ht.
  destruct (latest (journal s) id RelayModernRecord.TYPENAME_KEY) as [v|] eqn:Hlatest.
  - apply latest_elem in Hlatest. unfold types_kept in Hk. rewrite Forall_forall in Hk.
    exact (Hk _ Hlatest eq_refl).
  - unfold origin_type. destruct (R !! id) as [r0|] eqn:HR.
    + destruct (Hp _ _ HR) as (r1 & Hr1 & _ & Hty). assert (r1 = rF) as -> by congruence.
      unfold RelayModernRecord.getType. by rewrite Hty.
    + by rewrite HF.
Qed.

(** After a call of [normalize] the store agrees with the journal. *)
Lemma normalize_coherent E recordSource selector response options out s1 :
  normalize E recordSource selector response options = Ok out s1 → coherent s1.
Proof.
  rewrite normalize_unfold. destruct (recordSource !! dataID selector); [|discriminate].
  destruct (_traverseSelections _ _ _ _ _ _ _) as [[] s|e s] eqn:Htrav; [|discriminate].
  intros [= _ <-].
  exact (grows_coherent _ _ (mono_traverseSelections _ _ _ _ _ _ _ _ _ Htrav)
           (coherent_constructor _)).
Qed.

(** The whole call, replayed.  The call succeeded on [recordSource],
    every link it wrote is in place in [F], no write changed a type, and
    [F] has the records the call left, with the types they had at first.
    Then the call succeeds on [F] with the same payloads, the same
    diagnostics and the same journal. *)
Lemma normalize_replay E recordSource selector response options out s1 F :
  normalize E recordSource selector response options = Ok out s1 →
  settled recordSource F s1 →
  normalize E F selector response options = Ok out (replayed F s1).
Proof.
  intros Hrun Hset. unfold normalize, normalizeResponse in *.
  apply bind_inv in Hrun as (o & s' & [= <- <-] & Hrun).
  unfold bind at 1, source_get. cbn in *.
  destruct (recordSource !! dataID selector) as [r|] eqn:Hr; [|discriminate].
  apply bind_inv in Hrun as ([] & s' & Htrav & [= <- <-]).
  pose proof (mono_traverseSelections _ _ _ _ _ _ _ _ _ Htrav) as Hgrow.
  destruct (settled_grows _ _ _ _ Hgrow Hset) as (_ & Hp & _).
  destruct (Hp _ _ Hr) as (rF & -> & _).
  pose proof (sim_traverseSelections recordSource F _ _ _ _ _ _ _ _ _
                (tracks_constructor _) Htrav Hset) as Htrav2.
  change (replayed F (constructor recordSource)) with (constructor F) in Htrav2.
  by rewrite (bind_Ok _ _ _ _ _ Htrav2).
Qed.

(** C9.  When a call of [normalize] succeeds, every identity it wrote
    (a link or a list of links) is still in place in the store it
    leaves, and whatever it stored under the key [__typename] of a
    record is the type that record had before (in the record source, or
    at its creation), the same call on the store it leaves succeeds
    again with the same payloads and ends in the very same state: the
    same store, so every record keeps its stored fields, and the same
    journal, so every object of the response, with or without a server
    identity, was given the same identity as in the first call. *)
Theorem normalize_twice E recordSource selector response options out s1 :
  normalize E recordSource selector response options = Ok out s1 →
  links_in_place (_recordSource s1) (journal s1) →
  types_kept recordSource (_recordSource s1) (journal s1) →
  normalize E (_recordSource s1) selector response options = Ok out s1.
Proof.
  intros Hrun Hlinks Htypes.
  rewrite (normalize_replay _ _ _ _ _ _ _ (_recordSource s1) Hrun).
  - unfold replayed. rewrite (overlay_coherent _ (normalize_coherent _ _ _ _ _ _ _ Hrun)).
    by destruct s1.
  - split; [exact Hlinks|]. split; [apply persists_refl|]. split; [exact Htypes|].
    apply tracks_types_as_before; [|exact Htypes].
    exact (normalize_tracks _ _ _ _ _ _ _ Hrun).
Qed.

(** A response with a server-identified record, a list with a null entry
    and two objects without identities. *)
Lemma normalize_twice_witness :
  let recordSource : gmap DataID RelayRecord := {[ "client:root" := Sample.root_record ]} in
  let selector :=
    mkSelector "client:root"
      (Operation "Q"
         [Sample.linked "me" None false
            [Sample.scalar "__typename"; Sample.scalar "id"; Sample.scalar "name";
             Sample.linked "friends" (Some "User") true
               [Sample.scalar "id"; Sample.scalar "name"];
             Sample.linked "pet" None false [Sample.scalar "name"]]])
      (∅ : Variables) in
  let response :=
    JObj [("me", JObj [("__typename", JStr "User"); ("id", JStr "1");
                       ("name", JStr "Ada");
                       ("friends", JArr [JObj [("id", JStr "a")]; JNull;
                                         JObj [("name", JStr "Bob")]]);
                       ("pet", JObj [("__typename", JStr "Dog");
                                     ("name", JStr "Rex")])])] in
  ∃ out s1,
    normalize (Sample.externals true) recordSource selector response default_options
    = Ok out s1 ∧
    stored (_recordSource s1) "1" "pet" = Some (FLink "client:1:pet") ∧
    normalize (Sample.externals true) (_recordSource s1) selector response default_options
    = Ok out s1.
Proof.
  intros recordSource selector response.
  destruct (normalize (Sample.externals true) recordSource selector response
              default_options) as [out s1|e s1] eqn:Hrun; [|by vm_compute in Hrun].
  exists out, s1. split; [reflexivity|].
  pose proof (normalize_twice _ _ _ _ _ _ _ Hrun) as Hagain.
  vm_compute in Hrun. injection Hrun as <- <-.
  split; [vm_compute; reflexivity|]. apply Hagain.
  - unfold links_in_place. cbn [journal].
    repeat (apply List.Forall_cons; [intros _; vm_compute; reflexivity|]).
    apply List.Forall_nil.
  - unfold types_kept. cbn [journal].
    repeat (apply List.Forall_cons;
            [intros Hkey; first [by vm_compute in Hkey | vm_compute; reflexivity]|]).
    apply List.Forall_nil.
Defined.

(** C9, a response with a repeated owner.  The record ["1"] comes twice in the
    response, first with a friend that has no identity and then with the
    friend ["2"].  The first call gives the friend without identity a
    client identity; the second call finds ["2"] stored on the owner and
    reuses it, so it writes the name into the server-identified record
    ["2"], which holds a field it did not hold after the first call. *)
Lemma second_call_differs :
  let recordSource : gmap DataID RelayRecord := {[ "client:root" := Sample.root_record ]} in
  let selector :=
    mkSelector "client:root"
      (Operation "Q"
         [Sample.linked "a" (Some "User") false
            [Sample.linked "friend" (Some "User") false [Sample.scalar "name"]];
          Sample.linked "b" (Some "User") false
            [Sample.linked "friend" (Some "User") false [Sample.scalar "id"]]])
      (∅ : Variables) in
  let response :=
    JObj [("a", JObj [("id", JStr "1"); ("friend", JObj [("name", JStr "x")])]);
          ("b", JObj [("id", JStr "1"); ("friend", JObj [("id", JStr "2")])])] in
  ∃ out1 s1 out2 s2,
    normalize (Sample.externals false) recordSource selector response default_options
    = Ok out1 s1 ∧
    normalize (Sample.externals false) (_recordSource s1) selector response default_options
    = Ok out2 s2 ∧
    stored (_recordSource s1) "2" "name" = None ∧
    stored (_recordSource s2) "2" "name" = Some (FScalar (JStr "x")) ∧
    journal s1 = [mkWrite "2" "id" (FScalar (JStr "2"));
                  mkWrite "1" "friend" (FLink "2");
                  mkWrite "client:root" "b" (FLink "1");
                  mkWrite "client:1:friend" "name" (FScalar (JStr "x"));
                  mkWrite "1" "friend" (FLink "client:1:friend");
                  mkWrite "client:root" "a" (FLink "1")] ∧
    journal s2 = [mkWrite "2" "id" (FScalar (JStr "2"));
                  mkWrite "1" "friend" (FLink "2");
                  mkWrite "client:root" "b" (FLink "1");
                  mkWrite "2" "name" (FScalar (JStr "x"));
                  mkWrite "1" "friend" (FLink "2");
                  mkWrite "client:root" "a" (FLink "1")].
Proof.
  intros recordSource selector response.
  destruct (normalize (Sample.externals false) recordSource selector response
              default_options) as [out1 s1|e s1] eqn:Hrun1; [|by vm_compute in Hrun1].
  destruct (normalize (Sample.externals false) (_recordSource s1) selector response
              default_options) as [out2 s2|e s2] eqn:Hrun2.
  - exists out1, s1, out2, s2. split; [reflexivity|]. split; [exact Hrun2|].
    vm_compute in Hrun1. injection Hrun1 as <- <-.
    vm_compute in Hrun2. injection Hrun2 as <- <-.
    repeat split; vm_compute; reflexivity.
  - exfalso. vm_compute in Hrun1. injection Hrun1 as <- <-.
    vm_compute in Hrun2. discriminate.
Qed.

(** C9, a type that the call itself replaces.  The record ["1"] is
    created with the concrete type of its field, [User], and the
    selections of the field then store the typename of the payload,
    [Page], under its [__typename] key.  The first call has nothing to
    check; the second call finds the record, of type [Page] by now,
    checks it against [User] and adds a diagnostic that the first call
    did not give. *)
Lemma second_call_warns :
  let recordSource : gmap DataID RelayRecord := {[ "client:root" := Sample.root_record ]} in
  let selector :=
    mkSelector "client:root"
      (Operation "Q" [Sample.linked "me" (Some "User") false [Sample.scalar "__typename"]])
      (∅ : Variables) in
  let response := JObj [("me", JObj [("__typename", JStr "Page"); ("id", JStr "1")])] in
  ∃ out1 s1 out2 s2,
    normalize (Sample.externals true) recordSource selector response default_options
    = Ok out1 s1 ∧
    normalize (Sample.externals true) (_recordSource s1) selector response default_options
    = Ok out2 s2 ∧
    links_in_place (_recordSource s1) (journal s1) ∧
    ¬ types_kept recordSource (_recordSource s1) (journal s1) ∧
    diagnostics s1 = [] ∧
    diagnostics s2 = [WarnConflictingTypes "1" (JStr "Page") (JStr "User")].
Proof.
  intros recordSource selector response.
  destruct (normalize (Sample.externals true) recordSource selector response
              default_options) as [out1 s1|e s1] eqn:Hrun1; [|by vm_compute in Hrun1].
  destruct (normalize (Sample.externals true) (_recordSource s1) selector response
              default_options) as [out2 s2|e s2] eqn:Hrun2.
  - exists out1, s1, out2, s2. split; [reflexivity|]. split; [exact Hrun2|].
    vm_compute in Hrun1. injection Hrun1 as <- <-.
    vm_compute in Hrun2. injection Hrun2 as <- <-.
    split; [|split; [|split; vm_compute; reflexivity]].
    + unfold links_in_place. cbn [journal].
      repeat (apply List.Forall_cons; [intros _; vm_compute; reflexivity|]).
      apply List.Forall_nil.
    + unfold types_kept. cbn [journal]. intros Hkept.
      apply List.Forall_inv in Hkept. specialize (Hkept eq_refl).
      vm_compute in Hkept. discriminate Hkept.
  - exfalso. vm_compute in Hrun1. injection Hrun1 as <- <-.
    vm_compute in Hrun2. discriminate.
Qed.

(** * Further properties *)

(** ** What a successful run leaves alone *)

Lemma keeps_source_readonly {A} (m : M A) : readonly m → keeps_source m.
Proof. intros Hm s a s1 Hrun. by rewrite (Hm _ _ _ Hrun). Qed.

Lemma keeps_source_stateless {A} (m : M A) : stateless m → keeps_source m.
Proof. intros Hm s a s1 Hrun. by destruct (stateless_inv _ _ _ _ Hm Hrun) as [-> _]. Qed.

Lemma keeps_source_bind {A B} (m : M A) (k : A → M B) :
  keeps_source m → (∀ a, keeps_source (k a)) → keeps_source (bind m k).
Proof.
  intros Hm Hk s b s2 Hrun. apply bind_inv in Hrun as (a & s1 & H1 & H2).
  rewrite (Hk _ _ _ _ H2). by eapply Hm.
Qed.

Lemma keeps_source_warning E cond d : keeps_source (warning E cond d).
Proof. intros s a s1. rewrite warning_run. intros [= _ <-]. apply noted_source. Qed.

Lemma keeps_source_deref record : keeps_source (deref record).
Proof. intros s a s1 Hrun. by apply deref_inv in Hrun as [_ ->]. Qed.

Lemma keeps_source_validateRecordType E record field payload :
  keeps_source (_validateRecordType E record field payload).
Proof.
  unfold _validateRecordType.
  apply keeps_source_bind; [apply keeps_source_stateless, stateless_observed|]. intros t.
  apply keeps_source_bind; [apply keeps_source_deref|]. intros r.
  apply keeps_source_warning.
Qed.

Lemma keeps_source_when_dev E m : keeps_source m → keeps_source (when_dev E m).
Proof. unfold when_dev. destruct (DEV E); [done|]. by intros _ s a s1 [= _ <-]. Qed.

(** The record [nextID] is in the store once [get_or_create] has
    returned. *)
Lemma get_or_create_has E field nextID payload typeName s a s1 :
  stateless typeName →
  get_or_create E field nextID payload typeName s = Ok a s1 → has nextID s1.
Proof.
  intros Hty Hrun. unfold get_or_create in Hrun.
  apply bind_inv in Hrun as (o & s' & [= <- <-] & Hrun). unfold has.
  destruct (_recordSource s !! nextID) as [r|] eqn:Hnext.
  - apply keeps_source_when_dev in Hrun; [|apply keeps_source_validateRecordType].
    rewrite Hrun, Hnext. eauto.
  - apply bind_inv in Hrun as (t & s' & Ht & Hset).
    apply (stateless_inv _ _ _ _ Hty) in Ht as [-> _]. injection Hset as _ <-. cbn.
    rewrite lookup_insert_eq. eauto.
Qed.

Lemma grows_is_Some s s1 id :
  grows s s1 → is_Some (_recordSource s !! id) → is_Some (_recordSource s1 !! id).
Proof.
  intros Hg [r Hr]. destruct (grows_source _ _ Hg _ _ Hr) as (r1 & Hr1 & _). eauto.
Qed.

Lemma normalize_Ok_inv E recordSource selector response options out s1 :
  normalize E recordSource selector response options = Ok out s1 →
  out = mkResponse (_incrementalPayloads s1) (_handleFieldPayloads s1)
                   (_matchFieldPayloads s1).
Proof.
  rewrite normalize_unfold. destruct (recordSource !! dataID selector); [|discriminate].
  destruct (_traverseSelections _ _ _ _ _ _ _) as [[] s|]; [|discriminate].
  by intros [= <- <-].
Qed.

(** ** The effects of a call, one at a time *)

Lemma traced_ret E {A} (a : A) : traced E (ret a).
Proof. intros s. apply rtc_refl. Qed.

Lemma traced_throw E {A} e : traced E (@throw A e).
Proof. intros s. apply rtc_refl. Qed.

Lemma traced_bind E {A B} (m : M A) (k : A → M B) :
  traced E m → (∀ a, traced E (k a)) → traced E (bind m k).
Proof.
  intros Hm Hk s. unfold bind. specialize (Hm s).
  destruct (m s) as [a s1|e s1]; [|exact Hm].
  etrans; [exact Hm | apply Hk].
Qed.

(** Sequencing, when what follows relies on the first part having
    returned its result. *)
Lemma traced_bind_Ok E {A B} (m : M A) (k : A → M B) :
  traced E m → (∀ a, (∃ s s1, m s = Ok a s1) → traced E (k a)) → traced E (bind m k).
Proof.
  intros Hm Hk s. unfold bind. specialize (Hm s).
  destruct (m s) as [a s1|e s1] eqn:Hrun; [|exact Hm].
  etrans; [exact Hm | apply Hk; eauto].
Qed.

Lemma traced_forEach E {A} (f : A → M unit) (l : list A) :
  Forall (λ x, traced E (f x)) l → traced E (forEach f l).
Proof.
  induction 1 as [|x l Hx _ IH]; cbn; [apply traced_ret|].
  apply traced_bind; [done | intros _; apply IH].
Qed.

Lemma traced_invariant E c e : traced E (invariant c e).
Proof. destruct c; [apply traced_ret | apply traced_throw]. Qed.

Lemma traced_stateless E {A} (m : M A) : stateless m → traced E m.
Proof. intros [[a|e] Hm] s; rewrite Hm; apply rtc_refl. Qed.

Lemma traced_once E {A} (m : M A) :
  (∀ s, ∃ a s1, m s = Ok a s1 ∧ step E s s1) → traced E m.
Proof. intros Hm s. destruct (Hm s) as (a & s1 & -> & Hstep). by apply rtc_once. Qed.

Lemma traced_source_get E id : traced E (source_get id).
Proof. intros s. apply rtc_refl. Qed.

Lemma traced_deref E record : traced E (deref record).
Proof. intros s. unfold deref. destruct (_ !! _); apply rtc_refl. Qed.

Lemma traced_path_copy E : traced E path_copy.
Proof. intros s. apply rtc_refl. Qed.

Lemma traced_path_push E key : traced E (path_push key).
Proof. apply traced_once. intros s. eexists _, _. split; [done | constructor]. Qed.

Lemma traced_path_pop E : traced E path_pop.
Proof. apply traced_once. intros s. eexists _, _. split; [done | constructor]. Qed.

Lemma traced_warning E cond d : traced E (warning E cond d).
Proof.
  unfold warning. destruct (DEV E) eqn:Hdev, cond; cbn; try apply traced_ret.
  apply traced_once. intros s. eexists _, _. split; [done | by constructor].
Qed.

Lemma traced_when_dev E m : traced E m → traced E (when_dev E m).
Proof. unfold when_dev. destruct (DEV E); [done | intros _; apply traced_ret]. Qed.

Lemma traced_write_field E record storageKey set value :
  sets storageKey value set → traced E (write_field record storageKey set value).
Proof.
  intros Hset s. unfold write_field, bind, deref.
  destruct (_recordSource s !! record) as [r|] eqn:Hr; [|apply rtc_refl].
  cbn. rewrite Hset. apply rtc_once. by constructor.
Qed.

Lemma traced_setValue E record storageKey v : traced E (setValue record storageKey v).
Proof. by apply traced_write_field. Qed.

Lemma traced_setLinkedRecordID E record storageKey id :
  traced E (setLinkedRecordID record storageKey id).
Proof. by apply traced_write_field. Qed.

Lemma traced_setLinkedRecordIDs E record storageKey ids :
  traced E (setLinkedRecordIDs record storageKey ids).
Proof. by apply traced_write_field. Qed.

Lemma traced_typed_get E {A} (get : RelayRecord → string → Access A) record storageKey :
  traced E (typed_get get record storageKey).
Proof.
  intros s. unfold typed_get, bind, deref.
  destruct (_recordSource s !! record) as [r|]; [|apply rtc_refl].
  destruct (get r storageKey); apply rtc_refl.
Qed.

Lemma traced_getDataID E record : traced E (getDataID record).
Proof. intros s. unfold getDataID, bind, deref. destruct (_ !! _); apply rtc_refl. Qed.

Lemma traced_getType E record : traced E (getType record).
Proof. intros s. unfold getType, bind, deref. destruct (_ !! _); apply rtc_refl. Qed.

Lemma traced_validateRecordType E record field payload :
  traced E (_validateRecordType E record field payload).
Proof.
  unfold _validateRecordType.
  apply traced_bind; [apply traced_stateless, stateless_observed|]. intros t.
  apply traced_bind; [apply traced_deref|]. intros r. apply traced_warning.
Qed.

Lemma getRecordType_typed E data typeName s s1 :
  _getRecordType E data s = Ok typeName s1 → typeName ≠ JNull.
Proof.
  unfold _getRecordType. destruct (js_get data (TYPENAME_KEY E)) as [[]|];
    first [discriminate | by intros [= <- _]].
Qed.

Lemma concrete_or_record_type_typed E concreteType payload typeName s s1 :
  concrete_or_record_type E concreteType payload s = Ok typeName s1 → typeName ≠ JNull.
Proof.
  unfold concrete_or_record_type. destruct concreteType as [t|];
    [destruct (String.eqb t "")|];
    first [apply getRecordType_typed | by intros [= <- _]].
Qed.

(** A record is only ever created under a key the store lacks, and
    with a type: the type is computed without touching the state,
    between the lookup and the insertion. *)
Lemma traced_get_or_create E field nextID payload typeName :
  stateless typeName → (∀ s t s1, typeName s = Ok t s1 → t ≠ JNull) →
  traced E (get_or_create E field nextID payload typeName).
Proof.
  intros Hst Htyped s. unfold get_or_create, bind, source_get.
  destruct (_recordSource s !! nextID) as [r|] eqn:Hnext.
  - apply traced_when_dev, traced_validateRecordType.
  - destruct Hst as [[t|e] Ht]; rewrite Ht; [|apply rtc_refl].
    apply rtc_once. constructor; [done|]. apply (Htyped s t s), Ht.
Qed.

Lemma traced_get_or_create_linked E field nextID payload concreteType :
  traced E (get_or_create E field nextID payload
                          (concrete_or_record_type E concreteType payload)).
Proof.
  apply traced_get_or_create; [apply stateless_concrete_or_record_type|].
  intros s t s1. apply concrete_or_record_type_typed.
Qed.

Lemma traced_continuation E vars k label self record :
  traced E (continuation vars k label self record).
Proof.
  intros s. unfold continuation, path_copy, getDataID, deref, bind, ret.
  destruct (_recordSource s !! record) as [r|] eqn:Hr; [|apply rtc_refl].
  apply rtc_once. constructor. by exists record, r.
Qed.

Lemma traced_handle_field E vars selection h record :
  traced E (handle_field E vars selection h record).
Proof.
  unfold handle_field.
  apply traced_bind;
    [destruct (h_args h); [apply traced_stateless, stateless_imported | apply traced_ret]|].
  intros args.
  apply traced_bind; [apply traced_stateless, stateless_imported|]. intros fieldKey.
  apply traced_bind; [apply traced_stateless, stateless_imported|]. intros handleKey.
  intros s. unfold getDataID, deref, bind, ret.
  destruct (_recordSource s !! record) as [r|] eqn:Hr; [|apply rtc_refl].
  apply rtc_once. constructor. by exists record, r.
Qed.

(** A match payload is pushed right after its record was fetched or
    created. *)
Lemma traced_push_match_after E field nextID payload typeName p :
  stateless typeName → (∀ s t s1, typeName s = Ok t s1 → t ≠ JNull) →
  mp_dataID p = nextID →
  traced E (get_or_create E field nextID payload typeName;; push_match p).
Proof.
  intros Hty Htyped Hid s. unfold bind.
  pose proof (traced_get_or_create E field nextID payload typeName Hty Htyped s) as Hreach.
  destruct (get_or_create _ _ _ _ _ s) as [[] s1|e s1] eqn:Hrun; [|exact Hreach].
  etrans; [exact Hreach|]. apply rtc_once. constructor. rewrite Hid.
  by eapply get_or_create_has.
Qed.

Create HintDb traced.
#[local] Hint Resolve traced_ret traced_throw traced_invariant traced_source_get
  traced_deref traced_path_copy traced_path_push traced_path_pop traced_warning traced_when_dev traced_setValue
  traced_setLinkedRecordID traced_setLinkedRecordIDs traced_typed_get traced_getDataID
  traced_getType traced_validateRecordType traced_get_or_create_linked traced_stateless
  traced_continuation traced_handle_field
  stateless_ret stateless_getVariableValue stateless_guard_value stateless_getRecordType
  stateless_imported
  stateless_concrete_or_record_type stateless_observed : traced.

(** Splits a goal about the effects of a computation along its
    structure. *)
Ltac traced_step :=
  lazymatch goal with
  | |- traced _ (bind _ _) => apply traced_bind; [|intros ?]
  | |- traced _ (match ?x with _ => _ end) => destruct x
  | |- traced _ (if ?x then _ else _) => destruct x
  | |- traced _ (let _ := _ in _) => cbv zeta
  end.

Ltac traced_auto := repeat traced_step; eauto with traced.

Lemma traced_traverse_selection E vars hsn selection :
  ∀ parent record data,
    traced E (traverse_selection E vars hsn parent record data selection).
Proof.
  assert (Hitems : ∀ traverse field ct record key prev items,
             (∀ r d, traced E (traverse r d)) →
             ∀ i acc, traced E (plural_items E traverse field ct record key prev
                                             items i acc)).
  { intros traverse field ct record key prev items Ht.
    induction items as [|item rest IH]; intros i acc; cbn; [apply traced_ret|].
    apply traced_bind; [|intros ?; apply IH].
    unfold plural_item, item_id, id_or, reuse_or, client_id, expect_string.
    destruct item; traced_auto. }
  assert (Hfield : ∀ traverse parent field f record data,
             (∀ r d, traced E (traverse r d)) →
             traced E (_normalizeField E vars hsn traverse parent field f record data)).
  { intros traverse parent field f record data Ht.
    unfold _normalizeField, write_missing, _normalizeLink, _normalizePluralLink,
      link_to_next, link_id, id_or, reuse_or, client_id, expect_string.
    traced_auto. }
  induction selection as [f|f ct pl sels IH|pv c sels IH|t sels IH|h|h|f m
                         |i l sels IH|i l sels IH|n sels IH|n|n sels IH]
    using Selection_tree_ind; intros parent record data; cbn.
  - apply Hfield. intros; apply traced_ret.
  - apply Hfield. intros r d. apply traced_forEach.
    eapply Forall_impl; [exact IH|]. cbn. auto.
  - traced_auto. apply traced_forEach. eapply Forall_impl; [exact IH|]. cbn. auto.
  - traced_auto. apply traced_forEach. eapply Forall_impl; [exact IH|]. cbn. auto.
  - apply traced_handle_field.
  - apply traced_handle_field.
  - unfold _normalizeMatchField, write_missing.
    apply traced_bind; [apply traced_invariant|]. intros _. cbv zeta.
    apply traced_bind; [apply traced_stateless, stateless_imported|]. intros storageKey.
    destruct (js_get data _) as [fieldValue|]; [|traced_auto].
    assert (Hvalue :
              traced E
                (invariant (is_object fieldValue) (ErrValueNotObject storageKey);;
                 let* typeName := _getRecordType E fieldValue in
                 match match_for E m typeName with
                 | Some _ =>
                     let* nextID := link_to_next E fieldValue record storageKey in
                     get_or_create E (MatchField f m) nextID fieldValue (ret typeName);;
                     match js_get fieldValue (MATCH_FRAGMENT_KEY E) with
                     | Some JNull | None => ret tt
                     | Some operationReference =>
                         push_match (mkMatchPayload operationReference nextID fieldValue
                                                    typeName vars)
                     end
                 | None => setValue record storageKey JNull
                 end)).
    { apply traced_bind; [apply traced_invariant|]. intros _.
      apply traced_bind_Ok; [apply traced_stateless, stateless_getRecordType|].
      intros typeName (s0 & s1 & Htype). apply getRecordType_typed in Htype.
      assert (Hret : ∀ s t s1, ret typeName s = Ok t s1 → t ≠ JNull)
        by (by intros s t s' [= <- _]).
      destruct (match_for _ _ _); [|apply traced_setValue].
      apply traced_bind;
        [unfold link_to_next, link_id, id_or, reuse_or, client_id, expect_string;
         traced_auto|].
      intros nextID.
      destruct (js_get fieldValue _) as [[]|];
        first [by apply traced_push_match_after; [apply stateless_ret|..]
              | apply traced_bind; [by apply traced_get_or_create; [apply stateless_ret|]
                                   | intros _; apply traced_ret]]. }
    destruct fieldValue; first [exact Hvalue | traced_auto].
  - assert (traced E (forEach (traverse_selection E vars hsn (Defer i l sels) record data)
                              sels)).
    { apply traced_forEach. eapply Forall_impl; [exact IH|]. cbn. auto. }
    unfold _normalizeDefer. traced_auto.
  - assert (traced E (forEach (traverse_selection E vars hsn (Stream i l sels) record data)
                              sels)).
    { apply traced_forEach. eapply Forall_impl; [exact IH|]. cbn. auto. }
    unfold _normalizeStream. traced_auto.
  - apply traced_throw.
  - apply traced_throw.
  - apply traced_throw.
Qed.

Lemma traced_normalize E recordSource selector response options :
  rtc (step E) (constructor recordSource)
      (final (normalize E recordSource selector response options)).
Proof.
  rewrite normalize_unfold. destruct (recordSource !! dataID selector); [|apply rtc_refl].
  pose proof (traced_forEach E
                (traverse_selection E (variables selector) (handleStrippedNulls options)
                                    (node selector) (dataID selector) response)
                (selections_of (node selector))) as Htr.
  unfold _traverseSelections.
  specialize (Htr ltac:(apply Forall_forall; intros x _; apply traced_traverse_selection)
                  (constructor recordSource)).
  by destruct (forEach _ _ _).
Qed.

(** ** What no call does to the store *)

Lemma retained_refl src : retained src src.
Proof. intros id r Hr. eauto. Qed.

Lemma retained_trans src src1 src2 :
  retained src src1 → retained src1 src2 → retained src src2.
Proof.
  intros H1 H2 id r Hr. destruct (H1 _ _ Hr) as (r1 & Hr1 & Hsub1).
  destruct (H2 _ _ Hr1) as (r2 & Hr2 & Hsub2). exists r2. split; [done|]. set_solver.
Qed.

Lemma step_retained E s s1 : step E s s1 → retained (_recordSource s) (_recordSource s1).
Proof.
  destruct 1 as [id t Hnone|record r key v Hr| | | | |]; cbn; try apply retained_refl.
  - intros id' r' Hr'. exists r'. split; [|done].
    rewrite lookup_insert_ne; [done|]. intros ->. congruence.
  - intros id' r' Hr'. destruct (decide (record = id')) as [<-|Hne].
    + rewrite lookup_insert_eq. eexists. split; [done|]. cbn.
      assert (r' = r) as -> by congruence. rewrite dom_insert. set_solver.
    + exists r'. by rewrite lookup_insert_ne.
Qed.

Lemma reaches_retained E s s1 :
  rtc (step E) s s1 → retained (_recordSource s) (_recordSource s1).
Proof.
  induction 1 as [|s s1 s2 Hstep _ IH]; [apply retained_refl|].
  eapply retained_trans; [by eapply step_retained | exact IH].
Qed.

Lemma step_keyed E s s1 : step E s s1 → keyed (_recordSource s) → keyed (_recordSource s1).
Proof.
  destruct 1 as [id t Hnone|record r key v Hr| | | | |]; cbn; try done.
  - intros Hk id' r'. destruct (decide (id = id')) as [<-|Hne].
    + rewrite lookup_insert_eq. by intros [= <-].
    + rewrite lookup_insert_ne; [apply Hk | done].
  - intros Hk id' r'. destruct (decide (record = id')) as [<-|Hne].
    + rewrite lookup_insert_eq. intros [= <-]. cbn. by apply Hk.
    + rewrite lookup_insert_ne; [apply Hk | done].
Qed.

Lemma step_created_typed E R s s1 :
  step E s s1 → created_typed R (_recordSource s) → created_typed R (_recordSource s1).
Proof.
  destruct 1 as [id t Hnone Ht|record r key v Hr| | | | |]; cbn; try done.
  - intros Hk id' r'. destruct (decide (id = id')) as [<-|Hne].
    + rewrite lookup_insert_eq. by intros [= <-].
    + rewrite lookup_insert_ne; [apply Hk | done].
  - intros Hk id' r'. destruct (decide (record = id')) as [<-|Hne].
    + rewrite lookup_insert_eq. intros [= <-] HR. cbn. by eapply Hk.
    + rewrite lookup_insert_ne; [apply Hk | done].
Qed.

Lemma reaches_created_typed E R s s1 :
  rtc (step E) s s1 → created_typed R (_recordSource s) → created_typed R (_recordSource s1).
Proof.
  induction 1 as [|s s1 s2 Hstep _ IH]; [done|]. intros Hk.
  eapply IH, step_created_typed; eauto.
Qed.

Lemma reaches_keyed E s s1 :
  rtc (step E) s s1 → keyed (_recordSource s) → keyed (_recordSource s1).
Proof. induction 1 as [|s s1 s2 Hstep _ IH]; [done|]. intros Hk. eapply IH, step_keyed; eauto. Qed.

(** The fields of the store are those of the store the call began
    with, overwritten by the journal. *)
Lemma step_written_over E src s s1 :
  step E s s1 →
  retained src (_recordSource s) →
  (∀ record key, stored (_recordSource s) record key
                 = written_over src (journal s) record key) →
  ∀ record key, stored (_recordSource s1) record key
                = written_over src (journal s1) record key.
Proof.
  destruct 1 as [id t Hnone|owner r k v Hr| | | | |]; cbn; try done.
  - intros Hret Hinv record key. rewrite <- Hinv. unfold stored.
    destruct (decide (id = record)) as [<-|Hne].
    + by rewrite lookup_insert_eq, Hnone.
    + by rewrite lookup_insert_ne.
  - intros Hret Hinv record key. unfold written_over. cbn.
    destruct (decide (owner = record ∧ k = key)) as [[<- <-]|Hne].
    + unfold stored. rewrite lookup_insert_eq. cbn. apply lookup_insert_eq.
    + fold (written_over src (journal s) record key). rewrite <- Hinv. unfold stored.
      destruct (decide (owner = record)) as [<-|Hrec].
      * rewrite lookup_insert_eq, Hr. cbn. rewrite lookup_insert_ne; [done|].
        intros <-. by apply Hne.
      * by rewrite lookup_insert_ne.
Qed.

Lemma reaches_written_over E src s s1 :
  rtc (step E) s s1 →
  retained src (_recordSource s) →
  (∀ record key, stored (_recordSource s) record key
                 = written_over src (journal s) record key) →
  ∀ record key, stored (_recordSource s1) record key
                = written_over src (journal s1) record key.
Proof.
  induction 1 as [|s s1 s2 Hstep _ IH]; [done|]. intros Hret Hinv. apply IH.
  - eapply retained_trans; [exact Hret | by eapply step_retained].
  - by eapply step_written_over.
Qed.

(** X1. Whatever the outcome of a call of [normalize], a record that
    was in the record source is still there afterwards, and every
    storage key it had set is still set: the normalizer only adds
    records and sets fields. *)
Theorem normalize_retains_records E recordSource selector response options id r :
  recordSource !! id = Some r →
  ∃ r1, _recordSource (final (normalize E recordSource selector response options)) !! id
        = Some r1
        ∧ dom (rec_fields r) ⊆ dom (rec_fields r1).
Proof.
  intros Hr.
  exact (reaches_retained _ _ _ (traced_normalize E recordSource selector response options)
                          id r Hr).
Qed.

Lemma normalize_retains_records_witness :
  let kept := RelayModernRecord.setValue Sample.root_record "greeting" (JStr "hello") in
  ∃ r1,
    _recordSource
      (final (normalize (Sample.externals true) {[ "client:root" := kept ]}
                (mkSelector "client:root" (Operation "Q" [Sample.scalar "name"])
                            (∅ : Variables))
                (JObj [("name", JStr "Ada")]) default_options)) !! "client:root"
    = Some r1
    ∧ dom (rec_fields kept) ⊆ dom (rec_fields r1).
Proof.
  intros kept.
  apply (normalize_retains_records (Sample.externals true) {[ "client:root" := kept ]}
           (mkSelector "client:root" (Operation "Q" [Sample.scalar "name"])
                       (∅ : Variables))
           (JObj [("name", JStr "Ada")]) default_options "client:root" kept).
  vm_compute. reflexivity.
Defined.

(** X2. When every record of the record source is stored under its own
    identity, the same holds of the store a call of [normalize] leaves
    behind, whatever its outcome: a new record is inserted under the
    identity it was created with. *)
Theorem normalize_keeps_keys E recordSource selector response options :
  keyed recordSource →
  keyed (_recordSource (final (normalize E recordSource selector response options))).
Proof.
  exact (reaches_keyed _ _ _ (traced_normalize E recordSource selector response options)).
Qed.

Lemma normalize_keeps_keys_witness :
  keyed (_recordSource
           (final (normalize (Sample.externals true)
                     {[ "client:root" := Sample.root_record ]}
                     (mkSelector "client:root"
                        (Operation "Q" [Sample.linked "me" (Some "User") false
                                          [Sample.scalar "name"]])
                        (∅ : Variables))
                     (JObj [("me", JObj [("id", JStr "1"); ("name", JStr "Ada")])])
                     default_options))).
Proof.
  apply normalize_keeps_keys. intros id r Hr.
  apply lookup_singleton_Some in Hr as [<- <-]. reflexivity.
Defined.

(** X3. Whatever the outcome of a call of [normalize], a storage key of
    a record holds the value the call wrote to it last, and a key the
    call did not write holds what it held before; a record the call
    created has no other fields than those the call wrote. *)
Theorem normalize_merges_fields E recordSource selector response options record key :
  let s1 := final (normalize E recordSource selector response options) in
  stored (_recordSource s1) record key = written_over recordSource (journal s1) record key.
Proof.
  cbv zeta.
  apply (reaches_written_over E recordSource (constructor recordSource));
    [apply traced_normalize | apply retained_refl | done].
Qed.

(** X4. Whatever the outcome of a call of [normalize], every record
    that the call added to the store was created with a type: the
    concrete type of its field or the typename of its payload, and the
    call fails rather than create a record without one.  The type such
    a record has in the end is that type, unless the call wrote the
    record's [__typename] key: it is then the value written there last,
    which may be null. *)
Theorem normalize_types_records E recordSource selector response options id r :
  let s1 := final (normalize E recordSource selector response options) in
  _recordSource s1 !! id = Some r →
  recordSource !! id = None →
  rec_type r ≠ JNull ∧
  RelayModernRecord.getType r
  = match latest (journal s1) id RelayModernRecord.TYPENAME_KEY with
    | Some v => js_of v
    | None => rec_type r
    end.
Proof.
  intros s1 Hr Hnone. split.
  - refine (reaches_created_typed E recordSource _ _
              (traced_normalize E recordSource selector response options) _ id r Hr Hnone).
    intros id' r' Hr' Hnone'. cbn in Hr'. congruence.
  - pose proof (reaches_written_over E recordSource (constructor recordSource) s1
                  (traced_normalize E recordSource selector response options)
                  (retained_refl _) ltac:(done) id RelayModernRecord.TYPENAME_KEY) as Hw.
    unfold written_over, stored in Hw. rewrite Hr, Hnone in Hw. cbn in Hw.
    unfold RelayModernRecord.getType. rewrite Hw.
    by destruct (latest (journal s1) id RelayModernRecord.TYPENAME_KEY).
Qed.

Lemma normalize_types_records_witness :
  let s1 := final (normalize (Sample.externals true)
                     {[ "client:root" := Sample.root_record ]}
                     (mkSelector "client:root"
                        (Operation "Q" [Sample.linked "me" (Some "User") false
                                          [Sample.scalar "__typename";
                                           Sample.scalar "name"]])
                        (∅ : Variables))
                     (JObj [("me", JObj [("__typename", JNull); ("id", JStr "1");
                                         ("name", JStr "Ada")])])
                     default_options) in
  ∃ r, _recordSource s1 !! "1" = Some r ∧ rec_type r = JStr "User" ∧
       RelayModernRecord.getType r = JNull.
Proof.
  intros s1.
  destruct (_recordSource s1 !! "1") as [r|] eqn:Hr; [|by vm_compute in Hr].
  destruct (normalize_types_records (Sample.externals true)
              {[ "client:root" := Sample.root_record ]}
              (mkSelector "client:root"
                 (Operation "Q" [Sample.linked "me" (Some "User") false
                                   [Sample.scalar "__typename"; Sample.scalar "name"]])
                 (∅ : Variables))
              (JObj [("me", JObj [("__typename", JNull); ("id", JStr "1");
                                  ("name", JStr "Ada")])])
              default_options "1" r Hr) as [Hcreated Htype];
    [vm_compute; reflexivity|].
  exists r. split; [reflexivity|].
  vm_compute in Hr. injection Hr as <-. split; vm_compute; reflexivity.
Defined.

(** ** The records that payloads name *)

Lemma step_named E s s1 id : step E s s1 → named s id → named s1 id.
Proof.
  intros Hstep (record & r & Hr & Hid).
  destruct Hstep as [id' t Hnone|record' r' key v Hr'| | | | |]; cbn;
    try (by exists record, r).
  - exists record, r. split; [|done]. cbn. rewrite lookup_insert_ne; [done|].
    intros ->. congruence.
  - destruct (decide (record' = record)) as [->|Hne].
    + eexists record, _. cbn. rewrite lookup_insert_eq. split; [done|]. cbn. congruence.
    + exists record, r. cbn. by rewrite lookup_insert_ne.
Qed.

Lemma step_has E s s1 id :
  step E s s1 → is_Some (_recordSource s !! id) → is_Some (_recordSource s1 !! id).
Proof.
  intros Hstep [r Hr]. destruct (step_retained _ _ _ Hstep _ _ Hr) as (r1 & Hr1 & _). eauto.
Qed.

Lemma step_payloads_named E s s1 : step E s s1 → payloads_named s → payloads_named s1.
Proof.
  intros Hstep [Hinc Hhandle Hmatch].
  assert (Hinc1 : Forall (λ p, named s1 (dataID (inc_selector p)))
                         (_incrementalPayloads s)).
  { eapply Forall_impl; [exact Hinc|]. intros p. by apply (step_named E). }
  assert (Hhandle1 : Forall (λ p, named s1 (hp_dataID p)) (_handleFieldPayloads s)).
  { eapply Forall_impl; [exact Hhandle|]. intros p. by apply (step_named E). }
  assert (Hmatch1 : Forall (λ p, is_Some (_recordSource s1 !! mp_dataID p))
                           (_matchFieldPayloads s)).
  { eapply Forall_impl; [exact Hmatch|]. intros p. by apply (step_has E). }
  destruct Hstep as [id t Hnone|record r key v Hr|path|p Hp|p Hp|p Hp|d Hdev];
    split; cbn in *; try done.
  - apply Forall_app. split; [done|]. by apply Forall_singleton.
  - apply Forall_app. split; [done|]. by apply Forall_singleton.
  - apply Forall_app. split; [done|]. by apply Forall_singleton.
Qed.

Lemma reaches_payloads_named E s s1 :
  rtc (step E) s s1 → payloads_named s → payloads_named s1.
Proof.
  induction 1 as [|s s1 s2 Hstep _ IH]; [done|]. intros Hn.
  eapply IH, step_payloads_named; eauto.
Qed.

Lemma named_keyed s id : keyed (_recordSource s) → named s id → is_Some (_recordSource s !! id).
Proof. intros Hk (record & r & Hr & <-). rewrite (Hk _ _ Hr). eauto. Qed.

(** X5. When every record of the record source is stored under its own
    identity and a call of [normalize] succeeds, every payload it
    returns names a record of the store it leaves: an incremental
    payload and a handle payload the record their selection was met on,
    a match payload the record of the matched object. *)
Theorem payloads_name_records E recordSource selector response options out s1 :
  normalize E recordSource selector response options = Ok out s1 →
  keyed recordSource →
  (∀ p, p ∈ incrementalPayloads out →
        is_Some (_recordSource s1 !! dataID (inc_selector p))) ∧
  (∀ p, p ∈ fieldPayloads out → is_Some (_recordSource s1 !! hp_dataID p)) ∧
  (∀ p, p ∈ matchPayloads out → is_Some (_recordSource s1 !! mp_dataID p)).
Proof.
  intros Hrun Hkeyed.
  pose proof (traced_normalize E recordSource selector response options) as Hreach.
  rewrite Hrun in Hreach. cbn in Hreach.
  rewrite (normalize_Ok_inv _ _ _ _ _ _ _ Hrun). cbn.
  pose proof (reaches_keyed _ _ _ Hreach Hkeyed) as Hkeyed1.
  destruct (reaches_payloads_named _ _ _ Hreach) as [Hinc Hhandle Hmatch].
  { split; cbn; constructor. }
  rewrite Forall_forall in Hinc. rewrite Forall_forall in Hhandle.
  rewrite Forall_forall in Hmatch.
  split; [|split]; intros p Hp; [apply named_keyed; auto..|auto].
Qed.

Lemma payloads_name_records_witness :
  ∃ out s1,
    normalize (Sample.externals true) {[ "client:root" := Sample.root_record ]}
      (mkSelector "client:root"
         (Operation "Q"
            [Sample.linked "me" (Some "User") false
               [Defer None "bio" [Sample.scalar "bio"];
                ScalarHandle (mkHandle None "name" None "upper" "" None)]])
         (∅ : Variables))
      (JObj [("me", JObj [("id", JStr "1")])])
      default_options = Ok out s1
    ∧ (∀ p, p ∈ incrementalPayloads out →
            is_Some (_recordSource s1 !! dataID (inc_selector p)))
    ∧ (∀ p, p ∈ fieldPayloads out → is_Some (_recordSource s1 !! hp_dataID p))
    ∧ (∀ p, p ∈ matchPayloads out → is_Some (_recordSource s1 !! mp_dataID p)).
Proof.
  destruct (normalize _ _ _ _ _) as [out s1|e s1] eqn:Hrun; [|by vm_compute in Hrun].
  exists out, s1. split; [reflexivity|].
  apply (payloads_name_records _ _ _ _ _ _ _ Hrun). intros id r Hr.
  apply lookup_singleton_Some in Hr as [<- <-]. reflexivity.
Defined.

(** ** References between records *)

Lemma closed_is_Some src id r key v t :
  closed src → src !! id = Some r → rec_fields r !! key = Some v → t ∈ targets v →
  is_Some (src !! t).
Proof. intros Hc Hr Hv Ht. by destruct (Hc _ _ _ _ _ Hr Hv Ht). Qed.

Lemma closed_but_weaken next src : closed src → closed_but next src.
Proof. intros Hc id r key v t Hr Hv Ht. right. by eapply closed_is_Some. Qed.

(** Setting one storage key of a record of the store. *)
Lemma closed_write next src record r key v :
  closed src → src !! record = Some r →
  (∀ t, t ∈ targets v → Some t = next ∨ is_Some (src !! t)) →
  closed_but next
    (<[record := mkRecord (rec_id r) (rec_type r) (<[key := v]> (rec_fields r))]> src).
Proof.
  intros Hc Hr Hv id r' key' v' t Hr' Hv' Ht.
  assert (Hkeep : ∀ t', is_Some (src !! t') →
            is_Some (<[record := mkRecord (rec_id r) (rec_type r)
                                          (<[key := v]> (rec_fields r))]> src !! t')).
  { intros t' Hsome. destruct (decide (record = t')) as [<-|Hne].
    - rewrite lookup_insert_eq. eauto.
    - by rewrite lookup_insert_ne. }
  destruct (decide (record = id)) as [<-|Hne].
  - rewrite lookup_insert_eq in Hr'. injection Hr' as <-. cbn in Hv'.
    destruct (decide (key = key')) as [<-|Hkey].
    + rewrite lookup_insert_eq in Hv'. injection Hv' as <-.
      destruct (Hv _ Ht); [by left | right; by apply Hkeep].
    + rewrite lookup_insert_ne in Hv' by done.
      right. apply Hkeep. by eapply closed_is_Some.
  - rewrite lookup_insert_ne in Hr' by done.
    right. apply Hkeep. by eapply closed_is_Some.
Qed.

(** Creating the one record that was missing. *)
Lemma closed_create src next typeName :
  closed_but (Some next) src →
  closed (<[next := RelayModernRecord.create next typeName]> src).
Proof.
  intros Hc id r key v t Hr Hv Ht. right.
  destruct (decide (next = id)) as [<-|Hne].
  - rewrite lookup_insert_eq in Hr. injection Hr as <-. cbn in Hv.
    by rewrite lookup_empty in Hv.
  - rewrite lookup_insert_ne in Hr by done.
    destruct (decide (next = t)) as [<-|Hnt]; [rewrite lookup_insert_eq; eauto|].
    rewrite lookup_insert_ne by done.
    destruct (Hc _ _ _ _ _ Hr Hv Ht) as [[= ->]|]; done.
Qed.

Lemma closed_found src next :
  closed_but (Some next) src → is_Some (src !! next) → closed src.
Proof.
  intros Hc Hnext id r key v t Hr Hv Ht. right.
  destruct (Hc _ _ _ _ _ Hr Hv Ht) as [[= ->]|]; done.
Qed.

Lemma keeps_source_closed {A} (m : M A) : keeps_source m → keeps_closed m.
Proof. intros Hm s a s1 Hrun. by rewrite (Hm _ _ _ Hrun). Qed.

Lemma keeps_closed_ret {A} (a : A) : keeps_closed (ret a).
Proof. by intros s a' s1 [= _ <-]. Qed.

Lemma keeps_closed_throw {A} e : keeps_closed (@throw A e).
Proof. intros s a s1 [=]. Qed.

Lemma keeps_closed_bind {A B} (m : M A) (k : A → M B) :
  keeps_closed m → (∀ a, keeps_closed (k a)) → keeps_closed (bind m k).
Proof.
  intros Hm Hk s b s2 Hrun Hc. apply bind_inv in Hrun as (a & s1 & H1 & H2).
  eapply Hk; [exact H2|]. by eapply Hm.
Qed.

Lemma keeps_closed_forEach {A} (f : A → M unit) (l : list A) :
  Forall (λ x, keeps_closed (f x)) l → keeps_closed (forEach f l).
Proof.
  induction 1 as [|x l Hx _ IH]; cbn; [apply keeps_closed_ret|].
  apply keeps_closed_bind; [done | intros _; apply IH].
Qed.

Lemma keeps_closed_invariant c e : keeps_closed (invariant c e).
Proof. destruct c; [apply keeps_closed_ret | apply keeps_closed_throw]. Qed.

Lemma keeps_closed_path_push key : keeps_closed (path_push key).
Proof. by intros s a s1 [= _ <-]. Qed.

Lemma keeps_closed_path_pop : keeps_closed path_pop.
Proof. by intros s a s1 [= _ <-]. Qed.

Lemma keeps_closed_path_copy : keeps_closed path_copy.
Proof. by intros s a s1 [= _ <-]. Qed.

Lemma keeps_closed_push_incremental p : keeps_closed (push_incremental p).
Proof. by intros s a s1 [= _ <-]. Qed.

Lemma keeps_closed_push_handle p : keeps_closed (push_handle p).
Proof. by intros s a s1 [= _ <-]. Qed.

Lemma keeps_closed_push_match p : keeps_closed (push_match p).
Proof. by intros s a s1 [= _ <-]. Qed.

Lemma keeps_closed_stateless {A} (m : M A) : stateless m → keeps_closed m.
Proof. intros Hm. by apply keeps_source_closed, keeps_source_stateless. Qed.

Lemma keeps_closed_warning E cond d : keeps_closed (warning E cond d).
Proof. apply keeps_source_closed, keeps_source_warning. Qed.

Lemma keeps_closed_when_dev E m : keeps_closed m → keeps_closed (when_dev E m).
Proof. unfold when_dev. destruct (DEV E); [done | intros _; apply keeps_closed_ret]. Qed.

Lemma keeps_closed_getDataID record : keeps_closed (getDataID record).
Proof.
  apply keeps_source_closed, keeps_source_bind; [apply keeps_source_deref|].
  by intros r s a s1 [= _ <-].
Qed.

Lemma keeps_closed_getType record : keeps_closed (getType record).
Proof.
  apply keeps_source_closed, keeps_source_bind; [apply keeps_source_deref|].
  by intros r s a s1 [= _ <-].
Qed.

Lemma keeps_closed_setValue record storageKey v : keeps_closed (setValue record storageKey v).
Proof.
  intros s a s1 Hrun Hc. unfold setValue, write_field in Hrun.
  apply bind_inv in Hrun as (r & s' & Hd & Hrun). apply deref_inv in Hd as [Hr ->].
  injection Hrun as _ <-. cbn. apply closed_write; [done..|].
  intros t Ht. by apply elem_of_nil in Ht.
Qed.

(** The record [nextID] is in the store once [get_or_create] has
    returned, and it was the only one that could be missing. *)
Lemma get_or_create_closes E field nextID payload typeName s a s1 :
  stateless typeName →
  get_or_create E field nextID payload typeName s = Ok a s1 →
  is_Some (_recordSource s1 !! nextID) ∧
  (closed_but (Some nextID) (_recordSource s) → closed (_recordSource s1)).
Proof.
  intros Hty Hrun. unfold get_or_create in Hrun.
  apply bind_inv in Hrun as (o & s' & [= <- <-] & Hrun).
  destruct (_recordSource s !! nextID) as [r|] eqn:Hnext.
  - apply keeps_source_when_dev in Hrun; [|apply keeps_source_validateRecordType].
    rewrite Hrun, Hnext. split; [eauto|]. intros Hc. by eapply closed_found.
  - apply bind_inv in Hrun as (t & s' & Ht & Hset).
    apply (stateless_inv _ _ _ _ Hty) in Ht as [-> _]. injection Hset as _ <-. cbn.
    split; [rewrite lookup_insert_eq; eauto|]. apply closed_create.
Qed.

Lemma keeps_closed_get_or_create E field nextID payload typeName :
  stateless typeName → keeps_closed (get_or_create E field nextID payload typeName).
Proof.
  intros Hty s a s1 Hrun Hc.
  apply (get_or_create_closes _ _ _ _ _ _ _ _ Hty Hrun). by apply closed_but_weaken.
Qed.

(** After [link_to_next] only the record it names can be missing. *)
Lemma link_to_next_closed_but E fieldValue record storageKey s nextID s1 :
  link_to_next E fieldValue record storageKey s = Ok nextID s1 →
  closed (_recordSource s) → closed_but (Some nextID) (_recordSource s1).
Proof.
  intros Hrun Hc. unfold link_to_next in Hrun.
  apply bind_inv in Hrun as (v & s' & Hid & Hrun).
  apply readonly_link_id in Hid as ->.
  apply bind_inv in Hrun as (id & s' & Hstr & Hrun).
  apply expect_string_inv in Hstr as [-> ->].
  apply bind_inv in Hrun as ([] & s' & Hset & [= <- <-]).
  unfold setLinkedRecordID, write_field in Hset.
  apply bind_inv in Hset as (r & s'' & Hd & Hset). apply deref_inv in Hd as [Hr ->].
  injection Hset as <-. cbn. apply closed_write; [done..|].
  intros t Ht. apply list_elem_of_singleton in Ht as ->. by left.
Qed.

Lemma keeps_closed_normalizeLink E traverse field concreteType record storageKey fieldValue :
  (∀ r d, keeps_closed (traverse r d)) →
  keeps_closed (_normalizeLink E traverse field concreteType record storageKey fieldValue).
Proof.
  intros Ht s a s1 Hrun Hc. unfold _normalizeLink in Hrun.
  apply bind_inv in Hrun as ([] & s' & Hinv & Hrun). apply invariant_inv in Hinv as [_ ->].
  apply bind_inv in Hrun as (nextID & s2 & Hlink & Hrun).
  apply bind_inv in Hrun as ([] & s3 & Hcreate & Hrun).
  eapply Ht; [exact Hrun|].
  eapply get_or_create_closes;
    [apply stateless_concrete_or_record_type | exact Hcreate |].
  by eapply link_to_next_closed_but.
Qed.

(** The loop of [_normalizePluralLink]: every identity collected is
    the key of a record. *)
Lemma plural_items_exist E traverse field concreteType record storageKey prevIDs items :
  (∀ r d, mono (traverse r d)) →
  ∀ nextIndex nextIDs s ids s1,
    plural_items E traverse field concreteType record storageKey prevIDs items
                 nextIndex nextIDs s = Ok ids s1 →
    (∀ t, Some t ∈ nextIDs → is_Some (_recordSource s !! t)) →
    ∀ t, Some t ∈ ids → is_Some (_recordSource s1 !! t).
Proof.
  intros Hmono. induction items as [|item rest IH]; intros i acc s ids s1; cbn.
  { intros [= <- <-]. auto. }
  intros Hrun Hacc. apply bind_inv in Hrun as (acc' & s' & Hitem & Hrun).
  pose proof (mono_plural_item E traverse field concreteType record storageKey prevIDs
                acc item i Hmono _ _ _ Hitem) as Hgrow.
  eapply IH; [exact Hrun|].
  intros t Hin. revert Hitem. unfold plural_item.
  assert (Hobj : (path_push (pretty i);;
                  invariant (is_object item) (ErrElementNotObject storageKey);;
                  let* v := item_id E item prevIDs record storageKey i in
                  let* nextID := expect_string v (ErrElementIDNotString storageKey) in
                  get_or_create E field nextID item
                    (concrete_or_record_type E concreteType item);;
                  traverse nextID item;; path_pop;; ret (acc ++ [Some nextID])) s
                 = Ok acc' s' → is_Some (_recordSource s' !! t)).
  { intros Hrun'.
    apply bind_inv in Hrun' as ([] & s2 & [= <-] & Hrun').
    apply bind_inv in Hrun' as ([] & s3 & Hinv & Hrun').
    apply invariant_inv in Hinv as [_ ->].
    apply bind_inv in Hrun' as (v & s3 & Hid & Hrun').
    apply readonly_item_id in Hid as ->.
    apply bind_inv in Hrun' as (nextID & s3 & Hstr & Hrun').
    apply expect_string_inv in Hstr as [-> ->].
    apply bind_inv in Hrun' as ([] & s3 & Hcreate & Hrun').
    apply bind_inv in Hrun' as ([] & s4 & Htrav & Hrun').
    apply bind_inv in Hrun' as ([] & s5 & [= <-] & [= <- <-]).
    apply elem_of_app in Hin as [Hin|Hin].
    - apply (grows_is_Some _ _ _ Hgrow). by apply Hacc.
    - apply list_elem_of_singleton in Hin as [= ->]. cbn.
      apply (grows_is_Some s3); [by eapply Hmono|].
      eapply get_or_create_has;
        [apply stateless_concrete_or_record_type | exact Hcreate]. }
  destruct item; try apply Hobj. intros [= <- <-].
  apply elem_of_app in Hin as [Hin|Hin]; [by apply Hacc|].
  by apply list_elem_of_singleton in Hin.
Qed.

(** The loop keeps a closed store closed. *)
Lemma plural_items_closed E traverse field concreteType record storageKey prevIDs items :
  (∀ r d, keeps_closed (traverse r d)) →
  ∀ nextIndex nextIDs,
    keeps_closed (plural_items E traverse field concreteType record storageKey prevIDs
                               items nextIndex nextIDs).
Proof.
  intros Ht. induction items as [|item rest IH]; intros i acc; cbn;
    [apply keeps_closed_ret|].
  apply keeps_closed_bind; [|intros ?; apply IH].
  unfold plural_item.
  assert (keeps_closed
            (path_push (pretty i);;
             invariant (is_object item) (ErrElementNotObject storageKey);;
             let* v := item_id E item prevIDs record storageKey i in
             let* nextID := expect_string v (ErrElementIDNotString storageKey) in
             get_or_create E field nextID item
               (concrete_or_record_type E concreteType item);;
             traverse nextID item;; path_pop;; ret (acc ++ [Some nextID]))).
  { apply (keeps_closed_bind _ _ (keeps_closed_path_push _)). intros _.
    apply (keeps_closed_bind _ _ (keeps_closed_invariant _ _)). intros _.
    apply keeps_closed_bind;
      [apply keeps_source_closed, keeps_source_readonly, readonly_item_id|]. intros v.
    apply keeps_closed_bind; [destruct v; first [apply keeps_closed_ret
                                                | apply keeps_closed_throw]|].
    intros nextID.
    apply keeps_closed_bind;
      [apply keeps_closed_get_or_create, stateless_concrete_or_record_type|]. intros _.
    apply keeps_closed_bind; [apply Ht|]. intros _.
    apply (keeps_closed_bind _ _ keeps_closed_path_pop). intros _.
    apply keeps_closed_ret. }
  destruct item; first [done | apply keeps_closed_ret].
Qed.

Lemma keeps_closed_normalizePluralLink E traverse field concreteType record storageKey
  fieldValue :
  (∀ r d, keeps_closed (traverse r d)) → (∀ r d, mono (traverse r d)) →
  keeps_closed (_normalizePluralLink E traverse field concreteType record storageKey
                                     fieldValue).
Proof.
  intros Ht Hmono s a s1 Hrun Hc. unfold _normalizePluralLink in Hrun.
  destruct fieldValue as [| | | |items| |]; try discriminate.
  apply bind_inv in Hrun as (prev & s' & Hprev & Hrun).
  apply typed_get_inv in Hprev as (r & _ & _ & ->).
  apply bind_inv in Hrun as (ids & s2 & Hitems & Hset).
  pose proof (plural_items_exist _ _ _ _ _ _ _ _ Hmono _ _ _ _ _ Hitems) as Hids.
  pose proof (plural_items_closed _ _ _ _ _ _ _ _ Ht _ _ _ _ _ Hitems Hc) as Hc2.
  unfold setLinkedRecordIDs, write_field in Hset.
  apply bind_inv in Hset as (r2 & s'' & Hd & Hset). apply deref_inv in Hd as [Hr2 ->].
  injection Hset as _ <-. cbn. apply closed_write; [done..|].
  intros t Hin. right. cbn in Hin.
  apply list_elem_of_omap in Hin as (entry & Hin & ->).
  apply Hids; [|exact Hin]. intros t' Hnil. by apply elem_of_nil in Hnil.
Qed.

Create HintDb closed.
#[local] Hint Resolve keeps_closed_ret keeps_closed_throw keeps_closed_invariant
  keeps_closed_path_push keeps_closed_path_pop keeps_closed_path_copy
  keeps_closed_push_incremental keeps_closed_push_handle keeps_closed_push_match
  keeps_closed_stateless keeps_closed_warning keeps_closed_when_dev keeps_closed_getDataID
  keeps_closed_getType keeps_closed_setValue keeps_closed_get_or_create
  keeps_closed_normalizeLink keeps_closed_normalizePluralLink
  stateless_ret stateless_getVariableValue stateless_guard_value stateless_getRecordType
  stateless_imported
  stateless_concrete_or_record_type : closed.

(** Splits a goal about closedness along the structure of the
    computation. *)
Ltac closed_step :=
  lazymatch goal with
  | |- keeps_closed (bind _ _) => apply keeps_closed_bind; [|intros ?]
  | |- keeps_closed (match ?x with _ => _ end) => destruct x
  | |- keeps_closed (if ?x then _ else _) => destruct x
  | |- keeps_closed (let _ := _ in _) => cbv zeta
  end.

Ltac closed_auto := repeat closed_step; eauto with closed.

Lemma keeps_closed_normalizeField E vars hsn traverse parent selection f record data :
  (∀ r d, keeps_closed (traverse r d)) → (∀ r d, mono (traverse r d)) →
  keeps_closed (_normalizeField E vars hsn traverse parent selection f record data).
Proof.
  intros Ht Hmono. unfold _normalizeField, write_missing. closed_auto.
Qed.

Lemma keeps_closed_normalizeMatchField E vars hsn parent field f matchesByType record data :
  keeps_closed (_normalizeMatchField E vars hsn parent field f matchesByType record data).
Proof.
  unfold _normalizeMatchField, write_missing.
  apply keeps_closed_bind; [apply keeps_closed_invariant|]. intros _. cbv zeta.
  apply keeps_closed_bind; [apply keeps_closed_stateless, stateless_imported|].
  intros storageKey.
  destruct (js_get data _) as [fieldValue|]; [|closed_auto].
  assert (Hfield :
            keeps_closed
              (invariant (is_object fieldValue)
                         (ErrValueNotObject storageKey);;
               let* typeName := _getRecordType E fieldValue in
               match match_for E matchesByType typeName with
               | Some _ =>
                   let* nextID := link_to_next E fieldValue record
                                    storageKey in
                   get_or_create E field nextID fieldValue (ret typeName);;
                   match js_get fieldValue (MATCH_FRAGMENT_KEY E) with
                   | Some JNull | None => ret tt
                   | Some operationReference =>
                       push_match (mkMatchPayload operationReference nextID fieldValue
                                                  typeName vars)
                   end
               | None => setValue record storageKey JNull
               end)).
  { apply keeps_closed_bind; [apply keeps_closed_invariant|]. intros _.
    apply keeps_closed_bind; [apply keeps_closed_stateless, stateless_getRecordType|].
    intros typeName. destruct (match_for _ _ _) as [found|]; [|apply keeps_closed_setValue].
    intros s a s1 Hrun Hc.
    apply bind_inv in Hrun as (nextID & s2 & Hlink & Hrun).
    apply bind_inv in Hrun as ([] & s3 & Hcreate & Hrun).
    assert (Hpush : keeps_closed
                      match js_get fieldValue (MATCH_FRAGMENT_KEY E) with
                      | Some JNull | None => ret tt
                      | Some operationReference =>
                          push_match (mkMatchPayload operationReference nextID fieldValue
                                                     typeName vars)
                      end) by closed_auto.
    eapply Hpush; [exact Hrun|].
    eapply get_or_create_closes; [apply stateless_ret | exact Hcreate |].
    by eapply link_to_next_closed_but. }
  destruct fieldValue; first [exact Hfield | closed_auto].
Qed.

Lemma keeps_closed_traverse_selection E vars hsn selection :
  ∀ parent record data,
    keeps_closed (traverse_selection E vars hsn parent record data selection).
Proof.
  induction selection as [f|f ct pl sels IH|pv c sels IH|t sels IH|h|h|f m
                         |i l sels IH|i l sels IH|n sels IH|n|n sels IH]
    using Selection_tree_ind; intros parent record data; cbn.
  - apply keeps_closed_normalizeField; intros; [apply keeps_closed_ret | apply mono_ret].
  - apply keeps_closed_normalizeField; intros r d; [|apply mono_children].
    apply keeps_closed_forEach. eapply Forall_impl; [exact IH|]. cbn. auto.
  - closed_auto. apply keeps_closed_forEach. eapply Forall_impl; [exact IH|]. cbn. auto.
  - closed_auto. apply keeps_closed_forEach. eapply Forall_impl; [exact IH|]. cbn. auto.
  - unfold handle_field. closed_auto.
  - unfold handle_field. closed_auto.
  - apply keeps_closed_normalizeMatchField.
  - assert (keeps_closed (forEach (traverse_selection E vars hsn (Defer i l sels) record data)
                                  sels)).
    { apply keeps_closed_forEach. eapply Forall_impl; [exact IH|]. cbn. auto. }
    unfold _normalizeDefer, continuation. closed_auto.
  - assert (keeps_closed (forEach (traverse_selection E vars hsn (Stream i l sels) record data)
                                  sels)).
    { apply keeps_closed_forEach. eapply Forall_impl; [exact IH|]. cbn. auto. }
    unfold _normalizeStream, continuation. closed_auto.
  - apply keeps_closed_throw.
  - apply keeps_closed_throw.
  - apply keeps_closed_throw.
Qed.

(** X6. When no record of the record source refers to an identity the
    source has no record for, and a call of [normalize] succeeds, the
    same holds of the store the call leaves: every identity it linked,
    singly or in a list, is the key of a record. *)
Theorem normalize_keeps_closed E recordSource selector response options out s1 :
  normalize E recordSource selector response options = Ok out s1 →
  closed recordSource → closed (_recordSource s1).
Proof.
  rewrite normalize_unfold. destruct (recordSource !! dataID selector); [|discriminate].
  destruct (_traverseSelections _ _ _ _ _ _ _) as [[] s|] eqn:Hrun; [|discriminate].
  intros [= _ <-]. revert Hrun. unfold _traverseSelections.
  apply keeps_closed_forEach, Forall_forall. intros x _.
  apply keeps_closed_traverse_selection.
Qed.

Lemma normalize_keeps_closed_witness :
  ∃ out s1,
    normalize (Sample.externals true) {[ "client:root" := Sample.root_record ]}
      (mkSelector "client:root"
         (Operation "Q" [Sample.linked "friends" (Some "User") true
                           [Sample.scalar "name"]])
         (∅ : Variables))
      (JObj [("friends", JArr [JObj [("id", JStr "1")]; JNull;
                               JObj [("name", JStr "Bob")]])])
      default_options = Ok out s1
    ∧ closed (_recordSource s1).
Proof.
  destruct (normalize _ _ _ _ _) as [out s1|e s1] eqn:Hrun; [|by vm_compute in Hrun].
  exists out, s1. split; [reflexivity|].
  apply (normalize_keeps_closed _ _ _ _ _ _ _ Hrun).
  intros id r key v t Hr Hv. apply lookup_singleton_Some in Hr as [<- <-].
  cbn in Hv. by rewrite lookup_empty in Hv.
Defined.

(** ** Record references *)

Lemma safe_ret P {A} (a : A) : safe P (ret a).
Proof. intros s _ []. Qed.

Lemma safe_throw P {A} e : ¬ wants_record e → safe P (@throw A e).
Proof. by intros He s _. Qed.

Lemma safe_bind P {A B} (m : M A) (k : A → M B) (Q : A → NState → Prop) :
  safe P m → (∀ s a s1, P s → m s = Ok a s1 → Q a s1) → (∀ a, safe (Q a) (k a)) →
  safe P (bind m k).
Proof.
  intros Hm Hpost Hk s HP. unfold bind. specialize (Hm s HP).
  destruct (m s) as [a s1|e s1] eqn:Hrun; [|exact Hm].
  eapply Hk, Hpost; eauto.
Qed.

(** Sequencing when the records at hand are those the computation
    started with: records are never removed. *)
Lemma safe_bind_mono record {A B} (m : M A) (k : A → M B) :
  safe (has record) m → mono m → (∀ a, safe (has record) (k a)) →
  safe (has record) (bind m k).
Proof.
  intros Hm Hmono Hk. apply (safe_bind _ _ _ (λ _, has record)); [done| |done].
  intros s a s1 Hhas Hrun. by eapply grows_is_Some; [eapply Hmono|].
Qed.

Lemma safe_forEach record {A} (f : A → M unit) (l : list A) :
  Forall (λ x, safe (has record) (f x) ∧ mono (f x)) l →
  safe (has record) (forEach f l).
Proof.
  induction 1 as [|x l [Hx Hmono] _ IH]; cbn; [apply safe_ret|].
  apply safe_bind_mono; [done..|]. intros _. apply IH.
Qed.

Lemma safe_total P {A} (m : M A) : (∀ s, ∃ a s1, m s = Ok a s1) → safe P m.
Proof. intros Hm s _. destruct (Hm s) as (a & s1 & ->). intros []. Qed.

Lemma safe_invariant P c e : ¬ wants_record e → safe P (invariant c e).
Proof. destruct c; [intros _; apply safe_ret | apply safe_throw]. Qed.

Lemma safe_deref record : safe (has record) (deref record).
Proof. intros s [r Hr]. unfold deref. rewrite Hr. intros []. Qed.

Lemma safe_write_field record storageKey set value :
  safe (has record) (write_field record storageKey set value).
Proof. intros s [r Hr]. unfold write_field, bind, deref. rewrite Hr. intros []. Qed.

Lemma safe_typed_get {A} (get : RelayRecord → string → Access A) record storageKey :
  safe (has record) (typed_get get record storageKey).
Proof.
  intros s [r Hr]. unfold typed_get, bind, deref. rewrite Hr.
  destruct (get r storageKey); intros [].
Qed.

Lemma safe_getDataID record : safe (has record) (getDataID record).
Proof. intros s [r Hr]. unfold getDataID, bind, deref. rewrite Hr. intros []. Qed.

Lemma safe_getType record : safe (has record) (getType record).
Proof. intros s [r Hr]. unfold getType, bind, deref. rewrite Hr. intros []. Qed.

Lemma safe_getVariableValue P vars name : safe P (_getVariableValue vars name).
Proof. intros s _. unfold _getVariableValue. destruct (vars !! name); intros []. Qed.

Lemma safe_guard_value P vars guard : safe P (guard_value vars guard).
Proof. destruct guard; [apply safe_getVariableValue | apply safe_ret]. Qed.

Lemma safe_imported P {A} (r : Imported A) : safe P (imported r).
Proof. destruct r; [apply safe_ret | apply safe_throw; cbn; tauto]. Qed.

Lemma safe_getRecordType P E data : safe P (_getRecordType E data).
Proof. intros s _. unfold _getRecordType. destruct (js_get data _) as [[]|]; intros []. Qed.

Lemma safe_concrete_or_record_type P E concreteType payload :
  safe P (concrete_or_record_type E concreteType payload).
Proof.
  unfold concrete_or_record_type. destruct concreteType as [t|];
    [destruct (String.eqb t "")|];
    first [apply safe_ret | apply safe_getRecordType].
Qed.

Lemma safe_observed_type P E field payload : safe P (observed_type E field payload).
Proof.
  destruct field;
    first [apply safe_concrete_or_record_type | apply safe_getRecordType].
Qed.

Lemma safe_warning P E cond d : safe P (warning E cond d).
Proof. apply safe_total. intros s. rewrite warning_run. eauto. Qed.

Lemma safe_when_dev P E m : safe P m → safe P (when_dev E m).
Proof. unfold when_dev. destruct (DEV E); [done | intros _; apply safe_ret]. Qed.

Lemma safe_expect_string P v e : ¬ wants_record e → safe P (expect_string v e).
Proof. intros He. destruct v; first [apply safe_ret | by apply safe_throw]. Qed.

(** The check of an existing record reads the record just fetched. *)
Lemma safe_validateRecordType E record field payload :
  safe (has record) (_validateRecordType E record field payload).
Proof.
  unfold _validateRecordType.
  apply safe_bind_mono;
    [apply safe_observed_type | apply mono_stateless, stateless_observed|]. intros t.
  apply safe_bind_mono; [apply safe_deref | apply mono_deref|]. intros r.
  apply safe_warning.
Qed.

Lemma safe_get_or_create P E field nextID payload typeName :
  (∀ Q, safe Q typeName) → safe P (get_or_create E field nextID payload typeName).
Proof.
  intros Hty s _. unfold get_or_create, bind, source_get.
  destruct (_recordSource s !! nextID) as [r|] eqn:Hnext.
  - apply (safe_when_dev (has nextID)); [apply safe_validateRecordType|].
    unfold has. by rewrite Hnext.
  - pose proof (Hty (λ _, True) s I) as Hsafe.
    destruct (typeName s) as [t s1|e s1]; [intros [] | exact Hsafe].
Qed.

Lemma safe_link_id E fieldValue record storageKey :
  safe (has record) (link_id E fieldValue record storageKey).
Proof.
  assert (safe (has record)
               (let* prev := typed_get RelayModernRecord.getLinkedRecordID record
                                       storageKey in
                reuse_or prev (client_id E record storageKey None))).
  { apply safe_bind_mono; [apply safe_typed_get | apply mono_typed_get|]. intros prev.
    unfold reuse_or, client_id.
    destruct prev as [id|]; [destruct (String.eqb id "")|];
      first [apply safe_ret
            | apply safe_bind_mono; [apply safe_getDataID | apply mono_getDataID
                                    | intros ?; apply safe_ret]]. }
  unfold link_id, id_or. destruct (js_get fieldValue "id") as [v|]; [|done].
  destruct (truthy v); [apply safe_ret | done].
Qed.

Lemma safe_item_id E item prevIDs record storageKey nextIndex :
  safe (has record) (item_id E item prevIDs record storageKey nextIndex).
Proof.
  assert (safe (has record)
               (reuse_or (prev_entry prevIDs nextIndex)
                         (client_id E record storageKey (Some nextIndex)))).
  { unfold reuse_or, client_id.
    destruct (prev_entry prevIDs nextIndex) as [id|]; [destruct (String.eqb id "")|];
      first [apply safe_ret
            | apply safe_bind_mono; [apply safe_getDataID | apply mono_getDataID
                                    | intros ?; apply safe_ret]]. }
  unfold item_id, id_or. destruct (js_get item "id") as [v|]; [|done].
  destruct (truthy v); [apply safe_ret | done].
Qed.

Lemma safe_link_to_next E fieldValue record storageKey :
  safe (has record) (link_to_next E fieldValue record storageKey).
Proof.
  unfold link_to_next.
  apply safe_bind_mono; [apply safe_link_id | apply mono_link_id|]. intros v.
  apply safe_bind_mono; [apply safe_expect_string; intros [] | apply mono_expect_string|].
  intros nextID.
  apply safe_bind_mono; [apply safe_write_field | apply mono_setLinkedRecordID|].
  intros _. apply safe_ret.
Qed.

Lemma safe_normalizeLink E traverse field concreteType record storageKey fieldValue :
  (∀ r d, safe (has r) (traverse r d)) →
  safe (has record)
       (_normalizeLink E traverse field concreteType record storageKey fieldValue).
Proof.
  intros Ht. unfold _normalizeLink.
  apply safe_bind_mono; [apply safe_invariant; intros [] | apply mono_invariant|]. intros _.
  apply (safe_bind _ _ _ (λ _ _, True)); [apply safe_link_to_next | done|]. intros nextID.
  apply (safe_bind _ _ _ (λ _, has nextID)).
  - apply safe_get_or_create. intros Q. apply safe_concrete_or_record_type.
  - intros s a s1 _. apply get_or_create_has, stateless_concrete_or_record_type.
  - intros _. apply Ht.
Qed.

Lemma safe_plural_item E traverse field concreteType record storageKey prevIDs nextIDs
  item nextIndex :
  (∀ r d, safe (has r) (traverse r d)) →
  safe (has record)
       (plural_item E traverse field concreteType record storageKey prevIDs nextIDs
                    item nextIndex).
Proof.
  intros Ht. unfold plural_item.
  assert (safe (has record)
            (path_push (pretty nextIndex);;
             invariant (is_object item) (ErrElementNotObject storageKey);;
             let* v := item_id E item prevIDs record storageKey nextIndex in
             let* nextID := expect_string v (ErrElementIDNotString storageKey) in
             get_or_create E field nextID item
               (concrete_or_record_type E concreteType item);;
             traverse nextID item;; path_pop;; ret (nextIDs ++ [Some nextID]))).
  { apply safe_bind_mono; [apply safe_total; eauto | apply mono_path_push|]. intros _.
    apply safe_bind_mono; [apply safe_invariant; intros [] | apply mono_invariant|]. intros _.
    apply (safe_bind _ _ _ (λ _ _, True)); [apply safe_item_id | done|]. intros v.
    apply (safe_bind _ _ _ (λ _ _, True)); [apply safe_expect_string; intros [] | done|].
    intros nextID.
    apply (safe_bind _ _ _ (λ _, has nextID)).
    - apply safe_get_or_create. intros Q. apply safe_concrete_or_record_type.
    - intros s a s1 _. apply get_or_create_has, stateless_concrete_or_record_type.
    - intros _. apply (safe_bind _ _ _ (λ _ _, True)); [apply Ht | done|]. intros _.
      apply (safe_bind _ _ _ (λ _ _, True)); [apply safe_total; eauto | done|]. intros _.
      apply safe_ret. }
  destruct item; first [done | apply safe_ret].
Qed.

Lemma safe_plural_items E traverse field concreteType record storageKey prevIDs items :
  (∀ r d, safe (has r) (traverse r d)) → (∀ r d, mono (traverse r d)) →
  ∀ nextIndex nextIDs,
    safe (has record)
         (plural_items E traverse field concreteType record storageKey prevIDs items
                       nextIndex nextIDs).
Proof.
  intros Ht Hmono. induction items as [|item rest IH]; intros i acc; cbn;
    [apply safe_ret|].
  apply safe_bind_mono; [by apply safe_plural_item | by apply mono_plural_item|].
  intros acc'. apply IH.
Qed.

Lemma safe_normalizePluralLink E traverse field concreteType record storageKey fieldValue :
  (∀ r d, safe (has r) (traverse r d)) → (∀ r d, mono (traverse r d)) →
  safe (has record)
       (_normalizePluralLink E traverse field concreteType record storageKey fieldValue).
Proof.
  intros Ht Hmono. unfold _normalizePluralLink.
  destruct fieldValue as [| | | |items| |]; try (apply safe_throw; intros []).
  apply safe_bind_mono; [apply safe_typed_get | apply mono_typed_get|]. intros prev.
  apply safe_bind_mono; [by apply safe_plural_items | by apply mono_plural_items|].
  intros ids. apply safe_write_field.
Qed.

Lemma safe_write_missing E hsn parent record data responseKey storageKey fieldValue :
  safe (has record)
       (write_missing E hsn parent record data responseKey storageKey fieldValue).
Proof.
  unfold write_missing. destruct (_ && _); [apply safe_ret|].
  apply safe_bind_mono; [apply safe_when_dev, safe_warning
                        | apply mono_when_dev, mono_warning|].
  intros _. apply safe_write_field.
Qed.

Lemma safe_normalizeField E vars hsn traverse parent selection f record data :
  (∀ r d, safe (has r) (traverse r d)) → (∀ r d, mono (traverse r d)) →
  safe (has record) (_normalizeField E vars hsn traverse parent selection f record data).
Proof.
  intros Ht Hmono. unfold _normalizeField.
  apply safe_bind_mono; [apply safe_invariant; intros [] | apply mono_invariant|]. intros _.
  cbv zeta.
  apply safe_bind_mono; [apply safe_imported | apply mono_stateless, stateless_imported|].
  intros storageKey.
  destruct (js_get data _) as [fieldValue|]; [|apply safe_write_missing].
  assert (Hvalue :
            safe (has record)
              match selection with
              | ScalarField _ => setValue record storageKey fieldValue
              | LinkedField _ concreteType plural _ =>
                  path_push (responseKey_of f);;
                  (if plural
                   then _normalizePluralLink E traverse selection concreteType record
                          storageKey fieldValue
                   else _normalizeLink E traverse selection concreteType record
                          storageKey fieldValue);;
                  path_pop
              | _ => throw (ErrUnexpectedFieldKind (kind selection))
              end).
  { destruct selection as [|f' ct pl sels| | | | | | | | | |];
      try (apply safe_throw; intros []); [apply safe_write_field|].
    apply safe_bind_mono; [apply safe_total; eauto | apply mono_path_push|]. intros _.
    apply (safe_bind _ _ _ (λ _ _, True)); [|done|intros _; apply safe_total; eauto].
    destruct pl; [by apply safe_normalizePluralLink | by apply safe_normalizeLink]. }
  destruct fieldValue; first [exact Hvalue | apply safe_write_missing].
Qed.

Lemma safe_normalizeMatchField E vars hsn parent field f matchesByType record data :
  safe (has record)
       (_normalizeMatchField E vars hsn parent field f matchesByType record data).
Proof.
  unfold _normalizeMatchField.
  apply safe_bind_mono; [apply safe_invariant; intros [] | apply mono_invariant|]. intros _.
  cbv zeta.
  apply safe_bind_mono; [apply safe_imported | apply mono_stateless, stateless_imported|].
  intros storageKey.
  destruct (js_get data _) as [fieldValue|]; [|apply safe_write_missing].
  assert (Hvalue :
            safe (has record)
              (invariant (is_object fieldValue)
                         (ErrValueNotObject storageKey);;
               let* typeName := _getRecordType E fieldValue in
               match match_for E matchesByType typeName with
               | Some _ =>
                   let* nextID := link_to_next E fieldValue record
                                    storageKey in
                   get_or_create E field nextID fieldValue (ret typeName);;
                   match js_get fieldValue (MATCH_FRAGMENT_KEY E) with
                   | Some JNull | None => ret tt
                   | Some operationReference =>
                       push_match (mkMatchPayload operationReference nextID fieldValue
                                                  typeName vars)
                   end
               | None => setValue record storageKey JNull
               end)).
  { apply safe_bind_mono; [apply safe_invariant; intros [] | apply mono_invariant|]. intros _.
    apply safe_bind_mono; [apply safe_getRecordType
                          | apply mono_stateless, stateless_getRecordType|].
    intros typeName. destruct (match_for _ _ _); [|apply safe_write_field].
    apply (safe_bind _ _ _ (λ _ _, True)); [apply safe_link_to_next | done|].
    intros nextID.
    apply (safe_bind _ _ _ (λ _ _, True));
      [apply safe_get_or_create; intros Q; apply safe_ret | done|]. intros _.
    destruct (js_get fieldValue _) as [[]|];
      first [apply safe_ret | apply safe_total; eauto]. }
  destruct fieldValue; first [exact Hvalue | apply safe_write_missing].
Qed.

Lemma safe_continuation vars k label self record :
  safe (has record) (continuation vars k label self record).
Proof.
  unfold continuation.
  apply safe_bind_mono; [apply safe_total; eauto | apply mono_path_copy|]. intros p.
  apply safe_bind_mono; [apply safe_getDataID | apply mono_getDataID|]. intros id.
  apply safe_total; eauto.
Qed.

Lemma safe_handle_field E vars selection h record :
  safe (has record) (handle_field E vars selection h record).
Proof.
  unfold handle_field.
  apply safe_bind_mono;
    [destruct (h_args h); [apply safe_imported | apply safe_ret]
    |destruct (h_args h); [apply mono_stateless, stateless_imported | apply mono_ret]|].
  intros args.
  apply safe_bind_mono; [apply safe_imported | apply mono_stateless, stateless_imported|].
  intros fieldKey.
  apply safe_bind_mono; [apply safe_imported | apply mono_stateless, stateless_imported|].
  intros handleKey.
  apply safe_bind_mono; [apply safe_getDataID | apply mono_getDataID|]. intros id.
  apply safe_total; eauto.
Qed.

Lemma safe_traverse_selection E vars hsn selection :
  ∀ parent record data,
    safe (has record) (traverse_selection E vars hsn parent record data selection).
Proof.
  induction selection as [f|f ct pl sels IH|pv c sels IH|t sels IH|h|h|f m
                         |i l sels IH|i l sels IH|n sels IH|n|n sels IH]
    using Selection_tree_ind; intros parent record data; cbn.
  - apply safe_normalizeField; intros; [apply safe_ret | apply mono_ret].
  - apply safe_normalizeField; intros r d; [|apply mono_children].
    apply safe_forEach. eapply Forall_impl; [exact IH|]. cbn.
    intros x Hx. split; [apply Hx | apply mono_traverse_selection].
  - apply safe_bind_mono; [apply safe_getVariableValue
                          | apply mono_stateless, stateless_getVariableValue|].
    intros v. destruct (js_strict_eq _ _); [|apply safe_ret].
    apply safe_forEach. eapply Forall_impl; [exact IH|]. cbn.
    intros x Hx. split; [apply Hx | apply mono_traverse_selection].
  - apply safe_bind_mono; [apply safe_getType | apply mono_getType|].
    intros v. destruct (js_strict_eq _ _); [|apply safe_ret].
    apply safe_forEach. eapply Forall_impl; [exact IH|]. cbn.
    intros x Hx. split; [apply Hx | apply mono_traverse_selection].
  - apply safe_handle_field.
  - apply safe_handle_field.
  - apply safe_normalizeMatchField.
  - assert (safe (has record)
                 (forEach (traverse_selection E vars hsn (Defer i l sels) record data) sels)).
    { apply safe_forEach. eapply Forall_impl; [exact IH|]. cbn.
      intros x Hx. split; [apply Hx | apply mono_traverse_selection]. }
    unfold _normalizeDefer.
    apply safe_bind_mono; [apply safe_guard_value
                          | apply mono_stateless, stateless_guard_value|].
    intros g.
    apply safe_bind_mono; [apply safe_when_dev, safe_warning
                          | apply mono_when_dev, mono_warning|].
    intros _. destruct g as [|[]| | | | |]; first [done | apply safe_continuation].
  - assert (safe (has record)
                 (forEach (traverse_selection E vars hsn (Stream i l sels) record data) sels)).
    { apply safe_forEach. eapply Forall_impl; [exact IH|]. cbn.
      intros x Hx. split; [apply Hx | apply mono_traverse_selection]. }
    unfold _normalizeStream.
    apply safe_bind_mono; [done | apply mono_children|]. intros _.
    apply safe_bind_mono; [apply safe_guard_value
                          | apply mono_stateless, stateless_guard_value|].
    intros g.
    apply safe_bind_mono; [apply safe_when_dev, safe_warning
                          | apply mono_when_dev, mono_warning|].
    intros _. destruct g as [|[]| | | | |]; first [apply safe_ret | apply safe_continuation].
  - apply safe_throw. intros [].
  - apply safe_throw. intros [].
  - apply safe_throw. intros [].
Qed.

(** X7. No call of [normalize] fails for want of a record: the root is
    looked up before the traversal starts, a linked record is fetched
    or created before its selections are traversed, and no record is
    ever removed, so every record the accessor is called on is in the
    record source at that moment. *)
Theorem normalize_uses_stored_records E recordSource selector response options id s :
  normalize E recordSource selector response options ≠ Throw (ErrNoRecord id) s.
Proof.
  rewrite normalize_unfold. destruct (recordSource !! dataID selector) eqn:Hroot;
    [|discriminate].
  pose proof (safe_forEach (dataID selector)
                (traverse_selection E (variables selector) (handleStrippedNulls options)
                                    (node selector) (dataID selector) response)
                (selections_of (node selector))) as Hsafe.
  unfold _traverseSelections.
  specialize (Hsafe ltac:(apply Forall_forall; intros x _;
                          split; [apply safe_traverse_selection
                                 | apply mono_traverse_selection])
                    (constructor recordSource)).
  destruct (forEach _ _ _) as [[] s1|e s1]; [discriminate|].
  intros [= -> ->]. apply Hsafe; [|done]. unfold has. cbn. by rewrite Hroot.
Qed.

(** ** Where incremental payloads point *)

Lemma last_char_cons c s : s ≠ "" → last_char (String c s) = last_char s.
Proof. by destruct s. Qed.

Lemma last_char_pretty_go x s : s ≠ "" → last_char (pretty_N_go x s) = last_char s.
Proof.
  revert s. induction (N.lt_wf_0 x) as [x _ IH]. intros s Hs.
  destruct (decide (0 < x)%N) as [Hpos|Hzero].
  - rewrite pretty_N_go_step by done.
    rewrite IH; [by apply last_char_cons | by apply N.div_lt | done].
  - assert (x = 0%N) as -> by lia. by rewrite pretty_N_go_0.
Qed.

Lemma pretty_N_char_digit x : Some (pretty_N_char x) ≠ last_char "length".
Proof. unfold pretty_N_char. cbn. by repeat case_match. Qed.

(** The decimal spelling of an index is not the key ["length"]. *)
Lemma pretty_index_not_length (i : nat) : String.eqb (pretty i) "length" = false.
Proof.
  apply String.eqb_neq. intros Heq. apply (f_equal last_char) in Heq. revert Heq.
  unfold pretty, pretty_nat, pretty, pretty_N.
  destruct (decide (N.of_nat i = 0%N)) as [_|Hne]; [discriminate|].
  rewrite pretty_N_go_step by lia. rewrite last_char_pretty_go by done. cbn.
  apply pretty_N_char_digit.
Qed.

(** Reading an array at the spelling of one of its indices. *)
Lemma js_get_index items i item :
  items !! i = Some item → js_get (JArr items) (pretty i) = Some item.
Proof.
  intros Hitem. unfold js_get.
  assert (own_get (JArr items) (pretty i) = Some item) as ->; [|done].
  cbn. rewrite pretty_index_not_length.
  assert (list_find (λ j : nat, pretty j = pretty i) (seq 0 (length items)) = Some (i, i))
    as ->; [|done].
  apply list_find_Some. split; [|split; [done|]].
  - apply lookup_seq_lt. by eapply lookup_lt_Some.
  - intros j y Hj Hlt Heq. apply lookup_seq in Hj as [-> _].
    apply (inj pretty) in Heq. lia.
Qed.

Lemma js_path_snoc response path key :
  js_path response (path ++ [key]) = js_path response path ≫= λ v, js_get v key.
Proof. unfold js_path. by rewrite foldl_snoc. Qed.

Lemma framed_ret {A} (a : A) : framed (ret a).
Proof. by intros s a' s1 [= _ <-]. Qed.

Lemma framed_throw {A} e : framed (@throw A e).
Proof. intros s a s1 [=]. Qed.

Lemma framed_bind {A B} (m : M A) (k : A → M B) :
  framed m → (∀ a, framed (k a)) → framed (bind m k).
Proof.
  intros Hm Hk s b s2 Hrun. apply bind_inv in Hrun as (a & s1 & H1 & H2).
  destruct (Hm _ _ _ H1) as [<- <-]. by eapply Hk.
Qed.

Lemma framed_invariant c e : framed (invariant c e).
Proof. destruct c; [apply framed_ret | apply framed_throw]. Qed.

Lemma framed_readonly {A} (m : M A) : readonly m → framed m.
Proof. intros Hm s a s1 Hrun. by rewrite (Hm _ _ _ Hrun). Qed.

Lemma framed_stateless {A} (m : M A) : stateless m → framed m.
Proof. intros Hm s a s1 Hrun. by destruct (stateless_inv _ _ _ _ Hm Hrun) as [-> _]. Qed.

Lemma framed_source_get id : framed (source_get id).
Proof. by intros s a s1 [= _ <-]. Qed.

Lemma framed_source_set id r : framed (source_set id r).
Proof. by intros s a s1 [= _ <-]. Qed.

Lemma framed_deref record : framed (deref record).
Proof. intros s a s1 Hrun. by apply deref_inv in Hrun as [_ ->]. Qed.

Lemma framed_push_handle p : framed (push_handle p).
Proof. by intros s a s1 [= _ <-]. Qed.

Lemma framed_push_match p : framed (push_match p).
Proof. by intros s a s1 [= _ <-]. Qed.

Lemma framed_warning E cond d : framed (warning E cond d).
Proof. intros s a s1. rewrite warning_run. intros [= _ <-]. unfold noted. by case_match. Qed.

Lemma framed_when_dev E m : framed m → framed (when_dev E m).
Proof. unfold when_dev. destruct (DEV E); [done | intros _; apply framed_ret]. Qed.

Lemma framed_write_field record storageKey set value :
  framed (write_field record storageKey set value).
Proof.
  apply framed_bind; [apply framed_deref|]. by intros r s a s1 [= _ <-].
Qed.

Lemma framed_typed_get {A} (get : RelayRecord → string → Access A) record storageKey :
  framed (typed_get get record storageKey).
Proof.
  apply framed_bind; [apply framed_deref|]. intros r.
  destruct (get r storageKey); [apply framed_ret | apply framed_throw].
Qed.

Lemma framed_getDataID record : framed (getDataID record).
Proof. apply framed_bind; [apply framed_deref | intros r; apply framed_ret]. Qed.

Lemma framed_getType record : framed (getType record).
Proof. apply framed_bind; [apply framed_deref | intros r; apply framed_ret]. Qed.

Create HintDb framed.
#[local] Hint Resolve framed_ret framed_throw framed_invariant framed_source_get
  framed_source_set framed_deref framed_push_handle framed_push_match framed_warning
  framed_when_dev framed_write_field framed_typed_get framed_getDataID framed_getType
  framed_stateless stateless_ret stateless_getVariableValue stateless_guard_value
  stateless_getRecordType stateless_imported stateless_concrete_or_record_type
  stateless_observed : framed.

(** Splits a goal about the frame of a computation along its
    structure. *)
Ltac framed_step :=
  lazymatch goal with
  | |- framed (bind _ _) => apply framed_bind; [|intros ?]
  | |- framed (match ?x with _ => _ end) => destruct x
  | |- framed (if ?x then _ else _) => destruct x
  | |- framed (let _ := _ in _) => cbv zeta
  end.

Ltac framed_auto := repeat framed_step; eauto with framed.

Lemma framed_validateRecordType E record field payload :
  framed (_validateRecordType E record field payload).
Proof. unfold _validateRecordType. framed_auto. Qed.

Lemma framed_get_or_create E field nextID payload typeName :
  stateless typeName → framed (get_or_create E field nextID payload typeName).
Proof.
  intros Hty. pose proof framed_validateRecordType. unfold get_or_create. framed_auto.
Qed.

Lemma framed_link_to_next E fieldValue record storageKey :
  framed (link_to_next E fieldValue record storageKey).
Proof.
  unfold link_to_next, link_id, id_or, reuse_or, client_id, expect_string,
    setLinkedRecordID.
  framed_auto.
Qed.

Lemma framed_item_id E item prevIDs record storageKey nextIndex :
  framed (item_id E item prevIDs record storageKey nextIndex).
Proof. apply framed_readonly, readonly_item_id. Qed.

Lemma framed_write_missing E hsn parent record data responseKey storageKey fieldValue :
  framed (write_missing E hsn parent record data responseKey storageKey fieldValue).
Proof. unfold write_missing, setValue. framed_auto. Qed.

Lemma framed_normalizeMatchField E vars hsn parent field f matchesByType record data :
  framed (_normalizeMatchField E vars hsn parent field f matchesByType record data).
Proof.
  pose proof framed_link_to_next. pose proof framed_write_missing.
  pose proof framed_get_or_create.
  unfold _normalizeMatchField, setValue. framed_auto.
Qed.

(** ** Runs that append no incremental payload *)

Lemma quiet_framed {A} (m : M A) : framed m → quiet m.
Proof. intros Hm s a s1 Hrun. by destruct (Hm _ _ _ Hrun). Qed.

Lemma quiet_bind {A B} (m : M A) (k : A → M B) :
  quiet m → (∀ a, quiet (k a)) → quiet (bind m k).
Proof.
  intros Hm Hk s b s2 Hrun. apply bind_inv in Hrun as (a & s1 & H1 & H2).
  rewrite (Hk _ _ _ _ H2). by eapply Hm.
Qed.

Lemma quiet_forEach {A} (f : A → M unit) (l : list A) :
  Forall (λ x, quiet (f x)) l → quiet (forEach f l).
Proof.
  induction 1 as [|x l Hx _ IH]; cbn; [apply quiet_framed, framed_ret|].
  apply quiet_bind; [exact Hx | intros _; exact IH].
Qed.

Lemma quiet_path_push k : quiet (path_push k).
Proof. by intros s a s1 [= _ <-]. Qed.

Lemma quiet_path_pop : quiet path_pop.
Proof. by intros s a s1 [= _ <-]. Qed.

Create HintDb quiet.
#[local] Hint Resolve quiet_framed quiet_path_push quiet_path_pop framed_link_to_next
  framed_item_id framed_write_missing framed_get_or_create framed_normalizeMatchField
  : quiet.

(** Splits a goal about the incremental payloads of a computation along
    its structure. *)
Ltac quiet_step :=
  lazymatch goal with
  | |- quiet (bind _ _) => apply quiet_bind; [|intros ?]
  | |- quiet (match ?x with _ => _ end) => destruct x
  | |- quiet (if ?x then _ else _) => destruct x
  | |- quiet (let _ := _ in _) => cbv zeta
  end.

Ltac quiet_auto := repeat quiet_step; eauto with quiet framed.

Lemma quiet_plural_items E traverse field concreteType record storageKey prevIDs items :
  (∀ r d, quiet (traverse r d)) →
  ∀ nextIndex nextIDs,
    quiet (plural_items E traverse field concreteType record storageKey prevIDs items
                        nextIndex nextIDs).
Proof.
  intros Ht. induction items as [|item rest IH]; intros i acc; cbn;
    [apply quiet_framed, framed_ret|].
  apply quiet_bind; [|intros ?; apply IH].
  unfold plural_item, expect_string. destruct item; quiet_auto.
Qed.

Lemma quiet_normalizeField E vars hsn traverse parent selection f record data :
  (∀ r d, quiet (traverse r d)) →
  quiet (_normalizeField E vars hsn traverse parent selection f record data).
Proof.
  intros Ht. pose proof (quiet_plural_items E traverse) as Hitems.
  unfold _normalizeField, _normalizeLink, _normalizePluralLink, setValue,
    setLinkedRecordIDs.
  quiet_auto.
Qed.

Lemma quiet_handle_field E vars selection h record :
  quiet (handle_field E vars selection h record).
Proof. unfold handle_field. quiet_auto. Qed.

(** A selection without defer and stream nodes appends no incremental
    payload. *)
Lemma quiet_traverse_selection E vars hsn selection :
  incremental selection = false →
  ∀ parent record data, quiet (traverse_selection E vars hsn parent record data selection).
Proof.
  assert (Hchildren : ∀ sels,
             Forall (λ x, incremental x = false →
                          ∀ parent record data,
                            quiet (traverse_selection E vars hsn parent record data x))
                    sels →
             existsb incremental sels = false →
             ∀ node record data,
               quiet (forEach (traverse_selection E vars hsn node record data) sels)).
  { intros sels IH Hnone node record data. apply quiet_forEach.
    rewrite Forall_forall in IH. apply Forall_forall. intros x Hx. apply IH; [done|].
    destruct (incremental x) eqn:Hinc; [|done].
    assert (existsb incremental sels = true); [|congruence].
    apply existsb_exists. exists x. split; [by apply list_elem_of_In | done]. }
  induction selection as [f|f ct pl sels IH|pv c sels IH|t sels IH|h|h|f m
                         |i l sels IH|i l sels IH|n sels IH|n|n sels IH]
    using Selection_tree_ind; intros Hinc parent record data; cbn in *;
    try discriminate; try apply quiet_framed, framed_throw.
  - apply quiet_normalizeField. intros; apply quiet_framed, framed_ret.
  - apply quiet_normalizeField. intros r d. by apply Hchildren.
  - quiet_auto; by apply Hchildren.
  - quiet_auto; by apply Hchildren.
  - apply quiet_handle_field.
  - apply quiet_handle_field.
  - apply quiet_framed, framed_normalizeMatchField.
Qed.

(** ** C4: defer *)

(** A scalar field with a value, on a record of the store: one write,
    of that value, under the field's storage key. *)
Lemma scalar_value_written E vars hsn parent g record data v r s s1 :
  _recordSource s !! record = Some r →
  js_get data (str_or (alias g) (name g)) = Some v →
  traverse_selection E vars hsn parent record data (ScalarField g) s = Ok tt s1 →
  ∃ key, getStorageKey E (ScalarField g) vars = Returned key ∧
         journal s1 = mkWrite record key (FScalar v) :: journal s.
Proof.
  intros Hr Hv Hrun. cbn in Hrun. unfold _normalizeField, responseKey_of in Hrun.
  apply bind_inv in Hrun as ([] & s' & Hinv & Hrun). apply invariant_inv in Hinv as [_ ->].
  cbv zeta in Hrun.
  apply bind_inv in Hrun as (key & s' & Hkey & Hrun).
  apply imported_inv in Hkey as [Hkey ->]. exists key. split; [exact Hkey|].
  rewrite Hv in Hrun.
  assert (Hset : ∃ s0, _recordSource s0 !! record = Some r ∧ journal s0 = journal s ∧
                       setValue record key v s0 = Ok tt s1).
  { destruct v; try (by exists s).
    rewrite write_missing_run in Hrun. cbn in Hrun.
    eexists. split; [|split; [|exact Hrun]];
      [by rewrite noted_source | by rewrite noted_journal]. }
  destruct Hset as (s0 & Hr0 & Hj & Hset).
  rewrite (setValue_run _ _ _ _ _ Hr0) in Hset. injection Hset as <-. cbn.
  by rewrite Hj.
Qed.

(** Each scalar field among the selections traversed for a record is
    written, wherever it stands in the list. *)
Lemma forEach_scalar_written E vars hsn node record data sels g v r s s1 :
  _recordSource s !! record = Some r →
  ScalarField g ∈ sels →
  js_get data (str_or (alias g) (name g)) = Some v →
  forEach (traverse_selection E vars hsn node record data) sels s = Ok tt s1 →
  ∃ key later, getStorageKey E (ScalarField g) vars = Returned key ∧
               journal s1 = later ++ journal s ∧
               mkWrite record key (FScalar v) ∈ later.
Proof.
  intros Hr Hin Hv Hrun.
  assert (Hmono : ∀ l, mono (forEach (traverse_selection E vars hsn node record data) l)).
  { intros l. apply mono_forEach, Forall_forall. intros x _.
    apply mono_traverse_selection. }
  apply list_elem_of_split in Hin as (l1 & l2 & ->).
  apply forEach_app_inv in Hrun as (sa & Hbefore & Hrun).
  cbn [forEach] in Hrun. apply bind_inv in Hrun as ([] & sb & Hscalar & Hafter).
  pose proof (Hmono _ _ _ _ Hbefore) as Hga.
  pose proof (Hmono _ _ _ _ Hafter) as Hgb.
  destruct (grows_source _ _ Hga _ _ Hr) as (ra & Hra & _).
  destruct (grows_journal _ _ Hga) as [la Hla].
  destruct (grows_journal _ _ Hgb) as [lb Hlb].
  destruct (scalar_value_written _ _ _ _ _ _ _ _ _ _ _ Hra Hv Hscalar) as (key & Hkey & Hj).
  exists key, (lb ++ mkWrite record key (FScalar v) :: la).
  split; [exact Hkey|]. split.
  - by rewrite Hlb, Hj, Hla, <- app_assoc.
  - apply elem_of_app. right. apply list_elem_of_here.
Qed.



Lemma located_framed vars response data {A} (m : M A) :
  framed m → located vars response data m.
Proof. intros Hm s a s1 Hrun _ _ Hgood. by destruct (Hm _ _ _ Hrun) as [-> ->]. Qed.

Lemma located_bind vars response data {A B} (m : M A) (k : A → M B) :
  located vars response data m → (∀ a, located vars response data (k a)) →
  located vars response data (bind m k).
Proof.
  intros Hm Hk s b s2 Hrun Hpath Hobj Hgood.
  apply bind_inv in Hrun as (a & s1 & H1 & H2).
  destruct (Hm _ _ _ H1 Hpath Hobj Hgood) as [Hgood1 Hpath1].
  rewrite <- Hpath1 in Hpath, Hobj.
  destruct (Hk _ _ _ _ H2 Hpath Hobj Hgood1) as [Hgood2 Hpath2].
  split; [done | congruence].
Qed.

Lemma located_forEach vars response data {A} (f : A → M unit) (l : list A) :
  Forall (λ x, located vars response data (f x)) l →
  located vars response data (forEach f l).
Proof.
  induction 1 as [|x l Hx _ IH]; cbn; [apply located_framed, framed_ret|].
  apply located_bind; [done | intros _; apply IH].
Qed.

(** The payload that defer and stream push is as expected. *)
Lemma located_continuation vars response data k label self record :
  match k, self with
  | KindDefer, Defer _ label' _ | KindStream, Stream _ label' _ => label' = label
  | _, _ => False
  end →
  located vars response data (continuation vars k label self record).
Proof.
  intros Hkind s a s1 Hrun Hpath Hobj Hgood. unfold continuation in Hrun.
  apply bind_inv in Hrun as (p & s' & [= <- <-] & Hrun).
  apply bind_inv in Hrun as (id & s' & Hid & Hrun).
  apply framed_getDataID in Hid as Hframe. destruct Hframe as [Hp Hinc].
  injection Hrun as _ <-. cbn. split; [|done]. rewrite Hinc.
  apply Forall_app. split; [done|]. apply Forall_singleton.
  split; [|split]; cbn; [|done|done]. by exists data.
Qed.

Lemma located_normalizeLink E vars response traverse field concreteType record storageKey
  fieldValue :
  (∀ r d, located vars response d (traverse r d)) →
  ∀ s a s1,
    _normalizeLink E traverse field concreteType record storageKey fieldValue s = Ok a s1 →
    js_path response (_path s) = Some fieldValue →
    Forall (continues vars response) (_incrementalPayloads s) →
    Forall (continues vars response) (_incrementalPayloads s1) ∧ _path s1 = _path s.
Proof.
  intros Ht s a s1 Hrun Hpath Hgood. unfold _normalizeLink in Hrun.
  apply bind_inv in Hrun as ([] & s' & Hinv & Hrun).
  apply invariant_inv in Hinv as [Hobj ->].
  apply bind_inv in Hrun as (nextID & s2 & Hlink & Hrun).
  apply framed_link_to_next in Hlink as [Hp2 Hi2].
  apply bind_inv in Hrun as ([] & s3 & Hcreate & Hrun).
  apply framed_get_or_create in Hcreate as [Hp3 Hi3];
    [|apply stateless_concrete_or_record_type].
  destruct (Ht _ _ _ _ _ Hrun) as [Hgood1 Hpath1].
  - by rewrite Hp3, Hp2.
  - by right.
  - by rewrite Hi3, Hi2.
  - split; [done | congruence].
Qed.

Lemma located_plural_items E vars response traverse field concreteType record storageKey
  prevIDs all items :
  (∀ r d, located vars response d (traverse r d)) →
  ∀ nextIndex nextIDs s ids s1,
    (∀ j item, items !! j = Some item → all !! (nextIndex + j) = Some item) →
    plural_items E traverse field concreteType record storageKey prevIDs items
                 nextIndex nextIDs s = Ok ids s1 →
    js_path response (_path s) = Some (JArr all) →
    Forall (continues vars response) (_incrementalPayloads s) →
    Forall (continues vars response) (_incrementalPayloads s1) ∧ _path s1 = _path s.
Proof.
  intros Ht. induction items as [|item rest IH]; intros i acc s ids s1 Hall; cbn.
  { by intros [= _ <-]. }
  intros Hrun Hpath Hgood. apply bind_inv in Hrun as (acc' & s' & Hitem & Hrun).
  assert (Forall (continues vars response) (_incrementalPayloads s') ∧ _path s' = _path s)
    as [Hgood' Hpath'].
  { revert Hitem. unfold plural_item.
    assert (Hobj : (path_push (pretty i);;
                    invariant (is_object item) (ErrElementNotObject storageKey);;
                    let* v := item_id E item prevIDs record storageKey i in
                    let* nextID := expect_string v (ErrElementIDNotString storageKey) in
                    get_or_create E field nextID item
                      (concrete_or_record_type E concreteType item);;
                    traverse nextID item;; path_pop;; ret (acc ++ [Some nextID])) s
                   = Ok acc' s' →
                   Forall (continues vars response) (_incrementalPayloads s')
                   ∧ _path s' = _path s).
    { intros Hrun'.
      apply bind_inv in Hrun' as ([] & s2 & [= <-] & Hrun').
      apply bind_inv in Hrun' as ([] & s3 & Hinv & Hrun').
      apply invariant_inv in Hinv as [Hobj ->].
      apply bind_inv in Hrun' as (v & s3 & Hid & Hrun').
      apply readonly_item_id in Hid as ->.
      apply bind_inv in Hrun' as (nextID & s3 & Hstr & Hrun').
      apply expect_string_inv in Hstr as [-> ->].
      apply bind_inv in Hrun' as ([] & s3 & Hcreate & Hrun').
      apply framed_get_or_create in Hcreate as [Hp3 Hi3];
        [|apply stateless_concrete_or_record_type].
      apply bind_inv in Hrun' as ([] & s4 & Htrav & Hrun').
      apply bind_inv in Hrun' as ([] & s5 & [= <-] & [= _ <-]). cbn.
      destruct (Ht _ _ _ _ _ Htrav) as [Hgood4 Hpath4].
      - rewrite Hp3. cbn [_path with_path]. rewrite js_path_snoc, Hpath.
        cbn [mbind option_bind]. apply js_get_index. rewrite <- (Nat.add_0_r i). by apply Hall.
      - by right.
      - by rewrite Hi3.
      - split; [done|]. rewrite Hpath4, Hp3. cbn. apply removelast_last. }
    destruct item; try apply Hobj. by intros [= _ <-]. }
  destruct (IH (S i) acc' s' ids s1) as [Hgood1 Hpath1]; try done.
  - intros j x Hx. rewrite Nat.add_succ_l, <- Nat.add_succ_r. by apply Hall.
  - by rewrite Hpath'.
  - split; [done | congruence].
Qed.

Lemma located_normalizePluralLink E vars response traverse field concreteType record
  storageKey fieldValue :
  (∀ r d, located vars response d (traverse r d)) →
  ∀ s a s1,
    _normalizePluralLink E traverse field concreteType record storageKey fieldValue s
    = Ok a s1 →
    js_path response (_path s) = Some fieldValue →
    Forall (continues vars response) (_incrementalPayloads s) →
    Forall (continues vars response) (_incrementalPayloads s1) ∧ _path s1 = _path s.
Proof.
  intros Ht s a s1 Hrun Hpath Hgood. unfold _normalizePluralLink in Hrun.
  destruct fieldValue as [| | | |items| |]; try discriminate.
  apply bind_inv in Hrun as (prev & s' & Hprev & Hrun).
  apply typed_get_inv in Hprev as (r & _ & _ & ->).
  apply bind_inv in Hrun as (ids & s2 & Hitems & Hset).
  apply (located_plural_items _ vars response _ _ _ _ _ _ items) in Hitems
      as [Hgood2 Hpath2]; [|done..].
  apply framed_write_field in Hset as [-> ->]. by split.
Qed.

Lemma located_normalizeField E vars hsn response traverse parent selection f record data :
  (∀ r d, located vars response d (traverse r d)) →
  located vars response data
          (_normalizeField E vars hsn traverse parent selection f record data).
Proof.
  intros Ht. unfold _normalizeField.
  apply located_bind; [apply located_framed, framed_invariant|]. intros _. cbv zeta.
  apply located_bind; [apply located_framed, framed_stateless, stateless_imported|].
  intros storageKey.
  destruct (js_get data (responseKey_of f)) as [fieldValue|] eqn:Hvalue;
    [|apply located_framed, framed_write_missing].
  assert (Hfield :
            located vars response data
              match selection with
              | ScalarField _ =>
                  setValue record storageKey fieldValue
              | LinkedField _ concreteType plural _ =>
                  path_push (responseKey_of f);;
                  (if plural
                   then _normalizePluralLink E traverse selection concreteType record
                          storageKey fieldValue
                   else _normalizeLink E traverse selection concreteType record
                          storageKey fieldValue);;
                  path_pop
              | _ => throw (ErrUnexpectedFieldKind (kind selection))
              end).
  { destruct selection as [|f' ct pl sels| | | | | | | | | |];
      try (apply located_framed, framed_throw);
      [apply located_framed, framed_write_field|].
    intros s a s1 Hrun Hpath Hobj Hgood.
    apply bind_inv in Hrun as ([] & s2 & [= <-] & Hrun).
    apply bind_inv in Hrun as ([] & s3 & Hbody & [= _ <-]). cbn.
    assert (Forall (continues vars response) (_incrementalPayloads s3)
            ∧ _path s3 = _path s ++ [responseKey_of f]) as [Hgood3 Hpath3].
    { destruct pl;
        [eapply located_normalizePluralLink in Hbody
        |eapply located_normalizeLink in Hbody]; try done;
        cbn [_path with_path]; by rewrite js_path_snoc, Hpath. }
    split; [done|]. rewrite Hpath3. apply removelast_last. }
  destruct fieldValue; first [exact Hfield | apply located_framed, framed_write_missing].
Qed.

Lemma located_traverse_selection E vars hsn response selection :
  ∀ parent record data,
    located vars response data (traverse_selection E vars hsn parent record data selection).
Proof.
  induction selection as [f|f ct pl sels IH|pv c sels IH|t sels IH|h|h|f m
                         |i l sels IH|i l sels IH|n sels IH|n|n sels IH]
    using Selection_tree_ind; intros parent record data; cbn.
  - apply located_normalizeField. intros. apply located_framed, framed_ret.
  - apply located_normalizeField. intros r d. apply located_forEach.
    eapply Forall_impl; [exact IH|]. cbn. auto.
  - apply located_bind;
      [apply located_framed, framed_stateless, stateless_getVariableValue|].
    intros v. destruct (js_strict_eq _ _); [|apply located_framed, framed_ret].
    apply located_forEach. eapply Forall_impl; [exact IH|]. cbn. auto.
  - apply located_bind; [apply located_framed, framed_getType|].
    intros v. destruct (js_strict_eq _ _); [|apply located_framed, framed_ret].
    apply located_forEach. eapply Forall_impl; [exact IH|]. cbn. auto.
  - apply located_framed. unfold handle_field. framed_auto.
  - apply located_framed. unfold handle_field. framed_auto.
  - apply located_framed, framed_normalizeMatchField.
  - assert (located vars response data
              (forEach (traverse_selection E vars hsn (Defer i l sels) record data) sels)).
    { apply located_forEach. eapply Forall_impl; [exact IH|]. cbn. auto. }
    unfold _normalizeDefer.
    apply located_bind; [apply located_framed, framed_stateless, stateless_guard_value|].
    intros g.
    apply located_bind; [apply located_framed, framed_when_dev, framed_warning|].
    intros _. destruct g as [|[]| | | | |]; first [done | by apply located_continuation].
  - assert (located vars response data
              (forEach (traverse_selection E vars hsn (Stream i l sels) record data) sels)).
    { apply located_forEach. eapply Forall_impl; [exact IH|]. cbn. auto. }
    unfold _normalizeStream.
    apply located_bind; [done|]. intros _.
    apply located_bind; [apply located_framed, framed_stateless, stateless_guard_value|].
    intros g.
    apply located_bind; [apply located_framed, framed_when_dev, framed_warning|].
    intros _. destruct g as [|[]| | | | |];
      first [apply located_framed, framed_ret | by apply located_continuation].
  - apply located_framed, framed_throw.
  - apply located_framed, framed_throw.
  - apply located_framed, framed_throw.
Qed.

(** X8. Every incremental payload that a successful call of
    [normalize] returns carries a path that can be followed in the
    response, key by key from its root, to a value of the response (an
    object or array, unless the path is empty); its selector carries
    the variables of the call, and its node is a defer or stream
    selection of the payload's kind and label. *)
Theorem incremental_payloads_located E recordSource selector response options out s1 p :
  normalize E recordSource selector response options = Ok out s1 →
  p ∈ incrementalPayloads out →
  continues (variables selector) response p.
Proof.
  intros Hrun. rewrite (normalize_Ok_inv _ _ _ _ _ _ _ Hrun). cbn.
  revert Hrun. rewrite normalize_unfold.
  destruct (recordSource !! dataID selector); [|discriminate].
  destruct (_traverseSelections _ _ _ _ _ _ _) as [[] s|] eqn:Hrun; [|discriminate].
  intros [= _ <-]. revert p. apply Forall_forall.
  unfold _traverseSelections in Hrun.
  assert (Hsels : Forall (λ x, located (variables selector) response response
                                 (traverse_selection E (variables selector)
                                    (handleStrippedNulls options) (node selector)
                                    (dataID selector) response x))
                         (selections_of (node selector))).
  { apply Forall_forall. intros x _. apply located_traverse_selection. }
  destruct (located_forEach _ _ _ _ _ Hsels _ _ _ Hrun) as [Hgood _];
    [done | by left | constructor | exact Hgood].
Qed.

Lemma incremental_payloads_located_witness :
  let response := JObj [("friends", JArr [JNull; JObj [("id", JStr "1")]])] in
  ∃ out s1 p,
    normalize (Sample.externals true) {[ "client:root" := Sample.root_record ]}
      (mkSelector "client:root"
         (Operation "Q"
            [Sample.linked "friends" (Some "User") true
               [Defer None "bio" [Sample.scalar "bio"]]])
         (∅ : Variables))
      response default_options = Ok out s1
    ∧ p ∈ incrementalPayloads out
    ∧ inc_path p = ["friends"; "1"]
    ∧ continues ∅ response p.
Proof.
  intros response.
  destruct (normalize _ _ _ _ _) as [out s1|e s1] eqn:Hrun; [|by vm_compute in Hrun].
  destruct (incrementalPayloads out) as [|p rest] eqn:Hp.
  { exfalso. vm_compute in Hrun. injection Hrun as <- <-. discriminate Hp. }
  assert (Hin : p ∈ incrementalPayloads out) by (rewrite Hp; apply list_elem_of_here).
  exists out, s1, p. split; [reflexivity|]. split; [exact Hin|]. split.
  - vm_compute in Hrun. injection Hrun as <- <-. injection Hp as <- _. reflexivity.
  - exact (incremental_payloads_located _ _ _ _ _ _ _ _ Hrun Hin).
Defined.

(** ** Development and production builds *)

Lemma agrees_ret {A} (a : A) : agrees (ret a) (ret a).
Proof. by intros s a' s1 [= <- <-]. Qed.

Lemma agrees_throw {A} e (m' : M A) : agrees (throw e) m'.
Proof. intros s a s1 [=]. Qed.

Lemma agrees_bind {A B} (m m' : M A) (k k' : A → M B) :
  agrees m m' → (∀ a, agrees (k a) (k' a)) → agrees (bind m k) (bind m' k').
Proof.
  intros Hm Hk s b s2 Hrun. apply bind_inv in Hrun as (a & s1 & H1 & H2).
  unfold bind. rewrite (Hm _ _ _ H1). by apply Hk.
Qed.

Lemma agrees_forEach {A} (f f' : A → M unit) (l : list A) :
  Forall (λ x, agrees (f x) (f' x)) l → agrees (forEach f l) (forEach f' l).
Proof.
  induction 1 as [|x l Hx _ IH]; cbn; [apply agrees_ret|].
  apply agrees_bind; [done | intros _; apply IH].
Qed.

Lemma agrees_invariant c e : agrees (invariant c e) (invariant c e).
Proof. destruct c; [apply agrees_ret | apply agrees_throw]. Qed.

Lemma agrees_stateless {A} (m : M A) : stateless m → agrees m m.
Proof.
  intros Hm s a s1 Hrun. destruct (stateless_inv _ _ _ _ Hm Hrun) as [-> Hany].
  apply Hany.
Qed.

Lemma agrees_source_get id : agrees (source_get id) (source_get id).
Proof. by intros s a s1 [= <- <-]. Qed.

Lemma agrees_source_set id r : agrees (source_set id r) (source_set id r).
Proof. by intros s a s1 [= <- <-]. Qed.

Lemma agrees_deref record : agrees (deref record) (deref record).
Proof.
  intros s a s1 Hrun. apply deref_inv in Hrun as [Hr ->]. by apply deref_Some.
Qed.

Lemma agrees_path_push key : agrees (path_push key) (path_push key).
Proof. by intros s a s1 [= <- <-]. Qed.

Lemma agrees_path_pop : agrees path_pop path_pop.
Proof. by intros s a s1 [= <- <-]. Qed.

Lemma agrees_path_copy : agrees path_copy path_copy.
Proof. by intros s a s1 [= <- <-]. Qed.

Lemma agrees_push_incremental p : agrees (push_incremental p) (push_incremental p).
Proof. by intros s a s1 [= <- <-]. Qed.

Lemma agrees_push_handle p : agrees (push_handle p) (push_handle p).
Proof. by intros s a s1 [= <- <-]. Qed.

Lemma agrees_push_match p : agrees (push_match p) (push_match p).
Proof. by intros s a s1 [= <- <-]. Qed.

Lemma agrees_write_field record storageKey set value :
  agrees (write_field record storageKey set value)
         (write_field record storageKey set value).
Proof.
  apply agrees_bind; [apply agrees_deref|]. by intros r s a s1 [= <- <-].
Qed.

Lemma agrees_typed_get {A} (get : RelayRecord → string → Access A) record storageKey :
  agrees (typed_get get record storageKey) (typed_get get record storageKey).
Proof.
  apply agrees_bind; [apply agrees_deref|]. intros r.
  destruct (get r storageKey); [apply agrees_ret | apply agrees_throw].
Qed.

Lemma agrees_getDataID record : agrees (getDataID record) (getDataID record).
Proof. apply agrees_bind; [apply agrees_deref | intros r; apply agrees_ret]. Qed.

Lemma agrees_getType record : agrees (getType record) (getType record).
Proof. apply agrees_bind; [apply agrees_deref | intros r; apply agrees_ret]. Qed.


Lemma diagnoses_bind {A B} (m : M A) (k : A → M B) :
  diagnoses m → (∀ a, diagnoses (k a)) → diagnoses (bind m k).
Proof.
  intros Hm Hk s b s2 Hrun. apply bind_inv in Hrun as (a & s1 & H1 & H2).
  rewrite (Hk _ _ _ _ H2). by eapply Hm.
Qed.

Lemma diagnoses_warning E cond d : diagnoses (warning E cond d).
Proof. intros s a s1. rewrite warning_run. intros [= _ <-]. unfold noted. by case_match. Qed.

Lemma diagnoses_validateRecordType E record field payload :
  diagnoses (_validateRecordType E record field payload).
Proof.
  unfold _validateRecordType. apply diagnoses_bind.
  { intros s a s1 Hrun.
    by destruct (stateless_inv _ _ _ _ (stateless_observed E field payload) Hrun)
      as [-> _]. }
  intros t. apply diagnoses_bind; [|intros r; apply diagnoses_warning].
  intros s a s1 Hrun. by apply deref_inv in Hrun as [_ ->].
Qed.

(** What only a development build runs is, in a production build,
    nothing at all. *)
Lemma agrees_when_dev E m m' :
  diagnoses m → agrees (when_dev E m) (when_dev (production E) m').
Proof.
  intros Hm s a s1. unfold when_dev. cbn. destruct (DEV E).
  - intros Hrun. destruct a. by rewrite (Hm _ _ _ Hrun).
  - by intros [= <- <-].
Qed.

Lemma agrees_warning E cond d : agrees (warning E cond d) (warning (production E) cond d).
Proof.
  intros s [] s1 Hrun. rewrite (diagnoses_warning _ _ _ _ _ _ Hrun). reflexivity.
Qed.

Create HintDb agrees.
#[local] Hint Resolve agrees_ret agrees_throw agrees_invariant agrees_source_get
  agrees_source_set agrees_deref agrees_path_push agrees_path_pop agrees_path_copy
  agrees_push_incremental agrees_push_handle agrees_push_match agrees_write_field
  agrees_typed_get agrees_getDataID agrees_getType agrees_when_dev agrees_warning
  agrees_stateless diagnoses_warning diagnoses_validateRecordType
  stateless_ret stateless_getVariableValue stateless_guard_value stateless_getRecordType
  stateless_imported
  stateless_concrete_or_record_type stateless_observed : agrees.

(** Splits a goal about two builds along the common structure of the
    two computations. *)
Ltac agrees_step :=
  lazymatch goal with
  | |- agrees (bind _ _) (bind _ _) => apply agrees_bind; [|intros ?]
  | |- agrees (match ?x with _ => _ end) (match ?x with _ => _ end) => destruct x
  | |- agrees (if ?x then _ else _) (if ?x then _ else _) => destruct x
  | |- agrees (let _ := _ in _) _ => cbv zeta
  end.

Ltac agrees_auto := repeat agrees_step; eauto with agrees.

Lemma agrees_get_or_create E field nextID payload typeName :
  stateless typeName →
  agrees (get_or_create E field nextID payload typeName)
         (get_or_create (production E) field nextID payload typeName).
Proof. intros Hty. unfold get_or_create. agrees_auto. Qed.

Lemma agrees_link_to_next E fieldValue record storageKey :
  agrees (link_to_next E fieldValue record storageKey)
         (link_to_next (production E) fieldValue record storageKey).
Proof.
  unfold link_to_next, link_id, id_or, reuse_or, client_id, expect_string,
    setLinkedRecordID.
  cbn [production generateRelayClientID]. agrees_auto.
Qed.

Lemma agrees_item_id E item prevIDs record storageKey nextIndex :
  agrees (item_id E item prevIDs record storageKey nextIndex)
         (item_id (production E) item prevIDs record storageKey nextIndex).
Proof.
  unfold item_id, id_or, reuse_or, client_id.
  cbn [production generateRelayClientID]. agrees_auto.
Qed.

Lemma agrees_write_missing E hsn parent record data responseKey storageKey fieldValue :
  agrees (write_missing E hsn parent record data responseKey storageKey fieldValue)
         (write_missing (production E) hsn parent record data responseKey storageKey
                        fieldValue).
Proof. unfold write_missing, setValue. agrees_auto. Qed.

Lemma agrees_concrete_or_record_type E concreteType payload :
  concrete_or_record_type (production E) concreteType payload
  = concrete_or_record_type E concreteType payload.
Proof. reflexivity. Qed.

#[local] Hint Resolve agrees_get_or_create agrees_link_to_next agrees_item_id
  agrees_write_missing : agrees.

Lemma agrees_normalizeLink E traverse traverse' field concreteType record storageKey
  fieldValue :
  (∀ r d, agrees (traverse r d) (traverse' r d)) →
  agrees (_normalizeLink E traverse field concreteType record storageKey fieldValue)
         (_normalizeLink (production E) traverse' field concreteType record storageKey
                         fieldValue).
Proof.
  intros Ht. unfold _normalizeLink. rewrite agrees_concrete_or_record_type. agrees_auto.
Qed.

Lemma agrees_plural_items E traverse traverse' field concreteType record storageKey
  prevIDs items :
  (∀ r d, agrees (traverse r d) (traverse' r d)) →
  ∀ nextIndex nextIDs,
    agrees (plural_items E traverse field concreteType record storageKey prevIDs items
                         nextIndex nextIDs)
           (plural_items (production E) traverse' field concreteType record storageKey
                         prevIDs items nextIndex nextIDs).
Proof.
  intros Ht. induction items as [|item rest IH]; intros i acc; cbn; [apply agrees_ret|].
  apply agrees_bind; [|intros ?; apply IH].
  unfold plural_item, expect_string. rewrite agrees_concrete_or_record_type.
  destruct item; agrees_auto.
Qed.

Lemma agrees_normalizePluralLink E traverse traverse' field concreteType record storageKey
  fieldValue :
  (∀ r d, agrees (traverse r d) (traverse' r d)) →
  agrees (_normalizePluralLink E traverse field concreteType record storageKey fieldValue)
         (_normalizePluralLink (production E) traverse' field concreteType record
                               storageKey fieldValue).
Proof.
  intros Ht. pose proof (agrees_plural_items E traverse traverse' field concreteType
                           record storageKey) as Hitems.
  unfold _normalizePluralLink, setLinkedRecordIDs. agrees_auto.
Qed.

Lemma agrees_normalizeField E vars hsn traverse traverse' parent selection f record data :
  (∀ r d, agrees (traverse r d) (traverse' r d)) →
  agrees (_normalizeField E vars hsn traverse parent selection f record data)
         (_normalizeField (production E) vars hsn traverse' parent selection f record data).
Proof.
  intros Ht. pose proof (agrees_normalizeLink E traverse traverse') as Hlink.
  pose proof (agrees_normalizePluralLink E traverse traverse') as Hplural.
  unfold _normalizeField, setValue. cbn [production getStorageKey]. agrees_auto.
Qed.

Lemma agrees_normalizeMatchField E vars hsn parent field f matchesByType record data :
  agrees (_normalizeMatchField E vars hsn parent field f matchesByType record data)
         (_normalizeMatchField (production E) vars hsn parent field f matchesByType
                               record data).
Proof.
  unfold _normalizeMatchField, setValue, match_for, _getRecordType.
  cbn [production getStorageKey TYPENAME_KEY MATCH_FRAGMENT_KEY ToPropertyKey].
  agrees_auto.
Qed.

Lemma agrees_traverse_selection E vars hsn selection :
  ∀ parent record data,
    agrees (traverse_selection E vars hsn parent record data selection)
           (traverse_selection (production E) vars hsn parent record data selection).
Proof.
  induction selection as [f|f ct pl sels IH|pv c sels IH|t sels IH|h|h|f m
                         |i l sels IH|i l sels IH|n sels IH|n|n sels IH]
    using Selection_tree_ind; intros parent record data; cbn.
  - apply agrees_normalizeField. intros. apply agrees_ret.
  - apply agrees_normalizeField. intros r d. apply agrees_forEach.
    eapply Forall_impl; [exact IH|]. cbn. auto.
  - agrees_auto. apply agrees_forEach. eapply Forall_impl; [exact IH|]. cbn. auto.
  - agrees_auto. apply agrees_forEach. eapply Forall_impl; [exact IH|]. cbn. auto.
  - unfold handle_field. cbn [production getArgumentValues getStorageKey
                                getHandleStorageKey]. agrees_auto.
  - unfold handle_field. cbn [production getArgumentValues getStorageKey
                                getHandleStorageKey]. agrees_auto.
  - apply agrees_normalizeMatchField.
  - assert (agrees
              (forEach (traverse_selection E vars hsn (Defer i l sels) record data) sels)
              (forEach (traverse_selection (production E) vars hsn (Defer i l sels)
                                           record data) sels)).
    { apply agrees_forEach. eapply Forall_impl; [exact IH|]. cbn. auto. }
    unfold _normalizeDefer, continuation. agrees_auto.
  - assert (agrees
              (forEach (traverse_selection E vars hsn (Stream i l sels) record data) sels)
              (forEach (traverse_selection (production E) vars hsn (Stream i l sels)
                                           record data) sels)).
    { apply agrees_forEach. eapply Forall_impl; [exact IH|]. cbn. auto. }
    unfold _normalizeStream, continuation. agrees_auto.
  - apply agrees_throw.
  - apply agrees_throw.
  - apply agrees_throw.
Qed.

(** X9. A call of [normalize] that succeeds in a development build
    succeeds in a production build too, with the same payloads, the
    same store and the same writes; the production build prints no
    diagnostic. *)
Theorem production_agrees E recordSource selector response options out s1 :
  normalize E recordSource selector response options = Ok out s1 →
  normalize (production E) recordSource selector response options
  = Ok out (silenced s1).
Proof.
  rewrite !normalize_unfold. destruct (recordSource !! dataID selector); [|discriminate].
  destruct (_traverseSelections E _ _ _ _ _ _) as [[] s|] eqn:Hrun; [|discriminate].
  intros [= <- <-]. unfold _traverseSelections in *.
  eapply agrees_forEach in Hrun.
  - change (silenced (constructor recordSource)) with (constructor recordSource) in Hrun.
    by rewrite Hrun.
  - apply Forall_forall. intros x _. apply agrees_traverse_selection.
Qed.

Lemma production_agrees_witness :
  ∃ out s1,
    normalize (Sample.externals true) {[ "client:root" := Sample.root_record ]}
      (mkSelector "client:root"
         (Operation "Q" [Sample.scalar "name"; Defer (Some "later") "d" []])
         ({[ "later" := JNum 1 ]} : Variables))
      (JObj []) (mkOptions true) = Ok out s1
    ∧ diagnostics s1 = [WarnMissingField "name" "name"; WarnDeferIf (JNum 1)]
    ∧ normalize (production (Sample.externals true))
        {[ "client:root" := Sample.root_record ]}
        (mkSelector "client:root"
           (Operation "Q" [Sample.scalar "name"; Defer (Some "later") "d" []])
           ({[ "later" := JNum 1 ]} : Variables))
        (JObj []) (mkOptions true) = Ok out (silenced s1).
Proof.
  destruct (normalize (Sample.externals true) _ _ _ _) as [out s1|e s1] eqn:Hrun;
    [|by vm_compute in Hrun].
  exists out, s1. split; [reflexivity|]. split.
  - vm_compute in Hrun. injection Hrun as <- <-. reflexivity.
  - exact (production_agrees _ _ _ _ _ _ _ Hrun).
Defined.

(** ** Records the call does not reach *)

Lemma local_ret X {A} (a : A) : local X (ret a).
Proof. by intros s a' s1 [= <- <-]. Qed.

Lemma local_throw X {A} e : local X (@throw A e).
Proof. intros s a s1 [=]. Qed.

Lemma local_bind X {A B} (m : M A) (k : A → M B) :
  local X m → (∀ a, local X (k a)) → local X (bind m k).
Proof.
  intros Hm Hk s b s2 Hrun Hdisj. apply bind_inv in Hrun as (a & s1 & H1 & H2).
  destruct (Hk _ _ _ _ H2 Hdisj) as [Hdisj1 Hk2].
  destruct (Hm _ _ _ H1 Hdisj1) as [Hdisj0 Hm1].
  split; [done|]. by rewrite (bind_Ok _ _ _ _ _ Hm1).
Qed.

Lemma local_forEach X {A} (f : A → M unit) (l : list A) :
  Forall (λ x, local X (f x)) l → local X (forEach f l).
Proof.
  induction 1 as [|x l Hx _ IH]; cbn; [apply local_ret|].
  apply local_bind; [done | intros _; apply IH].
Qed.

Lemma local_invariant X c e : local X (invariant c e).
Proof. destruct c; [apply local_ret | apply local_throw]. Qed.

Lemma local_stateless X {A} (m : M A) : stateless m → local X m.
Proof.
  intros Hm s a s1 Hrun Hdisj. destruct (stateless_inv _ _ _ _ Hm Hrun) as [-> Hany].
  split; [done | apply Hany].
Qed.

Lemma local_deref X record : local X (deref record).
Proof.
  intros s a s1 Hrun Hdisj. apply deref_inv in Hrun as [Hr ->]. split; [done|].
  apply deref_Some. cbn. by apply lookup_union_Some_l.
Qed.

Lemma local_path_push X key : local X (path_push key).
Proof. by intros s a s1 [= <- <-]. Qed.

Lemma local_path_pop X : local X path_pop.
Proof. by intros s a s1 [= <- <-]. Qed.

Lemma local_path_copy X : local X path_copy.
Proof. by intros s a s1 [= <- <-]. Qed.

Lemma local_push_incremental X p : local X (push_incremental p).
Proof. by intros s a s1 [= <- <-]. Qed.

Lemma local_push_handle X p : local X (push_handle p).
Proof. by intros s a s1 [= <- <-]. Qed.

Lemma local_push_match X p : local X (push_match p).
Proof. by intros s a s1 [= <- <-]. Qed.

Lemma local_warning X E cond d : local X (warning E cond d).
Proof.
  intros s [] s1. unfold warning. destruct (DEV E && negb cond); by intros [= <-].
Qed.

Lemma local_when_dev X E m : local X m → local X (when_dev E m).
Proof. unfold when_dev. destruct (DEV E); [done | intros _; apply local_ret]. Qed.

Lemma local_write_field X record storageKey set value :
  local X (write_field record storageKey set value).
Proof.
  intros s a s1 Hrun Hdisj. unfold write_field in Hrun.
  apply bind_inv in Hrun as (r & s' & Hd & Hrun). apply deref_inv in Hd as [Hr ->].
  injection Hrun as <- <-. cbn in Hdisj.
  apply map_disjoint_insert_r in Hdisj as [_ Hdisj]. split; [done|].
  unfold write_field, bind, deref. cbn. rewrite (lookup_union_Some_l _ _ _ _ Hr).
  unfold among. cbn. by rewrite insert_union_l.
Qed.

Lemma local_typed_get X {A} (get : RelayRecord → string → Access A) record storageKey :
  local X (typed_get get record storageKey).
Proof.
  apply local_bind; [apply local_deref|]. intros r.
  destruct (get r storageKey); [apply local_ret | apply local_throw].
Qed.

Lemma local_getDataID X record : local X (getDataID record).
Proof. apply local_bind; [apply local_deref | intros r; apply local_ret]. Qed.

Lemma local_getType X record : local X (getType record).
Proof. apply local_bind; [apply local_deref | intros r; apply local_ret]. Qed.

Lemma local_validateRecordType X E record field payload :
  local X (_validateRecordType E record field payload).
Proof.
  unfold _validateRecordType.
  apply local_bind; [apply local_stateless, stateless_observed|]. intros t.
  apply local_bind; [apply local_deref | intros r; apply local_warning].
Qed.

(** The one lookup of a key that the store may lack: it ends with the
    key in the store, so the key is none of the bystanders'. *)
Lemma local_get_or_create X E field nextID payload typeName :
  stateless typeName → local X (get_or_create E field nextID payload typeName).
Proof.
  intros Hty s a s1 Hrun Hdisj.
  pose proof (get_or_create_has _ _ _ _ _ _ _ _ Hty Hrun) as [r1 Hr1].
  assert (HX : X !! nextID = None) by (by eapply map_disjoint_Some_r).
  unfold get_or_create in *.
  apply bind_inv in Hrun as (o & s' & [= <- <-] & Hrun).
  unfold bind at 1, source_get. cbn.
  rewrite lookup_union_l by done.
  destruct (_recordSource s !! nextID) as [r|] eqn:Hnext.
  - revert Hrun Hdisj. apply local_when_dev, local_validateRecordType.
  - apply bind_inv in Hrun as (t & s' & Ht & Hset).
    destruct (stateless_inv _ _ _ _ Hty Ht) as [-> Hany].
    injection Hset as <- <-. cbn in Hdisj.
    apply map_disjoint_insert_r in Hdisj as [_ Hdisj]. split; [done|].
    rewrite (bind_Ok _ _ _ _ _ (Hany _)). unfold source_set, among. cbn.
    by rewrite insert_union_l.
Qed.

Create HintDb local.
#[local] Hint Resolve local_ret local_throw local_invariant local_deref local_path_push
  local_path_pop local_path_copy local_push_incremental local_push_handle local_push_match
  local_warning local_when_dev local_write_field local_typed_get local_getDataID
  local_getType local_validateRecordType local_get_or_create local_stateless
  stateless_ret stateless_getVariableValue stateless_guard_value stateless_getRecordType
  stateless_imported
  stateless_concrete_or_record_type stateless_observed : local.

(** Splits a goal about bystanders along the structure of the
    computation. *)
Ltac local_step :=
  lazymatch goal with
  | |- local _ (bind _ _) => apply local_bind; [|intros ?]
  | |- local _ (match ?x with _ => _ end) => destruct x
  | |- local _ (if ?x then _ else _) => destruct x
  | |- local _ (let _ := _ in _) => cbv zeta
  end.

Ltac local_auto := repeat local_step; eauto with local.

Lemma local_traverse_selection X E vars hsn selection :
  ∀ parent record data,
    local X (traverse_selection E vars hsn parent record data selection).
Proof.
  assert (Hitems : ∀ traverse field ct record key prev items,
             (∀ r d, local X (traverse r d)) →
             ∀ i acc, local X (plural_items E traverse field ct record key prev
                                            items i acc)).
  { intros traverse field ct record key prev items Ht.
    induction items as [|item rest IH]; intros i acc; cbn; [apply local_ret|].
    apply local_bind; [|intros ?; apply IH].
    unfold plural_item, item_id, id_or, reuse_or, client_id, expect_string.
    destruct item; local_auto. }
  assert (Hfield : ∀ traverse parent field f record data,
             (∀ r d, local X (traverse r d)) →
             local X (_normalizeField E vars hsn traverse parent field f record data)).
  { intros traverse parent field f record data Ht.
    unfold _normalizeField, write_missing, _normalizeLink, _normalizePluralLink,
      link_to_next, link_id, id_or, reuse_or, client_id, expect_string, setValue,
      setLinkedRecordID, setLinkedRecordIDs.
    local_auto. }
  induction selection as [f|f ct pl sels IH|pv c sels IH|t sels IH|h|h|f m
                         |i l sels IH|i l sels IH|n sels IH|n|n sels IH]
    using Selection_tree_ind; intros parent record data; cbn.
  - apply Hfield. intros; apply local_ret.
  - apply Hfield. intros r d. apply local_forEach.
    eapply Forall_impl; [exact IH|]. cbn. auto.
  - local_auto. apply local_forEach. eapply Forall_impl; [exact IH|]. cbn. auto.
  - local_auto. apply local_forEach. eapply Forall_impl; [exact IH|]. cbn. auto.
  - unfold handle_field. local_auto.
  - unfold handle_field. local_auto.
  - unfold _normalizeMatchField, write_missing, link_to_next, link_id, id_or, reuse_or,
      client_id, expect_string, setValue, setLinkedRecordID.
    local_auto.
  - assert (local X (forEach (traverse_selection E vars hsn (Defer i l sels) record data)
                             sels)).
    { apply local_forEach. eapply Forall_impl; [exact IH|]. cbn. auto. }
    unfold _normalizeDefer, continuation. local_auto.
  - assert (local X (forEach (traverse_selection E vars hsn (Stream i l sels) record data)
                             sels)).
    { apply local_forEach. eapply Forall_impl; [exact IH|]. cbn. auto. }
    unfold _normalizeStream, continuation. local_auto.
  - apply local_throw.
  - apply local_throw.
  - apply local_throw.
Qed.

(** X10. The records a call does not reach are bystanders.  When a
    call of [normalize] succeeds, records under keys that its resulting
    store does not have can be added to the record source without
    changing what the call does: it returns the same payloads, performs
    the same writes, and leaves the added records as they were. *)
Theorem normalize_is_local E recordSource others selector response options out s1 :
  normalize E recordSource selector response options = Ok out s1 →
  others ##ₘ _recordSource s1 →
  normalize E (recordSource ∪ others) selector response options
  = Ok out (among others s1).
Proof.
  rewrite !normalize_unfold.
  destruct (recordSource !! dataID selector) as [root|] eqn:Hroot; [|discriminate].
  rewrite (lookup_union_Some_l _ _ _ _ Hroot).
  destruct (_traverseSelections E _ _ _ _ _ (constructor recordSource)) as [[] s|]
    eqn:Hrun; [|discriminate].
  intros [= <- <-] Hdisj. unfold _traverseSelections in *.
  assert (Hsels : Forall (λ x, local others
                                 (traverse_selection E (variables selector)
                                    (handleStrippedNulls options) (node selector)
                                    (dataID selector) response x))
                         (selections_of (node selector))).
  { apply Forall_forall. intros x _. apply local_traverse_selection. }
  destruct (local_forEach _ _ _ Hsels _ _ _ Hrun Hdisj) as [_ Hamong].
  change (among others (constructor recordSource))
    with (constructor (recordSource ∪ others)) in Hamong.
  by rewrite Hamong.
Qed.

Lemma normalize_is_local_witness :
  let others : gmap DataID RelayRecord :=
    {[ "9" := RelayModernRecord.create "9" (JStr "Page") ]} in
  ∃ out s1,
    normalize (Sample.externals true) {[ "client:root" := Sample.root_record ]}
      (mkSelector "client:root"
         (Operation "Q" [Sample.linked "me" (Some "User") false [Sample.scalar "name"]])
         (∅ : Variables))
      (JObj [("me", JObj [("id", JStr "1"); ("name", JStr "Ada")])])
      default_options = Ok out s1
    ∧ normalize (Sample.externals true) ({[ "client:root" := Sample.root_record ]} ∪ others)
        (mkSelector "client:root"
           (Operation "Q" [Sample.linked "me" (Some "User") false [Sample.scalar "name"]])
           (∅ : Variables))
        (JObj [("me", JObj [("id", JStr "1"); ("name", JStr "Ada")])])
        default_options = Ok out (among others s1).
Proof.
  intros others.
  destruct (normalize _ {[ "client:root" := Sample.root_record ]} _ _ _)
    as [out s1|e s1] eqn:Hrun; [|by vm_compute in Hrun].
  exists out, s1. split; [reflexivity|].
  apply (normalize_is_local _ _ _ _ _ _ _ _ Hrun).
  apply map_disjoint_singleton_l.
  vm_compute in Hrun. injection Hrun as <- <-. vm_compute. reflexivity.
Defined.

(** ** Development-only checks and the type of a new record *)

Lemma link_to_next_server_id E fieldValue record storageKey i r s :
  js_get fieldValue "id" = Some (JStr i) → i ≠ "" →
  _recordSource s !! record = Some r →
  link_to_next E fieldValue record storageKey s =
  Ok i (with_journal (mkWrite record storageKey (FLink i) :: journal s)
          (with_source (<[record := RelayModernRecord.setLinkedRecordID r storageKey i]>
                          (_recordSource s)) s)).
Proof.
  intros Hid Hne Hr. unfold link_to_next, link_id, id_or, bind. rewrite Hid. cbn.
  apply String.eqb_neq in Hne. rewrite Hne. cbn.
  unfold setLinkedRecordID, write_field, bind, deref. by rewrite Hr.
Qed.

(** A linked field with a value: the path is extended, the value is
    normalized, and the path is restored. *)
Lemma linked_field_run E vars hsn parent f ct (pl : bool) sels record data fieldValue
  storageKey s :
  is_object data = true →
  getStorageKey E (LinkedField f ct pl sels) vars = Returned storageKey →
  js_get data (str_or (alias f) (name f)) = Some fieldValue →
  fieldValue ≠ JNull →
  traverse_selection E vars hsn parent record data (LinkedField f ct pl sels) s =
  ((if pl
    then _normalizePluralLink E
           (λ r d, forEach (traverse_selection E vars hsn (LinkedField f ct pl sels) r d)
                           sels)
           (LinkedField f ct pl sels) ct record storageKey fieldValue
    else _normalizeLink E
           (λ r d, forEach (traverse_selection E vars hsn (LinkedField f ct pl sels) r d)
                           sels)
           (LinkedField f ct pl sels) ct record storageKey fieldValue);;
   path_pop) (with_path (_path s ++ [str_or (alias f) (name f)]) s).
Proof.
  intros Hobj Hkey Hvalue Hnull. cbn [traverse_selection].
  unfold _normalizeField, responseKey_of. rewrite Hobj.
  rewrite (bind_Ok _ _ _ _ _ (invariant_true _ _)). cbv zeta.
  rewrite (bind_Ok _ _ _ _ _ (imported_run _ _ _ Hkey)). rewrite Hvalue.
  by destruct fieldValue.
Qed.

(** A field whose storage key cannot be resolved: the exception of the
    import ends the call, once the data is known to be an object. *)
Lemma field_key_throws E vars hsn parent selection f record data message s :
  (selection = ScalarField f ∨ (∃ ct pl sels, selection = LinkedField f ct pl sels)
   ∨ ∃ m, selection = MatchField f m) →
  is_object data = true →
  getStorageKey E selection vars = Thrown message →
  traverse_selection E vars hsn parent record data selection s
  = Throw (ErrImported message) s.
Proof.
  intros [->|[(ct & pl & sels & ->)|(m & ->)]] Hobj Hkey; cbn [traverse_selection];
    unfold _normalizeField, _normalizeMatchField; rewrite Hobj;
    rewrite (bind_Ok _ _ _ _ _ (invariant_true _ _)); cbv zeta;
    by rewrite (bind_Throw _ _ _ _ _ (imported_throw _ _ _ Hkey)).
Qed.

Lemma is_object_not_null v : is_object v = true → v ≠ JNull.
Proof. by destruct v. Qed.

(** X11. The check of an existing record against the payload asks the
    payload for its typename, and only a development build runs it.
    When a singular linked field without concrete type brings an
    object with the identity of a record of the store and no typename,
    a development build fails once the owner is linked, where a
    production build goes on to traverse the field's selections. *)
Theorem typename_wanted_in_development E vars hsn parent f sels record data fieldValue
  i r r' s :
  is_object data = true →
  _recordSource s !! record = Some r →
  js_get data (str_or (alias f) (name f)) = Some fieldValue →
  is_object fieldValue = true →
  js_get fieldValue "id" = Some (JStr i) → i ≠ "" →
  _recordSource s !! i = Some r' →
  (∀ t, js_get fieldValue (TYPENAME_KEY E) = Some t → t = JNull) →
  let field := LinkedField f None false sels in
  match getStorageKey E field vars with
  | Thrown message =>
      traverse_selection E vars hsn parent record data field s
      = Throw (ErrImported message) s
  | Returned storageKey =>
      let s1 := with_journal (mkWrite record storageKey (FLink i) :: journal s)
                  (with_source
                     (<[record := RelayModernRecord.setLinkedRecordID r storageKey i]>
                        (_recordSource s))
                     (with_path (_path s ++ [str_or (alias f) (name f)]) s)) in
      traverse_selection E vars hsn parent record data field s =
      if DEV E then Throw (ErrMissingTypename fieldValue) s1
      else (forEach (traverse_selection E vars hsn field i fieldValue) sels;; path_pop) s1
  end.
Proof.
  intros Hobj Hr Hvalue Hvobj Hid Hne Hsome Htype. cbv zeta.
  destruct (getStorageKey E (LinkedField f None false sels) vars)
    as [storageKey|message] eqn:Hkey;
    [|apply (field_key_throws _ _ _ _ _ f); eauto 10].
  rewrite (linked_field_run _ _ _ _ _ _ _ _ _ _ _ _ _ Hobj Hkey Hvalue
             (is_object_not_null _ Hvobj)).
  unfold _normalizeLink. rewrite Hvobj. unfold bind at 1.
  rewrite (bind_Ok _ _ _ _ _ (invariant_true _ _)).
  rewrite (bind_Ok _ _ _ _ _ (link_to_next_server_id E _ _ _ _ _
                                (with_path _ s) Hid Hne Hr)).
  unfold get_or_create, bind, source_get. cbn.
  assert (is_Some (<[record := RelayModernRecord.setLinkedRecordID r storageKey i]>
                     (_recordSource s) !! i)) as [r'' ->].
  { destruct (decide (record = i)) as [<-|Hrec];
      [rewrite lookup_insert_eq | rewrite lookup_insert_ne by done]; eauto. }
  unfold when_dev. destruct (DEV E); [|reflexivity].
  unfold _validateRecordType, bind. cbn. unfold _getRecordType.
  destruct (js_get fieldValue (TYPENAME_KEY E)) as [t|] eqn:Ht; [|reflexivity].
  by rewrite (Htype t eq_refl).
Qed.

Lemma typename_wanted_in_development_witness :
  let source : gmap DataID RelayRecord :=
    {[ "client:root" := Sample.root_record;
       "1" := RelayModernRecord.create "1" (JStr "User") ]} in
  ∃ s1 s2,
    traverse_selection (Sample.externals true) (∅ : Variables) false (Operation "Q" [])
      "client:root" (JObj [("me", JObj [("id", JStr "1")])])
      (Sample.linked "me" None false []) (constructor source)
    = Throw (ErrMissingTypename (JObj [("id", JStr "1")])) s1
    ∧ traverse_selection (Sample.externals false) (∅ : Variables) false (Operation "Q" [])
        "client:root" (JObj [("me", JObj [("id", JStr "1")])])
        (Sample.linked "me" None false []) (constructor source)
      = Ok tt s2.
Proof.
  intros source. eexists _, _. split.
  - etrans.
    + apply (typename_wanted_in_development (Sample.externals true) (∅ : Variables) false
               (Operation "Q" []) (mkField None "me" None None) [] "client:root"
               (JObj [("me", JObj [("id", JStr "1")])]) (JObj [("id", JStr "1")]) "1"
               Sample.root_record (RelayModernRecord.create "1" (JStr "User")));
        [reflexivity | vm_compute; reflexivity | reflexivity | reflexivity | reflexivity
        | discriminate | vm_compute; reflexivity | by intros t [=]].
    + reflexivity.
  - etrans.
    + apply (typename_wanted_in_development (Sample.externals false) (∅ : Variables) false
               (Operation "Q" []) (mkField None "me" None None) [] "client:root"
               (JObj [("me", JObj [("id", JStr "1")])]) (JObj [("id", JStr "1")]) "1"
               Sample.root_record (RelayModernRecord.create "1" (JStr "User")));
        [reflexivity | vm_compute; reflexivity | reflexivity | reflexivity | reflexivity
        | discriminate | vm_compute; reflexivity | by intros t [=]].
    + reflexivity.
Defined.

(** ** C7: the type consistency check *)

Lemma new_type_Ok E concreteType payload t s :
  new_type E concreteType payload = Some t →
  concrete_or_record_type E concreteType payload s = Ok t s.
Proof.
  unfold concrete_or_record_type, new_type, _getRecordType.
  destruct concreteType as [c|]; [destruct (String.eqb c "")|];
    try (by intros [= <-]);
    destruct (js_get payload (TYPENAME_KEY E)) as [[]|];
    first [discriminate | by intros [= <-]].
Qed.

(** The type of a record after a run: the value last written under its
    [__typename] key during the run, or else the type it had. *)
Lemma grows_type s s1 id r :
  grows s s1 → _recordSource s !! id = Some r →
  ∃ r1 later,
    _recordSource s1 !! id = Some r1 ∧ rec_id r1 = rec_id r ∧
    journal s1 = later ++ journal s ∧
    RelayModernRecord.getType r1
    = match latest later id RelayModernRecord.TYPENAME_KEY with
      | Some v => js_of v
      | None => RelayModernRecord.getType r
      end.
Proof.
  intros Hg Hr. destruct (grows_source _ _ Hg _ _ Hr) as (r1 & Hr1 & Hid & Hty).
  destruct (grows_journal _ _ Hg) as [later Hlater].
  exists r1, later. split; [exact Hr1|]. split; [exact Hid|]. split; [exact Hlater|].
  pose proof (grows_written _ _ Hg _ Hlater id RelayModernRecord.TYPENAME_KEY) as Hw.
  unfold written_over, stored in Hw. rewrite Hr1, Hr in Hw. cbn in Hw.
  unfold RelayModernRecord.getType. rewrite Hw, Hty.
  by destruct (latest later id RelayModernRecord.TYPENAME_KEY).
Qed.




(** X12. A new record needs a type.  When a singular linked field
    without concrete type brings an object with a server identity that
    the store has no record for, and the object carries no typename,
    the call fails after the owner was linked: the store is left with a
    link to a record that does not exist. *)
Theorem missing_typename_leaves_link E vars hsn parent f sels record data fieldValue i r s :
  is_object data = true →
  _recordSource s !! record = Some r →
  js_get data (str_or (alias f) (name f)) = Some fieldValue →
  is_object fieldValue = true →
  js_get fieldValue "id" = Some (JStr i) → i ≠ "" →
  _recordSource s !! i = None →
  (∀ t, js_get fieldValue (TYPENAME_KEY E) = Some t → t = JNull) →
  match getStorageKey E (LinkedField f None false sels) vars with
  | Thrown message =>
      traverse_selection E vars hsn parent record data (LinkedField f None false sels) s
      = Throw (ErrImported message) s
  | Returned storageKey =>
      ∃ s1, traverse_selection E vars hsn parent record data
              (LinkedField f None false sels) s
            = Throw (ErrMissingTypename fieldValue) s1 ∧
            stored (_recordSource s1) record storageKey = Some (FLink i) ∧
            _recordSource s1 !! i = None
  end.
Proof.
  intros Hobj Hr Hvalue Hvobj Hid Hne Hnone Htype.
  destruct (getStorageKey E (LinkedField f None false sels) vars)
    as [storageKey|message] eqn:Hkey;
    [|apply (field_key_throws _ _ _ _ _ f); eauto 10].
  rewrite (linked_field_run _ _ _ _ _ _ _ _ _ _ _ _ _ Hobj Hkey Hvalue
             (is_object_not_null _ Hvobj)).
  eexists. split; [|split].
  - unfold _normalizeLink. rewrite Hvobj. unfold bind at 1.
    rewrite (bind_Ok _ _ _ _ _ (invariant_true _ _)).
    rewrite (bind_Ok _ _ _ _ _ (link_to_next_server_id E _ _ _ _ _
                                  (with_path _ s) Hid Hne Hr)).
    unfold get_or_create, bind, source_get. cbn.
    rewrite lookup_insert_ne by (intros <-; congruence). rewrite Hnone.
    unfold _getRecordType.
    destruct (js_get fieldValue (TYPENAME_KEY E)) as [t|] eqn:Ht; [|reflexivity].
    by rewrite (Htype t eq_refl).
  - cbn. rewrite stored_insert. cbn. apply lookup_insert_eq.
  - cbn. rewrite lookup_insert_ne by (intros <-; congruence). done.
Qed.

Lemma missing_typename_leaves_link_witness :
  ∃ s1,
    traverse_selection (Sample.externals false) (∅ : Variables) false (Operation "Q" [])
      "client:root" (JObj [("me", JObj [("id", JStr "1")])])
      (Sample.linked "me" None false [])
      (constructor {[ "client:root" := Sample.root_record ]})
    = Throw (ErrMissingTypename (JObj [("id", JStr "1")])) s1
    ∧ stored (_recordSource s1) "client:root" "me" = Some (FLink "1")
    ∧ _recordSource s1 !! "1" = None.
Proof.
  apply (missing_typename_leaves_link (Sample.externals false) (∅ : Variables) false
           (Operation "Q" []) (mkField None "me" None None) [] "client:root"
           (JObj [("me", JObj [("id", JStr "1")])]) (JObj [("id", JStr "1")]) "1"
           Sample.root_record);
    [reflexivity | vm_compute; reflexivity | reflexivity | reflexivity | reflexivity
    | discriminate | vm_compute; reflexivity | by intros t [=]].
Defined.

(** ** A linked record and its fields *)

(** The three steps of [_normalizeLink] after a successful run: the
    link, the record, the selections. *)
Lemma normalizeLink_inv E traverse field ct record storageKey fieldValue r s s1 :
  _recordSource s !! record = Some r →
  _normalizeLink E traverse field ct record storageKey fieldValue s = Ok tt s1 →
  let nextID := identity_by_precedence (js_get fieldValue "id") (stored_link r storageKey)
                  (generateRelayClientID E (rec_id r) storageKey None) in
  let s2 := with_journal (mkWrite record storageKey (FLink nextID) :: journal s)
              (with_source
                 (<[record := RelayModernRecord.setLinkedRecordID r storageKey nextID]>
                    (_recordSource s)) s) in
  is_object fieldValue = true ∧
  ∃ s3, get_or_create E field nextID fieldValue
          (concrete_or_record_type E ct fieldValue) s2 = Ok tt s3 ∧
        traverse nextID fieldValue s3 = Ok tt s1.
Proof.
  intros Hr Hrun. unfold _normalizeLink in Hrun.
  apply bind_inv in Hrun as ([] & s' & Hinv & Hrun).
  apply invariant_inv in Hinv as [Hobj ->].
  apply bind_inv in Hrun as (nextID & s2 & Hlink & Hrun).
  apply (link_to_next_spec _ _ _ _ _ _ _ _ Hr) in Hlink as [-> ->].
  apply bind_inv in Hrun as ([] & s3 & Hcreate & Hrun).
  split; [done|]. by exists s3.
Qed.

Lemma new_type_run E concreteType payload t s s1 :
  concrete_or_record_type E concreteType payload s = Ok t s1 →
  new_type E concreteType payload = Some t.
Proof.
  unfold concrete_or_record_type, new_type, _getRecordType.
  destruct concreteType as [c|]; [destruct (String.eqb c "")|];
    try (by intros [= <- _]);
    destruct (js_get payload (TYPENAME_KEY E)) as [[]|];
    first [discriminate | by intros [= <- _]].
Qed.

(** A scalar field with a value, on a record of the store. *)
Lemma scalar_value_stored E vars hsn parent g record data v r s s1 :
  _recordSource s !! record = Some r →
  js_get data (str_or (alias g) (name g)) = Some v →
  traverse_selection E vars hsn parent record data (ScalarField g) s = Ok tt s1 →
  ∃ key, getStorageKey E (ScalarField g) vars = Returned key ∧
         stored (_recordSource s1) record key = Some (FScalar v).
Proof.
  intros Hr Hv Hrun. cbn in Hrun. unfold _normalizeField, responseKey_of in Hrun.
  apply bind_inv in Hrun as ([] & s' & Hinv & Hrun). apply invariant_inv in Hinv as [_ ->].
  cbv zeta in Hrun.
  apply bind_inv in Hrun as (key & s' & Hkey & Hrun).
  apply imported_inv in Hkey as [Hkey ->]. exists key. split; [exact Hkey|].
  rewrite Hv in Hrun.
  assert (Hset : ∃ s0, _recordSource s0 !! record = Some r ∧
                       setValue record key v s0 = Ok tt s1).
  { destruct v; try (by exists s).
    rewrite write_missing_run in Hrun. cbn in Hrun.
    eexists. split; [|exact Hrun]. by rewrite noted_source. }
  destruct Hset as (s0 & Hr0 & Hset).
  destruct (setValue_stored record key v r s0 Hr0) as (s1' & Hrun' & Hstored & _).
  rewrite Hset in Hrun'. by injection Hrun' as <-.
Qed.

(** X13. After a singular linked field was normalized whose object was
    given an identity that the store had no record for, the store has
    a record under that identity, with that identity, created with the
    type the field fixes: its concrete type when it has one, else the
    typename of the object.  The type the record then has is that type,
    unless the selections of the field wrote the record's [__typename]
    storage key: the type is then the value written there last. *)
Theorem new_record_type E vars hsn parent f ct sels record data fieldValue storageKey
  r s s1 :
  _recordSource s !! record = Some r →
  js_get data (str_or (alias f) (name f)) = Some fieldValue →
  fieldValue ≠ JNull →
  traverse_selection E vars hsn parent record data (LinkedField f ct false sels) s
  = Ok tt s1 →
  getStorageKey E (LinkedField f ct false sels) vars = Returned storageKey →
  let nextID := identity_by_precedence (js_get fieldValue "id") (stored_link r storageKey)
                  (generateRelayClientID E (rec_id r) storageKey None) in
  _recordSource s !! nextID = None →
  ∃ r1 t later,
    _recordSource s1 !! nextID = Some r1 ∧ rec_id r1 = nextID ∧
    new_type E ct fieldValue = Some t ∧
    journal s1 = later ++ journal s ∧
    RelayModernRecord.getType r1
    = match latest later nextID RelayModernRecord.TYPENAME_KEY with
      | Some v => js_of v
      | None => t
      end.
Proof.
  intros Hr Hvalue Hnull Hrun Hkey nextID Hnone.
  apply (linked_field_inv _ _ _ _ _ _ _ _ _ _ _ _ _ Hvalue Hnull) in Hrun
      as (storageKey' & s' & Hkey' & Hrun & ->).
  rewrite Hkey in Hkey'. injection Hkey' as <-.
  apply (normalizeLink_inv _ _ _ _ _ _ _ r) in Hrun as (_ & s3 & Hcreate & Htrav);
    [|exact Hr].
  fold nextID in Hcreate, Htrav.
  assert (nextID ≠ record) as Hne by (intros Heq; rewrite Heq, Hr in Hnone; done).
  unfold get_or_create, bind, source_get in Hcreate. cbn in Hcreate.
  rewrite lookup_insert_ne, Hnone in Hcreate by done.
  destruct (concrete_or_record_type E ct fieldValue _) as [t s0|] eqn:Hty;
    [|discriminate].
  pose proof (new_type_run _ _ _ _ _ _ Hty) as Hnew.
  apply (stateless_inv _ _ _ _ (stateless_concrete_or_record_type E ct fieldValue))
    in Hty as [-> _].
  injection Hcreate as <-.
  pose proof (mono_children _ _ _ _ _ _ _ _ _ _ Htrav) as Hgrow.
  destruct (grows_source _ _ Hgrow nextID (RelayModernRecord.create nextID t))
    as (r1 & Hr1 & Hid & Htype); [cbn; apply lookup_insert_eq|].
  destruct (grows_journal _ _ Hgrow) as [later Hlater].
  pose proof (grows_written _ _ Hgrow _ Hlater nextID RelayModernRecord.TYPENAME_KEY)
    as Hw.
  cbn [journal with_journal with_source with_path] in Hlater.
  exists r1, t, (later ++ [mkWrite record storageKey (FLink nextID)]).
  cbn. split; [exact Hr1|]. split; [exact Hid|]. split; [exact Hnew|].
  split; [by rewrite Hlater, <- app_assoc|].
  rewrite latest_app. cbn [latest w_record w_key].
  rewrite decide_False by (intros [Heq _]; by apply Hne).
  unfold written_over, stored in Hw. cbn in Hw.
  rewrite Hr1, lookup_insert_eq in Hw. cbn in Hw. rewrite lookup_empty in Hw.
  unfold RelayModernRecord.getType. rewrite Hw, Htype.
  by destruct (latest later nextID RelayModernRecord.TYPENAME_KEY).
Qed.

Lemma new_record_type_witness :
  let me := JObj [("__typename", JNull); ("id", JStr "1"); ("name", JStr "Ada")] in
  ∃ s1 r1,
    traverse_selection (Sample.externals true) (∅ : Variables) false (Operation "Q" [])
      "client:root" (JObj [("me", me)])
      (Sample.linked "me" (Some "User") false
         [Sample.scalar "__typename"; Sample.scalar "name"])
      (constructor {[ "client:root" := Sample.root_record ]}) = Ok tt s1
    ∧ _recordSource s1 !! "1" = Some r1
    ∧ rec_type r1 = JStr "User"
    ∧ RelayModernRecord.getType r1 = JNull.
Proof.
  intros me.
  destruct (traverse_selection _ _ _ _ _ _ _ _) as [[] s1|e s1] eqn:Hrun;
    [|by vm_compute in Hrun].
  destruct (new_record_type (Sample.externals true) (∅ : Variables) false
              (Operation "Q" []) (mkField None "me" None None) (Some "User")
              [Sample.scalar "__typename"; Sample.scalar "name"] "client:root"
              (JObj [("me", me)]) me "me"
              Sample.root_record
              (constructor {[ "client:root" := Sample.root_record ]}) s1)
    as (r1 & t & later & Hr1 & _ & Hnew & Hlater & Htype);
    [vm_compute; reflexivity | reflexivity | discriminate | exact Hrun
    | reflexivity | vm_compute; reflexivity |].
  exists s1, r1. split; [reflexivity|]. split; [exact Hr1|].
  vm_compute in Hrun. injection Hrun as <-.
  vm_compute in Hr1. injection Hr1 as <-.
  split; vm_compute; reflexivity.
Defined.

(** X14. The fields of a linked object land on the linked record.
    After a singular linked field was normalized whose last selection
    is a scalar field, the record under the identity given to the object
    holds, under that scalar's storage key, the value the object has
    for it. *)
Theorem nested_scalar_is_stored E vars hsn parent f ct before g record data fieldValue
  v r s s1 :
  _recordSource s !! record = Some r →
  js_get data (str_or (alias f) (name f)) = Some fieldValue →
  fieldValue ≠ JNull →
  js_get fieldValue (str_or (alias g) (name g)) = Some v →
  traverse_selection E vars hsn parent record data
    (LinkedField f ct false (before ++ [ScalarField g])) s = Ok tt s1 →
  ∃ storageKey key,
    getStorageKey E (LinkedField f ct false (before ++ [ScalarField g])) vars
    = Returned storageKey ∧
    getStorageKey E (ScalarField g) vars = Returned key ∧
    let nextID := identity_by_precedence (js_get fieldValue "id")
                    (stored_link r storageKey)
                    (generateRelayClientID E (rec_id r) storageKey None) in
    stored (_recordSource s1) nextID key = Some (FScalar v).
Proof.
  intros Hr Hvalue Hnull Hv Hrun.
  apply (linked_field_inv _ _ _ _ _ _ _ _ _ _ _ _ _ Hvalue Hnull) in Hrun
      as (storageKey & s' & Hkey & Hrun & ->).
  apply (normalizeLink_inv _ _ _ _ _ _ _ r) in Hrun as (_ & s3 & Hcreate & Htrav);
    [|exact Hr].
  apply get_or_create_has in Hcreate as [r3 Hr3];
    [|apply stateless_concrete_or_record_type].
  apply forEach_app_inv in Htrav as (s4 & Hbefore & Hlast).
  cbn [forEach] in Hlast. apply bind_inv in Hlast as ([] & s5 & Hscalar & [= <-]).
  pose proof (mono_children _ _ _ _ _ _ _ _ _ _ Hbefore) as Hgrow.
  destruct (grows_source _ _ Hgrow _ _ Hr3) as (r4 & Hr4 & _).
  destruct (scalar_value_stored _ _ _ _ _ _ _ _ _ _ _ Hr4 Hv Hscalar)
    as (key & Hgkey & Hstored).
  exists storageKey, key. split; [exact Hkey|]. split; [exact Hgkey|]. exact Hstored.
Qed.

Lemma nested_scalar_is_stored_witness :
  let me := JObj [("__typename", JStr "User"); ("id", JStr "1"); ("name", JStr "Ada")] in
  ∃ s1,
    traverse_selection (Sample.externals true) (∅ : Variables) false (Operation "Q" [])
      "client:root" (JObj [("me", me)])
      (Sample.linked "me" None false [Sample.scalar "id"; Sample.scalar "name"])
      (constructor {[ "client:root" := Sample.root_record ]}) = Ok tt s1
    ∧ stored (_recordSource s1) "1" "name" = Some (FScalar (JStr "Ada")).
Proof.
  intros me.
  destruct (traverse_selection _ _ _ _ _ _ _ _) as [[] s1|e s1] eqn:Hrun;
    [|by vm_compute in Hrun].
  exists s1. split; [reflexivity|].
  destruct (nested_scalar_is_stored (Sample.externals true) (∅ : Variables) false
              (Operation "Q" []) (mkField None "me" None None) None [Sample.scalar "id"]
              (mkField None "name" None None) "client:root" (JObj [("me", me)]) me
              (JStr "Ada") Sample.root_record
              (constructor {[ "client:root" := Sample.root_record ]}) s1)
    as (storageKey & key & Hkey & Hgkey & Hstored);
    [vm_compute; reflexivity | reflexivity | discriminate | reflexivity | exact Hrun|].
  injection Hkey as <-. injection Hgkey as <-. exact Hstored.
Defined.

(** X15. The record of a linked object is there.  After a linked field
    was normalized, the store has a record under the identity given to
    its object, and, for a plural field, under every identity of the
    list that is then stored on the owner. *)
Theorem linked_records_exist E vars hsn parent f ct (plural : bool) sels record data
  fieldValue r s s1 :
  _recordSource s !! record = Some r →
  js_get data (str_or (alias f) (name f)) = Some fieldValue →
  fieldValue ≠ JNull →
  traverse_selection E vars hsn parent record data (LinkedField f ct plural sels) s
  = Ok tt s1 →
  ∃ storageKey,
    getStorageKey E (LinkedField f ct plural sels) vars = Returned storageKey ∧
    if plural
    then ∃ ids, stored (_recordSource s1) record storageKey = Some (FLinks ids) ∧
                ∀ id, Some id ∈ ids → is_Some (_recordSource s1 !! id)
    else is_Some (_recordSource s1 !!
                    identity_by_precedence (js_get fieldValue "id")
                      (stored_link r storageKey)
                      (generateRelayClientID E (rec_id r) storageKey None)).
Proof.
  intros Hr Hvalue Hnull Hrun.
  apply (linked_field_inv _ _ _ _ _ _ _ _ _ _ _ _ _ Hvalue Hnull) in Hrun
      as (storageKey & s' & Hkey & Hrun & ->).
  exists storageKey. split; [exact Hkey|]. destruct plural; cbn.
  - unfold _normalizePluralLink in Hrun.
    destruct fieldValue as [| | | |items| |]; try discriminate.
    apply bind_inv in Hrun as (prev & s0 & Hprev & Hrun).
    apply typed_get_inv in Hprev as (r0 & _ & _ & ->).
    apply bind_inv in Hrun as (ids & s2 & Hitems & Hset).
    pose proof (plural_items_exist _ _ _ _ _ _ _ _ (mono_children E vars hsn _ sels)
                  _ _ _ _ _ Hitems) as Hids.
    unfold setLinkedRecordIDs, write_field in Hset.
    apply bind_inv in Hset as (r2 & s3 & Hd & Hset). apply deref_inv in Hd as [Hr2 ->].
    injection Hset as <-. cbn. exists ids. split.
    + rewrite stored_insert. cbn. apply lookup_insert_eq.
    + intros id Hin. destruct (decide (record = id)) as [<-|Hne];
        [rewrite lookup_insert_eq; eauto|]. rewrite lookup_insert_ne by done.
      apply Hids; [|exact Hin]. intros t Hnil. by apply elem_of_nil in Hnil.
  - apply (normalizeLink_inv _ _ _ _ _ _ _ r) in Hrun as (_ & s3 & Hcreate & Htrav);
      [|exact Hr].
    apply get_or_create_has in Hcreate; [|apply stateless_concrete_or_record_type].
    exact (grows_is_Some _ _ _ (mono_children _ _ _ _ _ _ _ _ _ _ Htrav) Hcreate).
Qed.

Lemma linked_records_exist_witness :
  ∃ s1 ids,
    traverse_selection (Sample.externals true) (∅ : Variables) false (Operation "Q" [])
      "client:root"
      (JObj [("friends", JArr [JObj [("id", JStr "1")]; JNull;
                               JObj [("name", JStr "Bob")]])])
      (Sample.linked "friends" (Some "User") true [Sample.scalar "name"])
      (constructor {[ "client:root" := Sample.root_record ]}) = Ok tt s1
    ∧ stored (_recordSource s1) "client:root" "friends" = Some (FLinks ids)
    ∧ ∀ id, Some id ∈ ids → is_Some (_recordSource s1 !! id).
Proof.
  destruct (traverse_selection _ _ _ _ _ _ _ _) as [[] s1|e s1] eqn:Hrun;
    [|by vm_compute in Hrun].
  destruct (linked_records_exist (Sample.externals true) (∅ : Variables) false
              (Operation "Q" []) (mkField None "friends" None None) (Some "User") true
              [Sample.scalar "name"] "client:root"
              (JObj [("friends", JArr [JObj [("id", JStr "1")]; JNull;
                                       JObj [("name", JStr "Bob")]])])
              (JArr [JObj [("id", JStr "1")]; JNull; JObj [("name", JStr "Bob")]])
              Sample.root_record
              (constructor {[ "client:root" := Sample.root_record ]}) s1)
    as (storageKey & Hkey & ids & Hstored & Hall);
    [vm_compute; reflexivity | reflexivity | discriminate | exact Hrun |].
  injection Hkey as <-.
  exists s1, ids. split; [reflexivity|]. split; [exact Hstored | exact Hall].
Defined.

(** ** Selections that write nothing *)

(** X16. A handle selection, linked or scalar, does not look at the
    response and writes nothing.  It resolves, in this order, the
    argument values (an empty object when the handle has no arguments),
    the field's storage key and the handle's key; when one of the three
    throws, for instance on an argument bound to a variable that has no
    value, the call ends there with that exception and the state is as
    it was.  Otherwise, whatever the data, one handle payload is
    appended, with the identity of the record the selection was met on,
    the field's storage key, the handle's name and key, and the
    argument values. *)
Theorem handle_selection E vars hsn parent record data selection h r s :
  selection = LinkedHandle h ∨ selection = ScalarHandle h →
  _recordSource s !! record = Some r →
  traverse_selection E vars hsn parent record data selection s =
  match match h_args h with
        | Some a => getArgumentValues E a vars
        | None => Returned (JObj [])
        end with
  | Thrown message => Throw (ErrImported message) s
  | Returned args =>
      match getStorageKey E selection vars with
      | Thrown message => Throw (ErrImported message) s
      | Returned fieldKey =>
          match getHandleStorageKey E selection vars with
          | Thrown message => Throw (ErrImported message) s
          | Returned handleKey =>
              Ok tt (with_handles
                       (_handleFieldPayloads s ++
                        [mkHandlePayload args (rec_id r) fieldKey (handle h) handleKey])
                       s)
          end
      end
  end.
Proof.
  intros [-> | ->] Hr; cbn; unfold handle_field, getDataID, deref, bind, ret;
    rewrite ?Hr;
    (destruct (h_args h) as [a|]; [destruct (getArgumentValues E a vars)|]; cbn;
     try reflexivity);
    (destruct (getStorageKey E _ vars); cbn; [|reflexivity]);
    (destruct (getHandleStorageKey E _ vars); cbn; [|reflexivity]);
    by rewrite ?Hr.
Qed.

Lemma handle_selection_witness :
  let s := constructor {[ "client:root" := Sample.root_record ]} in
  (∃ s1,
     traverse_selection (Sample.externals true) (∅ : Variables) false (Operation "Q" [])
       "client:root" JNull
       (ScalarHandle (mkHandle None "name" None "upper" "" None)) s = Ok tt s1
     ∧ _handleFieldPayloads s1
       = [mkHandlePayload (JObj []) "client:root" "name" "upper" "__name_upper"]
     ∧ journal s1 = [])
  ∧ traverse_selection (Sample.externals true) (∅ : Variables) false (Operation "Q" [])
      "client:root" JNull
      (LinkedHandle (mkHandle None "friends" (Some [VariableArg "first" "count"])
                       "connection" "" None)) s
    = Throw (ErrImported "getVariableValue(): Undefined variable `count`.") s.
Proof.
  intros s. split.
  - eexists. split; [|split].
    + etrans.
      * apply (handle_selection (Sample.externals true) (∅ : Variables) false
                 (Operation "Q" []) "client:root" JNull
                 (ScalarHandle (mkHandle None "name" None "upper" "" None))
                 (mkHandle None "name" None "upper" "" None) Sample.root_record);
          [right; reflexivity | vm_compute; reflexivity].
      * reflexivity.
    + reflexivity.
    + reflexivity.
  - etrans.
    + apply (handle_selection (Sample.externals true) (∅ : Variables) false
               (Operation "Q" []) "client:root" JNull
               (LinkedHandle (mkHandle None "friends" (Some [VariableArg "first" "count"])
                                "connection" "" None))
               (mkHandle None "friends" (Some [VariableArg "first" "count"])
                  "connection" "" None) Sample.root_record);
        [left; reflexivity | vm_compute; reflexivity].
    + reflexivity.
Defined.



(** X18. An inline fragment is decided by the type the store holds for
    the record, not by the typename of the data: it is traversed when
    the record's type is the fragment's type, and skipped otherwise. *)
Theorem inline_fragment_selection E vars hsn parent record data type sels r s :
  _recordSource s !! record = Some r →
  traverse_selection E vars hsn parent record data (InlineFragment type sels) s
  = match RelayModernRecord.getType r with
    | JStr t =>
        if String.eqb t type
        then forEach (traverse_selection E vars hsn (InlineFragment type sels) record data)
                     sels s
        else Ok tt s
    | _ => Ok tt s
    end.
Proof.
  intros Hr. cbn [traverse_selection].
  unfold getType, deref, bind, ret. rewrite Hr.
  destruct (RelayModernRecord.getType r) as [|b|n|t|items|props|fn]; cbn;
    try reflexivity.
  by destruct (String.eqb t type).
Qed.

Lemma inline_fragment_selection_witness :
  let s := constructor {[ "1" := RelayModernRecord.create "1" (JStr "User") ]} in
  traverse_selection (Sample.externals true) (∅ : Variables) false (Operation "Q" [])
    "1" (JObj [("__typename", JStr "Page"); ("name", JStr "Ada")])
    (InlineFragment "Page" [Sample.scalar "name"]) s
  = Ok tt s.
Proof.
  intros s.
  apply (inline_fragment_selection (Sample.externals true) (∅ : Variables) false
           (Operation "Q" []) "1"
           (JObj [("__typename", JStr "Page"); ("name", JStr "Ada")])
           "Page" [Sample.scalar "name"] (RelayModernRecord.create "1" (JStr "User")) s).
  vm_compute. reflexivity.
Defined.

(** ** Malformed trees and responses *)

(** X19. A fragment or a fragment spread among the selections of the
    root node makes every call of [normalize] fail, whatever the
    response and the store: the walker expects them to have been
    inlined. *)
Theorem fragment_is_fatal E recordSource selector response options selection :
  selection ∈ selections_of (node selector) →
  (∃ n sels, selection = Fragment n sels) ∨ (∃ n, selection = FragmentSpread n) →
  is_throw (normalize E recordSource selector response options).
Proof.
  intros Hin Hkind. rewrite normalize_unfold.
  destruct (recordSource !! dataID selector); [|by eexists _, _].
  unfold _traverseSelections.
  assert (Hthrow : ∀ s, is_throw (traverse_selection E (variables selector)
                                    (handleStrippedNulls options) (node selector)
                                    (dataID selector) response selection s)).
  { intros s. destruct Hkind as [(n & sels & ->)|(n & ->)]; by eexists _, _. }
  destruct (forEach_throw _ _ _ Hin Hthrow (constructor recordSource)) as (e & s1 & ->).
  by exists e, s1.
Qed.

Lemma fragment_is_fatal_witness :
  is_throw (normalize (Sample.externals false) {[ "client:root" := Sample.root_record ]}
              (mkSelector "client:root"
                 (Operation "Q" [Sample.scalar "name"; FragmentSpread "Profile"])
                 (∅ : Variables))
              (JObj [("name", JStr "Ada")]) default_options).
Proof.
  apply (fragment_is_fatal _ _ _ _ _ (FragmentSpread "Profile")).
  - cbn. apply list_elem_of_further, list_elem_of_here.
  - right. by exists "Profile".
Defined.

(** X20. A field read from data that is not an object, scalar, linked
    or match field alike, is fatal, and nothing has been written when
    the error is thrown. *)
Theorem field_of_non_object E vars hsn parent record data selection f s :
  (selection = ScalarField f ∨ (∃ ct pl sels, selection = LinkedField f ct pl sels)
   ∨ ∃ m, selection = MatchField f m) →
  is_object data = false →
  traverse_selection E vars hsn parent record data selection s
  = Throw (ErrDataNotObject (name f)) s.
Proof.
  intros [-> | [(ct & pl & sels & ->) | (m & ->)]] Hobj; cbn;
    unfold _normalizeField, _normalizeMatchField, bind; by rewrite Hobj.
Qed.

Lemma field_of_non_object_witness :
  traverse_selection (Sample.externals true) (∅ : Variables) false (Operation "Q" [])
    "client:root" (JStr "oops") (Sample.scalar "name")
    (constructor {[ "client:root" := Sample.root_record ]})
  = Throw (ErrDataNotObject "name") (constructor {[ "client:root" := Sample.root_record ]}).
Proof.
  apply (field_of_non_object (Sample.externals true) (∅ : Variables) false
           (Operation "Q" []) "client:root" (JStr "oops") (Sample.scalar "name")
           (mkField None "name" None None));
    [left; reflexivity | reflexivity].
Defined.

(** X21. A linked field whose value is neither null nor of the
    expected shape is fatal: a singular field wants an object (an array
    passes for one), a plural field an array.  The error is thrown
    before the owner is written; only the path has been extended. *)
Theorem linked_value_of_wrong_shape E vars hsn parent f ct (plural : bool) sels record
  data fieldValue s :
  is_object data = true →
  js_get data (str_or (alias f) (name f)) = Some fieldValue →
  fieldValue ≠ JNull →
  (if plural then is_array fieldValue else is_object fieldValue) = false →
  match getStorageKey E (LinkedField f ct plural sels) vars with
  | Thrown message =>
      traverse_selection E vars hsn parent record data (LinkedField f ct plural sels) s
      = Throw (ErrImported message) s
  | Returned storageKey =>
      traverse_selection E vars hsn parent record data (LinkedField f ct plural sels) s
      = Throw (if plural then ErrValueNotArray storageKey
               else ErrValueNotObject storageKey)
              (with_path (_path s ++ [str_or (alias f) (name f)]) s)
  end.
Proof.
  intros Hobj Hvalue Hnull Hshape.
  destruct (getStorageKey E (LinkedField f ct plural sels) vars)
    as [storageKey|message] eqn:Hkey;
    [|apply (field_key_throws _ _ _ _ _ f); eauto 10].
  rewrite (linked_field_run _ _ _ _ _ _ _ _ _ _ _ _ _ Hobj Hkey Hvalue Hnull).
  unfold _normalizeLink, _normalizePluralLink, bind.
  destruct plural; destruct fieldValue; try done; try discriminate.
Qed.

Lemma linked_value_of_wrong_shape_witness :
  let s := constructor {[ "client:root" := Sample.root_record ]} in
  traverse_selection (Sample.externals true) (∅ : Variables) false (Operation "Q" [])
    "client:root" (JObj [("friends", JObj [("id", JStr "1")])])
    (Sample.linked "friends" (Some "User") true []) s
  = Throw (ErrValueNotArray "friends") (with_path ["friends"] s).
Proof.
  intros s.
  apply (linked_value_of_wrong_shape (Sample.externals true) (∅ : Variables) false
           (Operation "Q" []) (mkField None "friends" None None) (Some "User") true []
           "client:root" (JObj [("friends", JObj [("id", JStr "1")])])
           (JObj [("id", JStr "1")]) s);
    [reflexivity | reflexivity | discriminate | reflexivity].
Defined.

(** X22. An [id] that is truthy but not a string (a number other than
    zero, [true], an object or an array) is fatal for a singular linked
    field, and the error is thrown before the owner is written. *)
Theorem identity_must_be_string E vars hsn parent f ct sels record data fieldValue v s :
  is_object data = true →
  js_get data (str_or (alias f) (name f)) = Some fieldValue →
  is_object fieldValue = true →
  js_get fieldValue "id" = Some v → truthy v = true → (∀ i, v ≠ JStr i) →
  match getStorageKey E (LinkedField f ct false sels) vars with
  | Thrown message =>
      traverse_selection E vars hsn parent record data (LinkedField f ct false sels) s
      = Throw (ErrImported message) s
  | Returned storageKey =>
      traverse_selection E vars hsn parent record data (LinkedField f ct false sels) s
      = Throw (ErrIDNotString storageKey)
              (with_path (_path s ++ [str_or (alias f) (name f)]) s)
  end.
Proof.
  intros Hobj Hvalue Hvobj Hid Htruthy Hstr.
  destruct (getStorageKey E (LinkedField f ct false sels) vars)
    as [storageKey|message] eqn:Hkey;
    [|apply (field_key_throws _ _ _ _ _ f); eauto 10].
  rewrite (linked_field_run _ _ _ _ _ _ _ _ _ _ _ _ _ Hobj Hkey Hvalue
             (is_object_not_null _ Hvobj)).
  unfold _normalizeLink, link_to_next, link_id, id_or, bind. rewrite Hvobj. cbn.
  rewrite Hid, Htruthy. cbn. destruct v; try done. by destruct (Hstr s0).
Qed.

Lemma identity_must_be_string_witness :
  let s := constructor {[ "client:root" := Sample.root_record ]} in
  traverse_selection (Sample.externals true) (∅ : Variables) false (Operation "Q" [])
    "client:root" (JObj [("me", JObj [("id", JNum 7)])])
    (Sample.linked "me" (Some "User") false []) s
  = Throw (ErrIDNotString "me") (with_path ["me"] s).
Proof.
  intros s.
  apply (identity_must_be_string (Sample.externals true) (∅ : Variables) false
           (Operation "Q" []) (mkField None "me" None None) (Some "User") []
           "client:root" (JObj [("me", JObj [("id", JNum 7)])])
           (JObj [("id", JNum 7)]) (JNum 7) s);
    [reflexivity | reflexivity | reflexivity | reflexivity | reflexivity | discriminate].
Defined.

Lemma plural_items_shape E traverse field concreteType record storageKey prevIDs items :
  ∀ nextIndex nextIDs s ids s1,
    plural_items E traverse field concreteType record storageKey prevIDs items
                 nextIndex nextIDs s = Ok ids s1 →
    Forall item_shape items.
Proof.
  induction items as [|item rest IH]; intros i acc s ids s1; cbn; [constructor|].
  intros Hrun. apply bind_inv in Hrun as (acc' & s' & Hitem & Hrun).
  constructor; [|by eapply IH]. clear Hrun IH. unfold plural_item in Hitem.
  assert (Hobj : (path_push (pretty i);;
                  invariant (is_object item) (ErrElementNotObject storageKey);;
                  let* v := item_id E item prevIDs record storageKey i in
                  let* nextID := expect_string v (ErrElementIDNotString storageKey) in
                  get_or_create E field nextID item
                    (concrete_or_record_type E concreteType item);;
                  traverse nextID item;; path_pop;; ret (acc ++ [Some nextID])) s
                 = Ok acc' s' → item_shape item).
  { clear Hitem. intros Hrun.
    apply bind_inv in Hrun as ([] & s2 & _ & Hrun).
    apply bind_inv in Hrun as ([] & s3 & Hinv & Hrun).
    apply invariant_inv in Hinv as [Hobj ->].
    apply bind_inv in Hrun as (v & s3 & Hid & Hrun).
    apply bind_inv in Hrun as (nextID & s4 & Hstr & _).
    apply expect_string_inv in Hstr as [-> ->].
    right. split; [done|]. intros v Hv Htruthy.
    unfold item_id, id_or in Hid. rewrite Hv, Htruthy in Hid.
    injection Hid as -> _. eauto. }
  destruct item; try (by apply Hobj). by left.
Qed.

(** X23. A plural linked field is normalized successfully only when
    every item of its array is null or an object whose [id] is falsy or
    a string: an item of another shape is fatal, also after the items
    before it were normalized. *)
Theorem plural_items_are_objects E vars hsn parent f ct sels record data items s s1 :
  js_get data (str_or (alias f) (name f)) = Some (JArr items) →
  traverse_selection E vars hsn parent record data (LinkedField f ct true sels) s
  = Ok tt s1 →
  Forall item_shape items.
Proof.
  intros Hvalue Hrun.
  apply (linked_field_inv _ _ _ _ _ _ _ _ _ _ _ _ _ Hvalue) in Hrun
      as (storageKey & s' & _ & Hrun & _); [|done].
  unfold _normalizePluralLink in Hrun.
  apply bind_inv in Hrun as (prev & s2 & _ & Hrun).
  apply bind_inv in Hrun as (ids & s3 & Hitems & _).
  by eapply plural_items_shape.
Qed.

Lemma plural_items_are_objects_witness :
  let items := [JObj [("id", JStr "1")]; JNull; JObj [("name", JStr "Bob")]] in
  ∃ s1,
    traverse_selection (Sample.externals true) (∅ : Variables) false (Operation "Q" [])
      "client:root" (JObj [("friends", JArr items)])
      (Sample.linked "friends" (Some "User") true [])
      (constructor {[ "client:root" := Sample.root_record ]}) = Ok tt s1
    ∧ Forall item_shape items.
Proof.
  intros items.
  destruct (traverse_selection _ _ _ _ _ _ _ _) as [[] s1|e s1] eqn:Hrun;
    [|by vm_compute in Hrun].
  exists s1. split; [reflexivity|].
  apply (plural_items_are_objects (Sample.externals true) (∅ : Variables) false
           (Operation "Q" []) (mkField None "friends" None None) (Some "User") []
           "client:root" (JObj [("friends", JArr items)]) items _ _ eq_refl Hrun).
Defined.

(** ** Match fields, and values that are null or absent *)

Lemma silenced_fields s s1 :
  silenced s1 = silenced s →
  _recordSource s1 = _recordSource s ∧ _path s1 = _path s ∧
  _incrementalPayloads s1 = _incrementalPayloads s ∧
  _handleFieldPayloads s1 = _handleFieldPayloads s ∧
  _matchFieldPayloads s1 = _matchFieldPayloads s ∧ journal s1 = journal s.
Proof. unfold silenced, with_diagnostics. intros [= -> -> -> -> -> ->]. done. Qed.

(** What [get_or_create] leaves: a new record when there was none,
    and otherwise at most a diagnostic. *)
Lemma get_or_create_run E field nextID payload typeName t s a s1 :
  (∀ s', typeName s' = Ok t s') →
  get_or_create E field nextID payload typeName s = Ok a s1 →
  match _recordSource s !! nextID with
  | None => s1 = with_source (<[nextID := RelayModernRecord.create nextID t]>
                                (_recordSource s)) s
  | Some _ => silenced s1 = silenced s
  end.
Proof.
  intros Hty. unfold get_or_create, bind, source_get.
  destruct (_recordSource s !! nextID) as [r|].
  - unfold when_dev. destruct (DEV E); [|by intros [= _ <-]].
    apply diagnoses_validateRecordType.
  - rewrite Hty. by intros [= _ <-].
Qed.

(** X24. A match field whose object carries a typename that the
    selection has an entry for: the owner is linked to the identity
    chosen by precedence, a record of the payload's type is created
    under it unless the store has one, and one match payload is
    appended when the object names an operation to load.  Nothing else
    is written: the fields of the object are left to that operation. *)
Theorem matched_type_links_record E vars hsn parent f matchesByType record data
  fieldValue typeName r s s1 :
  _recordSource s !! record = Some r →
  js_get data (str_or (alias f) (name f)) = Some fieldValue →
  fieldValue ≠ JNull →
  js_get fieldValue (TYPENAME_KEY E) = Some typeName →
  is_Some (match_for E matchesByType typeName) →
  traverse_selection E vars hsn parent record data (MatchField f matchesByType) s
  = Ok tt s1 →
  ∃ storageKey,
    getStorageKey E (MatchField f matchesByType) vars = Returned storageKey ∧
    let nextID := identity_by_precedence (js_get fieldValue "id")
                    (stored_link r storageKey)
                    (generateRelayClientID E (rec_id r) storageKey None) in
    let linked := <[record := RelayModernRecord.setLinkedRecordID r storageKey nextID]>
                    (_recordSource s) in
    _recordSource s1 = match linked !! nextID with
                       | Some _ => linked
                       | None => <[nextID := RelayModernRecord.create nextID typeName]>
                                   linked
                       end ∧
    journal s1 = mkWrite record storageKey (FLink nextID) :: journal s ∧
    _matchFieldPayloads s1 =
      _matchFieldPayloads s ++
      match js_get fieldValue (MATCH_FRAGMENT_KEY E) with
      | Some JNull | None => []
      | Some operationReference =>
          [mkMatchPayload operationReference nextID fieldValue typeName vars]
      end ∧
    _path s1 = _path s ∧ _incrementalPayloads s1 = _incrementalPayloads s ∧
    _handleFieldPayloads s1 = _handleFieldPayloads s.
Proof.
  intros Hr Hvalue Hnull Htype [m Hm] Hrun. cbn in Hrun.
  unfold _normalizeMatchField, responseKey_of in Hrun.
  apply bind_inv in Hrun as ([] & s' & Hinv & Hrun). apply invariant_inv in Hinv as [_ ->].
  cbv zeta in Hrun.
  apply bind_inv in Hrun as (storageKey & s' & Hkey & Hrun).
  apply imported_inv in Hkey as [Hkey ->]. exists storageKey. split; [exact Hkey|].
  rewrite Hvalue in Hrun.
  assert (Hrun' :
            (invariant (is_object fieldValue) (ErrValueNotObject storageKey);;
             let* typeName := _getRecordType E fieldValue in
             match match_for E matchesByType typeName with
             | Some _ =>
                 let* nextID := link_to_next E fieldValue record storageKey in
                 get_or_create E (MatchField f matchesByType) nextID fieldValue
                               (ret typeName);;
                 match js_get fieldValue (MATCH_FRAGMENT_KEY E) with
                 | Some JNull | None => ret tt
                 | Some operationReference =>
                     push_match (mkMatchPayload operationReference nextID fieldValue
                                                typeName vars)
                 end
             | None => setValue record storageKey JNull
             end) s = Ok tt s1) by (by destruct fieldValue).
  clear Hrun. rename Hrun' into Hrun.
  apply bind_inv in Hrun as ([] & s' & Hinv & Hrun). apply invariant_inv in Hinv as [_ ->].
  apply bind_inv in Hrun as (t & s' & Ht & Hrun).
  unfold _getRecordType in Ht. rewrite Htype in Ht.
  assert (t = typeName ∧ s' = s) as [-> ->]
      by (destruct typeName; first [discriminate | by injection Ht as <- <-]).
  rewrite Hm in Hrun.
  apply bind_inv in Hrun as (nextID & s2 & Hlink & Hrun).
  apply (link_to_next_spec _ _ _ _ _ _ _ _ Hr) in Hlink as [-> ->].
  apply bind_inv in Hrun as ([] & s3 & Hcreate & Hrun).
  apply (get_or_create_run _ _ _ _ _ typeName) in Hcreate; [|done]. cbn in Hcreate.
  cbv zeta.
  destruct (_ !! identity_by_precedence _ _ _) as [r'|].
  - apply silenced_fields in Hcreate as (Hsrc & Hpath & Hinc & Hhandle & Hmatch & Hj).
    destruct (js_get fieldValue (MATCH_FRAGMENT_KEY E)) as [[]|];
      injection Hrun as <-; cbn; rewrite ?app_nil_r; by rewrite Hsrc, Hpath, Hinc, Hhandle, Hmatch, Hj.
  - subst s3.
    destruct (js_get fieldValue (MATCH_FRAGMENT_KEY E)) as [[]|];
      injection Hrun as <-; cbn; by rewrite ?app_nil_r.
Qed.

Lemma matched_type_links_record_witness :
  let s := constructor {[ "client:root" := Sample.root_record ]} in
  let card := JObj [("__typename", JStr "Plain"); ("id", JStr "c1");
                    ("__match_fragment", JStr "PlainCard$normalization.graphql")] in
  ∃ s1,
    traverse_selection (Sample.externals true) (∅ : Variables) false (Operation "Q" [])
      "client:root" (JObj [("card", card)])
      (MatchField (mkField None "card" None None)
                  {[ "Plain" := mkMatch "plain" "PlainCard" ]}) s = Ok tt s1
    ∧ journal s1 = [mkWrite "client:root" "card" (FLink "c1")]
    ∧ _matchFieldPayloads s1
      = [mkMatchPayload (JStr "PlainCard$normalization.graphql") "c1" card (JStr "Plain")
                        (∅ : Variables)].
Proof.
  intros s card.
  destruct (traverse_selection _ _ _ _ _ _ _ s) as [[] s1|e s1] eqn:Hrun;
    [|by vm_compute in Hrun].
  exists s1. split; [reflexivity|].
  destruct (matched_type_links_record (Sample.externals true) (∅ : Variables) false
              (Operation "Q" []) (mkField None "card" None None)
              {[ "Plain" := mkMatch "plain" "PlainCard" ]} "client:root"
              (JObj [("card", card)]) card (JStr "Plain") Sample.root_record s s1)
    as (storageKey & Hkey & _ & Hjournal & Hmatch & _);
    [vm_compute; reflexivity | reflexivity | discriminate | reflexivity
    | eexists; vm_compute; reflexivity | exact Hrun |].
  injection Hkey as <-.
  split; [exact Hjournal | exact Hmatch].
Defined.

(** X25. A field whose property read [data[responseKey]] gives null or
    undefined is not traversed, whatever its kind.  The read gives
    undefined when the data has no such property, neither its own nor
    inherited; the value is then left unset unless stripped nulls are
    handled.  Otherwise null is stored under the storage key.  Only a
    development build says so, and only when the data has no own
    property of that name, under a parent that is not a linked field of
    abstract type.  When the storage key cannot be resolved, the
    exception of the import ends the call before anything is written. *)
Theorem null_or_absent_field E vars hsn parent selection f record data r s :
  (selection = ScalarField f ∨ (∃ ct pl sels, selection = LinkedField f ct pl sels)
   ∨ ∃ m, selection = MatchField f m) →
  is_object data = true →
  _recordSource s !! record = Some r →
  (∀ v, js_get data (str_or (alias f) (name f)) = Some v → v = JNull) →
  let responseKey := str_or (alias f) (name f) in
  let undefined := bool_decide (js_get data responseKey = None) in
  match getStorageKey E selection vars with
  | Thrown message =>
      traverse_selection E vars hsn parent record data selection s
      = Throw (ErrImported message) s
  | Returned storageKey =>
      traverse_selection E vars hsn parent record data selection s =
      Ok tt (if undefined && negb hsn then s
             else
               let s' := if DEV E && negb (has_own data responseKey)
                            && negb (abstract_link parent)
                         then with_diagnostics
                                (diagnostics s ++
                                 [WarnMissingField responseKey storageKey]) s
                         else s in
               with_journal (mkWrite record storageKey (FScalar JNull) :: journal s')
                 (with_source (<[record := RelayModernRecord.setValue r storageKey JNull]>
                                 (_recordSource s')) s'))
  end.
Proof.
  intros Hkind Hobj Hr Hnull. cbv zeta.
  destruct (getStorageKey E selection vars) as [storageKey|message] eqn:Hkey;
    [|apply (field_key_throws _ _ _ _ _ f); auto].
  assert (Hmissing : ∀ fieldValue,
             fieldValue = js_get data (str_or (alias f) (name f)) →
             write_missing E hsn parent record data (str_or (alias f) (name f))
                           storageKey fieldValue s
             = Ok tt
                 (if bool_decide (js_get data (str_or (alias f) (name f)) = None) && negb hsn
                  then s
                  else
                    let s' :=
                      if DEV E && negb (has_own data (str_or (alias f) (name f)))
                         && negb (abstract_link parent)
                      then with_diagnostics
                             (diagnostics s ++
                              [WarnMissingField (str_or (alias f) (name f)) storageKey]) s
                      else s in
                    with_journal
                      (mkWrite record storageKey (FScalar JNull) :: journal s')
                      (with_source
                         (<[record := RelayModernRecord.setValue r storageKey JNull]>
                            (_recordSource s')) s'))).
  { intros fieldValue ->. rewrite write_missing_run.
    destruct (bool_decide (js_get data _ = None) && negb hsn); [reflexivity|].
    unfold noted.
    destruct (abstract_link parent), (DEV E), (has_own data _); cbn;
      erewrite setValue_run by (cbn; exact Hr); reflexivity. }
  etrans; [|exact (Hmissing _ eq_refl)].
  destruct Hkind as [-> | [(ct & pl & sels & ->) | (m & ->)]]; cbn [traverse_selection];
    unfold _normalizeField, _normalizeMatchField, responseKey_of;
    rewrite Hobj; rewrite (bind_Ok _ _ _ _ _ (invariant_true _ _)); cbv zeta;
    rewrite (bind_Ok _ _ _ _ _ (imported_run _ _ _ Hkey));
    (destruct (js_get data _) as [v|] eqn:Hv; [rewrite (Hnull v eq_refl)|]; reflexivity).
Qed.

Lemma null_or_absent_field_witness :
  ∃ s1,
    traverse_selection (Sample.externals true) (∅ : Variables) false (Operation "Q" [])
      "client:root" (JObj [("me", JNull)])
      (Sample.linked "me" (Some "User") false [Sample.scalar "name"])
      (constructor {[ "client:root" := Sample.root_record ]}) = Ok tt s1
    ∧ stored (_recordSource s1) "client:root" "me" = Some (FScalar JNull)
    ∧ _path s1 = [] ∧ diagnostics s1 = [].
Proof.
  eexists. split; [|split; [|split]].
  - etrans.
    + apply (null_or_absent_field (Sample.externals true) (∅ : Variables) false
               (Operation "Q" [])
               (Sample.linked "me" (Some "User") false [Sample.scalar "name"])
               (mkField None "me" None None) "client:root"
               (JObj [("me", JNull)]) Sample.root_record);
        [right; left; by eexists _, _, _ | reflexivity | vm_compute; reflexivity
        | by intros v [= <-]].
    + reflexivity.
  - vm_compute. reflexivity.
  - reflexivity.
  - reflexivity.
Defined.
